(** * sv6 / ScaleFS on-disk file-system core: a shallow embedding

    The development follows [kernel/fs.cc] (block allocator, inode block
    map, read/write of inode data, truncation, directories, path lexer)
    and [include/scalefs.hh] (transactions and the journal).

    Conventions.
    - A [u32] is a [Z] in [0, 2^32); every assignment to a [u32] variable
      is written with its wrap-around ([u32]).  An [int] result obtained
      from a [u32] is written with [to_int].
    - A [char] array (a disk block, a user buffer) is a function from the
      byte index to the byte; only the indices inside the array matter.
    - An [sref<inode>] is the key [(dev, inum)] of the inode object in the
      store [w_ino]; the key is constant for the lifetime of the object.
    - A [transaction*] argument is either [NULL] or points to the one
      transaction object of the state, [w_trans].
    - The kernel is built with [EXCEPTIONS]: [throw_out_of_blocks] raises
      the C++ exception, which is the outcome [Throw]; [panic] and a failed
      [assert] are the outcome [Panic]. *)

From Stdlib Require Import ZArith List Bool Lia String Ascii Sorted Permutation.
Import ListNotations.
Local Open Scope Z_scope.

(** ** Machine integers and byte arrays *)

Definition u32 (x : Z) : Z := x mod 2 ^ 32.
Definition to_int (x : Z) : Z := if x <? 2 ^ 31 then x else x - 2 ^ 32.
(** Assignment to a [short]. *)
Definition s16 (x : Z) : Z :=
  let y := x mod 2 ^ 16 in if y <? 2 ^ 15 then y else y - 2 ^ 16.
Definition is_u32 (x : Z) : Prop := 0 <= x < 2 ^ 32.

Definition block := Z -> Z.
Definition zero_block : block := fun _ => 0.

(** The four bytes at [off], read as a little-endian [u32]. *)
Definition le32 (b : block) (off : Z) : Z :=
  (b off) mod 256
  + 2 ^ 8 * ((b (off + 1)) mod 256)
  + 2 ^ 16 * ((b (off + 2)) mod 256)
  + 2 ^ 24 * ((b (off + 3)) mod 256).

(** [((u32 * )data)[i]]. *)
Definition u32_at (b : block) (i : Z) : Z := le32 b (4 * i).

(** [((u32 * )data)[i] = v]. *)
Definition u32_put (b : block) (i v : Z) : block :=
  fun k =>
    if k =? 4 * i then v mod 256
    else if k =? 4 * i + 1 then (v / 2 ^ 8) mod 256
    else if k =? 4 * i + 2 then (v / 2 ^ 16) mod 256
    else if k =? 4 * i + 3 then (v / 2 ^ 24) mod 256
    else b k.

(** [memmove(dst + at, src + from, m)]. *)
Definition memmove (dst : block) (at_ : Z) (src : block) (from m : Z) : block :=
  fun k => if (at_ <=? k) && (k <? at_ + m) then src (from + (k - at_)) else dst k.

(** ** Inodes, directory index, transactions *)

Inductive itype := T_FREE | T_DIR | T_FILE | T_DEV.

Definition itype_eqb (a b : itype) : bool :=
  match a, b with
  | T_FREE, T_FREE | T_DIR, T_DIR | T_FILE, T_FILE | T_DEV, T_DEV => true
  | _, _ => false
  end.

(** On-disk inode, [struct dinode]. *)
Record dinode := mk_dinode {
  d_type : itype; d_major : Z; d_minor : Z; d_nlink : Z;
  d_size : Z; d_gen : Z; d_addrs : Z -> Z }.

(** Modelled from the spec: [dir_entry_info] of the absent [dirns.hh], the
    pair (inum, offset) of the directory index; the default-constructed
    value has both fields zero. *)
Record dir_entry_info := mk_de_info { inum_ : Z; offset_ : Z }.
Definition de_info_default : dir_entry_info := mk_de_info 0 0.

(** Modelled from the spec: [dir_entries], the in-memory hashed index
    name -> (inum, offset) of the absent [dirns.hh] ([chainhash]); keys are
    unique because [insert] refuses a key that is present. *)
Definition dir_entries := list (string * dir_entry_info).

Fixpoint dir_lookup (d : dir_entries) (name : string) : option dir_entry_info :=
  match d with
  | [] => None
  | (k, v) :: d' => if String.eqb k name then Some v else dir_lookup d' name
  end.

Definition dir_insert (d : dir_entries) (name : string) (v : dir_entry_info)
  : bool * dir_entries :=
  match dir_lookup d name with
  | Some _ => (false, d)
  | None => (true, d ++ [(name, v)])
  end.

Fixpoint dir_remove_all (d : dir_entries) (name : string) : dir_entries :=
  match d with
  | [] => []
  | (k, v) :: d' =>
      if String.eqb k name then dir_remove_all d' name
      else (k, v) :: dir_remove_all d' name
  end.

Definition dir_remove (d : dir_entries) (name : string) : bool * dir_entries :=
  match dir_lookup d name with
  | Some _ => (true, dir_remove_all d name)
  | None => (false, d)
  end.

(** In-core inode, [struct inode] of [file.hh]. *)
Record inode := mk_inode {
  i_gen : Z; i_type : itype; i_major : Z; i_minor : Z;
  i_valid : bool; i_busy : bool; i_readbusy : Z;
  i_size : Z; i_addrs : Z -> Z; i_nlink : Z; i_ref : Z;
  i_dir : option dir_entries; i_dir_offset : Z }.

Definition with_size (i : inode) (s : Z) : inode :=
  mk_inode (i_gen i) (i_type i) (i_major i) (i_minor i) (i_valid i) (i_busy i)
    (i_readbusy i) s (i_addrs i) (i_nlink i) (i_ref i) (i_dir i) (i_dir_offset i).
Definition with_addrs (i : inode) (a : Z -> Z) : inode :=
  mk_inode (i_gen i) (i_type i) (i_major i) (i_minor i) (i_valid i) (i_busy i)
    (i_readbusy i) (i_size i) a (i_nlink i) (i_ref i) (i_dir i) (i_dir_offset i).
Definition with_nlink (i : inode) (n r : Z) : inode :=
  mk_inode (i_gen i) (i_type i) (i_major i) (i_minor i) (i_valid i) (i_busy i)
    (i_readbusy i) (i_size i) (i_addrs i) n r (i_dir i) (i_dir_offset i).
Definition with_dir (i : inode) (d : option dir_entries) : inode :=
  mk_inode (i_gen i) (i_type i) (i_major i) (i_minor i) (i_valid i) (i_busy i)
    (i_readbusy i) (i_size i) (i_addrs i) (i_nlink i) (i_ref i) d (i_dir_offset i).
Definition with_dir_offset (i : inode) (o : Z) : inode :=
  mk_inode (i_gen i) (i_type i) (i_major i) (i_minor i) (i_valid i) (i_busy i)
    (i_readbusy i) (i_size i) (i_addrs i) (i_nlink i) (i_ref i) (i_dir i) o.

(** [transaction_diskblock] of [scalefs.hh]. *)
Record transaction_diskblock := mk_tdb {
  blocknum : Z; blockdata : block; timestamp : Z }.

(** [class transaction] of [scalefs.hh]: [timestamp_], [blocks] and
    [new_files] are its members there; [allocated_blocks] and [free_blocks]
    are the intent lists of the two methods below. *)
Record transaction := mk_trans {
  timestamp_ : Z;
  blocks : list transaction_diskblock;
  new_files : list Z;
  allocated_blocks : list Z;
  free_blocks : list Z }.

Definition add_block (t : transaction) (b : transaction_diskblock) : transaction :=
  mk_trans (timestamp_ t) (blocks t ++ [b]) (new_files t)
    (allocated_blocks t) (free_blocks t).

Definition log_new_file (t : transaction) (inum : Z) : transaction :=
  mk_trans (timestamp_ t) (blocks t) (new_files t ++ [inum])
    (allocated_blocks t) (free_blocks t).

(** Modelled from the spec: [add_allocated_block(bno)] and
    [add_free_block(bno)] record the intents for the reconciliation of the
    bitmap after the commit; [fs.cc] calls them, the header under
    [include/] does not declare them. *)
Definition add_allocated_block (t : transaction) (b : Z) : transaction :=
  mk_trans (timestamp_ t) (blocks t) (new_files t)
    (allocated_blocks t ++ [b]) (free_blocks t).

Definition add_free_block (t : transaction) (b : Z) : transaction :=
  mk_trans (timestamp_ t) (blocks t) (new_files t)
    (allocated_blocks t) (free_blocks t ++ [b]).

Inductive transp := NULL | TRANS.

(** ** The state *)

Record superblock := mk_sb { sb_size : Z; sb_ninodes : Z; sb_nblocks : Z }.

Definition key := (Z * Z)%type.
Definition key_eqb (a b : key) : bool := (fst a =? fst b) && (snd a =? snd b).
Definition upd {A : Type} (f : key -> A) (k : key) (v : A) : key -> A :=
  fun k' => if key_eqb k k' then v else f k'.
Definition updz {A : Type} (f : Z -> A) (k : Z) (v : A) : Z -> A :=
  fun k' => if k =? k' then v else f k'.

(** [w_buf] is the buffer cache as [buf::get] presents it (the cached copy
    of a block, which is the disk's when the block was never written);
    [w_dirty] its dirty bits; [w_io] the write-backs issued to the disk,
    oldest first; [w_free] the in-memory free-bit-vector of device 1
    ([true] is free), indexed by block number. *)
Record world := mk_world {
  w_sb : superblock;
  w_ino : key -> inode;
  w_buf : key -> block;
  w_dirty : key -> bool;
  w_io : list (key * block);
  w_free : list bool;
  w_trans : transaction }.

Definition set_ino (w : world) (k : key) (i : inode) : world :=
  mk_world (w_sb w) (upd (w_ino w) k i) (w_buf w) (w_dirty w) (w_io w)
    (w_free w) (w_trans w).
Definition set_buf (w : world) (k : key) (b : block) : world :=
  mk_world (w_sb w) (w_ino w) (upd (w_buf w) k b) (upd (w_dirty w) k true)
    (w_io w) (w_free w) (w_trans w).
Definition set_clean (w : world) (k : key) : world :=
  mk_world (w_sb w) (w_ino w) (w_buf w) (upd (w_dirty w) k false)
    (w_io w ++ [(k, w_buf w k)]) (w_free w) (w_trans w).
Definition set_free (w : world) (f : list bool) : world :=
  mk_world (w_sb w) (w_ino w) (w_buf w) (w_dirty w) (w_io w) f (w_trans w).
Definition set_trans (w : world) (t : transaction) : world :=
  mk_world (w_sb w) (w_ino w) (w_buf w) (w_dirty w) (w_io w) (w_free w) t.

(** ** Outcomes and the monad of kernel code *)

Inductive outcome (A : Type) :=
| Ret (a : A) (w : world)
| Throw (w : world)
| Panic
| Timeout.
Arguments Ret {A} a w.
Arguments Throw {A} w.
Arguments Panic {A}.
Arguments Timeout {A}.

Definition M (A : Type) := world -> outcome A.

Definition ret {A} (a : A) : M A := fun w => Ret a w.
Definition bind {A B} (m : M A) (k : A -> M B) : M B :=
  fun w => match m w with
           | Ret a w' => k a w'
           | Throw w' => Throw w'
           | Panic => Panic
           | Timeout => Timeout
           end.
Definition throw {A} : M A := fun w => Throw w.
Definition panic {A} : M A := fun _ => Panic.
Definition get : M world := fun w => Ret w w.
Definition modify (f : world -> world) : M unit := fun w => Ret tt (f w).
Definition when (c : bool) (m : M unit) : M unit := if c then m else ret tt.
Definition is_trans (t : transp) : bool :=
  match t with NULL => false | TRANS => true end.

Notation "x <- m ;; k" := (bind m (fun x => k))
  (at level 61, m at next level, right associativity).
Notation "m ;; k" := (bind m (fun _ => k))
  (at level 61, right associativity).

Definition catch {A} (m : M A) (h : M A) : M A :=
  fun w => match m w with
           | Throw w' => h w'
           | o => o
           end.
Definition timeout {A} : M A := fun _ => Timeout.

(** ** Constants of the absent [fs.h] *)

(** [BSIZE], [NDIRECT], [NINDIRECT], [DIRSIZ], [IPB] and the layout of
    [struct dinode] are declared in [fs.h], which is not among the sources;
    they are parameters.  The constants are integers and the comparisons
    against them are exact.  [inode_end n] is the first block after the
    inode table of a file system with [n] inodes, [the_root] the key of the
    root inode, [dinode_get b k] and [dinode_put b k d] read and write the
    [k]-th [dinode] of an inode-table block. *)
Class fs_params := {
  BSIZE : Z;
  NDIRECT : Z;
  NINDIRECT : Z;
  DIRSIZ : Z;
  IPB : Z;
  inode_end : Z -> Z;
  the_root : key;
  dinode_get : block -> Z -> dinode;
  dinode_put : block -> Z -> dinode -> block }.

Section FS.
Context {P : fs_params}.

Definition MAXFILE : Z := NDIRECT + NINDIRECT + NINDIRECT * NINDIRECT.
Definition BPB : Z := BSIZE * 8.

(** Modelled from the spec: [IBLOCK(inum) = 2 + inum/IPB] and
    [BBLOCK(bno, ninodes) = inode_end + bno/BPB], macros of [fs.h]. *)
Definition IBLOCK (inum : Z) : Z := 2 + inum / IPB.
Definition BBLOCK (b ninodes : Z) : Z := inode_end ninodes + b / BPB.

(** [BLOCKROUNDUP(off)], the macro at the head of [fs.cc]: the number of
    blocks that [off] bytes take, [ceil(off / BSIZE)]. *)
Definition BLOCKROUNDUP (off : Z) : Z :=
  if negb (off mod BSIZE =? 0) then off / BSIZE + 1 else off / BSIZE.

(** ** Buffer cache *)

(** Modelled from the spec: the buffer cache of the absent [buf.hh], a
    pinning read/write cache over the block device.  [buf_data] is what a
    read or write guard of [buf::get(dev, bno)] shows, [buf_store] a
    modification under the write guard (it dirties the buffer), [writeback]
    writes the buffer to the disk and cleans it ([writeback_async] is the
    same without the wait), [add_to_transaction] hands a snapshot of the
    payload to [transaction::add_block].  A [NULL] transaction is
    dereferenced there, which halts the kernel. *)
Definition buf_data (k : key) : M block := fun w => Ret (w_buf w k) w.
Definition buf_store (k : key) (b : block) : M unit := modify (fun w => set_buf w k b).
Definition buf_dirty (k : key) : M bool := fun w => Ret (w_dirty w k) w.
Definition writeback (k : key) : M unit := modify (fun w => set_clean w k).
Definition writeback_async (k : key) : M unit := writeback k.
Definition add_to_transaction (k : key) (trans : transp) : M unit :=
  match trans with
  | NULL => panic
  | TRANS =>
      modify (fun w =>
        set_trans w (add_block (w_trans w)
          (mk_tdb (snd k) (w_buf w k) (timestamp_ (w_trans w)))))
  end.

Definition rd_u32 (k : key) (i : Z) : M Z := fun w => Ret (u32_at (w_buf w k) i) w.
Definition wr_u32 (k : key) (i v : Z) : M unit :=
  fun w => Ret tt (set_buf w k (u32_put (w_buf w k) i v)).

(** [bzero(dev, bno, writeback)]. *)
Definition bzero (dev bno : Z) (wb : bool) : M unit :=
  buf_store (dev, bno) zero_block ;;
  when wb (writeback_async (dev, bno)).

(** ** Block allocator *)

Fixpoint first_free (v : list bool) : option nat :=
  match v with
  | [] => None
  | true :: _ => Some O
  | false :: v' => option_map S (first_free v')
  end.

Fixpoint set_bit (v : list bool) (i : nat) (x : bool) : list bool :=
  match v, i with
  | [], _ => []
  | _ :: v', O => x :: v'
  | y :: v', S i' => y :: set_bit v' i' x
  end.

Definition is_free (v : list bool) (b : Z) : bool :=
  (0 <=? b) && nth (Z.to_nat b) v false.

(** Modelled from the spec: [rootfs_interface->alloc_block()] removes a free
    bit from the in-memory bitmap and returns its block number; when the
    bitmap is exhausted the result is not below [sb_root.size].
    [rootfs_interface->free_block(b)] marks the block free. *)
Definition alloc_block : M Z :=
  fun w => match first_free (w_free w) with
           | Some i => Ret (Z.of_nat i) (set_free w (set_bit (w_free w) i false))
           | None => Ret (sb_size (w_sb w)) w
           end.
Definition free_block (b : Z) : M unit :=
  modify (fun w => set_free w (set_bit (w_free w) (Z.to_nat b) true)).

Definition balloc (dev : Z) (trans : transp) (zero_on_alloc : bool) : M Z :=
  if dev =? 1 then
    b <- alloc_block ;;
    w <- get ;;
    if b <? sb_size (w_sb w) then
      when (is_trans trans)
        (modify (fun w => set_trans w (add_allocated_block (w_trans w) b))) ;;
      when zero_on_alloc (bzero dev b false) ;;
      ret (u32 b)
    else throw
  else throw.

Definition bfree (dev x : Z) (trans : transp) (delayed_free : bool) : M unit :=
  let b := u32 x in
  if dev =? 1 then
    when (negb delayed_free) (free_block b) ;;
    when (is_trans trans)
      (modify (fun w => set_trans w (add_free_block (w_trans w) b)))
  else ret tt.

(** ** Inode fields *)

Definition rd (ip : key) : M inode := fun w => Ret (w_ino w ip) w.
Definition set_addr (ip : key) (k v : Z) : M unit :=
  modify (fun w => set_ino w ip
            (with_addrs (w_ino w ip) (updz (i_addrs (w_ino w ip)) k v))).
Definition set_size (ip : key) (s : Z) : M unit :=
  modify (fun w => set_ino w ip (with_size (w_ino w ip) s)).

(** ** bmap *)

(** [if (ip->addrs[k] == 0) ip->addrs[k] = balloc(ip->dev, trans, z);]
    followed by a read of [ip->addrs[k]]. *)
Definition addr_or_alloc (ip : key) (k : Z) (trans : transp) (z : bool) : M Z :=
  i <- rd ip ;;
  (if i_addrs i k =? 0
   then b <- balloc (fst ip) trans z ;; set_addr ip k b
   else ret tt) ;;
  i <- rd ip ;;
  ret (i_addrs i k).

(** [if (ap[k] == 0) { ap[k] = balloc(dev, trans, z); if (trans)
    bp->add_to_transaction(trans); }] followed by a read of [ap[k]], where
    [ap] is the payload of the buffer [bp] seen as an array of [u32]. *)
Definition entry_or_alloc (bp : key) (k : Z) (trans : transp) (z : bool) : M Z :=
  e <- rd_u32 bp k ;;
  (if e =? 0
   then b <- balloc (fst bp) trans z ;;
        wr_u32 bp k b ;;
        when (is_trans trans) (add_to_transaction bp trans)
   else ret tt) ;;
  rd_u32 bp k.

Definition bmap (ip : key) (bn : Z) (trans : transp) (zero_on_alloc : bool) : M Z :=
  if bn <? NDIRECT then addr_or_alloc ip bn trans zero_on_alloc
  else
    let bn := u32 (bn - NDIRECT) in
    if bn <? NINDIRECT then
      ind <- addr_or_alloc ip NDIRECT trans true ;;
      entry_or_alloc (fst ip, ind) bn trans zero_on_alloc
    else
      let bn := u32 (bn - NINDIRECT) in
      if bn >=? NINDIRECT * NINDIRECT then panic
      else
        dbl <- addr_or_alloc ip (NDIRECT + 1) trans true ;;
        snd_level <- entry_or_alloc (fst ip, dbl) (bn / NINDIRECT) trans true ;;
        entry_or_alloc (fst ip, snd_level) (bn mod NINDIRECT) trans zero_on_alloc.

(** ** readi, writei, update_size *)

(** The body of the loop of [readi]: the number [m] of bytes moved and the
    destination buffer after the [memmove]; [dpos] is the distance of the
    moving [dst] pointer from the start of the destination buffer. *)
Definition readi_round (ip : key) (dst : block) (dpos tot off n : Z)
  : M (Z * block) :=
  b <- catch (bmap ip (off / BSIZE) NULL true) panic ;;
  let m := Z.min (u32 (n - tot)) (u32 (BSIZE - off mod BSIZE)) in
  data <- buf_data (fst ip, b) ;;
  ret (m, memmove dst dpos data (off mod BSIZE) m).

(** The loop, one round per unit of fuel. *)
Fixpoint readi_loop (fuel : nat) (ip : key) (dst : block) (dpos tot off n : Z)
  : M block :=
  if tot <? n then
    match fuel with
    | O => timeout
    | S fuel' =>
        r <- readi_round ip dst dpos tot off n ;;
        let '(m, dst') := r in
        readi_loop fuel' ip dst' (dpos + m) (u32 (tot + m)) (u32 (off + m)) n
    end
  else ret dst.

Definition readi (ip : key) (dst : block) (off n : Z) : M (Z * block) :=
  i <- rd ip ;;
  if itype_eqb (i_type i) T_DEV then ret (-1, dst)
  else if (off >? i_size i) || (u32 (off + n) <? off) then ret (-1, dst)
  else
    let n := if u32 (off + n) >? i_size i then u32 (i_size i - off) else n in
    dst' <- readi_loop (Z.to_nat n) ip dst 0 0 off n ;;
    ret (to_int n, dst').

(** The body of the loop of [writei]: [None] when [out_of_blocks] is caught
    (the loop is left by [break]), the number [m] of bytes moved otherwise;
    [spos] is the distance of the moving [src] pointer from the start of
    the source buffer. *)
Definition writei_round (ip : key) (src : block) (spos tot off n : Z)
  (trans : transp) (wb : bool) : M (option Z) :=
  let m := Z.min (u32 (n - tot)) (u32 (BSIZE - off mod BSIZE)) in
  let skip_disk_read := (off mod BSIZE =? 0) && (m =? BSIZE) in
  r <- catch (blocknum <- bmap ip (off / BSIZE) trans (negb skip_disk_read) ;;
              ret (Some blocknum))
             (ret None) ;;
  match r with
  | None => ret None
  | Some blocknum =>
      let bp := (fst ip, blocknum) in
      data <- buf_data bp ;;
      buf_store bp (memmove data (off mod BSIZE) src spos m) ;;
      when (negb wb && is_trans trans) (add_to_transaction bp trans) ;;
      when wb (writeback_async bp) ;;
      ret (Some m)
  end.

(** The loop, one round per unit of fuel; [tot] is the bit pattern of the
    [int] counter and the result is [tot] at the [return]. *)
Fixpoint writei_loop (fuel : nat) (ip : key) (src : block) (spos tot off n : Z)
  (trans : transp) (wb : bool) : M Z :=
  if tot <? n then
    match fuel with
    | O => timeout
    | S fuel' =>
        r <- writei_round ip src spos tot off n trans wb ;;
        match r with
        | None => ret (if tot =? 0 then u32 (-1) else tot)
        | Some m =>
            writei_loop fuel' ip src (spos + m) (u32 (tot + m)) (u32 (off + m)) n
              trans wb
        end
    end
  else ret tot.

Definition writei (ip : key) (src : block) (off n : Z) (trans : transp)
  (wb : bool) : M Z :=
  i <- rd ip ;;
  if itype_eqb (i_type i) T_DEV then ret (-1)
  else if u32 (off + n) <? off then ret (-1)
  else
    let n := if u32 (off + n) >? MAXFILE * BSIZE
             then u32 (MAXFILE * BSIZE - off) else n in
    tot <- writei_loop (Z.to_nat n) ip src 0 0 off n trans wb ;;
    ret (to_int tot).

Definition iupdate (ip : key) (trans : transp) : M unit :=
  i <- rd ip ;;
  let bp := (fst ip, IBLOCK (snd ip)) in
  data <- buf_data bp ;;
  buf_store bp (dinode_put data (snd ip mod IPB)
                  (mk_dinode (i_type i) (i_major i) (i_minor i) (i_nlink i)
                     (i_size i) (i_gen i) (i_addrs i))) ;;
  when (is_trans trans) (add_to_transaction bp trans).

Definition update_size (ip : key) (size : Z) (trans : transp) : M unit :=
  set_size ip size ;;
  iupdate ip trans.

(** ** itrunc *)

Inductive stage := DIRECT_BLOCKS | INDIRECT_BLOCKS | DBL_INDIRECT_BLOCKS.

(** [for (u32 i = start; i < NDIRECT; i++) { if (!ip->addrs[i]) break;
    bfree(ip->dev, ip->addrs[i], trans, true); ip->addrs[i] = 0; }];
    [count] is the number of indices left below the bound. *)
Fixpoint trunc_direct (count : nat) (ip : key) (i : Z) (trans : transp) : M unit :=
  match count with
  | O => ret tt
  | S count' =>
      ino <- rd ip ;;
      if i_addrs ino i =? 0 then ret tt
      else
        bfree (fst ip) (i_addrs ino i) trans true ;;
        set_addr ip i 0 ;;
        trunc_direct count' ip (i + 1) trans
  end.

(** The same loop over the [u32] entries [ap[i]] of the buffer [bp]. *)
Fixpoint trunc_entries (count : nat) (bp : key) (i : Z) (trans : transp) : M unit :=
  match count with
  | O => ret tt
  | S count' =>
      e <- rd_u32 bp i ;;
      if e =? 0 then ret tt
      else
        bfree (fst bp) e trans true ;;
        wr_u32 bp i 0 ;;
        trunc_entries count' bp (i + 1) trans
  end.

(** [case INDIRECT_BLOCKS]; the result is [false] when the stage leaves the
    [switch] by [break] and [true] when it falls through. *)
Definition trunc_indirect (ip : key) (start_index : Z) (trans : transp) : M bool :=
  ino <- rd ip ;;
  if i_addrs ino NDIRECT =? 0 then ret false
  else
    let bp := (fst ip, i_addrs ino NDIRECT) in
    trunc_entries (Z.to_nat (NINDIRECT - start_index)) bp start_index trans ;;
    when (negb (start_index =? 0)) (add_to_transaction bp trans) ;;
    when (start_index =? 0)
      (ino <- rd ip ;;
       bfree (fst ip) (i_addrs ino NDIRECT) trans true ;;
       set_addr ip NDIRECT 0) ;;
    ret true.

(** The outer loop of [case DBL_INDIRECT_BLOCKS] over [ap1[i]]. *)
Fixpoint trunc_dbl_loop (count : nat) (ip bp1 : key) (i begin : Z)
  (trans : transp) : M unit :=
  match count with
  | O => ret tt
  | S count' =>
      e <- rd_u32 bp1 i ;;
      if e =? 0 then ret tt
      else
        let bp2 := (fst ip, e) in
        trunc_entries (Z.to_nat (NINDIRECT - begin mod NINDIRECT)) bp2
          (begin mod NINDIRECT) trans ;;
        e0 <- rd_u32 bp2 0 ;;
        when (e0 =? 0) (add_to_transaction bp2 trans) ;;
        when (begin mod NINDIRECT =? 0)
          (e <- rd_u32 bp1 i ;;
           bfree (fst ip) e trans true ;;
           wr_u32 bp1 i 0) ;;
        trunc_dbl_loop count' ip bp1 (i + 1) 0 trans
  end.

Definition trunc_dbl (ip : key) (start_index : Z) (trans : transp) : M unit :=
  ino <- rd ip ;;
  if i_addrs ino (NDIRECT + 1) =? 0 then ret tt
  else
    let bp1 := (fst ip, i_addrs ino (NDIRECT + 1)) in
    trunc_dbl_loop (Z.to_nat (NINDIRECT - start_index / NINDIRECT)) ip bp1
      (start_index / NINDIRECT) start_index trans ;;
    when (negb (start_index =? 0)) (add_to_transaction bp1 trans) ;;
    when (start_index =? 0)
      (ino <- rd ip ;;
       bfree (fst ip) (i_addrs ino (NDIRECT + 1)) trans true ;;
       set_addr ip (NDIRECT + 1) 0).

(** The [switch] with its fall-through. *)
Definition itrunc_switch (ip : key) (start_stage : stage) (start_index : Z)
  (trans : transp) : M unit :=
  match start_stage with
  | DIRECT_BLOCKS =>
      trunc_direct (Z.to_nat (NDIRECT - start_index)) ip start_index trans ;;
      go <- trunc_indirect ip 0 trans ;;
      if go then trunc_dbl ip 0 trans else ret tt
  | INDIRECT_BLOCKS =>
      go <- trunc_indirect ip start_index trans ;;
      if go then trunc_dbl ip 0 trans else ret tt
  | DBL_INDIRECT_BLOCKS => trunc_dbl ip start_index trans
  end.

Definition addrs_all_zero (a : Z -> Z) : bool :=
  forallb (fun i => a (Z.of_nat i) =? 0) (seq 0 (Z.to_nat (NDIRECT + 2))).

Definition itrunc (ip : key) (offset : Z) (trans : transp) : M unit :=
  ino <- rd ip ;;
  if (i_size ino <=? offset) || (offset >=? MAXFILE * BSIZE) then ret tt
  else
    let bn := BLOCKROUNDUP offset in
    let '(start_stage, start_index) :=
      if bn <? NDIRECT then (DIRECT_BLOCKS, bn)
      else if bn <? NDIRECT + NINDIRECT then (INDIRECT_BLOCKS, u32 (bn - NDIRECT))
      else if bn <? NDIRECT + NINDIRECT + NINDIRECT * NINDIRECT
           then (DBL_INDIRECT_BLOCKS, u32 (bn - NDIRECT - NINDIRECT))
           else (DIRECT_BLOCKS, 0) in
    itrunc_switch ip start_stage start_index trans ;;
    ino <- rd ip ;;
    if (offset =? 0) && negb (addrs_all_zero (i_addrs ino)) then panic
    else set_size ip offset.

(** ** Inode cache *)

(** An object of the store whose [valid] flag is unset stands for an inode
    that is not in the hash table [ins].  [i_ref] counts the [inc()] and
    [dec()] calls of this file; the references of the [sref] handles are
    not counted. *)
Definition iget (dev inum : Z) : M key :=
  let ip := (dev, inum) in
  ino <- rd ip ;;
  if i_valid ino then ret ip
  else
    data <- buf_data (dev, IBLOCK inum) ;;
    let d := dinode_get data (inum mod IPB) in
    modify (fun w => set_ino w ip
      (mk_inode (d_gen d) (d_type d) (d_major d) (d_minor d) true false 0
         (d_size d) (d_addrs d) (d_nlink d)
         ((if d_nlink d >? 0 then 1 else 0) + 1) None 0)) ;;
    ret ip.

(** [inode::link] and [inode::unlink]. *)
Definition inode_link (ip : key) : M unit :=
  modify (fun w =>
    let i := w_ino w ip in
    let n := s16 (i_nlink i + 1) in
    set_ino w ip (with_nlink i n (if n =? 1 then i_ref i + 1 else i_ref i))).
Definition inode_unlink (ip : key) : M unit :=
  modify (fun w =>
    let i := w_ino w ip in
    let n := s16 (i_nlink i - 1) in
    set_ino w ip (with_nlink i n (if n =? 0 then i_ref i - 1 else i_ref i))).

(** ** Directories *)

Fixpoint take_str (n : nat) (s : string) : string :=
  match n, s with
  | S n', String c s' => String c (take_str n' s')
  | _, _ => EmptyString
  end.

(** Modelled from the spec: [strbuf<DIRSIZ>(name)] of the absent
    [cpputil.hh], the name as a buffer of [DIRSIZ] bytes holds it. *)
Definition strbuf (name : string) : string := take_str (Z.to_nat DIRSIZ) name.

(** Modelled from the spec: [struct dirent] is the packed record
    [{inum: u32, name: char[DIRSIZ]}]. *)
Definition DIRENT_SIZE : Z := 4 + DIRSIZ.

Fixpoint char_at (s : string) (k : nat) : Z :=
  match s, k with
  | EmptyString, _ => 0
  | String c _, O => Z.of_N (N_of_ascii c)
  | String _ s', S k' => char_at s' k'
  end.

(** The name of at most [n] bytes stored at [off], up to its first NUL. *)
Fixpoint cstr (b : block) (off : Z) (n : nat) : string :=
  match n with
  | O => EmptyString
  | S n' =>
      let c := (b off) mod 256 in
      if c =? 0 then EmptyString
      else String (ascii_of_N (Z.to_N c)) (cstr b (off + 1) n')
  end.

(** The bytes of a [struct dirent] with [strncpy(de.name, name, DIRSIZ)]. *)
Definition dirent_bytes (inum : Z) (name : string) : block :=
  fun k =>
    if k <? 4 then (u32 inum / 2 ^ (8 * k)) mod 256
    else if k <? 4 + DIRSIZ then char_at name (Z.to_nat (k - 4))
    else 0.

Definition set_dir (dp : key) (d : option dir_entries) : M unit :=
  modify (fun w => set_ino w dp (with_dir (w_ino w dp) d)).
Definition set_dir_offset (dp : key) (o : Z) : M unit :=
  modify (fun w => set_ino w dp (with_dir_offset (w_ino w dp) o)).
(** [dp->dir], a null pointer being dereferenced when the index is absent. *)
Definition the_dir (dp : key) : M dir_entries :=
  ino <- rd dp ;;
  match i_dir ino with
  | Some d => ret d
  | None => panic
  end.

(** The inner loop of [dir_init] over the entries of one block. *)
Fixpoint dir_scan (count : nat) (data : block) (pos : Z) (d : dir_entries)
  (dir_offset : Z) : dir_entries * Z :=
  match count with
  | O => (d, dir_offset)
  | S count' =>
      let inum := le32 data pos in
      let d' := if inum =? 0 then d
                else snd (dir_insert d (strbuf (cstr data (pos + 4) (Z.to_nat DIRSIZ)))
                            (mk_de_info inum dir_offset)) in
      dir_scan count' data (pos + DIRENT_SIZE) d' (u32 (dir_offset + DIRENT_SIZE))
  end.

Fixpoint dir_init_loop (fuel : nat) (dp : key) (off dir_offset : Z) : M Z :=
  ino <- rd dp ;;
  if off <? i_size ino then
    match fuel with
    | O => timeout
    | S fuel' =>
        if negb (dir_offset =? off) then panic
        else
          b <- catch (bmap dp (off / BSIZE) NULL true) panic ;;
          data <- buf_data (fst dp, b) ;;
          d <- the_dir dp ;;
          let '(d', dir_offset') :=
            dir_scan (Z.to_nat ((BSIZE + DIRENT_SIZE - 1) / DIRENT_SIZE))
              data 0 d dir_offset in
          set_dir dp (Some d') ;;
          dir_init_loop fuel' dp (u32 (off + BSIZE)) dir_offset'
    end
  else ret dir_offset.

Definition dir_init (dp : key) : M unit :=
  ino <- rd dp ;;
  match i_dir ino with
  | Some _ => ret tt
  | None =>
      if negb (itype_eqb (i_type ino) T_DIR) then panic
      else
        set_dir dp (Some []) ;;
        dir_offset <- dir_init_loop (Z.to_nat (i_size ino / BSIZE + 1)) dp 0 0 ;;
        set_dir_offset dp dir_offset
  end.

Definition lookup_info (d : dir_entries) (name : string) : dir_entry_info :=
  match dir_lookup d name with
  | Some v => v
  | None => de_info_default
  end.

Definition dir_flush_entry (dp : key) (name : string) (trans : transp) : M unit :=
  ino <- rd dp ;;
  match i_dir ino with
  | None => ret tt
  | Some d =>
      let de_info := lookup_info d (strbuf name) in
      let de := dirent_bytes (inum_ de_info) name in
      r <- writei dp de (offset_ de_info) DIRENT_SIZE trans false ;;
      if negb (r =? DIRENT_SIZE) then panic
      else
        ino <- rd dp ;;
        when (i_size ino <? offset_ de_info + DIRENT_SIZE)
          (set_size dp (u32 (offset_ de_info + DIRENT_SIZE))) ;;
        iupdate dp trans
  end.

Definition dirlookup (dp : key) (name : string) : M (option key) :=
  dir_init dp ;;
  d <- the_dir dp ;;
  let de_info := lookup_info d (strbuf name) in
  if inum_ de_info =? 0 then ret None
  else ip <- iget (fst dp) (inum_ de_info) ;; ret (Some ip).

(** [dirlink].  The statement [if (!dp->dir->insert(...));] ends at its
    semicolon, so the [return -1] that follows is not guarded by it; the
    statements after that [return] are never reached.  The index is
    written when [insert] has added the entry. *)
Definition dirlink (dp : key) (name : string) (inum : Z) (inc_link : bool)
  (trans : transp) : M Z :=
  dir_init dp ;;
  ino <- rd dp ;;
  let de_info := mk_de_info inum (i_dir_offset ino) in
  d <- the_dir dp ;;
  let '(inserted, d1) := dir_insert d (strbuf name) de_info in
  when inserted (set_dir dp (Some d1)) ;;
  ret (-1).

Definition dirunlink (dp : key) (name : string) (inum : Z) (dec_link : bool)
  (trans : transp) : M Z :=
  dir_init dp ;;
  d <- the_dir dp ;;
  let de_info := lookup_info d (strbuf name) in
  let '(removed, d1) := dir_remove d (strbuf name) in
  if negb removed then ret (-1)
  else
    set_dir dp (Some d1) ;;
    let de_info := mk_de_info 0 (offset_ de_info) in
    let '(inserted, d2) := dir_insert d1 (strbuf name) de_info in
    if negb inserted then ret (-1)
    else
      set_dir dp (Some d2) ;;
      (if negb (String.eqb (strbuf name) (strbuf ".."))
       then ip <- iget 1 inum ;;
            inode_unlink ip ;;
            when dec_link (inode_unlink dp)
       else ret tt) ;;
      dir_flush_entry dp name trans ;;
      d3 <- the_dir dp ;;
      set_dir dp (Some (snd (dir_remove d3 (strbuf name)))) ;;
      ret 0.

(** ** Paths *)

(** A path is the string before the terminating NUL of the C string; the
    [name] buffer of [DIRSIZ] bytes is the name it holds. *)
Definition is_slash (c : ascii) : bool := Ascii.eqb c "/"%char.

Fixpoint skip_slashes (s : string) : string :=
  match s with
  | String c s' => if is_slash c then skip_slashes s' else s
  | EmptyString => s
  end.

Fixpoint elem_of (s : string) : string :=
  match s with
  | String c s' => if is_slash c then EmptyString else String c (elem_of s')
  | EmptyString => EmptyString
  end.

Fixpoint after_elem (s : string) : string :=
  match s with
  | String c s' => if is_slash c then s else after_elem s'
  | EmptyString => s
  end.

(** [skipelem(&path, name)]: the result, the new [*rpath] and the new
    contents of [name]. *)
Definition skipelem (path name : string) : Z * string * string :=
  let p := skip_slashes path in
  match p with
  | EmptyString => (0, path, name)
  | String _ _ =>
      let len := Z.of_nat (String.length (elem_of p)) in
      if len >? DIRSIZ then (-1, path, name)
      else (1, skip_slashes (after_elem p), elem_of p)
  end.

Definition str_null (s : string) : bool :=
  match s with EmptyString => true | String _ _ => false end.

Fixpoint namex_loop (fuel : nat) (ip : key) (path : string) (nameiparent : Z)
  (name : string) : M (option key * string) :=
  let '(r, path', name') := skipelem path name in
  if r =? 1 then
    match fuel with
    | O => timeout
    | S fuel' =>
        ino <- rd ip ;;
        if itype_eqb (i_type ino) T_FREE then panic
        else if negb (itype_eqb (i_type ino) T_DIR) then ret (None, name')
        else if negb (nameiparent =? 0) && str_null path' then ret (Some ip, name')
        else
          next <- dirlookup ip name' ;;
          match next with
          | None => ret (None, name')
          | Some nx => namex_loop fuel' nx path' nameiparent name'
          end
    end
  else if (r =? -1) || negb (nameiparent =? 0) then ret (None, name')
  else ret (Some ip, name').

Definition namex (cwd : key) (path : string) (nameiparent : Z) (name : string)
  : M (option key * string) :=
  let ip := match path with
            | String c _ => if is_slash c then the_root else cwd
            | EmptyString => cwd
            end in
  namex_loop (String.length path) ip path nameiparent name.

Definition namei (cwd : key) (path : string) : M (option key) :=
  r <- namex cwd path 0 EmptyString ;; ret (fst r).

Definition nameiparent (cwd : key) (path name : string) : M (option key * string) :=
  namex cwd path 1 name.

(** ** On-disk bitmap *)

Fixpoint insert_sorted (x : Z) (l : list Z) : list Z :=
  match l with
  | [] => [x]
  | y :: l' => if x <=? y then x :: l else y :: insert_sorted x l'
  end.
(** [std::sort(blocks.begin(), blocks.end())]. *)
Definition sort (l : list Z) : list Z := fold_right insert_sorted [] l.

(** The body of the [do] loop for one block number; [None] is [panic]. *)
Definition flip_bit (alloc : bool) (data : block) (bno : Z) : option block :=
  let bi := bno mod BPB in
  let m := Z.shiftl 1 (bi mod 8) in
  let byte := (data (bi / 8)) mod 256 in
  if alloc then
    if negb (Z.land byte m =? 0) then None
    else Some (updz data (bi / 8) ((Z.lor byte m) mod 256))
  else
    if Z.land byte m =? 0 then None
    else Some (updz data (bi / 8) ((Z.land byte (Z.lnot m)) mod 256)).

(** The [do ... while (++bno && bno != blocks.end() && *bno <= max_bno)]
    loop: the payload after the run and the block numbers not consumed. *)
Fixpoint bitmap_run (alloc : bool) (max_bno : Z) (data : block) (bno : Z)
  (rest : list Z) : option (block * list Z) :=
  match flip_bit alloc data bno with
  | None => None
  | Some data' =>
      match rest with
      | next :: rest' =>
          if next <=? max_bno then bitmap_run alloc max_bno data' next rest'
          else Some (data', rest)
      | [] => Some (data', [])
      end
  end.

Fixpoint bitmap_groups (fuel : nat) (blocks : list Z) (trans : transp)
  (alloc : bool) : M unit :=
  match blocks with
  | [] => ret tt
  | bno :: rest =>
      match fuel with
      | O => timeout
      | S fuel' =>
          w <- get ;;
          let blocknum := u32 (BBLOCK bno (sb_ninodes (w_sb w))) in
          let bp := (1, blocknum) in
          data <- buf_data bp ;;
          let max_bno := u32 (Z.lor bno (BPB - 1)) in
          match bitmap_run alloc max_bno data bno rest with
          | None => panic
          | Some (data', rest') =>
              buf_store bp data' ;;
              add_to_transaction bp trans ;;
              bitmap_groups fuel' rest' trans alloc
          end
      end
  end.

(** The result is the vector as the caller finds it, sorted in place. *)
Definition balloc_free_on_disk (blocks : list Z) (trans : transp) (alloc : bool)
  : M (list Z) :=
  let sorted := sort blocks in
  bitmap_groups (List.length sorted) sorted trans alloc ;;
  ret sorted.

(** ** Transactions and the journal *)

Fixpoint commit_loop (bs : list transaction_diskblock) : M unit :=
  match bs with
  | [] => ret tt
  | b :: bs' =>
      let bp := (1, blocknum b) in
      d <- buf_dirty bp ;;
      when d (writeback bp) ;;
      commit_loop bs'
  end.

Definition commit_transaction (t : transaction) : M unit := commit_loop (blocks t).

Definition journal := list transaction.
Definition add_transaction (j : journal) (tr : transaction) : journal := j ++ [tr].
Fixpoint flush_loop (j : list transaction) : M unit :=
  match j with
  | [] => ret tt
  | tr :: j' => commit_transaction tr ;; flush_loop j'
  end.
Definition flush_to_disk (j : journal) : M journal := flush_loop j ;; ret [].

(** ** Inode locks *)

(** Modelled from the spec: the lock types of [ilock], whose constants are
    declared in an absent header; every type other than [WRITELOCK] locks
    for read. *)
Inductive lock_type := READLOCK | WRITELOCK.

Definition with_lock (i : inode) (busy : bool) (readbusy : Z) : inode :=
  mk_inode (i_gen i) (i_type i) (i_major i) (i_minor i) (i_valid i) busy
    readbusy (i_size i) (i_addrs i) (i_nlink i) (i_ref i) (i_dir i)
    (i_dir_offset i).

(** [ilock(ip, lock_type)] for a handle that is not null.  The state has
    one thread: a thread that goes to sleep on [ip->cv] is never woken, so
    that the call does not return, which is the outcome [Timeout].
    [readbusy] is an [int]. *)
Definition ilock (ip : key) (lt : lock_type) : M unit :=
  ino <- rd ip ;;
  (match lt with
   | WRITELOCK =>
       if i_busy ino || negb (i_readbusy ino =? 0) then timeout
       else modify (fun w => set_ino w ip
                      (with_lock (w_ino w ip) true (i_readbusy (w_ino w ip))))
   | READLOCK => if i_busy ino then timeout else ret tt
   end) ;;
  modify (fun w => set_ino w ip
            (with_lock (w_ino w ip) (i_busy (w_ino w ip))
               (to_int (u32 (i_readbusy (w_ino w ip) + 1))))) ;;
  ino <- rd ip ;;
  if negb (i_valid ino) then panic else ret tt.

(** [iunlock(ip)] for a handle that is not null. *)
Definition iunlock (ip : key) : M unit :=
  ino <- rd ip ;;
  if (i_readbusy ino =? 0) && negb (i_busy ino) then panic
  else
    modify (fun w => set_ino w ip
              (with_lock (w_ino w ip) false
                 (to_int (u32 (i_readbusy (w_ino w ip) - 1))))).

(** ** Inode allocation *)




(** ** Vocabulary of the specifications *)

(** What the code assumes of the constants: a block holds [NINDIRECT]
    block numbers and its size fits an [int]. *)
Definition params_ok : Prop :=
  0 < BSIZE < 2 ^ 31 /\ 0 < NDIRECT /\ 0 < NINDIRECT /\ 4 * NINDIRECT <= BSIZE.

(** The places of an inode's block map that hold a block number: the
    entries of [addrs], of the indirect block, of the first-level and of
    the second-level doubly-indirect blocks. *)
Inductive slot :=
| SDirect (i : Z)
| SInd
| SIndE (j : Z)
| SDbl
| SL1 (i : Z)
| SL2 (i j : Z).

Definition slot_ok (s : slot) : Prop :=
  match s with
  | SDirect i => 0 <= i < NDIRECT
  | SInd | SDbl => True
  | SIndE j | SL1 j => 0 <= j < NINDIRECT
  | SL2 i j => 0 <= i < NINDIRECT /\ 0 <= j < NINDIRECT
  end.

Definition is_leaf (s : slot) : bool :=
  match s with
  | SDirect _ | SIndE _ | SL2 _ _ => true
  | SInd | SDbl | SL1 _ => false
  end.

(** Entry [idx] of the block [blk], zero when there is no such block. *)
Definition rdent (w : world) (dev blk idx : Z) : Z :=
  if blk =? 0 then 0 else u32_at (w_buf w (dev, blk)) idx.

(** The block number a slot holds, zero when the slot is not reachable. *)
Definition val (w : world) (ip : key) (s : slot) : Z :=
  let a := i_addrs (w_ino w ip) in
  match s with
  | SDirect i => a i
  | SInd => a NDIRECT
  | SIndE j => rdent w (fst ip) (a NDIRECT) j
  | SDbl => a (NDIRECT + 1)
  | SL1 i => rdent w (fst ip) (a (NDIRECT + 1)) i
  | SL2 i j => rdent w (fst ip) (rdent w (fst ip) (a (NDIRECT + 1)) i) j
  end.

(** The slot behind [ip->addrs[k]]. *)
Inductive addr_slot : Z -> slot -> Prop :=
| AS_direct i : 0 <= i < NDIRECT -> addr_slot i (SDirect i)
| AS_ind : addr_slot NDIRECT SInd
| AS_dbl : addr_slot (NDIRECT + 1) SDbl.

(** The slot behind entry [k] of the block [blk] of the map of [ip]. *)
Inductive ent_slot (w : world) (ip : key) : Z -> Z -> slot -> Prop :=
| ES_ind j : 0 <= j < NINDIRECT -> ent_slot w ip (val w ip SInd) j (SIndE j)
| ES_l1 i : 0 <= i < NINDIRECT -> ent_slot w ip (val w ip SDbl) i (SL1 i)
| ES_l2 i j : 0 <= i < NINDIRECT -> 0 <= j < NINDIRECT ->
    ent_slot w ip (val w ip (SL1 i)) j (SL2 i j).

(** The slot of the data block with logical number [bn]. *)
Definition leaf (bn : Z) : slot :=
  if bn <? NDIRECT then SDirect bn
  else if bn - NDIRECT <? NINDIRECT then SIndE (bn - NDIRECT)
  else SL2 ((bn - NDIRECT - NINDIRECT) / NINDIRECT)
           ((bn - NDIRECT - NINDIRECT) mod NINDIRECT).

(** The byte of the file at offset [x], when its block is mapped. *)
Definition file_byte (w : world) (ip : key) (x : Z) : option Z :=
  let p := val w ip (leaf (x / BSIZE)) in
  if p =? 0 then None else Some (w_buf w (fst ip, p) (x mod BSIZE)).

(** A consistent block map: no block is referenced twice, no referenced
    block is free in the in-memory bitmap, block 0 is never free, and the
    size of the file system is a [u32]. *)
Record wf (w : world) (ip : key) : Prop := {
  wf_inj : forall s1 s2, slot_ok s1 -> slot_ok s2 ->
      val w ip s1 <> 0 -> val w ip s1 = val w ip s2 -> s1 = s2;
  wf_used : forall s, slot_ok s -> val w ip s <> 0 ->
      is_free (w_free w) (val w ip s) = false;
  wf_zero : is_free (w_free w) 0 = false;
  wf_sb : sb_size (w_sb w) <= 2 ^ 32 }.

(** [ext ip trans z w w']: [w'] extends the block map of [ip] in [w] by
    allocations made with transaction [trans] and zero-on-alloc flag [z]
    for the data blocks. *)
Record ext (ip : key) (trans : transp) (z : bool) (w w' : world) : Prop := {
  ext_val : forall s, slot_ok s -> val w ip s <> 0 -> val w' ip s = val w ip s;
  ext_fresh : forall s, slot_ok s -> val w ip s = 0 -> val w' ip s <> 0 ->
      is_free (w_free w) (val w' ip s) = true;
  ext_zero : forall s, slot_ok s -> is_leaf s = true -> z = true ->
      val w ip s = 0 -> val w' ip s <> 0 ->
      w_buf w' (fst ip, val w' ip s) = zero_block;
  ext_free : forall b, is_free (w_free w') b = true -> is_free (w_free w) b = true;
  ext_data : forall b, b <> 0 -> is_free (w_free w) b = false ->
      (forall s, slot_ok s -> is_leaf s = false -> val w ip s <> b) ->
      w_buf w' (fst ip, b) = w_buf w (fst ip, b);
  ext_ino : forall k, exists a, w_ino w' k = with_addrs (w_ino w k) a;
  ext_sb : w_sb w' = w_sb w;
  ext_trans : trans = NULL -> w_trans w' = w_trans w }.

(** Weakest-precondition reading of an outcome: [Q] for a result, [E] for
    the exception, [X] for a halt; running out of fuel is excluded. *)
Definition wp {A} (m : M A) (Q : A -> world -> Prop) (E : world -> Prop)
  (X : Prop) (w : world) : Prop :=
  match m w with
  | Ret a w' => Q a w'
  | Throw w' => E w'
  | Panic => X
  | Timeout => False
  end.

(** What one [if (x == 0) x = balloc(...)] step of [bmap] establishes for
    the slot [s0] it fills: on return, and when [balloc] throws. *)
Definition step_post (ip : key) (trans : transp) (zd : bool) (s0 : slot)
  (w : world) : Z -> world -> Prop :=
  fun r w' =>
    r = val w' ip s0 /\ r <> 0 /\ wf w' ip /\ ext ip trans zd w w' /\
    (val w ip s0 <> 0 -> w' = w) /\
    (forall s, slot_ok s -> s <> s0 -> val w' ip s = val w ip s).

Definition step_exn (ip : key) (trans : transp) (zd : bool) (s0 : slot)
  (w : world) : world -> Prop :=
  fun w' =>
    wf w' ip /\ ext ip trans zd w w' /\
    (forall s, slot_ok s -> val w' ip s = val w ip s) /\
    val w ip s0 = 0.

(** What [bmap(ip, bn, trans, z)] establishes: on return, and when
    [balloc] throws. *)
Definition bmap_post (ip : key) (trans : transp) (z : bool) (bn : Z)
  (w : world) : Z -> world -> Prop :=
  fun r w' =>
    r = val w' ip (leaf bn) /\ r <> 0 /\ wf w' ip /\ ext ip trans z w w' /\
    (val w ip (leaf bn) <> 0 -> w' = w) /\
    (forall s, slot_ok s -> is_leaf s = true -> s <> leaf bn ->
               val w' ip s = val w ip s).

Definition bmap_exn (ip : key) (trans : transp) (z : bool) (bn : Z)
  (w : world) : world -> Prop :=
  fun w' =>
    wf w' ip /\ ext ip trans z w w' /\
    (forall s, slot_ok s -> is_leaf s = true -> val w' ip s = val w ip s) /\
    val w ip (leaf bn) = 0.

(** The inodes of [w'] are those of [w] up to their [addrs] arrays. *)
Definition ino_frame (w w' : world) : Prop :=
  forall k, exists a, w_ino w' k = with_addrs (w_ino w k) a.

(** The first [tot] bytes of [src] are in the file from offset [off0] on. *)
Definition written (ip : key) (src : block) (off0 tot : Z) (w : world) : Prop :=
  forall k, 0 <= k < tot -> file_byte w ip (off0 + k) = Some (src k).

(** The invariant of the loop of [writei] started in [w0], after [tot]
    bytes. *)
Definition winv (ip : key) (src : block) (off0 : Z) (w0 : world) (tot : Z)
  (w : world) : Prop :=
  wf w ip /\ ino_frame w0 w /\
  (forall s, slot_ok s -> val w0 ip s <> 0 -> val w ip s = val w0 ip s) /\
  written ip src off0 tot w.

(** The invariant of the loop of [readi] started in [w0], after [tot]
    bytes from offset [off0]: every block read so far is mapped. *)
Definition rinv (ip : key) (off0 : Z) (w0 : world) (tot : Z) (w : world) : Prop :=
  wf w ip /\ ext ip NULL true w0 w /\
  (forall k, 0 <= k < tot -> val w ip (leaf ((off0 + k) / BSIZE)) <> 0).

(** The number of write-backs of the buffer [k] in a list of disk writes. *)
Definition count_writes (k : key) (io : list (key * block)) : nat :=
  List.length (filter (fun e => key_eqb (fst e) k) io).

(** The snapshots of block [k] that a transaction holds. *)
Definition snapshots_of (k : Z) (t : transaction) : list transaction_diskblock :=
  filter (fun b => blocknum b =? k) (blocks t).

(** The non-empty pieces of a path between its slashes; [cur] is the piece
    being read. *)
Fixpoint components_aux (s cur : string) : list string :=
  match s with
  | EmptyString => if str_null cur then [] else [cur]
  | String c s' =>
      if is_slash c
      then (if str_null cur then components_aux s' EmptyString
            else cur :: components_aux s' EmptyString)
      else components_aux s' (cur ++ String c EmptyString)
  end.
Definition components (path : string) : list string :=
  components_aux path EmptyString.

Definition too_long (c : string) : Prop := Z.of_nat (String.length c) > DIRSIZ.

(** Where [namex] starts. *)
Definition start_inode (cwd : key) (path : string) : key :=
  match path with
  | String c _ => if is_slash c then the_root else cwd
  | EmptyString => cwd
  end.

(** [namex] has not returned an inode. *)
Definition not_found (o : outcome (option key * string)) : Prop :=
  match o with
  | Ret (Some _, _) _ => False
  | _ => True
  end.

(** Bit [bi] of a bitmap block, and the bit of block [b] in the on-disk
    bitmap as the buffer cache holds it. *)
Definition dbit (data : block) (bi : Z) : bool :=
  Z.testbit ((data (bi / 8)) mod 256) (bi mod 8).
Definition bitmap_bit (w : world) (b : Z) : bool :=
  dbit (w_buf w (1, BBLOCK b (sb_ninodes (w_sb w)))) (b mod BPB).

(** The block size is a power of two (so that [bno | (BPB - 1)] is the last
    block number of the bitmap block of [bno]) and the bitmap blocks have
    [u32] numbers. *)
Definition bitmap_ok (w : world) : Prop :=
  (exists k, 0 <= k <= 29 /\ BSIZE = 2 ^ k) /\
  forall b, is_u32 b -> is_u32 (BBLOCK b (sb_ninodes (w_sb w))).

(** The flips of a run of block numbers, and the split of a sorted vector
    at the bound of a run. *)
Fixpoint flip_all (alloc : bool) (data : block) (l : list Z) : option block :=
  match l with
  | [] => Some data
  | x :: l' =>
      match flip_bit alloc data x with
      | None => None
      | Some d => flip_all alloc d l'
      end
  end.
Fixpoint take_le (mx : Z) (l : list Z) : list Z :=
  match l with
  | x :: l' => if x <=? mx then x :: take_le mx l' else []
  | [] => []
  end.
Fixpoint drop_le (mx : Z) (l : list Z) : list Z :=
  match l with
  | x :: l' => if x <=? mx then drop_le mx l' else l
  | [] => []
  end.

(** The listed blocks can be marked: none is listed twice and the bit of
    each is the opposite of [alloc]. *)
Definition markable (alloc : bool) (w : world) (l : list Z) : Prop :=
  NoDup l /\ forall b, In b l -> bitmap_bit w b = negb alloc.

(** What a successful run over [l] leaves: the bit of every listed block is
    [alloc] and no other bit of the bitmap changes; the transaction holds
    one more snapshot of every bitmap block that holds a listed block, and
    of no other block; buffers that are not such bitmap blocks, the inodes
    and the superblock are as before. *)
Record marked (alloc : bool) (l : list Z) (w w' : world) : Prop := {
  mk_sb_same : w_sb w' = w_sb w;
  mk_ino : w_ino w' = w_ino w;
  mk_bits : forall b,
    bitmap_bit w' b = if existsb (Z.eqb b) l then alloc else bitmap_bit w b;
  mk_logged : forall k,
    List.length (snapshots_of k (w_trans w'))
    = Nat.add (List.length (snapshots_of k (w_trans w)))
        (if existsb (fun b => BBLOCK b (sb_ninodes (w_sb w)) =? k) l
         then 1%nat else 0%nat);
  mk_other : forall k,
    (forall b, In b l -> k <> (1, BBLOCK b (sb_ninodes (w_sb w)))) ->
    w_buf w' k = w_buf w k
}.



(** From block [lo] on the file has no hole before a mapped block. *)
Definition dense_from (w : world) (ip : key) (lo : Z) : Prop :=
  forall b b', lo <= b' -> b' <= b -> 0 <= b' -> b < MAXFILE ->
    val w ip (leaf b) <> 0 -> val w ip (leaf b') <> 0.


(** The state after [bp->add_to_transaction(trans)]. *)
Definition logged (bp : key) (w : world) : world :=
  set_trans w (add_block (w_trans w)
                 (mk_tdb (snd bp) (w_buf w bp) (timestamp_ (w_trans w)))).

(** The number of blocks that [balloc] can still hand out: the free bits
    of the in-memory bitmap below [sb_root.size]. *)
Definition nfree (w : world) : Z :=
  Z.of_nat (List.length
              (filter (fun x : bool => x)
                 (firstn (Z.to_nat (sb_size (w_sb w))) (w_free w)))).

(** [w'] has at most [k] free blocks less than [w]. *)
Definition spent (k : Z) (w w' : world) : Prop :=
  nfree w <= nfree w' + k /\ w_sb w' = w_sb w.

(** The number of blocks that the bytes [off, off + n) lie in. *)
Definition blocks_in (off n : Z) : Z :=
  if 0 <? n then (off + n - 1) / BSIZE - off / BSIZE + 1 else 0.

(** ** Vocabulary of the further properties *)

(** The reference count of an inode of the cache: one reference that
    [inode::init] takes for the open file descriptors, and one more while
    the link count is positive. *)
Definition ref_ok (i : inode) : Prop :=
  i_ref i = (if i_nlink i >? 0 then 1 else 0) + 1.

(** A value a [short] can hold. *)
Definition is_s16 (x : Z) : Prop := - 2 ^ 15 <= x < 2 ^ 15.

(** A name as a C string: no character of it is NUL. *)
Fixpoint no_nul (s : string) : Prop :=
  match s with
  | EmptyString => True
  | String c s' => c <> Ascii.zero /\ no_nul s'
  end.

(** The walk of [namei] over the components of a path, from the inode
    [ip]: every inode on the way must be a directory, and the next inode
    is what [dirlookup] finds for the component. *)
Fixpoint walk (cs : list string) (ip : key) : M (option key) :=
  match cs with
  | [] => ret (Some ip)
  | c :: cs' =>
      ino <- rd ip ;;
      if itype_eqb (i_type ino) T_FREE then panic
      else if negb (itype_eqb (i_type ino) T_DIR) then ret None
      else
        next <- dirlookup ip c ;;
        match next with
        | None => ret None
        | Some nx => walk cs' nx
        end
  end.

(** What [nameiparent] returns for a path whose last component is [c],
    given the outcome of the walk over the components before [c]: the
    inode the walk ends in, when it is a directory, and the name [c]. *)
Definition parent_result (c : string) (o1 : outcome (option key))
  (o2 : outcome (option key * string)) : Prop :=
  match o1 with
  | Ret (Some dp) w' =>
      o2 = (if itype_eqb (i_type (w_ino w' dp)) T_FREE then Panic
            else if negb (itype_eqb (i_type (w_ino w' dp)) T_DIR)
                 then Ret (None, c) w'
                 else Ret (Some dp, c) w')
  | Ret None w' => exists nm, o2 = Ret (None, nm) w'
  | Throw w' => o2 = Throw w'
  | Panic => o2 = Panic
  | Timeout => o2 = Timeout
  end.

(** [always m R w]: whenever [m] leaves a state, by a return or by the
    exception, the state satisfies [R]. *)
Definition always {A} (m : M A) (R : world -> Prop) (w : world) : Prop :=
  match m w with
  | Ret _ w' => R w'
  | Throw w' => R w'
  | Panic => True
  | Timeout => True
  end.

(** What an operation with write-back flag [wb] and transaction [trans]
    may do to the disk, the transaction and the bitmap: the list of disk
    writes only grows, and not at all without write-back; the transaction
    is untouched when the operation is given none; the superblock is
    untouched and no block becomes free. *)
Definition quiet (wb : bool) (trans : transp) (w w' : world) : Prop :=
  (exists l, w_io w' = w_io w ++ l /\ (wb = false -> l = [])) /\
  (trans = NULL -> w_trans w' = w_trans w) /\
  w_sb w' = w_sb w /\
  (forall b, is_free (w_free w') b = true -> is_free (w_free w) b = true).

(** The byte that [readi] must deliver for offset [x]: the byte of the
    file, and 0 where the file has a hole. *)
Definition byte_or_zero (w : world) (ip : key) (x : Z) : Z :=
  match file_byte w ip x with
  | Some v => v
  | None => 0
  end.




(** What [itrunc] of the inode [ip] may change: buffers, the block map and
    the size of [ip], and the snapshots and the list of blocks to free of
    the transaction.  The in-memory bitmap, the disk, the superblock, the
    other inodes and the list of allocated blocks are as before. *)
Definition trunc_frame (ip : key) (w w' : world) : Prop :=
  w_free w' = w_free w /\ w_io w' = w_io w /\ w_sb w' = w_sb w /\
  (forall k, k <> ip -> w_ino w' k = w_ino w k) /\
  (exists a s, w_ino w' ip = with_size (with_addrs (w_ino w ip) a) s) /\
  allocated_blocks (w_trans w') = allocated_blocks (w_trans w) /\
  (exists l, free_blocks (w_trans w') = free_blocks (w_trans w) ++ l).

(** The block map of [ip] in [w] is the one of [w0] up to blocks that were
    free in [w0], and nothing has been freed since. *)
Definition fresh_map (ip : key) (w0 w : world) : Prop :=
  (forall b, is_free (w_free w) b = true -> is_free (w_free w0) b = true) /\
  (forall s, slot_ok s -> val w ip s <> 0 ->
     val w ip s = val w0 ip s \/ is_free (w_free w0) (val w ip s) = true).

(** What [iupdate] does: it stores the record of the inode into the
    inode-table block, and changes nothing else of the inodes, of the
    bitmap or of the superblock. *)
Definition iupdate_post (ip : key) (w w' : world) : Prop :=
  w_ino w' = w_ino w /\ w_free w' = w_free w /\ w_sb w' = w_sb w /\
  w_buf w'
  = upd (w_buf w) (fst ip, IBLOCK (snd ip))
      (dinode_put (w_buf w (fst ip, IBLOCK (snd ip))) (snd ip mod IPB)
         (let i := w_ino w ip in
          mk_dinode (i_type i) (i_major i) (i_minor i) (i_nlink i)
            (i_size i) (i_gen i) (i_addrs i))).

(** ** The index of a directory file *)

(** The bytes that the scan of [dir_init] sees in block [bn] of the
    directory file: the buffer of the block, and zeros where the file has
    a hole (the block that [bmap] allocates for it is zeroed). *)
Definition dir_block (w : world) (dp : key) (bn : Z) : block :=
  let p := val w dp (leaf bn) in
  if p =? 0 then zero_block else w_buf w (fst dp, p).

(** The number of entries that the inner loop of [dir_init] visits in one
    block. *)
Definition NDIRENT : nat := Z.to_nat ((BSIZE + DIRENT_SIZE - 1) / DIRENT_SIZE).

(** The index and the offset that the scan of the blocks at [off],
    [off + BSIZE], ... below [size] makes of the index [d] and the offset
    [doff]; [count] bounds the number of blocks. *)
Fixpoint scan_file (count : nat) (w : world) (dp : key) (off size : Z)
  (d : dir_entries) (doff : Z) : dir_entries * Z :=
  match count with
  | O => (d, doff)
  | S c =>
      if off <? size then
        let '(d', doff') :=
          dir_scan NDIRENT (dir_block w dp (off / BSIZE)) 0 d doff in
        scan_file c w dp (off + BSIZE) size d' doff'
      else (d, doff)
  end.

(** The index of the directory file of [dp] as it is in [w], with the
    offset behind its last entry: the scan of all its blocks, from the
    empty index. *)
Definition dir_index (w : world) (dp : key) : dir_entries * Z :=
  scan_file (Z.to_nat (i_size (w_ino w dp) / BSIZE + 1)) w dp 0
    (i_size (w_ino w dp)) [] 0.

(** What building the index of [dp] may change: of [dp] the block map,
    the index and [dir_offset], of another inode the block map; no block
    becomes free; the disk, the transaction and the superblock are as
    before. *)
Definition dir_frame (dp : key) (w w' : world) : Prop :=
  w_io w' = w_io w /\ w_trans w' = w_trans w /\ w_sb w' = w_sb w /\
  (forall b, is_free (w_free w') b = true -> is_free (w_free w) b = true) /\
  (forall k, k <> dp -> exists a, w_ino w' k = with_addrs (w_ino w k) a) /\
  (exists a d o,
      w_ino w' dp = with_dir_offset (with_dir (with_addrs (w_ino w dp) a) d) o).

(** What the scan of the blocks from offset [off] on keeps: the block map
    stays consistent, every block of the file reads as before, and when
    no block from [off] on is a hole no buffer, no bit of the bitmap and
    no block map changes at all. *)
Definition scan_kept (dp : key) (off : Z) (w w' : world) : Prop :=
  wf w' dp /\
  (forall bn, 0 <= bn < MAXFILE -> dir_block w' dp bn = dir_block w dp bn) /\
  dir_frame dp w w' /\
  ((forall bn, off <= bn * BSIZE < i_size (w_ino w dp) ->
               val w dp (leaf bn) <> 0) ->
   w_buf w' = w_buf w /\ w_dirty w' = w_dirty w /\ w_free w' = w_free w /\
   forall k, i_addrs (w_ino w' k) = i_addrs (w_ino w k)).

(** What [dir_init] has done when it has built the index of [dp]. *)
Definition dir_built (dp : key) (w w' : world) : Prop :=
  i_dir (w_ino w' dp) = Some (fst (dir_index w dp)) /\
  i_dir_offset (w_ino w' dp) = snd (dir_index w dp) /\
  scan_kept dp 0 w w'.

End FS.

(** * A concrete file system *)

(** The constants of a file system with 4096-byte blocks: ten direct
    blocks, 1024 block numbers in an indirect block, names of up to 14
    characters, the root inode [(1, 1)].  The inode table takes
    [ninodes/32 + 1] blocks after the boot block and the superblock; the
    layout of a [dinode] inside its block plays no role in what follows. *)
Definition sv6 : fs_params :=
  Build_fs_params 4096 10 1024 14 32 (fun n => 2 + n / 32 + 1) (1, 1)
    (fun _ _ => mk_dinode T_FREE 0 0 0 0 0 (fun _ => 0))
    (fun b _ _ => b).

Section Examples.
#[local] Existing Instance sv6.

(** An inode without blocks, and a 64-block disk whose inodes all look
    like [ino], with zeroed buffers, nothing dirty and an empty
    transaction. *)
Definition blank_inode (t : itype) (size : Z) (dir : option dir_entries) : inode :=
  mk_inode 0 t 0 0 true false 0 size (fun _ => 0) 1 1 dir 0.
Definition disk (ino : inode) (free : list bool) : world :=
  mk_world (mk_sb 64 16 32) (fun _ => ino) (fun _ => zero_block)
    (fun _ => false) [] free (mk_trans 0 [] [] [] []).

(** Blocks 20 to 59 are free. *)
Definition some_free : list bool := repeat false 20 ++ repeat true 40.

(** A new, empty file; a file of two blocks that are both holes; an empty
    file on a disk without a free block; a directory whose index holds the
    name [a]. *)
Definition ino5 : key := (1, 5).
Definition w_new : world := disk (blank_inode T_FILE 0 None) some_free.
Definition w_holes : world := disk (blank_inode T_FILE 8192 None) some_free.
Definition w_dir : world :=
  disk (blank_inode T_DIR 0 (Some [("a"%string, mk_de_info 7 0)])) some_free.

Definition hello : block := fun k => 100 + k.

(** The state an operation leaves. *)
Definition after {A} (o : outcome A) (w : world) : world :=
  match o with
  | Ret _ w' => w'
  | Throw w' => w'
  | _ => w
  end.

Definition w_new_written : world :=
  after (writei ino5 hello 0 5 TRANS false w_new) w_new.

(** A file of two blocks, the blocks 20 and 21; blocks 22 to 59 are
    free. *)
Definition two_blocks (i : Z) : Z :=
  if i =? 0 then 20 else if i =? 1 then 21 else 0.
Definition w_two_blocks : world :=
  mk_world (mk_sb 64 16 32)
    (fun _ => mk_inode 0 T_FILE 0 0 true false 0 8192 two_blocks 1 1 None 0)
    (fun _ => zero_block) (fun _ => false) []
    (repeat false 22 ++ repeat true 38) (mk_trans 0 [] [] [] []).

(** Two snapshots of block 7, with different payloads. *)
Definition two_snapshots : list transaction_diskblock :=
  [mk_tdb 7 zero_block 0; mk_tdb 7 hello 0].

End Examples.

(** * Further concrete states *)

Section MoreExamples.
#[local] Existing Instance sv6.

(** A directory that has no index yet and no entry on disk. *)
Definition w_dir_new : world := disk (blank_inode T_DIR 0 None) some_free.


(** A directory of one block, block 20, which holds the entry of the name
    [a] for inode 7 and zeros behind it; the index is not built yet. *)
Definition one_block (i : Z) : Z := if i =? 0 then 20 else 0.
Definition w_dir_disk : world :=
  mk_world (mk_sb 64 16 32)
    (fun _ => mk_inode 0 T_DIR 0 0 true false 0 4096 one_block 1 1 None 0)
    (fun k => if key_eqb k (1, 20) then dirent_bytes 7 "a" else zero_block)
    (fun _ => false) []
    (repeat false 21 ++ repeat true 39) (mk_trans 0 [] [] [] []).

End MoreExamples.

(** * Properties *)

Section Proofs.
Context {P : fs_params}.

(** ** Keys, machine integers, byte arrays *)

Ltac pow_lia :=
  unfold is_u32 in *;
  try change (2 ^ 32) with 4294967296 in *;
  try change (2 ^ 31) with 2147483648 in *;
  lia.

Lemma key_eqb_eq (a b : key) : key_eqb a b = true <-> a = b.
Proof.
  destruct a as [a1 a2], b as [b1 b2]; unfold key_eqb; simpl.
  rewrite andb_true_iff, !Z.eqb_eq. split.
  - intros [-> ->]; reflexivity.
  - intros H; inversion H; auto.
Qed.

Lemma key_eqb_refl (a : key) : key_eqb a a = true.
Proof. apply key_eqb_eq; reflexivity. Qed.

Lemma key_eqb_neq (a b : key) : a <> b -> key_eqb a b = false.
Proof.
  intros H; destruct (key_eqb a b) eqn:E; auto.
  apply key_eqb_eq in E; contradiction.
Qed.

Lemma upd_same {A} (f : key -> A) k v : upd f k v k = v.
Proof. unfold upd; rewrite key_eqb_refl; reflexivity. Qed.

Lemma upd_other {A} (f : key -> A) k k' v : k <> k' -> upd f k v k' = f k'.
Proof. intros H; unfold upd; rewrite key_eqb_neq; auto. Qed.

Lemma updz_same {A} (f : Z -> A) k v : updz f k v k = v.
Proof. unfold updz; rewrite Z.eqb_refl; reflexivity. Qed.

Lemma updz_other {A} (f : Z -> A) k k' v : k <> k' -> updz f k v k' = f k'.
Proof. intros H; unfold updz; destruct (Z.eqb_spec k k'); congruence. Qed.

Lemma u32_small x : 0 <= x < 2 ^ 32 -> u32 x = x.
Proof. intros H; unfold u32; apply Z.mod_small; exact H. Qed.

Lemma u32_range x : 0 <= u32 x < 2 ^ 32.
Proof. unfold u32; apply Z.mod_pos_bound; reflexivity. Qed.

Lemma le32_range b off : 0 <= le32 b off < 2 ^ 32.
Proof.
  unfold le32.
  pose proof (Z.mod_pos_bound (b off) 256 eq_refl).
  pose proof (Z.mod_pos_bound (b (off + 1)) 256 eq_refl).
  pose proof (Z.mod_pos_bound (b (off + 2)) 256 eq_refl).
  pose proof (Z.mod_pos_bound (b (off + 3)) 256 eq_refl).
  change (2 ^ 8) with 256; change (2 ^ 16) with 65536;
    change (2 ^ 24) with 16777216; change (2 ^ 32) with 4294967296.
  lia.
Qed.

Lemma u32_at_range b i : 0 <= u32_at b i < 2 ^ 32.
Proof. apply le32_range. Qed.

Lemma u32_at_zero i : u32_at zero_block i = 0.
Proof. reflexivity. Qed.

Lemma bytes_of_u32 v :
  0 <= v < 2 ^ 32 ->
  v mod 256 + 2 ^ 8 * ((v / 2 ^ 8) mod 256) + 2 ^ 16 * ((v / 2 ^ 16) mod 256)
  + 2 ^ 24 * ((v / 2 ^ 24) mod 256) = v.
Proof.
  intros H.
  change (2 ^ 8) with 256; change (2 ^ 16) with (256 * 256);
    change (2 ^ 24) with (256 * 256 * 256);
    change (2 ^ 32) with (256 * 256 * 256 * 256) in H.
  rewrite <- !Z.div_div by lia.
  pose proof (Z.div_mod v 256 ltac:(lia)).
  pose proof (Z.div_mod (v / 256) 256 ltac:(lia)).
  pose proof (Z.div_mod (v / 256 / 256) 256 ltac:(lia)).
  pose proof (Z.mod_pos_bound v 256 eq_refl).
  pose proof (Z.mod_pos_bound (v / 256) 256 eq_refl).
  pose proof (Z.mod_pos_bound (v / 256 / 256) 256 eq_refl).
  assert (0 <= v / 256 / 256 / 256 < 256).
  { split; [repeat apply Z.div_pos; lia |].
    repeat (apply Z.div_lt_upper_bound; [lia |]). lia. }
  rewrite (Z.mod_small (v / 256 / 256 / 256) 256) by lia.
  lia.
Qed.

Lemma u32_at_put_same b i v : 0 <= v < 2 ^ 32 -> u32_at (u32_put b i v) i = v.
Proof.
  intros H. unfold u32_at, le32, u32_put.
  rewrite Z.eqb_refl.
  replace (4 * i + 1 =? 4 * i) with false by (symmetry; apply Z.eqb_neq; lia).
  replace (4 * i + 2 =? 4 * i) with false by (symmetry; apply Z.eqb_neq; lia).
  replace (4 * i + 3 =? 4 * i) with false by (symmetry; apply Z.eqb_neq; lia).
  replace (4 * i + 2 =? 4 * i + 1) with false by (symmetry; apply Z.eqb_neq; lia).
  replace (4 * i + 3 =? 4 * i + 1) with false by (symmetry; apply Z.eqb_neq; lia).
  replace (4 * i + 3 =? 4 * i + 2) with false by (symmetry; apply Z.eqb_neq; lia).
  rewrite !Z.eqb_refl.
  rewrite !Z.mod_mod by lia.
  apply bytes_of_u32; exact H.
Qed.

Lemma u32_put_other_byte b i v k :
  (k < 4 * i \/ 4 * i + 3 < k) -> u32_put b i v k = b k.
Proof.
  intros H. unfold u32_put.
  repeat match goal with
         | |- context [?a =? ?c] => destruct (Z.eqb_spec a c); [lia |]
         end.
  reflexivity.
Qed.

Lemma u32_at_put_other b i j v : i <> j -> u32_at (u32_put b i v) j = u32_at b j.
Proof.
  intros H. unfold u32_at, le32.
  rewrite !u32_put_other_byte by lia. reflexivity.
Qed.

(** ** The in-memory free-bit-vector *)

Lemma first_free_spec v i :
  first_free v = Some i -> nth i v false = true.
Proof.
  revert i; induction v as [| [|] v IH]; simpl; intros i H; try discriminate.
  - inversion H; reflexivity.
  - destruct (first_free v) as [j |]; simpl in H; inversion H; subst.
    apply IH; reflexivity.
Qed.

Lemma nth_set_bit_same v i x : (i < List.length v)%nat -> nth i (set_bit v i x) false = x.
Proof.
  revert i; induction v as [| y v IH]; simpl; intros [| i] H; try lia; auto.
  simpl. apply IH; lia.
Qed.

Lemma nth_set_bit_false v i : nth i (set_bit v i false) false = false.
Proof.
  revert i; induction v as [| y v IH]; simpl; intros [| i]; auto.
  simpl; apply IH.
Qed.

Lemma nth_set_bit_other v i j x : i <> j -> nth j (set_bit v i x) false = nth j v false.
Proof.
  revert i j; induction v as [| y v IH]; simpl; intros [| i] [| j] H; auto;
    try congruence.
  simpl. apply IH; congruence.
Qed.

Lemma is_free_clear_same v i : is_free (set_bit v i false) (Z.of_nat i) = false.
Proof.
  unfold is_free. rewrite Nat2Z.id, nth_set_bit_false. apply andb_false_r.
Qed.

Lemma is_free_clear_other v i b :
  b <> Z.of_nat i -> is_free (set_bit v i false) b = is_free v b.
Proof.
  intros H. unfold is_free.
  destruct (Z.leb_spec 0 b); simpl; auto.
  rewrite nth_set_bit_other; auto. intros ->. rewrite Z2Nat.id in H; lia.
Qed.

Lemma is_free_clear_mono v i b :
  is_free (set_bit v i false) b = true -> is_free v b = true.
Proof.
  intros H. destruct (Z.eq_dec b (Z.of_nat i)) as [-> | N].
  - rewrite is_free_clear_same in H; discriminate.
  - rewrite is_free_clear_other in H; auto.
Qed.

Lemma first_free_is_free v i : first_free v = Some i -> is_free v (Z.of_nat i) = true.
Proof.
  intros H. unfold is_free. rewrite Nat2Z.id, (first_free_spec _ _ H).
  destruct (Z.leb_spec 0 (Z.of_nat i)); auto; lia.
Qed.

(** ** Rules of the weakest precondition *)

Lemma wp_ret {A} (a : A) Q E X w : Q a w -> wp (ret a) Q E X w.
Proof. auto. Qed.

Lemma wp_bind {A B} (m : M A) (k : A -> M B) Q E X w :
  wp m (fun a w' => wp (k a) Q E X w') E X w -> wp (bind m k) Q E X w.
Proof. unfold wp, bind; destruct (m w); auto. Qed.

Lemma wp_mono {A} (m : M A) (Q Q' : A -> world -> Prop) (E E' : world -> Prop)
  (X X' : Prop) w :
  wp m Q E X w ->
  (forall a w', Q a w' -> Q' a w') -> (forall w', E w' -> E' w') -> (X -> X') ->
  wp m Q' E' X' w.
Proof. unfold wp; destruct (m w); auto. Qed.

Lemma wp_catch {A} (m h : M A) Q E X w :
  wp m Q (fun w' => wp h Q E X w') X w -> wp (catch m h) Q E X w.
Proof. unfold wp, catch; destruct (m w); auto. Qed.

Lemma wp_when c (m : M unit) Q E X w :
  (c = true -> wp m Q E X w) -> (c = false -> Q tt w) -> wp (when c m) Q E X w.
Proof.
  intros H1 H2; destruct c; unfold when.
  - apply H1; reflexivity.
  - apply wp_ret, H2; reflexivity.
Qed.

Lemma wp_modify f Q E X w : Q tt (f w) -> wp (modify f) Q E X w.
Proof. auto. Qed.

Lemma wp_rd ip Q E X w : Q (w_ino w ip) w -> wp (rd ip) Q E X w.
Proof. auto. Qed.

Lemma wp_get Q E X w : Q w w -> wp get Q E X w.
Proof. auto. Qed.

(** ** The block map after a store into one slot *)


Lemma rdent_nz w dev blk idx :
  blk <> 0 -> rdent w dev blk idx = u32_at (w_buf w (dev, blk)) idx.
Proof. intros H; unfold rdent; destruct (Z.eqb_spec blk 0); congruence. Qed.

Lemma rdent_same w w' dev blk idx :
  (blk <> 0 -> w_buf w' (dev, blk) = w_buf w (dev, blk)) ->
  rdent w' dev blk idx = rdent w dev blk idx.
Proof.
  intros H; unfold rdent; destruct (Z.eqb_spec blk 0); auto.
  rewrite H; auto.
Qed.

Lemma rdent_range w dev blk idx : 0 <= rdent w dev blk idx < 2 ^ 32.
Proof.
  unfold rdent; destruct (blk =? 0); [change (2 ^ 32) with 4294967296; lia |].
  apply u32_at_range.
Qed.

Lemma addr_slot_ok k s : addr_slot k s -> slot_ok s.
Proof. destruct 1; simpl; auto. Qed.

Lemma ent_slot_ok w ip blk k s : ent_slot w ip blk k s -> slot_ok s.
Proof. destruct 1; simpl; auto. Qed.

Lemma addr_slot_val w ip k s : addr_slot k s -> val w ip s = i_addrs (w_ino w ip) k.
Proof. destruct 1; reflexivity. Qed.

Lemma ent_slot_val w ip blk k s :
  ent_slot w ip blk k s -> val w ip s = rdent w (fst ip) blk k.
Proof. destruct 1; reflexivity. Qed.

Lemma val_after_addr ip w w' k s0 b :
  addr_slot k s0 ->
  val w ip s0 = 0 -> b <> 0 ->
  (forall s, slot_ok s -> val w ip s <> b) ->
  i_addrs (w_ino w' ip) = updz (i_addrs (w_ino w ip)) k b ->
  (forall x, x <> b -> w_buf w' (fst ip, x) = w_buf w (fst ip, x)) ->
  (is_leaf s0 = false -> w_buf w' (fst ip, b) = zero_block) ->
  val w' ip s0 = b /\
  (forall s, slot_ok s -> s <> s0 -> val w' ip s = val w ip s).
Proof.
  intros Hk H0 Hb Hnew Ha Hbuf Hz.
  assert (Hind : s0 <> SInd -> val w' ip SInd = val w ip SInd).
  { intros N. simpl. rewrite Ha. apply updz_other.
    destruct Hk; simpl in *; try lia; congruence. }
  assert (Hdbl : s0 <> SDbl -> val w' ip SDbl = val w ip SDbl).
  { intros N. simpl. rewrite Ha. apply updz_other.
    destruct Hk; simpl in *; try lia; congruence. }
  assert (Hrd : forall s idx, slot_ok s ->
             rdent w' (fst ip) (val w ip s) idx = rdent w (fst ip) (val w ip s) idx).
  { intros s idx Hs. apply rdent_same. intros _. apply Hbuf. apply Hnew; auto. }
  assert (Hnewb : forall idx, is_leaf s0 = false -> rdent w' (fst ip) b idx = 0).
  { intros idx Hl. rewrite rdent_nz by auto. rewrite Hz by auto. reflexivity. }
  assert (Hinde : forall j, val w' ip (SIndE j) = val w ip (SIndE j)).
  { intros j. change (rdent w' (fst ip) (val w' ip SInd) j
                      = rdent w (fst ip) (val w ip SInd) j).
    destruct Hk.
    - rewrite Hind by discriminate. apply (Hrd SInd); exact I.
    - simpl in H0. replace (val w' ip SInd) with b.
      + rewrite (Hnewb j eq_refl). simpl. rewrite H0. reflexivity.
      + simpl. rewrite Ha, updz_same. reflexivity.
    - rewrite Hind by discriminate. apply (Hrd SInd); exact I. }
  assert (Hl1 : forall i, val w' ip (SL1 i) = val w ip (SL1 i)).
  { intros j. change (rdent w' (fst ip) (val w' ip SDbl) j
                      = rdent w (fst ip) (val w ip SDbl) j).
    destruct Hk.
    - rewrite Hdbl by discriminate. apply (Hrd SDbl); exact I.
    - rewrite Hdbl by discriminate. apply (Hrd SDbl); exact I.
    - simpl in H0. replace (val w' ip SDbl) with b.
      + rewrite (Hnewb j eq_refl). simpl. rewrite H0. reflexivity.
      + simpl. rewrite Ha, updz_same. reflexivity. }
  split.
  - rewrite (addr_slot_val w' ip k s0 Hk), Ha. apply updz_same.
  - intros s Hs Hne. destruct s as [i | | j | | i | i j].
    + simpl. rewrite Ha. apply updz_other.
      destruct Hk; simpl in *; try lia. congruence.
    + apply Hind; auto.
    + apply Hinde.
    + apply Hdbl; auto.
    + apply Hl1.
    + change (rdent w' (fst ip) (val w' ip (SL1 i)) j
              = rdent w (fst ip) (val w ip (SL1 i)) j).
      rewrite Hl1. apply (Hrd (SL1 i)). simpl in *; lia.
Qed.

Lemma val_after_entry ip w w' blk k s0 b :
  wf w ip ->
  ent_slot w ip blk k s0 -> blk <> 0 ->
  val w ip s0 = 0 -> b <> 0 -> is_u32 b ->
  (forall s, slot_ok s -> val w ip s <> b) ->
  i_addrs (w_ino w' ip) = i_addrs (w_ino w ip) ->
  w_buf w' (fst ip, blk) = u32_put (w_buf w (fst ip, blk)) k b ->
  (forall x, x <> b -> x <> blk -> w_buf w' (fst ip, x) = w_buf w (fst ip, x)) ->
  (is_leaf s0 = false -> w_buf w' (fst ip, b) = zero_block) ->
  val w' ip s0 = b /\
  (forall s, slot_ok s -> s <> s0 -> val w' ip s = val w ip s).
Proof.
  intros Hwf Hk Hblk H0 Hb Hb32 Hnew Ha Hput Hbuf Hz.
  assert (Hother : forall s idx, slot_ok s -> val w ip s <> blk ->
             rdent w' (fst ip) (val w ip s) idx = rdent w (fst ip) (val w ip s) idx).
  { intros s idx Hs Hne. apply rdent_same. intros _. apply Hbuf; auto. }
  assert (Hsame : rdent w' (fst ip) blk k = b).
  { rewrite rdent_nz by auto. rewrite Hput. apply u32_at_put_same; exact Hb32. }
  assert (Hsib : forall idx, idx <> k ->
             rdent w' (fst ip) blk idx = rdent w (fst ip) blk idx).
  { intros idx Hne. rewrite !rdent_nz by auto. rewrite Hput.
    apply u32_at_put_other; auto. }
  assert (Hnewb : forall idx, is_leaf s0 = false -> rdent w' (fst ip) b idx = 0).
  { intros idx Hl. rewrite rdent_nz by auto. rewrite Hz by auto. reflexivity. }
  assert (Hdir : forall i, val w' ip (SDirect i) = val w ip (SDirect i)).
  { intros i; simpl; rewrite Ha; reflexivity. }
  assert (Hind : val w' ip SInd = val w ip SInd).
  { simpl; rewrite Ha; reflexivity. }
  assert (Hdbl : val w' ip SDbl = val w ip SDbl).
  { simpl; rewrite Ha; reflexivity. }
  assert (Hinj : forall s1 s2, slot_ok s1 -> slot_ok s2 -> s1 <> s2 ->
             val w ip s1 <> 0 -> val w ip s2 <> val w ip s1).
  { intros s1 s2 H1 H2 Hne Hnz Heq. apply Hne.
    apply (wf_inj w ip Hwf); auto. }
  assert (HeI : forall j, val w' ip (SIndE j)
                          = rdent w' (fst ip) (val w ip SInd) j).
  { intros j. change (val w' ip (SIndE j))
      with (rdent w' (fst ip) (val w' ip SInd) j). rewrite Hind. reflexivity. }
  assert (He1 : forall i, val w' ip (SL1 i)
                          = rdent w' (fst ip) (val w ip SDbl) i).
  { intros i. change (val w' ip (SL1 i))
      with (rdent w' (fst ip) (val w' ip SDbl) i). rewrite Hdbl. reflexivity. }
  assert (He2 : forall i j, val w' ip (SL2 i j)
                            = rdent w' (fst ip) (val w' ip (SL1 i)) j).
  { reflexivity. }
  destruct Hk as [j0 Hj0 | i0 Hi0 | i0 j0 Hi0 Hj0].
  - (* entry of the indirect block *)
    assert (H1 : forall i, val w' ip (SL1 i) = val w ip (SL1 i)).
    { intros i. rewrite He1. apply (Hother SDbl); simpl; auto.
      apply (Hinj SInd SDbl); simpl; auto; discriminate. }
    split.
    + rewrite HeI. exact Hsame.
    + intros s Hs Hne. destruct s as [i | | j | | i | i j]; auto.
      * rewrite HeI. apply Hsib. congruence.
      * rewrite He2, H1. apply (Hother (SL1 i)); [simpl in *; lia |].
        apply (Hinj SInd (SL1 i)); simpl in *; auto; try lia; discriminate.
  - (* entry of the first-level doubly-indirect block *)
    split.
    + rewrite He1. exact Hsame.
    + intros s Hs Hne. destruct s as [i | | j | | i | i j]; auto.
      * rewrite HeI. apply (Hother SInd); simpl; auto.
        apply (Hinj SDbl SInd); simpl; auto; discriminate.
      * rewrite He1. apply Hsib. congruence.
      * rewrite He2, He1. destruct (Z.eq_dec i i0) as [-> | Hii].
        -- rewrite Hsame. rewrite (Hnewb j eq_refl).
           change (val w ip (SL2 i0 j))
             with (rdent w (fst ip) (val w ip (SL1 i0)) j).
           rewrite H0. reflexivity.
        -- rewrite Hsib by auto.
           change (rdent w (fst ip) (val w ip SDbl) i) with (val w ip (SL1 i)).
           apply (Hother (SL1 i)); [simpl in *; lia |].
           apply (Hinj SDbl (SL1 i)); simpl in *; auto; try lia; discriminate.
  - (* entry of a second-level doubly-indirect block *)
    assert (Hd : val w ip SDbl <> 0).
    { intros Hd. apply Hblk. simpl. simpl in Hd. rewrite Hd. reflexivity. }
    assert (H1 : forall i, val w' ip (SL1 i) = val w ip (SL1 i)).
    { intros i. rewrite He1. apply (Hother SDbl); simpl; auto.
      apply (Hinj (SL1 i0) SDbl); simpl; auto; discriminate. }
    split.
    + rewrite He2, H1. exact Hsame.
    + intros s Hs Hne. destruct s as [i | | j | | i | i j]; auto.
      * rewrite HeI. apply (Hother SInd); simpl; auto.
        apply (Hinj (SL1 i0) SInd); simpl; auto; discriminate.
      * rewrite He2, H1. destruct (Z.eq_dec i i0) as [-> | Hii].
        -- apply Hsib. congruence.
        -- apply (Hother (SL1 i)); [simpl in *; lia |].
           apply (Hinj (SL1 i0) (SL1 i)); simpl in *; auto; try lia; congruence.
Qed.

(** ** Consistency of the block map under allocation *)

Lemma slot_eq_dec (s1 s2 : slot) : {s1 = s2} + {s1 <> s2}.
Proof. decide equality; apply Z.eq_dec. Qed.

Lemma with_addrs_id i : with_addrs i (i_addrs i) = i.
Proof. destruct i; reflexivity. Qed.

Lemma with_addrs_twice i a a' : with_addrs (with_addrs i a) a' = with_addrs i a'.
Proof. reflexivity. Qed.

Lemma val_congr ip w w' s :
  i_addrs (w_ino w' ip) = i_addrs (w_ino w ip) ->
  (forall x, w_buf w' (fst ip, x) = w_buf w (fst ip, x)) ->
  val w' ip s = val w ip s.
Proof.
  intros Ha Hb. destruct s; simpl; rewrite ?Ha; auto; unfold rdent;
    rewrite ?Hb; auto.
Qed.

Lemma wf_nonzero_free ip w b : wf w ip -> is_free (w_free w) b = true -> b <> 0.
Proof. intros Hwf Hf ->. rewrite (wf_zero w ip Hwf) in Hf; discriminate. Qed.

Lemma wf_free_new ip w b :
  wf w ip -> is_free (w_free w) b = true -> forall s, slot_ok s -> val w ip s <> b.
Proof.
  intros Hwf Hf s Hs Heq.
  assert (Hb := wf_nonzero_free ip w b Hwf Hf).
  rewrite <- Heq in Hf, Hb. rewrite (wf_used w ip Hwf s Hs Hb) in Hf; discriminate.
Qed.

Lemma wf_shrink ip w w' :
  wf w ip ->
  (forall s, slot_ok s -> val w' ip s = val w ip s) ->
  (forall x, is_free (w_free w') x = true -> is_free (w_free w) x = true) ->
  w_sb w' = w_sb w ->
  wf w' ip.
Proof.
  intros Hwf Hv Hf Hsb. constructor.
  - intros s1 s2 H1 H2. rewrite !Hv by auto. apply (wf_inj w ip Hwf); auto.
  - intros s Hs. rewrite Hv by auto. intros Hnz.
    destruct (is_free (w_free w') (val w ip s)) eqn:E; auto.
    apply Hf in E. rewrite (wf_used w ip Hwf s Hs Hnz) in E; discriminate.
  - destruct (is_free (w_free w') 0) eqn:E; auto.
    apply Hf in E. rewrite (wf_zero w ip Hwf) in E; discriminate.
  - rewrite Hsb. apply (wf_sb w ip Hwf).
Qed.

Lemma ext_same ip trans z w w' :
  (forall s, slot_ok s -> val w' ip s = val w ip s) ->
  (forall x, is_free (w_free w') x = true -> is_free (w_free w) x = true) ->
  (forall x, w_buf w' (fst ip, x) = w_buf w (fst ip, x)) ->
  (forall k, exists a, w_ino w' k = with_addrs (w_ino w k) a) ->
  w_sb w' = w_sb w ->
  (trans = NULL -> w_trans w' = w_trans w) ->
  ext ip trans z w w'.
Proof.
  intros Hv Hf Hb Hi Hsb Ht. constructor; auto.
  - intros s Hs H0 H1. rewrite Hv in H1 by auto. contradiction.
  - intros s Hs _ _ H0 H1. rewrite Hv in H1 by auto. contradiction.
Qed.

Lemma ext_refl ip trans z w : ext ip trans z w w.
Proof.
  apply ext_same; auto. intros k; exists (i_addrs (w_ino w k)).
  symmetry; apply with_addrs_id.
Qed.

Lemma ext_trans_ ip trans z w w1 w2 :
  wf w1 ip -> ext ip trans z w w1 -> ext ip trans z w1 w2 -> ext ip trans z w w2.
Proof.
  intros Hwf [V1 F1 Z1 R1 D1 I1 S1 T1] [V2 F2 Z2 R2 D2 I2 S2 T2].
  assert (Hmeta : forall b, b <> 0 -> is_free (w_free w) b = false ->
            (forall s, slot_ok s -> is_leaf s = false -> val w ip s <> b) ->
            forall s, slot_ok s -> is_leaf s = false -> val w1 ip s <> b).
  { intros b Hb Hnf Hm s Hs Hl Heq.
    destruct (Z.eq_dec (val w ip s) 0) as [E0 | N0].
    - assert (Hf : is_free (w_free w) (val w1 ip s) = true)
        by (apply F1; auto; congruence).
      rewrite Heq in Hf. congruence.
    - rewrite V1 in Heq by auto. exact (Hm s Hs Hl Heq). }
  constructor.
  - intros s Hs Hnz. rewrite V2; [apply V1; auto | auto | rewrite V1; auto].
  - intros s Hs H0 Hnz. destruct (Z.eq_dec (val w1 ip s) 0) as [E1 | N1].
    + apply R1. apply F2; auto.
    + rewrite V2 in * by auto. apply F1; auto.
  - intros s Hs Hl Hz H0 Hnz. destruct (Z.eq_dec (val w1 ip s) 0) as [E1 | N1].
    + apply Z2; auto.
    + rewrite V2 in * by auto.
      rewrite D2; [apply Z1; auto | auto | |].
      * apply (wf_used w1 ip Hwf); auto.
      * intros s' Hs' Hl' Heq.
        assert (s' = s) by (apply (wf_inj w1 ip Hwf); auto; congruence).
        subst s'. congruence.
  - intros b Hb. apply R1, R2, Hb.
  - intros b Hb Hnf Hm. rewrite D2; [apply D1; auto | auto | |].
    + destruct (is_free (w_free w1) b) eqn:E; auto.
      apply R1 in E. congruence.
    + apply Hmeta; auto.
  - intros k. destruct (I1 k) as [a1 E1]. destruct (I2 k) as [a2 E2].
    exists a2. rewrite E2, E1. reflexivity.
  - congruence.
  - intros Ht. rewrite T2, T1; auto.
Qed.

Lemma fill_wf ip w w' s0 b :
  wf w ip -> slot_ok s0 -> val w ip s0 = 0 ->
  is_free (w_free w) b = true ->
  (forall x, is_free (w_free w') x = if x =? b then false else is_free (w_free w) x) ->
  val w' ip s0 = b ->
  (forall s, slot_ok s -> s <> s0 -> val w' ip s = val w ip s) ->
  w_sb w' = w_sb w ->
  wf w' ip.
Proof.
  intros Hwf Hs0 H0 Hfree Hf Hv0 Hv Hsb.
  assert (Hb := wf_nonzero_free ip w b Hwf Hfree).
  assert (Hnew := wf_free_new ip w b Hwf Hfree).
  constructor.
  - intros s1 s2 H1 H2 Hnz Heq.
    destruct (slot_eq_dec s1 s0) as [-> | N1], (slot_eq_dec s2 s0) as [-> | N2];
      auto.
    + rewrite Hv0, (Hv s2) in Heq by auto. symmetry in Heq.
      exfalso; exact (Hnew s2 H2 Heq).
    + rewrite Hv0, (Hv s1) in Heq by auto. exfalso; exact (Hnew s1 H1 Heq).
    + rewrite (Hv s1), (Hv s2) in * by auto. apply (wf_inj w ip Hwf); auto.
  - intros s Hs Hnz. rewrite Hf.
    destruct (Z.eqb_spec (val w' ip s) b); auto.
    destruct (slot_eq_dec s s0) as [-> | N]; [congruence |].
    rewrite Hv in * by auto. apply (wf_used w ip Hwf); auto.
  - rewrite Hf. destruct (Z.eqb_spec 0 b); auto. apply (wf_zero w ip Hwf).
  - rewrite Hsb. apply (wf_sb w ip Hwf).
Qed.

Lemma fill_ext ip trans z w w' s0 b :
  wf w ip -> slot_ok s0 -> val w ip s0 = 0 ->
  is_free (w_free w) b = true ->
  (forall x, is_free (w_free w') x = if x =? b then false else is_free (w_free w) x) ->
  val w' ip s0 = b ->
  (forall s, slot_ok s -> s <> s0 -> val w' ip s = val w ip s) ->
  w_sb w' = w_sb w ->
  (forall k, exists a, w_ino w' k = with_addrs (w_ino w k) a) ->
  (trans = NULL -> w_trans w' = w_trans w) ->
  (forall x, x <> b ->
     (forall s, slot_ok s -> is_leaf s = false -> val w ip s <> x) ->
     w_buf w' (fst ip, x) = w_buf w (fst ip, x)) ->
  (is_leaf s0 = true -> z = true -> w_buf w' (fst ip, b) = zero_block) ->
  ext ip trans z w w'.
Proof.
  intros Hwf Hs0 H0 Hfree Hf Hv0 Hv Hsb Hi Ht Hd Hz.
  constructor; auto.
  - intros s Hs Hnz. apply Hv; auto. congruence.
  - intros s Hs Hz0 Hnz. destruct (slot_eq_dec s s0) as [-> | N].
    + rewrite Hv0; auto.
    + rewrite Hv in Hnz by auto. contradiction.
  - intros s Hs Hl Hzt Hz0 Hnz. destruct (slot_eq_dec s s0) as [-> | N].
    + rewrite Hv0; auto.
    + rewrite Hv in Hnz by auto. contradiction.
  - intros x. rewrite Hf. destruct (x =? b); auto; discriminate.
  - intros x Hx Hnf Hm. apply Hd; auto. congruence.
Qed.

(** ** balloc *)

Lemma balloc_spec dev trans (z : bool) w (Q : Z -> world -> Prop)
  (E : world -> Prop) (X : Prop) :
  sb_size (w_sb w) <= 2 ^ 32 ->
  (forall b w',
      dev = 1 -> is_free (w_free w) b = true -> is_u32 b ->
      (forall x, is_free (w_free w') x
                 = if x =? b then false else is_free (w_free w) x) ->
      w_ino w' = w_ino w -> w_sb w' = w_sb w ->
      w_buf w' = (if z then upd (w_buf w) (dev, b) zero_block else w_buf w) ->
      (trans = NULL -> w_trans w' = w_trans w) ->
      Q b w') ->
  (forall w',
      w_ino w' = w_ino w -> w_buf w' = w_buf w -> w_sb w' = w_sb w ->
      w_trans w' = w_trans w ->
      (forall x, is_free (w_free w') x = true -> is_free (w_free w) x = true) ->
      E w') ->
  wp (balloc dev trans z) Q E X w.
Proof.
  intros Hsb HQ HE. unfold balloc.
  destruct (Z.eqb_spec dev 1) as [-> | Hd]; [| apply HE; auto].
  unfold wp, bind, alloc_block, get.
  destruct (first_free (w_free w)) as [i |] eqn:Ef.
  - cbn [w_sb set_free].
    destruct (Z.ltb_spec (Z.of_nat i) (sb_size (w_sb w))) as [Hlt | Hge].
    + assert (Hi : is_u32 (Z.of_nat i)) by (unfold is_u32; lia).
      assert (Hfr : forall x, is_free (set_bit (w_free w) i false) x
                     = if x =? Z.of_nat i then false else is_free (w_free w) x).
      { intros x. destruct (Z.eqb_spec x (Z.of_nat i)) as [-> | N].
        - apply is_free_clear_same.
        - apply is_free_clear_other; auto. }
      rewrite (u32_small _ Hi).
      destruct trans, z; cbn;
        apply HQ; cbn; auto using first_free_is_free; discriminate.
    + apply HE; cbn; auto. intros x. apply is_free_clear_mono.
  - destruct (Z.ltb_spec (sb_size (w_sb w)) (sb_size (w_sb w))); [lia |].
    apply HE; auto.
Qed.

(** ** The two allocation idioms of bmap *)

Lemma ino_frame_eq w w' :
  w_ino w' = w_ino w -> forall k, exists a, w_ino w' k = with_addrs (w_ino w k) a.
Proof.
  intros H k. exists (i_addrs (w_ino w k)). rewrite H. symmetry.
  apply with_addrs_id.
Qed.

Lemma ino_frame_set w w1 ip a :
  w_ino w1 = w_ino w ->
  forall k, exists a',
    w_ino (set_ino w1 ip (with_addrs (w_ino w1 ip) a)) k = with_addrs (w_ino w k) a'.
Proof.
  intros H k. cbn. unfold upd. destruct (key_eqb ip k) eqn:E.
  - apply key_eqb_eq in E; subst k. exists a. rewrite H. reflexivity.
  - exists (i_addrs (w_ino w k)). rewrite H. symmetry. apply with_addrs_id.
Qed.

Lemma step_exn_same ip trans zd s0 w w' :
  wf w ip -> val w ip s0 = 0 ->
  w_ino w' = w_ino w -> w_buf w' = w_buf w -> w_sb w' = w_sb w ->
  w_trans w' = w_trans w ->
  (forall x, is_free (w_free w') x = true -> is_free (w_free w) x = true) ->
  step_exn ip trans zd s0 w w'.
Proof.
  intros Hwf H0 Hi Hb Hs Ht Hf.
  assert (Hv : forall s, slot_ok s -> val w' ip s = val w ip s).
  { intros s _. apply val_congr; rewrite ?Hi, ?Hb; auto. }
  split; [| split; [| split]]; auto.
  - apply (wf_shrink ip w w'); auto.
  - apply ext_same; auto.
    + intros x; rewrite Hb; reflexivity.
    + apply ino_frame_eq; auto.
Qed.

Lemma addr_or_alloc_spec ip k trans z zd s0 w :
  wf w ip -> addr_slot k s0 ->
  (is_leaf s0 = false -> z = true) ->
  (is_leaf s0 = true -> zd = true -> z = true) ->
  wp (addr_or_alloc ip k trans z) (step_post ip trans zd s0 w)
    (step_exn ip trans zd s0 w) False w.
Proof.
  intros Hwf Hk Hmeta Hleaf.
  assert (Hs0 := addr_slot_ok k s0 Hk).
  unfold addr_or_alloc. apply wp_bind, wp_rd.
  rewrite <- (addr_slot_val w ip k s0 Hk).
  destruct (Z.eqb_spec (val w ip s0) 0) as [E0 | N0].
  - apply wp_bind, wp_bind, balloc_spec.
    + apply (wf_sb w ip Hwf).
    + intros b w1 Hdev Hfree Hb32 Hf Hino Hsb Hbuf Htr.
      unfold set_addr. apply wp_modify, wp_bind, wp_rd, wp_ret.
      set (w2 := set_ino w1 ip
                   (with_addrs (w_ino w1 ip) (updz (i_addrs (w_ino w1 ip)) k b))).
      assert (Hb := wf_nonzero_free ip w b Hwf Hfree).
      assert (Hnew := wf_free_new ip w b Hwf Hfree).
      assert (Ha2 : i_addrs (w_ino w2 ip) = updz (i_addrs (w_ino w ip)) k b).
      { unfold w2; cbn. rewrite upd_same. cbn. rewrite Hino. reflexivity. }
      assert (Hbuf2 : forall x, x <> b -> w_buf w2 (fst ip, x) = w_buf w (fst ip, x)).
      { intros x Hx. unfold w2; cbn. rewrite Hbuf. destruct z; auto.
        apply upd_other. rewrite Hdev. intros Heq; inversion Heq; congruence. }
      assert (Hz2 : z = true -> w_buf w2 (fst ip, b) = zero_block).
      { intros ->. unfold w2; cbn. rewrite Hbuf, Hdev. apply upd_same. }
      destruct (val_after_addr ip w w2 k s0 b Hk E0 Hb Hnew Ha2 Hbuf2) as [Hv0 Hv].
      { intros Hl. apply Hz2, Hmeta, Hl. }
      unfold step_post. rewrite Ha2, updz_same.
      split; [auto |]. split; [auto |]. split; [| split; [| split]].
      * apply (fill_wf ip w w2 s0 b); auto.
      * apply (fill_ext ip trans zd w w2 s0 b); auto.
        unfold w2. apply ino_frame_set; auto.
      * intros N0; contradiction.
      * exact Hv.
    + intros w1 Hi Hb Hs Ht Hf. apply step_exn_same; auto.
  - apply wp_bind, wp_ret, wp_bind, wp_rd, wp_ret.
    unfold step_post. rewrite <- (addr_slot_val w ip k s0 Hk).
    split; [reflexivity |]. split; [auto |]. split; [auto |].
    split; [apply ext_refl |]. split; auto.
Qed.

Lemma entry_or_alloc_spec ip blk k trans z zd s0 w :
  wf w ip -> ent_slot w ip blk k s0 -> blk <> 0 ->
  (is_leaf s0 = false -> z = true) ->
  (is_leaf s0 = true -> zd = true -> z = true) ->
  wp (entry_or_alloc (fst ip, blk) k trans z) (step_post ip trans zd s0 w)
    (step_exn ip trans zd s0 w) False w.
Proof.
  intros Hwf Hk Hblk Hmeta Hleaf.
  assert (Hs0 := ent_slot_ok w ip blk k s0 Hk).
  assert (Hval : val w ip s0 = u32_at (w_buf w (fst ip, blk)) k).
  { rewrite (ent_slot_val w ip blk k s0 Hk). apply rdent_nz; auto. }
  unfold entry_or_alloc. apply wp_bind. unfold rd_u32 at 1. unfold wp at 1.
  rewrite <- Hval.
  destruct (Z.eqb_spec (val w ip s0) 0) as [E0 | N0].
  - apply wp_bind, wp_bind, balloc_spec.
    + apply (wf_sb w ip Hwf).
    + intros b w1 Hdev Hfree Hb32 Hf Hino Hsb Hbuf Htr. cbn [fst] in Hdev, Hbuf.
      assert (Hb := wf_nonzero_free ip w b Hwf Hfree).
      assert (Hnew := wf_free_new ip w b Hwf Hfree).
      assert (Hbb : blk <> b).
      { destruct Hk; apply Hnew; simpl; auto. }
      set (w2 := set_buf w1 (fst ip, blk) (u32_put (w_buf w1 (fst ip, blk)) k b)).
      assert (Hput : w_buf w2 (fst ip, blk) = u32_put (w_buf w (fst ip, blk)) k b).
      { unfold w2; cbn. rewrite upd_same. f_equal. rewrite Hbuf.
        destruct z; auto. apply upd_other. intros Heq; inversion Heq; congruence. }
      assert (Hbuf2 : forall x, x <> b -> x <> blk ->
                        w_buf w2 (fst ip, x) = w_buf w (fst ip, x)).
      { intros x Hx Hxb. unfold w2; cbn.
        rewrite upd_other by (intros Heq; inversion Heq; congruence).
        rewrite Hbuf. destruct z; auto.
        apply upd_other. intros Heq; inversion Heq; congruence. }
      assert (Hz2 : z = true -> w_buf w2 (fst ip, b) = zero_block).
      { intros ->. unfold w2; cbn.
        rewrite upd_other by (intros Heq; inversion Heq; congruence).
        rewrite Hbuf. apply upd_same. }
      assert (Ha2 : i_addrs (w_ino w2 ip) = i_addrs (w_ino w ip)).
      { unfold w2; cbn. rewrite Hino. reflexivity. }
      destruct (val_after_entry ip w w2 blk k s0 b Hwf Hk Hblk E0 Hb Hb32 Hnew
                  Ha2 Hput Hbuf2) as [Hv0 Hv].
      { intros Hl. apply Hz2, Hmeta, Hl. }
      assert (Hfin : forall w3,
                 w_ino w3 = w_ino w2 -> w_buf w3 = w_buf w2 ->
                 w_free w3 = w_free w2 -> w_sb w3 = w_sb w2 ->
                 (trans = NULL -> w_trans w3 = w_trans w2) ->
                 step_post ip trans zd s0 w (u32_at (w_buf w3 (fst ip, blk)) k) w3).
      { intros w3 Hi3 Hb3 Hf3 Hs3 Ht3.
        assert (Hv3 : forall s, val w3 ip s = val w2 ip s).
        { intros s. apply val_congr; rewrite ?Hi3, ?Hb3; auto. }
        unfold step_post. rewrite Hb3, Hput, u32_at_put_same by exact Hb32.
        rewrite Hv3, Hv0.
        split; [auto |]. split; [auto |]. split; [| split; [| split]].
        - apply (fill_wf ip w w3 s0 b); auto.
          + intros x; rewrite Hf3; unfold w2; cbn; apply Hf.
          + rewrite Hv3; auto.
          + intros s Hs Hne; rewrite Hv3; auto.
          + rewrite Hs3; unfold w2; cbn; auto.
        - apply (fill_ext ip trans zd w w3 s0 b); auto.
          + intros x; rewrite Hf3; unfold w2; cbn; apply Hf.
          + rewrite Hv3; auto.
          + intros s Hs Hne; rewrite Hv3; auto.
          + rewrite Hs3; unfold w2; cbn; auto.
          + apply ino_frame_eq. rewrite Hi3; unfold w2; cbn; auto.
          + intros Ht. rewrite Ht3 by auto. unfold w2; cbn; auto.
          + intros x Hx Hm. rewrite Hb3. apply Hbuf2; auto.
            intros ->. destruct Hk.
            * apply (Hm SInd); simpl; auto.
            * apply (Hm SDbl); simpl; auto.
            * apply (Hm (SL1 i)); simpl; auto.
          + intros Hl Hz. rewrite Hb3. apply Hz2; auto.
        - intros N0; contradiction.
        - intros s Hs Hne; rewrite Hv3; auto. }
      unfold wr_u32, wp at 1. fold w2.
      destruct trans; cbn [is_trans when].
      * apply wp_bind, wp_ret. unfold rd_u32, wp. apply Hfin; auto.
      * apply wp_bind. unfold add_to_transaction. apply wp_modify.
        unfold rd_u32, wp. apply Hfin; auto. discriminate.
    + intros w1 Hi Hb Hs Ht Hf. apply step_exn_same; auto.
  - apply wp_bind, wp_ret. unfold rd_u32, wp.
    unfold step_post. rewrite <- Hval.
    split; [reflexivity |]. split; [auto |]. split; [auto |].
    split; [apply ext_refl |]. split; auto.
Qed.

(** ** bmap *)

Lemma leaf_ok bn : params_ok -> 0 <= bn < MAXFILE -> slot_ok (leaf bn).
Proof.
  intros (HB & HD & HI & _) Hbn. unfold leaf, MAXFILE in *.
  destruct (Z.ltb_spec bn NDIRECT); [simpl; lia |].
  destruct (Z.ltb_spec (bn - NDIRECT) NINDIRECT); [simpl; lia |].
  simpl. split.
  - split; [apply Z.div_pos; lia |]. apply Z.div_lt_upper_bound; lia.
  - apply Z.mod_pos_bound; lia.
Qed.

Lemma leaf_is_leaf bn : is_leaf (leaf bn) = true.
Proof.
  unfold leaf. destruct (bn <? NDIRECT); auto.
  destruct (bn - NDIRECT <? NINDIRECT); auto.
Qed.

Lemma rdent_parent_nz w dev blk idx : rdent w dev blk idx <> 0 -> blk <> 0.
Proof. intros H ->. apply H. reflexivity. Qed.

Lemma leaf_direct bn : bn < NDIRECT -> leaf bn = SDirect bn.
Proof. intros H; unfold leaf. destruct (Z.ltb_spec bn NDIRECT); [auto | lia]. Qed.

Lemma leaf_ind bn :
  NDIRECT <= bn -> bn - NDIRECT < NINDIRECT -> leaf bn = SIndE (bn - NDIRECT).
Proof.
  intros H1 H2; unfold leaf. destruct (Z.ltb_spec bn NDIRECT); [lia |].
  destruct (Z.ltb_spec (bn - NDIRECT) NINDIRECT); [auto | lia].
Qed.

Lemma leaf_dbl bn :
  NDIRECT <= bn -> NINDIRECT <= bn - NDIRECT ->
  leaf bn = SL2 ((bn - NDIRECT - NINDIRECT) / NINDIRECT)
                ((bn - NDIRECT - NINDIRECT) mod NINDIRECT).
Proof.
  intros H1 H2; unfold leaf. destruct (Z.ltb_spec bn NDIRECT); [lia |].
  destruct (Z.ltb_spec (bn - NDIRECT) NINDIRECT); [lia | auto].
Qed.

Lemma ext_zero_back ip trans z w w' s :
  ext ip trans z w w' -> slot_ok s -> val w' ip s = 0 -> val w ip s = 0.
Proof.
  intros He Hs H0. destruct (Z.eq_dec (val w ip s) 0) as [E | N]; auto.
  rewrite (ext_val ip trans z w w' He s Hs N) in H0. contradiction.
Qed.

Lemma bmap_spec ip bn trans z w :
  params_ok -> wf w ip -> 0 <= bn < MAXFILE -> is_u32 bn ->
  wp (bmap ip bn trans z) (bmap_post ip trans z bn w) (bmap_exn ip trans z bn w)
    False w.
Proof.
  intros Hp Hwf Hbn Hu.
  assert (Hp' := Hp). destruct Hp' as (HB & HD & HI & _).
  unfold bmap, bmap_post, bmap_exn, MAXFILE in *.
  destruct (Z.ltb_spec bn NDIRECT) as [Hd | Hd]; cbv iota.
  { (* direct *)
    rewrite (leaf_direct bn Hd).
    eapply wp_mono;
      [apply (addr_or_alloc_spec ip bn trans z z (SDirect bn) w); auto;
       first [constructor; lia | simpl; discriminate] | | | tauto].
    - intros r w1 (Hr & Hnz & Hwf1 & Hext & Hid & Hoth).
      split; [auto |]. split; [auto |]. split; [auto |]. split; [auto |].
      split; auto.
    - intros w1 (Hwf1 & Hext & Hv & H0). split; [| split; [| split]]; auto. }
  rewrite (u32_small (bn - NDIRECT)) by pow_lia.
  destruct (Z.ltb_spec (bn - NDIRECT) NINDIRECT) as [Hi | Hi]; cbv iota.
  { (* singly indirect *)
    rewrite (leaf_ind bn Hd Hi).
    apply wp_bind.
    eapply wp_mono;
      [apply (addr_or_alloc_spec ip NDIRECT trans true z SInd w); auto;
       first [constructor; lia | simpl; discriminate] | | | tauto].
    - intros ind w1 (Hr & Hnz & Hwf1 & Hext1 & Hid1 & Hoth1). subst ind.
      eapply wp_mono;
        [apply (entry_or_alloc_spec ip (val w1 ip SInd) (bn - NDIRECT) trans z z
                  (SIndE (bn - NDIRECT)) w1); auto;
         first [constructor; lia | simpl; discriminate] | | | tauto].
      + intros r w2 (Hr & Hnz2 & Hwf2 & Hext2 & Hid2 & Hoth2).
        split; [auto |]. split; [auto |]. split; [auto |].
        split; [apply (ext_trans_ ip trans z w w1 w2); auto |]. split.
        * intros Hv. assert (w1 = w).
          { apply Hid1. exact (rdent_parent_nz _ _ _ _ Hv). }
          subst w1. apply Hid2; auto.
        * intros s Hs Hl Hne. rewrite Hoth2 by auto. apply Hoth1; auto.
          intros ->; discriminate.
      + intros w2 (Hwf2 & Hext2 & Hv2 & H02).
        split; [auto |]. split; [apply (ext_trans_ ip trans z w w1 w2); auto |].
        split.
        * intros s Hs Hl. rewrite Hv2 by auto. apply Hoth1; auto.
          intros ->; discriminate.
        * apply (ext_zero_back ip trans z w w1); simpl; auto; lia.
    - intros w1 (Hwf1 & Hext & Hv & H0). split; [| split; [| split]]; auto.
      simpl in *. rewrite H0. reflexivity. }
  (* doubly indirect *)
  rewrite (leaf_dbl bn Hd Hi).
  rewrite (u32_small (bn - NDIRECT - NINDIRECT)) by pow_lia.
  destruct (Z.geb_spec (bn - NDIRECT - NINDIRECT) (NINDIRECT * NINDIRECT));
    [lia |]; cbv iota.
  set (b2 := bn - NDIRECT - NINDIRECT) in *.
  assert (Hq : 0 <= b2 / NINDIRECT < NINDIRECT).
  { split; [apply Z.div_pos; lia |]. apply Z.div_lt_upper_bound; lia. }
  assert (Hm : 0 <= b2 mod NINDIRECT < NINDIRECT) by (apply Z.mod_pos_bound; lia).
  apply wp_bind.
  eapply wp_mono;
    [apply (addr_or_alloc_spec ip (NDIRECT + 1) trans true z SDbl w); auto;
     first [constructor; lia | simpl; discriminate] | | | tauto].
  - intros dbl w1 (Hr & Hnz & Hwf1 & Hext1 & Hid1 & Hoth1). subst dbl.
    apply wp_bind.
    eapply wp_mono;
      [apply (entry_or_alloc_spec ip (val w1 ip SDbl) (b2 / NINDIRECT) trans true z
                (SL1 (b2 / NINDIRECT)) w1); auto;
       first [constructor; lia | simpl; discriminate] | | | tauto].
    + intros l w2 (Hr & Hnz2 & Hwf2 & Hext2 & Hid2 & Hoth2). subst l.
      eapply wp_mono;
        [apply (entry_or_alloc_spec ip (val w2 ip (SL1 (b2 / NINDIRECT)))
                  (b2 mod NINDIRECT) trans z z
                  (SL2 (b2 / NINDIRECT) (b2 mod NINDIRECT)) w2); auto;
         first [constructor; lia | simpl; discriminate] | | | tauto].
      * intros r w3 (Hr & Hnz3 & Hwf3 & Hext3 & Hid3 & Hoth3).
        split; [auto |]. split; [auto |]. split; [auto |].
        split; [apply (ext_trans_ ip trans z w w1 w3); auto;
                apply (ext_trans_ ip trans z w1 w2 w3); auto |]. split.
        -- intros Hv. assert (w1 = w).
           { apply Hid1. eapply rdent_parent_nz, rdent_parent_nz, Hv. }
           subst w1. assert (w2 = w).
           { apply Hid2. eapply rdent_parent_nz, Hv. }
           subst w2. apply Hid3; auto.
        -- intros s Hs Hl Hne. rewrite Hoth3 by auto.
           rewrite Hoth2 by (auto; intros ->; discriminate).
           apply Hoth1; auto. intros ->; discriminate.
      * intros w3 (Hwf3 & Hext3 & Hv3 & H03).
        assert (He13 : ext ip trans z w w2)
          by (apply (ext_trans_ ip trans z w w1 w2); auto).
        split; [auto |].
        split; [apply (ext_trans_ ip trans z w w2 w3); auto |].
        split.
        -- intros s Hs Hl. rewrite Hv3 by auto.
           rewrite Hoth2 by (auto; intros ->; discriminate).
           apply Hoth1; auto. intros ->; discriminate.
        -- apply (ext_zero_back ip trans z w w2); simpl; auto; lia.
    + intros w2 (Hwf2 & Hext2 & Hv2 & H02).
      split; [auto |]. split; [apply (ext_trans_ ip trans z w w1 w2); auto |].
      split.
      * intros s Hs Hl. rewrite Hv2 by auto. apply Hoth1; auto.
        intros ->; discriminate.
      * assert (H0 : val w ip (SL1 (b2 / NINDIRECT)) = 0)
          by (apply (ext_zero_back ip trans z w w1); simpl; auto; lia).
        simpl in *. rewrite H0. reflexivity.
  - intros w1 (Hwf1 & Hext & Hv & H0). split; [| split; [| split]]; auto.
    simpl in *. rewrite H0. reflexivity.
Qed.

(** ** What bmap leaves alone in the inodes *)

Lemma ino_frame_refl w : ino_frame w w.
Proof. unfold ino_frame; apply ino_frame_eq; reflexivity. Qed.

Lemma ino_frame_trans w w1 w2 : ino_frame w w1 -> ino_frame w1 w2 -> ino_frame w w2.
Proof.
  intros H1 H2 k. destruct (H1 k) as [a1 E1], (H2 k) as [a2 E2].
  exists a2. rewrite E2, E1. reflexivity.
Qed.

Lemma balloc_frame dev trans z w :
  wp (balloc dev trans z) (fun _ w' => w_ino w' = w_ino w)
    (fun w' => w_ino w' = w_ino w) True w.
Proof.
  unfold balloc. destruct (dev =? 1); [| reflexivity].
  unfold wp, bind, alloc_block, get.
  destruct (first_free (w_free w)); cbn.
  - destruct (_ <? _); cbn; auto. destruct trans, z; cbn; auto.
  - destruct (_ <? _); cbn; auto. destruct trans, z; cbn; auto.
Qed.

Lemma addr_or_alloc_frame ip k trans z w :
  wp (addr_or_alloc ip k trans z) (fun _ w' => ino_frame w w')
    (fun w' => ino_frame w w') True w.
Proof.
  unfold addr_or_alloc. apply wp_bind, wp_rd.
  destruct (_ =? 0).
  - apply wp_bind, wp_bind.
    eapply wp_mono; [apply balloc_frame | | | auto].
    + intros b w1 Hi. unfold set_addr. apply wp_modify, wp_bind, wp_rd, wp_ret.
      unfold ino_frame; apply ino_frame_set; auto.
    + intros w1 Hi. unfold ino_frame; apply ino_frame_eq; auto.
  - apply wp_bind, wp_ret, wp_bind, wp_rd, wp_ret, ino_frame_refl.
Qed.

Lemma entry_or_alloc_frame bp k trans z w :
  wp (entry_or_alloc bp k trans z) (fun _ w' => ino_frame w w')
    (fun w' => ino_frame w w') True w.
Proof.
  unfold entry_or_alloc. apply wp_bind. unfold rd_u32 at 1, wp at 1.
  destruct (_ =? 0).
  - apply wp_bind, wp_bind.
    eapply wp_mono; [apply balloc_frame | | | auto].
    + intros b w1 Hi. cbv beta in *.
      unfold wp, bind, wr_u32, when, rd_u32, add_to_transaction, modify, ret.
      destruct trans; cbn; unfold ino_frame; apply ino_frame_eq; auto.
    + intros w1 Hi. unfold ino_frame; apply ino_frame_eq; auto.
  - apply wp_bind, wp_ret. unfold rd_u32, wp. apply ino_frame_refl.
Qed.

Lemma wp_frame_step {A B} (m : M A) (k : A -> M B) (R : world -> world -> Prop) w :
  (forall w1 w2 w3, R w1 w2 -> R w2 w3 -> R w1 w3) ->
  wp m (fun _ w' => R w w') (fun w' => R w w') True w ->
  (forall a w1, wp (k a) (fun _ w' => R w1 w') (fun w' => R w1 w') True w1) ->
  wp (bind m k) (fun _ w' => R w w') (fun w' => R w w') True w.
Proof.
  intros Ht Hm Hk. apply wp_bind.
  eapply wp_mono; [exact Hm | | auto | auto].
  intros a w1 H1. cbv beta.
  eapply wp_mono; [apply Hk | | | auto]; cbv beta.
  - intros _ w2 H2. exact (Ht w w1 w2 H1 H2).
  - intros w2 H2. exact (Ht w w1 w2 H1 H2).
Qed.

Lemma bmap_frame ip bn trans z w :
  wp (bmap ip bn trans z) (fun _ w' => ino_frame w w')
    (fun w' => ino_frame w w') True w.
Proof.
  unfold bmap. destruct (_ <? _); [apply addr_or_alloc_frame |].
  destruct (_ <? _).
  - apply wp_frame_step; [apply ino_frame_trans | apply addr_or_alloc_frame |].
    intros; apply entry_or_alloc_frame.
  - destruct (_ >=? _); [exact I |].
    apply wp_frame_step; [apply ino_frame_trans | apply addr_or_alloc_frame |].
    intros. apply wp_frame_step; [apply ino_frame_trans | apply entry_or_alloc_frame |].
    intros; apply entry_or_alloc_frame.
Qed.

(** ** The loops of readi and writei *)

Lemma round_len n tot off :
  params_ok -> is_u32 n -> 0 <= tot < n -> 0 <= off ->
  Z.min (u32 (n - tot)) (u32 (BSIZE - off mod BSIZE))
  = Z.min (n - tot) (BSIZE - off mod BSIZE) /\
  1 <= Z.min (n - tot) (BSIZE - off mod BSIZE) <= n - tot.
Proof.
  intros (HB & _) Hn Ht Ho.
  pose proof (Z.mod_pos_bound off BSIZE (proj1 HB)).
  rewrite !u32_small by pow_lia. lia.
Qed.

Lemma writei_loop_rule ip src off0 n trans wb
  (I B : Z -> world -> Prop) (X : Prop) :
  params_ok -> is_u32 n -> 0 <= off0 -> off0 + n < 2 ^ 32 ->
  (forall tot w, 0 <= tot < n -> I tot w ->
     wp (writei_round ip src tot tot (off0 + tot) n trans wb)
       (fun r w' =>
          match r with
          | Some m => m = Z.min (n - tot) (BSIZE - (off0 + tot) mod BSIZE)
                      /\ I (tot + m) w'
          | None => B tot w'
          end)
       (fun _ => False) X w) ->
  forall fuel tot w,
    0 <= tot <= n -> (Z.to_nat (n - tot) <= fuel)%nat -> I tot w ->
    wp (writei_loop fuel ip src tot tot (off0 + tot) n trans wb)
      (fun r w' =>
         (r = n /\ I n w') \/
         (exists t, 0 <= t < n /\ r = (if t =? 0 then u32 (-1) else t) /\ B t w'))
      (fun _ => False) X w.
Proof.
  intros Hp Hn Ho Hon Hround.
  induction fuel as [| fuel IH]; intros tot w Ht Hf HI;
    cbn [writei_loop]; destruct (Z.ltb_spec tot n) as [Hlt | Hge].
  - lia.
  - apply wp_ret. left. split; [lia |]. replace n with tot by lia. exact HI.
  - apply wp_bind.
    eapply wp_mono; [apply (Hround tot w); [lia | exact HI] | | auto | auto].
    intros [m |] w1; cbv beta iota.
    + intros [Hm HI1].
      assert (Hlt' : 0 <= tot < n) by lia. assert (Hot : 0 <= off0 + tot) by lia.
      destruct (round_len n tot (off0 + tot) Hp Hn Hlt' Hot) as [_ Hb].
      rewrite <- Hm in Hb.
      rewrite (u32_small (tot + m)), (u32_small (off0 + tot + m)) by pow_lia.
      replace (off0 + tot + m) with (off0 + (tot + m)) by lia.
      apply IH; auto; lia.
    + intros HB. apply wp_ret. right. exists tot. split; [lia | auto].
  - apply wp_ret. left. split; [lia |]. replace n with tot by lia. exact HI.
Qed.

Lemma readi_loop_rule ip off0 n (I : Z -> block -> world -> Prop) (X : Prop) :
  params_ok -> is_u32 n -> 0 <= off0 -> off0 + n < 2 ^ 32 ->
  (forall tot dst w, 0 <= tot < n -> I tot dst w ->
     wp (readi_round ip dst tot tot (off0 + tot) n)
       (fun r w' =>
          fst r = Z.min (n - tot) (BSIZE - (off0 + tot) mod BSIZE)
          /\ I (tot + fst r) (snd r) w')
       (fun _ => False) X w) ->
  forall fuel tot dst w,
    0 <= tot <= n -> (Z.to_nat (n - tot) <= fuel)%nat -> I tot dst w ->
    wp (readi_loop fuel ip dst tot tot (off0 + tot) n)
      (fun dst' w' => I n dst' w') (fun _ => False) X w.
Proof.
  intros Hp Hn Ho Hon Hround.
  induction fuel as [| fuel IH]; intros tot dst w Ht Hf HI;
    cbn [readi_loop]; destruct (Z.ltb_spec tot n) as [Hlt | Hge].
  - lia.
  - apply wp_ret. replace n with tot by lia. exact HI.
  - apply wp_bind.
    eapply wp_mono; [apply (Hround tot dst w); [lia | exact HI] | | auto | auto].
    intros [m dst1] w1; cbn [fst snd]. intros [Hm HI1].
    assert (Hlt' : 0 <= tot < n) by lia. assert (Hot : 0 <= off0 + tot) by lia.
    destruct (round_len n tot (off0 + tot) Hp Hn Hlt' Hot) as [_ Hb].
    rewrite <- Hm in Hb.
    rewrite (u32_small (tot + m)), (u32_small (off0 + tot + m)) by pow_lia.
    replace (off0 + tot + m) with (off0 + (tot + m)) by lia.
    apply IH; auto; lia.
  - apply wp_ret. replace n with tot by lia. exact HI.
Qed.

(** A block map without blocks is consistent. *)
Lemma wf_empty w ip :
  (forall i, i_addrs (w_ino w ip) i = 0) ->
  is_free (w_free w) 0 = false -> sb_size (w_sb w) <= 2 ^ 32 ->
  wf w ip.
Proof.
  intros Ha Hz Hsb.
  assert (Hv : forall s, val w ip s = 0).
  { intros [i | | j | | i | i j]; simpl; rewrite ?Ha; reflexivity. }
  constructor; auto.
  - intros s1 s2 _ _ H. rewrite Hv in H. congruence.
  - intros s _ H. rewrite Hv in H. congruence.
Qed.

(** ** Counting the free blocks *)

Lemma first_free_count v : forall sz i,
  first_free v = Some i ->
  ((i < sz)%nat ->
   S (List.length (filter (fun x : bool => x) (firstn sz (set_bit v i false))))
   = List.length (filter (fun x : bool => x) (firstn sz v))) /\
  ((sz <= i)%nat ->
   List.length (filter (fun x : bool => x) (firstn sz v)) = 0%nat).
Proof.
  induction v as [| x v IH]; intros sz i H; [discriminate |].
  cbn [first_free] in H. destruct x.
  - injection H as <-. split; intros Hs.
    + destruct sz; [lia |]. reflexivity.
    + replace sz with 0%nat by lia. reflexivity.
  - destruct (first_free v) as [k |] eqn:E; [| discriminate].
    injection H as <-. destruct sz as [| sz].
    + split; intros Hs; [lia | reflexivity].
    + destruct (IH sz k eq_refl) as [H1 H2]. cbn. split; intros Hs.
      * apply H1. lia.
      * apply H2. lia.
Qed.

Lemma first_free_none_count v : forall sz,
  first_free v = None ->
  List.length (filter (fun x : bool => x) (firstn sz v)) = 0%nat.
Proof.
  induction v as [| x v IH]; intros sz H.
  - destruct sz; reflexivity.
  - cbn [first_free] in H. destruct x; [discriminate |].
    destruct (first_free v) eqn:E; [discriminate |].
    destruct sz; [reflexivity |]. cbn. apply IH. reflexivity.
Qed.

Lemma balloc_count dev trans z w :
  wp (balloc dev trans z)
    (fun _ w' => spent 1 w w') (fun _ => nfree w < 1 \/ dev <> 1) True w.
Proof.
  unfold balloc. destruct (Z.eqb_spec dev 1) as [-> | Nd];
    [| unfold wp, throw; auto].
  unfold wp, bind, alloc_block, get.
  destruct (first_free (w_free w)) as [i |] eqn:Ef; cbn.
  - destruct (first_free_count (w_free w) (Z.to_nat (sb_size (w_sb w))) i Ef)
      as [H1 H2].
    destruct (Z.ltb_spec (Z.of_nat i) (sb_size (w_sb w))) as [L | G].
    + assert (Hs : spent 1 w (set_free w (set_bit (w_free w) i false))).
      { split; [| reflexivity]. unfold nfree. cbn. rewrite <- H1 by lia. lia. }
      destruct trans, z; cbn; exact Hs.
    + left. unfold nfree. rewrite H2 by lia. lia.
  - rewrite Z.ltb_irrefl. cbn. left. unfold nfree.
    rewrite first_free_none_count by auto. lia.
Qed.

Lemma spent_trans a b w w1 w2 :
  spent a w w1 -> spent b w1 w2 -> spent (a + b) w w2.
Proof. intros [H1 S1] [H2 S2]. split; [lia | congruence]. Qed.

Lemma spent_same (k : Z) w w' :
  0 <= k -> w_free w' = w_free w -> w_sb w' = w_sb w -> spent k w w'.
Proof. intros Hk Hf Hs. split; [| exact Hs]. unfold nfree. rewrite Hf, Hs. lia. Qed.

Lemma spent_more a b w w' : a <= b -> spent a w w' -> spent b w w'.
Proof. intros Hab [H S]. split; [lia | exact S]. Qed.

Lemma wp_spent_step {A B} (m : M A) (k : A -> M B) a b (dev : Z) w :
  0 <= b ->
  wp m (fun _ w1 => spent a w w1) (fun _ => nfree w < a \/ dev <> 1) True w ->
  (forall x w1,
      wp (k x) (fun _ w' => spent b w1 w')
        (fun _ => nfree w1 < b \/ dev <> 1) True w1) ->
  wp (bind m k) (fun _ w' => spent (a + b) w w')
    (fun _ => nfree w < a + b \/ dev <> 1) True w.
Proof.
  intros Hb Hm Hk. apply wp_bind.
  eapply wp_mono; [exact Hm | | | auto]; cbv beta.
  - intros x w1 H1.
    eapply wp_mono; [apply Hk | | | auto]; cbv beta.
    + intros _ w2 H2. apply (spent_trans a b w w1 w2); auto.
    + intros _ [H | H]; [left | right; exact H]. destruct H1 as [H1 _]. lia.
  - intros _ [H | H]; [left; lia | right; exact H].
Qed.

Lemma addr_or_alloc_count ip k trans z w :
  wp (addr_or_alloc ip k trans z)
    (fun _ w' => spent 1 w w') (fun _ => nfree w < 1 \/ fst ip <> 1) True w.
Proof.
  unfold addr_or_alloc. apply wp_bind, wp_rd.
  destruct (_ =? 0).
  - apply wp_bind, wp_bind.
    eapply wp_mono; [apply balloc_count | | auto | auto]; cbv beta.
    intros b w1 Hs. unfold set_addr.
    apply wp_modify, wp_bind, wp_rd, wp_ret.
    destruct Hs as [H1 H2]. split; [exact H1 | exact H2].
  - apply wp_bind, wp_ret, wp_bind, wp_rd, wp_ret.
    apply spent_same; auto. lia.
Qed.

Lemma entry_or_alloc_count bp k trans z w :
  wp (entry_or_alloc bp k trans z)
    (fun _ w' => spent 1 w w') (fun _ => nfree w < 1 \/ fst bp <> 1) True w.
Proof.
  unfold entry_or_alloc. apply wp_bind. unfold rd_u32 at 1, wp at 1.
  destruct (_ =? 0).
  - apply wp_bind, wp_bind.
    eapply wp_mono; [apply balloc_count | | auto | auto]; cbv beta.
    intros b w1 [H1 H2].
    unfold wp, bind, wr_u32, when, rd_u32, add_to_transaction, modify, ret.
    destruct trans; cbn; (split; [exact H1 | exact H2]).
  - apply wp_bind, wp_ret. unfold rd_u32, wp.
    apply spent_same; auto. lia.
Qed.

Lemma bmap_count ip bn trans z w :
  wp (bmap ip bn trans z)
    (fun _ w' => spent 3 w w') (fun _ => nfree w < 3 \/ fst ip <> 1) True w.
Proof.
  unfold bmap. destruct (_ <? _).
  - eapply wp_mono; [apply addr_or_alloc_count | | | auto]; cbv beta.
    + intros _ w1 H. apply (spent_more 1 3); auto. lia.
    + intros _ [H | H]; [left; lia | right; exact H].
  - destruct (_ <? _).
    + eapply wp_mono;
        [apply (wp_spent_step _ _ 1 1 (fst ip));
         [lia | apply addr_or_alloc_count |
          intros ind w1; exact (entry_or_alloc_count (fst ip, ind) _ _ _ w1)]
        | | | auto]; cbv beta.
      * intros _ w1 H. apply (spent_more (1 + 1) 3); auto. lia.
      * intros _ [H | H]; [left; lia | right; exact H].
    + destruct (_ >=? _); [exact I |].
      apply (wp_spent_step _ _ 1 (1 + 1) (fst ip));
        [lia | apply addr_or_alloc_count |].
      intros dbl w1.
      apply (wp_spent_step _ _ 1 1 (fst ip));
        [lia | exact (entry_or_alloc_count (fst ip, dbl) _ _ _ w1) |].
      intros snd_level w2.
      exact (entry_or_alloc_count (fst ip, snd_level) _ _ _ w2).
Qed.

Lemma wp_conj {A} (m : M A) Q1 Q2 E1 E2 (X1 X2 : Prop) w :
  wp m Q1 E1 X1 w -> wp m Q2 E2 X2 w ->
  wp m (fun a w' => Q1 a w' /\ Q2 a w') (fun w' => E1 w' /\ E2 w')
    (X1 /\ X2) w.
Proof. unfold wp. destruct (m w); auto. Qed.

(** ** writei does not touch the size *)

Lemma bmap_out_of_range ip bn trans z w :
  params_ok -> is_u32 bn -> MAXFILE <= bn -> bmap ip bn trans z w = Panic.
Proof.
  intros (HB & HD & HI & _) Hu Hbn. unfold bmap, MAXFILE in *.
  destruct (Z.ltb_spec bn NDIRECT); [nia |].
  rewrite (u32_small (bn - NDIRECT)) by pow_lia.
  destruct (Z.ltb_spec (bn - NDIRECT) NINDIRECT); [nia |].
  rewrite (u32_small (bn - NDIRECT - NINDIRECT)) by pow_lia.
  destruct (Z.geb_spec (bn - NDIRECT - NINDIRECT) (NINDIRECT * NINDIRECT));
    [reflexivity | lia].
Qed.

Lemma ino_frame_size w w' k : ino_frame w w' -> i_size (w_ino w' k) = i_size (w_ino w k).
Proof. intros H. destruct (H k) as [a ->]. reflexivity. Qed.


Lemma no_overflow off n :
  is_u32 off -> is_u32 n -> ~ u32 (off + n) < off -> off + n < 2 ^ 32.
Proof.
  intros Ho Hn H. destruct (Z_lt_ge_dec (off + n) (2 ^ 32)) as [L | G]; auto.
  exfalso. apply H. unfold u32.
  replace (off + n) with (off + n - 2 ^ 32 + 1 * 2 ^ 32) by lia.
  rewrite Z.mod_add by pow_lia. rewrite Z.mod_small; pow_lia.
Qed.


Lemma writei_round_frame ip src spos tot off n trans wb w :
  wp (writei_round ip src spos tot off n trans wb)
    (fun r w' =>
       ino_frame w w' /\
       match r with
       | Some m => m = Z.min (u32 (n - tot)) (u32 (BSIZE - off mod BSIZE))
       | None => True
       end)
    (fun _ => False) True w.
Proof.
  unfold writei_round. apply wp_bind, wp_catch, wp_bind.
  eapply wp_mono; [apply bmap_frame | | | auto]; cbv beta.
  - intros b w1 Hf. apply wp_ret.
    unfold wp, bind, buf_data, buf_store, when, add_to_transaction, writeback_async,
      writeback, modify, ret.
    destruct trans, wb; cbn; (split; [| reflexivity]);
      (eapply ino_frame_trans; [exact Hf |]);
      unfold ino_frame; apply ino_frame_eq; reflexivity.
  - intros w1 Hf. apply wp_ret, wp_ret. auto.
Qed.

Lemma writei_frame ip src off n trans wb w :
  params_ok -> is_u32 off -> is_u32 n ->
  wp (writei ip src off n trans wb) (fun _ w' => ino_frame w w')
    (fun _ => False) True w.
Proof.
  intros Hp Ho Hn. assert (Hp' := Hp). destruct Hp' as (HB & HD & HI & _).
  unfold writei. apply wp_bind, wp_rd.
  destruct (itype_eqb _ _); [apply wp_ret, ino_frame_refl |].
  destruct (Z.ltb_spec (u32 (off + n)) off) as [Hov | Hov];
    [apply wp_ret, ino_frame_refl |].
  assert (Hsum : off + n < 2 ^ 32) by (apply no_overflow; auto; lia).
  rewrite (u32_small (off + n)) by pow_lia.
  assert (Hloop : forall n', is_u32 n' -> off + n' < 2 ^ 32 ->
            wp (writei_loop (Z.to_nat n') ip src 0 0 off n' trans wb)
              (fun _ w' => ino_frame w w') (fun _ => False) True w).
  { intros n' Hn' Hs.
    replace off with (off + 0) at 1 by lia.
    eapply wp_mono;
      [apply (writei_loop_rule ip src off n' trans wb
                (fun _ w' => ino_frame w w') (fun _ w' => ino_frame w w') True);
       auto; try pow_lia | | auto | auto].
    - intros tot w1 Ht Hf.
      eapply wp_mono; [apply writei_round_frame | | auto | auto].
      intros [m |] w2 [Hf2 Hm]; cbv beta iota.
      + split; [| eapply ino_frame_trans; eauto].
        rewrite Hm. apply round_len; auto; pow_lia.
      + eapply ino_frame_trans; eauto.
    - apply ino_frame_refl.
    - cbv beta. intros r w1 [[_ H] | (t & _ & _ & H)]; exact H. }
  apply wp_bind.
  destruct (Z.gtb_spec (off + n) (MAXFILE * BSIZE)) as [Hbig | Hsmall].
  - destruct (Z_le_gt_dec off (MAXFILE * BSIZE)) as [Hin | Hout].
    + rewrite (u32_small (MAXFILE * BSIZE - off)) by pow_lia.
      eapply wp_mono; [apply Hloop; pow_lia | | auto | auto].
      intros r w1 H. apply wp_ret. exact H.
    + assert (Hm : 0 <= MAXFILE * BSIZE) by (unfold MAXFILE; nia).
      assert (Hn' : u32 (MAXFILE * BSIZE - off) = MAXFILE * BSIZE - off + 2 ^ 32).
      { unfold u32. symmetry. apply (Z.mod_unique _ _ (-1)); pow_lia. }
      rewrite Hn'.
      destruct (Z.to_nat (MAXFILE * BSIZE - off + 2 ^ 32)) as [| fuel] eqn:Ef;
        [pow_lia |].
      cbn [writei_loop].
      destruct (Z.ltb_spec 0 (MAXFILE * BSIZE - off + 2 ^ 32)); [| pow_lia].
      apply wp_bind. unfold writei_round. apply wp_bind, wp_catch, wp_bind.
      unfold wp at 1. rewrite bmap_out_of_range; auto.
      * split; [apply Z.div_pos; pow_lia |].
        apply Z.div_lt_upper_bound; [lia |]. pow_lia.
      * apply Z.div_le_lower_bound; lia.
  - eapply wp_mono; [apply Hloop; auto | | auto | auto].
    intros r w1 H. apply wp_ret. exact H.
Qed.

(** C8.  [writei] leaves the size of every inode as it found it, however
    many bytes it wrote and wherever the write ended: it returns (or
    halts, in [bmap]), it never lets the exception out and its loop stops.
    [update_size] is what sets [ip->size], and it flushes the inode with
    [iupdate]: the inode, with the new size, is written into its slot of
    the inode-table block, whose buffer is dirty afterwards, and with a
    transaction a snapshot of that block as it is now is appended to the
    transaction (without one nothing is logged).  Nothing else changes:
    the other fields of the inode, the other inodes, the other buffers,
    the bitmap and the superblock are as before, and [update_size] itself
    writes nothing to the disk. *)
Theorem writei_leaves_size_update_size_sets_it
  ip src off n trans wb size w :
  params_ok -> is_u32 off -> is_u32 n ->
  match writei ip src off n trans wb w with
  | Ret _ w' => forall k, i_size (w_ino w' k) = i_size (w_ino w k)
  | Throw _ => False
  | Panic => True
  | Timeout => False
  end /\
  exists w',
    update_size ip size trans w = Ret tt w' /\
    i_size (w_ino w' ip) = size /\
    w_buf w' (fst ip, IBLOCK (snd ip))
    = dinode_put (w_buf w (fst ip, IBLOCK (snd ip))) (snd ip mod IPB)
        (mk_dinode (i_type (w_ino w ip)) (i_major (w_ino w ip))
           (i_minor (w_ino w ip)) (i_nlink (w_ino w ip)) size
           (i_gen (w_ino w ip)) (i_addrs (w_ino w ip))) /\
    w_trans w'
    = (match trans with
       | TRANS =>
           add_block (w_trans w)
             (mk_tdb (IBLOCK (snd ip)) (w_buf w' (fst ip, IBLOCK (snd ip)))
                (timestamp_ (w_trans w)))
       | NULL => w_trans w
       end) /\
    w_dirty w' (fst ip, IBLOCK (snd ip)) = true /\
    w_ino w' ip = with_size (w_ino w ip) size /\
    (forall k, k <> ip -> w_ino w' k = w_ino w k) /\
    (forall k, k <> (fst ip, IBLOCK (snd ip)) ->
               w_buf w' k = w_buf w k /\ w_dirty w' k = w_dirty w k) /\
    w_io w' = w_io w /\ w_free w' = w_free w /\ w_sb w' = w_sb w.
Proof.
  intros Hp Ho Hn. split.
  - pose proof (writei_frame ip src off n trans wb w Hp Ho Hn) as H.
    unfold wp in H. destruct (writei ip src off n trans wb w); auto.
    intros k. apply ino_frame_size; auto.
  - unfold update_size, iupdate, set_size, bind, modify, rd, buf_data, buf_store,
      when, add_to_transaction.
    destruct trans; cbn [is_trans]; unfold modify, ret; eexists;
      (split; [reflexivity |]);
      cbn [w_ino w_buf w_dirty w_trans w_io w_free w_sb set_ino set_buf
             set_trans fst snd];
      rewrite !upd_same; cbn [i_size i_type i_major i_minor i_nlink i_gen
                                i_addrs with_size];
      (split; [reflexivity |]); (split; [reflexivity |]);
      (split; [reflexivity |]); (split; [reflexivity |]);
      (split; [reflexivity |]);
      (split; [intros k Hk; apply upd_other; congruence |]);
      (split; [intros k Hk; split; apply upd_other; congruence |]);
      repeat split.
Qed.

(** ** What writei puts into the file *)

Lemma same_block x d :
  0 < BSIZE -> 0 <= d < BSIZE - x mod BSIZE ->
  (x + d) / BSIZE = x / BSIZE /\ (x + d) mod BSIZE = x mod BSIZE + d.
Proof.
  intros HB Hd.
  assert (HB0 : BSIZE <> 0) by lia.
  pose proof (Z.div_mod x BSIZE HB0) as E.
  pose proof (Z.mod_pos_bound x BSIZE HB) as R.
  split.
  - symmetry. apply (Z.div_unique _ _ _ (x mod BSIZE + d)); lia.
  - symmetry. apply (Z.mod_unique _ _ (x / BSIZE)); lia.
Qed.

Lemma leaf_inj b1 b2 :
  params_ok -> 0 <= b1 < MAXFILE -> 0 <= b2 < MAXFILE ->
  leaf b1 = leaf b2 -> b1 = b2.
Proof.
  intros (HB & HD & HI & _) H1 H2. unfold leaf, MAXFILE in *.
  destruct (Z.ltb_spec b1 NDIRECT), (Z.ltb_spec b2 NDIRECT);
    try destruct (Z.ltb_spec (b1 - NDIRECT) NINDIRECT);
    try destruct (Z.ltb_spec (b2 - NDIRECT) NINDIRECT);
    intros E; inversion E; try lia.
  assert (HI0 : NINDIRECT <> 0) by lia.
  pose proof (Z.div_mod (b1 - NDIRECT - NINDIRECT) NINDIRECT HI0).
  pose proof (Z.div_mod (b2 - NDIRECT - NINDIRECT) NINDIRECT HI0).
  nia.
Qed.

Lemma block_of_offset x :
  params_ok -> 0 <= x < MAXFILE * BSIZE ->
  0 <= x / BSIZE < MAXFILE /\ is_u32 (x / BSIZE) \/ 2 ^ 32 <= x.
Proof.
  intros (HB & _) Hx.
  destruct (Z_lt_ge_dec x (2 ^ 32)) as [L | G]; [left | right; lia].
  assert (0 <= x / BSIZE) by (apply Z.div_pos; lia).
  assert (x / BSIZE < MAXFILE) by (apply Z.div_lt_upper_bound; lia).
  assert (x / BSIZE <= x) by (apply Z.div_le_upper_bound; nia).
  split; [lia | pow_lia].
Qed.

Lemma val_data_write ip w w' s0 d :
  wf w ip -> slot_ok s0 -> is_leaf s0 = true -> val w ip s0 <> 0 ->
  w_ino w' = w_ino w ->
  w_buf w' = upd (w_buf w) (fst ip, val w ip s0) d ->
  forall s, slot_ok s -> val w' ip s = val w ip s.
Proof.
  intros Hwf Hs0 Hl0 Hnz Hino Hbuf.
  assert (Hmeta : forall sm idx, slot_ok sm -> is_leaf sm = false ->
            rdent w' (fst ip) (val w ip sm) idx = rdent w (fst ip) (val w ip sm) idx).
  { intros sm idx Hsm Hlm. apply rdent_same. intros Hm.
    rewrite Hbuf. apply upd_other. intros Heq. inversion Heq as [Hv].
    assert (s0 = sm) by (apply (wf_inj w ip Hwf); auto).
    subst sm. congruence. }
  assert (H1 : forall i, val w' ip (SL1 i) = val w ip (SL1 i)).
  { intros i. change (rdent w' (fst ip) (val w' ip SDbl) i
                     = rdent w (fst ip) (val w ip SDbl) i).
    replace (val w' ip SDbl) with (val w ip SDbl) by (simpl; rewrite Hino; auto).
    apply (Hmeta SDbl); simpl; auto. }
  intros s Hs. destruct s as [i | | j | | i | i j].
  - simpl; rewrite Hino; auto.
  - simpl; rewrite Hino; auto.
  - simpl; rewrite Hino. apply (Hmeta SInd); simpl; auto.
  - simpl; rewrite Hino; auto.
  - apply H1.
  - change (rdent w' (fst ip) (val w' ip (SL1 i)) j
            = rdent w (fst ip) (val w ip (SL1 i)) j).
    rewrite H1. apply (Hmeta (SL1 i)); simpl in *; auto; lia.
Qed.

Lemma file_byte_data_write ip w w' s0 d x :
  wf w ip -> slot_ok s0 -> is_leaf s0 = true -> val w ip s0 <> 0 ->
  w_ino w' = w_ino w ->
  w_buf w' = upd (w_buf w) (fst ip, val w ip s0) d ->
  slot_ok (leaf (x / BSIZE)) ->
  file_byte w' ip x
  = if slot_eq_dec (leaf (x / BSIZE)) s0 then Some (d (x mod BSIZE))
    else file_byte w ip x.
Proof.
  intros Hwf Hs0 Hl0 Hnz Hino Hbuf Hx. unfold file_byte.
  rewrite (val_data_write ip w w' s0 d) by auto.
  destruct (slot_eq_dec (leaf (x / BSIZE)) s0) as [-> | N].
  - destruct (Z.eqb_spec (val w ip s0) 0); [contradiction |].
    rewrite Hbuf, upd_same. reflexivity.
  - destruct (Z.eqb_spec (val w ip (leaf (x / BSIZE))) 0); auto.
    rewrite Hbuf, upd_other; auto.
    intros Heq. inversion Heq as [Hv]. apply N. symmetry.
    apply (wf_inj w ip Hwf); auto.
Qed.

Lemma ext_file_byte ip trans z w w' x v :
  wf w ip -> ext ip trans z w w' -> slot_ok (leaf (x / BSIZE)) ->
  file_byte w ip x = Some v -> file_byte w' ip x = Some v.
Proof.
  intros Hwf He Hx. unfold file_byte.
  destruct (Z.eqb_spec (val w ip (leaf (x / BSIZE))) 0) as [E | N];
    [discriminate |].
  rewrite (ext_val ip trans z w w' He) by auto.
  destruct (Z.eqb_spec (val w ip (leaf (x / BSIZE))) 0); [contradiction |].
  rewrite (ext_data ip trans z w w' He); auto.
  - apply (wf_used w ip Hwf); auto.
  - intros s Hs Hl Heq.
    assert (s = leaf (x / BSIZE)) by (apply (wf_inj w ip Hwf); auto; congruence).
    subst s. rewrite leaf_is_leaf in Hl. discriminate.
Qed.

Lemma winv_start ip src off0 w : wf w ip -> winv ip src off0 w 0 w.
Proof.
  intros Hwf. split; [auto |]. split; [apply ino_frame_refl |].
  split; [auto |]. intros k Hk; lia.
Qed.

Lemma writei_round_content ip src off0 n trans wb w0 tot w :
  params_ok -> is_u32 n -> 0 <= off0 -> off0 + n < 2 ^ 32 ->
  off0 + n <= MAXFILE * BSIZE -> 0 <= tot < n ->
  winv ip src off0 w0 tot w ->
  wp (writei_round ip src tot tot (off0 + tot) n trans wb)
    (fun r w' =>
       match r with
       | Some m => m = Z.min (n - tot) (BSIZE - (off0 + tot) mod BSIZE)
                   /\ winv ip src off0 w0 (tot + m) w'
       | None => winv ip src off0 w0 tot w'
                 /\ val w0 ip (leaf ((off0 + tot) / BSIZE)) = 0
       end)
    (fun _ => False) False w.
Proof.
  intros Hp Hn Ho Hsum Hmax Ht (Hwf & Hfr & Hmap & Hwr).
  assert (Hp' := Hp). destruct Hp' as (HB & HD & HI & _).
  assert (Hot : 0 <= off0 + tot) by lia.
  destruct (round_len n tot (off0 + tot) Hp Hn Ht Hot) as [Hm Hmb].
  set (m := Z.min (n - tot) (BSIZE - (off0 + tot) mod BSIZE)) in *.
  assert (Hrng : forall k, 0 <= k < n ->
            0 <= (off0 + k) / BSIZE < MAXFILE /\ is_u32 ((off0 + k) / BSIZE)).
  { intros k Hk. destruct (block_of_offset (off0 + k) Hp) as [H | H]; auto; lia. }
  assert (Hok : forall k, 0 <= k < n -> slot_ok (leaf ((off0 + k) / BSIZE))).
  { intros k Hk. apply leaf_ok; auto. apply Hrng; auto. }
  set (bn := (off0 + tot) / BSIZE) in *.
  destruct (Hrng tot Ht) as [Hbn Hbu]. fold bn in Hbn, Hbu.
  unfold writei_round. rewrite Hm.
  apply wp_bind, wp_catch, wp_bind.
  eapply wp_mono; [apply (bmap_spec ip bn trans _ w Hp Hwf Hbn Hbu) | | | auto];
    cbv beta.
  - intros p w1 (Hp1 & Hpnz & Hwf1 & Hext & _ & _). apply wp_ret.
    assert (Hfin : forall w3,
               w_ino w3 = w_ino w1 -> w_free w3 = w_free w1 -> w_sb w3 = w_sb w1 ->
               w_buf w3 = upd (w_buf w1) (fst ip, p)
                            (memmove (w_buf w1 (fst ip, p))
                               ((off0 + tot) mod BSIZE) src tot m) ->
               winv ip src off0 w0 (tot + m) w3).
    { intros w3 Hi3 Hf3 Hs3 Hb3. rewrite Hp1 in Hb3, Hpnz.
      assert (Hl : slot_ok (leaf bn)) by (apply (Hok tot Ht)).
      assert (Hv3 : forall s, slot_ok s -> val w3 ip s = val w1 ip s).
      { apply (val_data_write ip w1 w3 (leaf bn) _ Hwf1 Hl (leaf_is_leaf bn) Hpnz
                 Hi3 Hb3). }
      split; [| split; [| split]].
      - apply (wf_shrink ip w1 w3); auto. intros y; rewrite Hf3; auto.
      - eapply ino_frame_trans; [exact Hfr |].
        eapply ino_frame_trans; [exact (ext_ino _ _ _ _ _ Hext) |].
        unfold ino_frame; apply ino_frame_eq; auto.
      - intros s Hs Hnz. rewrite Hv3 by auto.
        rewrite (ext_val _ _ _ _ _ Hext s Hs); rewrite Hmap; auto.
      - intros k Hk.
        rewrite (file_byte_data_write ip w1 w3 (leaf bn) _ (off0 + k) Hwf1 Hl
                   (leaf_is_leaf bn) Hpnz Hi3 Hb3) by (apply Hok; lia).
        destruct (Z_lt_ge_dec k tot) as [Hlt | Hge].
        + assert (Hk1 : file_byte w1 ip (off0 + k) = Some (src k)).
          { eapply (ext_file_byte ip trans);
              [exact Hwf | exact Hext | apply Hok; lia | apply Hwr; lia]. }
          destruct (slot_eq_dec _ _) as [E | N]; auto.
          apply leaf_inj in E; auto; [| apply Hrng; lia].
          unfold file_byte in Hk1. rewrite E in Hk1.
          destruct (Z.eqb_spec (val w1 ip (leaf bn)) 0); [discriminate |].
          inversion Hk1 as [Hk2]. rewrite Hk2. f_equal.
          unfold memmove.
          assert ((off0 + k) mod BSIZE < (off0 + tot) mod BSIZE).
          { assert (HB0 : BSIZE <> 0) by lia.
            pose proof (Z.div_mod (off0 + k) BSIZE HB0).
            pose proof (Z.div_mod (off0 + tot) BSIZE HB0).
            unfold bn in E. rewrite E in *. lia. }
          destruct (Z.leb_spec ((off0 + tot) mod BSIZE) ((off0 + k) mod BSIZE));
            [lia |].
          cbn. rewrite <- Hk2. reflexivity.
        + assert (HB1 : 0 < BSIZE) by lia.
          assert (Hkt : 0 <= k - tot < BSIZE - (off0 + tot) mod BSIZE) by lia.
          destruct (same_block (off0 + tot) (k - tot) HB1 Hkt) as [Hq Hr].
          replace (off0 + tot + (k - tot)) with (off0 + k) in Hq, Hr by lia.
          fold bn in Hq. rewrite Hq.
          destruct (slot_eq_dec _ _) as [_ | N]; [| contradiction].
          f_equal. unfold memmove. rewrite Hr.
          destruct (Z.leb_spec ((off0 + tot) mod BSIZE)
                      ((off0 + tot) mod BSIZE + (k - tot))); [| lia].
          destruct (Z.ltb_spec ((off0 + tot) mod BSIZE + (k - tot))
                      ((off0 + tot) mod BSIZE + m)); [| lia].
          cbn. f_equal. lia. }
    unfold wp, bind, buf_data, buf_store, when, add_to_transaction, writeback_async,
      writeback, modify, ret.
    destruct trans, wb; cbn; (split; [reflexivity |]); apply Hfin; reflexivity.
  - intros w1 (Hwf1 & Hext & _ & H0). apply wp_ret, wp_ret.
    split; [split; [| split; [| split]] |]; auto.
    + eapply ino_frame_trans; [exact Hfr |]. exact (ext_ino _ _ _ _ _ Hext).
    + intros s Hs Hnz. rewrite (ext_val _ _ _ _ _ Hext s Hs); rewrite Hmap; auto.
    + intros k Hk.
      eapply (ext_file_byte ip trans);
        [exact Hwf | exact Hext | apply Hok; lia | apply Hwr; lia].
    + destruct (Z.eq_dec (val w0 ip (leaf bn)) 0) as [E | N]; auto.
      exfalso. rewrite <- (Hmap (leaf bn) (Hok tot Ht) N) in N. contradiction.
Qed.

Lemma itype_eqb_eq a b : itype_eqb a b = true <-> a = b.
Proof. destruct a, b; simpl; split; intros H; try discriminate; auto. Qed.

Lemma itype_eqb_neq a b : a <> b -> itype_eqb a b = false.
Proof.
  intros H. destruct (itype_eqb a b) eqn:E; auto.
  apply itype_eqb_eq in E. contradiction.
Qed.


(** ** What readi finds in the file *)



Lemma readi_round_fill ip dst off0 n w0 tot w :
  params_ok -> is_u32 n -> 0 <= off0 -> off0 + n < 2 ^ 32 ->
  off0 + n <= MAXFILE * BSIZE -> 0 <= tot < n ->
  rinv ip off0 w0 tot w ->
  wp (readi_round ip dst tot tot (off0 + tot) n)
    (fun r w' =>
       fst r = Z.min (n - tot) (BSIZE - (off0 + tot) mod BSIZE) /\
       rinv ip off0 w0 (tot + fst r) w')
    (fun _ => False) True w.
Proof.
  intros Hp Hn Ho Hsum Hmax Ht (Hwf & Hext & Hmapped).
  assert (Hp' := Hp). destruct Hp' as (HB & HD & HI & _).
  assert (Hot : 0 <= off0 + tot) by lia.
  destruct (round_len n tot (off0 + tot) Hp Hn Ht Hot) as [Hm Hmb].
  set (m := Z.min (n - tot) (BSIZE - (off0 + tot) mod BSIZE)) in *.
  set (bn := (off0 + tot) / BSIZE).
  assert (Hrng : forall k, 0 <= k < n ->
            0 <= (off0 + k) / BSIZE < MAXFILE /\ is_u32 ((off0 + k) / BSIZE)).
  { intros k Hk. destruct (block_of_offset (off0 + k) Hp) as [H | H]; auto; lia. }
  destruct (Hrng tot Ht) as [Hbn Hbu]. fold bn in Hbn, Hbu.
  unfold readi_round. rewrite Hm. fold bn.
  apply wp_bind, wp_catch.
  eapply wp_mono;
    [apply (bmap_spec ip bn NULL true w Hp Hwf Hbn Hbu) | | | auto]; cbv beta.
  - intros p w1 (Hp1 & Hpnz & Hwf1 & Hext1 & _ & _).
    unfold wp, bind, buf_data, ret. cbn [fst snd].
    split; [reflexivity |]. split; [auto |].
    split; [apply (ext_trans_ ip NULL true w0 w w1); auto |].
    intros k Hk. destruct (Z_lt_ge_dec k tot) as [Hlt | Hge].
    + rewrite (ext_val _ _ _ _ _ Hext1); [apply Hmapped; lia | | apply Hmapped; lia].
      apply leaf_ok; auto. apply Hrng; lia.
    + assert (HB1 : 0 < BSIZE) by lia.
      assert (Hkt : 0 <= k - tot < BSIZE - (off0 + tot) mod BSIZE) by lia.
      destruct (same_block (off0 + tot) (k - tot) HB1 Hkt) as [Hq _].
      replace (off0 + tot + (k - tot)) with (off0 + k) in Hq by lia.
      rewrite Hq. fold bn. congruence.
  - intros w1 _. exact I.
Qed.


Lemma to_int_small x : 0 <= x < 2 ^ 31 -> to_int x = x.
Proof. intros H. unfold to_int. destruct (Z.ltb_spec x (2 ^ 31)); lia. Qed.



Lemma to_int_minus_one : to_int (u32 (-1)) = -1.
Proof. reflexivity. Qed.



(** ** readi returns when blocks are left *)

Lemma blocks_in_step off n tot :
  0 < BSIZE -> 0 <= off -> 0 <= tot < n ->
  let m := Z.min (n - tot) (BSIZE - (off + tot) mod BSIZE) in
  1 <= blocks_in (off + tot) (n - tot) /\
  blocks_in (off + (tot + m)) (n - (tot + m)) + 1
  <= blocks_in (off + tot) (n - tot).
Proof.
  intros HB Ho Ht m. unfold blocks_in.
  destruct (Z.ltb_spec 0 (n - tot)); [| lia].
  replace (off + tot + (n - tot) - 1) with (off + n - 1) by lia.
  pose proof (Z.mod_pos_bound (off + tot) BSIZE HB) as Hr.
  pose proof (Z.div_mod (off + tot) BSIZE) as Hdm.
  assert (Hle : (off + tot) / BSIZE <= (off + n - 1) / BSIZE)
    by (apply Z.div_le_mono; lia).
  split; [lia |].
  destruct (Z.ltb_spec 0 (n - (tot + m))); [| lia].
  replace (off + (tot + m) + (n - (tot + m)) - 1) with (off + n - 1) by lia.
  assert (Em : m = BSIZE - (off + tot) mod BSIZE) by (unfold m in *; lia).
  assert (Eq : (off + (tot + m)) / BSIZE = (off + tot) / BSIZE + 1).
  { symmetry. apply (Z.div_unique _ BSIZE _ 0); [lia |]. rewrite Em. nia. }
  lia.
Qed.

Lemma readi_round_count ip dst dpos tot off n w :
  params_ok -> wf w ip -> 0 <= off / BSIZE < MAXFILE -> is_u32 (off / BSIZE) ->
  fst ip = 1 -> 3 <= nfree w ->
  wp (readi_round ip dst dpos tot off n)
    (fun _ w' => spent 3 w w') (fun _ => False) False w.
Proof.
  intros Hp Hwf Hbn Hbu Hdev Hfree. unfold readi_round.
  apply wp_bind, wp_catch.
  eapply wp_mono;
    [apply wp_conj;
     [apply (bmap_spec ip (off / BSIZE) NULL true w Hp Hwf Hbn Hbu)
     | apply bmap_count] | | |]; cbv beta.
  - intros b w1 [_ Hs]. unfold wp, bind, buf_data, ret. exact Hs.
  - intros w1 [_ [Hc | Hc]]; unfold wp, panic; [lia | contradiction].
  - intros [F _]. exact F.
Qed.

Lemma readi_total ip dst off n w :
  params_ok -> wf w ip -> is_u32 off -> is_u32 n -> off + n < 2 ^ 32 ->
  i_size (w_ino w ip) <= MAXFILE * BSIZE -> fst ip = 1 ->
  3 * blocks_in off (Z.min n (i_size (w_ino w ip) - off)) <= nfree w ->
  wp (readi ip dst off n) (fun _ _ => True) (fun _ => False) False w.
Proof.
  intros Hp Hwf Ho Hn Hsum Hsz Hdev Hfree.
  assert (HB : 0 < BSIZE) by (destruct Hp as ((HB & _) & _); exact HB).
  unfold readi. apply wp_bind, wp_rd.
  destruct (itype_eqb (i_type (w_ino w ip)) T_DEV); [apply wp_ret; exact I |].
  rewrite (u32_small (off + n)) by pow_lia.
  destruct (Z.gtb_spec off (i_size (w_ino w ip))); [apply wp_ret; exact I |].
  destruct (Z.ltb_spec (off + n) off); [pow_lia |]. cbn [orb].
  set (n0 := if off + n >? i_size (w_ino w ip)
             then u32 (i_size (w_ino w ip) - off) else n).
  assert (Hn0 : n0 = Z.min n (i_size (w_ino w ip) - off)).
  { unfold n0. destruct (Z.gtb_spec (off + n) (i_size (w_ino w ip))).
    - rewrite u32_small by pow_lia. lia.
    - lia. }
  assert (Hn0u : is_u32 n0) by (rewrite Hn0; pow_lia).
  rewrite <- Hn0 in Hfree.
  apply wp_bind. replace off with (off + 0) at 1 by lia.
  eapply wp_mono;
    [apply (readi_loop_rule ip off n0
              (fun tot _ w' =>
                 rinv ip off w tot w' /\
                 3 * blocks_in (off + tot) (n0 - tot) <= nfree w') False);
     auto; try pow_lia; try (rewrite Hn0; pow_lia) | | auto | auto].
  - intros tot dst1 w1 Ht [HI Hc].
    assert (Hot : 0 <= off) by pow_lia.
    destruct (blocks_in_step off n0 tot HB Hot Ht) as [H1 Hstep].
    assert (Hrng : 0 <= (off + tot) / BSIZE < MAXFILE /\
                   is_u32 ((off + tot) / BSIZE)).
    { destruct (block_of_offset (off + tot) Hp) as [H' | H']; auto;
        rewrite Hn0 in *; pow_lia. }
    eapply wp_mono;
      [apply wp_conj;
       [apply (readi_round_fill ip dst1 off n0 w tot w1); auto; try pow_lia;
        rewrite Hn0; pow_lia
       | apply (readi_round_count ip dst1 tot tot (off + tot) n0 w1); auto;
         [apply HI | apply Hrng | apply Hrng | lia]] | | |]; cbv beta.
    + intros r w2 [[Hm HI2] [Hs _]]. split; [exact Hm |]. split; [exact HI2 |].
      rewrite Hm. cbv zeta in Hstep. lia.
    + intros w2 [F _]. exact F.
    + intros [_ F]. exact F.
  - split; [| rewrite Z.add_0_r, Z.sub_0_r; exact Hfree].
    split; [auto |]. split; [apply ext_refl |]. intros k Hk; lia.
  - cbv beta. intros d w1 _. apply wp_ret. exact I.
Qed.

(** ** Results of readi and writei *)


(** ** writei writes everything when blocks are left *)






(** ** readi allocates *)

Lemma readi_fill_wp ip dst off n w x :
  params_ok -> wf w ip -> is_u32 off -> is_u32 n -> off + n < 2 ^ 32 ->
  i_type (w_ino w ip) <> T_DEV ->
  i_size (w_ino w ip) <= MAXFILE * BSIZE ->
  off <= x < off + n -> x < i_size (w_ino w ip) ->
  wp (readi ip dst off n)
    (fun _ w' => wf w' ip /\ ext ip NULL true w w' /\
                 val w' ip (leaf (x / BSIZE)) <> 0)
    (fun _ => False) True w.
Proof.
  intros Hp Hwf Ho Hn Hsum Hty Hsz Hx Hxs.
  unfold readi. apply wp_bind, wp_rd. rewrite (itype_eqb_neq _ _ Hty).
  rewrite (u32_small (off + n)) by pow_lia.
  destruct (Z.gtb_spec off (i_size (w_ino w ip))); [lia |].
  destruct (Z.ltb_spec (off + n) off); [pow_lia |]. cbn [orb].
  set (n0 := if off + n >? i_size (w_ino w ip)
             then u32 (i_size (w_ino w ip) - off) else n).
  assert (Hn0 : n0 = Z.min n (i_size (w_ino w ip) - off)).
  { unfold n0. destruct (Z.gtb_spec (off + n) (i_size (w_ino w ip))).
    - rewrite u32_small by pow_lia. lia.
    - lia. }
  assert (Hn0u : is_u32 n0) by (rewrite Hn0; pow_lia).
  apply wp_bind. replace off with (off + 0) at 1 by lia.
  eapply wp_mono;
    [apply (readi_loop_rule ip off n0 (fun tot _ w' => rinv ip off w tot w') True);
     auto; try pow_lia; try (rewrite Hn0; pow_lia) | | auto | auto].
  - intros tot dst1 w1 Ht HI.
    apply (readi_round_fill ip dst1 off n0 w tot w1); auto; try pow_lia;
      rewrite Hn0; pow_lia.
  - split; [auto |]. split; [apply ext_refl |]. intros k Hk; lia.
  - cbv beta. intros d w1 (Hwf1 & Hext & Hm). apply wp_ret.
    split; [auto |]. split; [auto |].
    replace x with (off + (x - off)) by lia. apply Hm. rewrite Hn0. lia.
Qed.

(** C10.  [readi] writes to the block map: when the range it reads, cut at
    the size of the inode, reaches into a logical block whose slot is
    zero, the slot holds a block number afterwards; the block was free in
    the in-memory bitmap and no longer is, its buffer is all zero, and the
    transaction of the state has not been told ([readi] passes [NULL] to
    [bmap]).  [readi] halts instead only when the inode is not on device 1
    or the in-memory bitmap has fewer than three free blocks for each
    block of the range. *)
Theorem readi_fills_holes ip dst off n w x :
  params_ok -> wf w ip -> is_u32 off -> is_u32 n -> off + n < 2 ^ 32 ->
  i_type (w_ino w ip) <> T_DEV ->
  i_size (w_ino w ip) <= MAXFILE * BSIZE ->
  off <= x < off + n -> x < i_size (w_ino w ip) ->
  val w ip (leaf (x / BSIZE)) = 0 ->
  match readi ip dst off n w with
  | Ret _ w' =>
      let b := val w' ip (leaf (x / BSIZE)) in
      b <> 0 /\ is_free (w_free w) b = true /\ is_free (w_free w') b = false /\
      w_buf w' (fst ip, b) = zero_block /\ w_trans w' = w_trans w
  | Throw _ => False
  | Panic =>
      fst ip <> 1 \/
      nfree w < 3 * blocks_in off (Z.min n (i_size (w_ino w ip) - off))
  | Timeout => False
  end.
Proof.
  intros Hp Hwf Ho Hn Hsum Hty Hsz Hx Hxs Hhole.
  pose proof (readi_fill_wp ip dst off n w x Hp Hwf Ho Hn Hsum Hty Hsz Hx Hxs) as H.
  assert (Htot : fst ip = 1 ->
             3 * blocks_in off (Z.min n (i_size (w_ino w ip) - off)) <= nfree w ->
             wp (readi ip dst off n) (fun _ _ => True) (fun _ => False) False w).
  { intros Hdev Hfree. apply readi_total; auto. }
  unfold wp in H, Htot.
  destruct (readi ip dst off n w) as [r w' | | |]; auto.
  2:{ destruct (Z.eq_dec (fst ip) 1) as [Hd | Hd]; [| left; exact Hd].
      right.
      destruct (Z_lt_ge_dec (nfree w)
                  (3 * blocks_in off (Z.min n (i_size (w_ino w ip) - off))))
        as [L | G]; [exact L |].
      exfalso. apply Htot; auto. lia. }
  destruct H as (Hwf' & Hext & Hnz).
  assert (Hl : slot_ok (leaf (x / BSIZE))).
  { apply leaf_ok; auto.
    destruct (block_of_offset x Hp) as [[H _] | H]; auto; pow_lia. }
  cbv zeta. split; [auto |]. split; [| split; [| split]].
  - apply (ext_fresh _ _ _ _ _ Hext); auto.
  - apply (wf_used w' ip Hwf'); auto.
  - apply (ext_zero _ _ _ _ _ Hext); auto. apply leaf_is_leaf.
  - apply (ext_trans _ _ _ _ _ Hext). reflexivity.
Qed.

(** ** Transactions *)

Lemma blocks_fold_add_block bs t :
  blocks (fold_left add_block bs t) = blocks t ++ bs.
Proof.
  revert t; induction bs as [| b bs IH]; intros t; simpl.
  - rewrite app_nil_r. reflexivity.
  - rewrite IH. simpl. rewrite <- app_assoc. reflexivity.
Qed.

Lemma count_writes_app k io1 io2 :
  count_writes k (io1 ++ io2) = (count_writes k io1 + count_writes k io2)%nat.
Proof. unfold count_writes. rewrite filter_app, length_app. reflexivity. Qed.

Lemma commit_loop_spec bs w :
  exists w',
    commit_loop bs w = Ret tt w' /\
    w_buf w' = w_buf w /\ w_ino w' = w_ino w /\ w_trans w' = w_trans w /\
    (forall k,
        count_writes (1, k) (w_io w')
        = Nat.add (count_writes (1, k) (w_io w))
            (if w_dirty w (1, k) && existsb (fun b => blocknum b =? k) bs
             then 1%nat else 0%nat)) /\
    (forall k, w_dirty w' (1, k)
               = w_dirty w (1, k) && negb (existsb (fun b => blocknum b =? k) bs)).
Proof.
  revert w; induction bs as [| b bs IH]; intros w.
  - exists w. cbn. repeat split; auto.
    + intros k. rewrite andb_false_r. lia.
    + intros k. rewrite andb_true_r. reflexivity.
  - cbn [commit_loop]. unfold bind at 1, buf_dirty.
    destruct (w_dirty w (1, blocknum b)) eqn:Ed.
    + cbn [when]. unfold bind at 1, writeback, modify.
      destruct (IH (set_clean w (1, blocknum b)))
        as (w' & Hrun & Hb & Hi & Ht & Hc & Hd).
      exists w'. split; [exact Hrun |]. cbn in Hb, Hi, Ht.
      split; [auto |]. split; [auto |]. split; [auto |]. split.
      * intros k. rewrite Hc. cbn [w_io set_clean w_dirty existsb].
        rewrite count_writes_app. unfold count_writes at 2. cbn [filter fst].
        unfold upd, key_eqb. cbn [fst snd]. rewrite Z.eqb_refl. cbn [andb].
        destruct (Z.eqb_spec (blocknum b) k) as [E | N].
        -- rewrite <- E, Ed. cbn. lia.
        -- cbn. lia.
      * intros k. rewrite Hd. cbn [w_dirty set_clean existsb].
        unfold upd, key_eqb. cbn [fst snd]. rewrite Z.eqb_refl. cbn [andb].
        destruct (Z.eqb_spec (blocknum b) k) as [E | N]; cbn; auto.
        rewrite andb_false_r. reflexivity.
    + cbn [when]. unfold bind at 1, ret.
      destruct (IH w) as (w' & Hrun & Hb & Hi & Ht & Hc & Hd).
      exists w'. split; [exact Hrun |].
      split; [auto |]. split; [auto |]. split; [auto |]. split.
      * intros k. rewrite Hc. cbn [existsb].
        destruct (Z.eqb_spec (blocknum b) k) as [E | N]; cbn; auto.
        rewrite <- E, Ed. cbn. reflexivity.
      * intros k. rewrite Hd. cbn [existsb].
        destruct (Z.eqb_spec (blocknum b) k) as [E | N]; cbn; auto.
        rewrite <- E, Ed. reflexivity.
Qed.

Lemma commit_loop_payload bs w :
  exists w' l,
    commit_loop bs w = Ret tt w' /\ w_io w' = w_io w ++ l /\
    forall e, In e l ->
      snd e = w_buf w (fst e) /\ w_dirty w (fst e) = true /\
      exists b, In b bs /\ fst e = (1, blocknum b).
Proof.
  revert w; induction bs as [| b bs IH]; intros w.
  - exists w, []. cbn. split; [reflexivity |]. split; [| intros e []].
    symmetry. apply app_nil_r.
  - cbn [commit_loop]. unfold bind at 1, buf_dirty.
    destruct (w_dirty w (1, blocknum b)) eqn:Ed.
    + cbn [when]. unfold bind at 1, writeback, modify.
      destruct (IH (set_clean w (1, blocknum b))) as (w' & l & Hrun & Hio & Hl).
      exists w', (((1, blocknum b), w_buf w (1, blocknum b)) :: l).
      split; [exact Hrun |]. split.
      * rewrite Hio. cbn [w_io set_clean]. rewrite <- app_assoc. reflexivity.
      * intros e [<- | He].
        -- cbn [fst snd]. split; [reflexivity |]. split; [exact Ed |].
           exists b. split; [left; reflexivity | reflexivity].
        -- destruct (Hl e He) as (Hs & Hd & b' & Hb' & Hk).
           cbn [w_buf w_dirty set_clean] in Hs, Hd. split; [exact Hs |]. split.
           ++ unfold upd in Hd. destruct (key_eqb (1, blocknum b) (fst e));
                [discriminate | exact Hd].
           ++ exists b'. split; [right; exact Hb' | exact Hk].
    + cbn [when]. unfold bind at 1, ret.
      destruct (IH w) as (w' & l & Hrun & Hio & Hl).
      exists w', l. split; [exact Hrun |]. split; [exact Hio |].
      intros e He. destruct (Hl e He) as (Hs & Hd & b' & Hb' & Hk).
      split; [exact Hs |]. split; [exact Hd |].
      exists b'. split; [right; exact Hb' | exact Hk].
Qed.

(** C4.  [add_block] appends: after any sequence of calls the
    transaction holds every snapshot it was given, in the order of the
    calls, several of them for one block number when it was given several.
    [commit_transaction] goes through the snapshots and writes back the
    buffer of each block number when it is dirty, so a block number is
    written once when the transaction names it and its buffer is dirty,
    and not at all otherwise; the buffers the transaction names are clean
    afterwards.  What a write puts on the disk is the content of the
    buffer at the commit, not the payload of a snapshot: every write that
    the commit adds to the writes issued before is of a dirty buffer of
    device 1 that the transaction names, with the content that buffer
    has. *)
Theorem add_block_appends_commit_writes_dirty_once t bs w :
  blocks (fold_left add_block bs t) = blocks t ++ bs /\
  (forall k, snapshots_of k (fold_left add_block bs t)
             = snapshots_of k t ++ filter (fun b => blocknum b =? k) bs) /\
  exists w',
    commit_transaction t w = Ret tt w' /\
    w_buf w' = w_buf w /\
    (forall k,
        count_writes (1, k) (w_io w')
        = Nat.add (count_writes (1, k) (w_io w))
            (if w_dirty w (1, k) && existsb (fun b => blocknum b =? k) (blocks t)
             then 1%nat else 0%nat)) /\
    (forall k, In k (map blocknum (blocks t)) -> w_dirty w' (1, k) = false) /\
    exists l,
      w_io w' = w_io w ++ l /\
      forall e, In e l ->
        snd e = w_buf w (fst e) /\ w_dirty w (fst e) = true /\
        exists b, In b (blocks t) /\ fst e = (1, blocknum b).
Proof.
  split; [apply blocks_fold_add_block |]. split.
  - intros k. unfold snapshots_of. rewrite blocks_fold_add_block, filter_app.
    reflexivity.
  - destruct (commit_loop_spec (blocks t) w) as (w' & Hrun & Hb & _ & _ & Hc & Hd).
    destruct (commit_loop_payload (blocks t) w) as (w2 & l & Hrun2 & Hio & Hl).
    rewrite Hrun in Hrun2. injection Hrun2 as <-.
    exists w'. split; [exact Hrun |]. split; [auto |]. split; [auto |].
    split; [| exists l; split; [exact Hio | exact Hl]].
    intros k Hk. rewrite Hd.
    assert (E : existsb (fun b => blocknum b =? k) (blocks t) = true).
    { apply existsb_exists. apply in_map_iff in Hk. destruct Hk as (b & <- & Hb').
      exists b. split; auto. apply Z.eqb_refl. }
    rewrite E. apply andb_false_r.
Qed.

(** ** Directories *)

(** C1.  [dirlink] of a name that the index of [dp] does not hold returns
    -1, not 0: it adds the entry [(inum, dp->dir_offset)] to the index and
    returns at once.  [dir_offset] is not advanced, no link count changes
    and no entry is flushed: but for the index of [dp], the state it
    returns is the state it was given. *)
Theorem dirlink_returns_minus_one dp name inum inc_link trans w d :
  i_dir (w_ino w dp) = Some d ->
  dir_lookup d (strbuf name) = None ->
  dirlink dp name inum inc_link trans w
  = Ret (-1)
      (set_ino w dp
         (with_dir (w_ino w dp)
            (Some (d ++ [(strbuf name,
                          mk_de_info inum (i_dir_offset (w_ino w dp)))])))).
Proof.
  intros Hd Hl. unfold dirlink, bind, dir_init, the_dir, rd, bind.
  cbv beta. rewrite Hd. cbv beta iota. unfold ret at 1. cbv beta iota.
  rewrite Hd. unfold ret at 1. cbv beta iota.
  unfold dir_insert. rewrite Hl. reflexivity.
Qed.

(** ** The path lexer *)

Lemma str_app_nil s : (s ++ EmptyString)%string = s.
Proof. induction s; simpl; congruence. Qed.

Lemma str_app_char s c x :
  ((s ++ String c EmptyString) ++ x)%string = (s ++ String c x)%string.
Proof. induction s; simpl; congruence. Qed.

Lemma components_aux_elem s cur :
  components_aux s cur
  = if str_null (cur ++ elem_of s)
    then components (after_elem s)
    else (cur ++ elem_of s)%string :: components (after_elem s).
Proof.
  unfold components. revert cur; induction s as [| c s IH]; intros cur; simpl.
  - rewrite str_app_nil. destruct (str_null cur); reflexivity.
  - destruct (is_slash c) eqn:Ec.
    + rewrite str_app_nil. simpl. rewrite Ec. simpl. reflexivity.
    + rewrite IH, str_app_char. reflexivity.
Qed.

Lemma components_skip s : components (skip_slashes s) = components s.
Proof.
  unfold components. induction s as [| c s IH]; simpl; auto.
  destruct (is_slash c) eqn:Ec; simpl; auto. rewrite Ec. reflexivity.
Qed.

Lemma skip_slashes_head s c s' : skip_slashes s = String c s' -> is_slash c = false.
Proof.
  induction s as [| a s IH]; simpl; [discriminate |].
  destruct (is_slash a) eqn:Ea; auto. intros E; inversion E; subst; auto.
Qed.

Lemma skip_slashes_length s : (String.length (skip_slashes s) <= String.length s)%nat.
Proof.
  induction s as [| a s IH]; simpl; auto. destruct (is_slash a); simpl; lia.
Qed.

Lemma after_elem_length s : (String.length (after_elem s) <= String.length s)%nat.
Proof.
  induction s as [| a s IH]; simpl; auto. destruct (is_slash a); simpl; lia.
Qed.

(** What [skipelem] does, in terms of the components of the path. *)
Lemma skipelem_spec path name :
  match components path with
  | [] => skipelem path name = (0, path, name)
  | c :: cs =>
      if Z.of_nat (String.length c) >? DIRSIZ
      then skipelem path name = (-1, path, name)
      else exists rest,
          skipelem path name = (1, rest, c) /\ components rest = cs /\
          (String.length rest < String.length path)%nat
  end.
Proof.
  unfold skipelem. rewrite <- (components_skip path).
  pose proof (skip_slashes_length path) as Hlen.
  destruct (skip_slashes path) as [| c q] eqn:Eq; [reflexivity |].
  pose proof (skip_slashes_head _ _ _ Eq) as Hc.
  unfold components at 1. rewrite components_aux_elem.
  cbn [elem_of after_elem append]. rewrite Hc. cbn [append str_null].
  destruct (Z.of_nat (String.length (String c (elem_of q))) >? DIRSIZ);
    [reflexivity |].
  exists (skip_slashes (after_elem q)). split; [reflexivity |].
  split; [apply components_skip |].
  pose proof (skip_slashes_length (after_elem q)).
  pose proof (after_elem_length q). simpl in Hlen. lia.
Qed.

Lemma namex_loop_long fuel ip path nameip name w :
  (exists c, In c (components path) /\ too_long c) ->
  (String.length path <= fuel)%nat ->
  not_found (namex_loop fuel ip path nameip name w).
Proof.
  revert ip path name w.
  induction fuel as [| fuel IH]; intros ip path name w (c & Hin & Hlong) Hf.
  - destruct path; [contradiction | simpl in Hf; lia].
  - pose proof (skipelem_spec path name) as Hs.
    destruct (components path) as [| c0 cs] eqn:Ec; [contradiction |].
    cbn [namex_loop].
    destruct (Z.gtb_spec (Z.of_nat (String.length c0)) DIRSIZ) as [Hl | Hl].
    + rewrite Hs. cbn. exact I.
    + destruct Hs as (rest & -> & Hrest & Hlen). cbn [Z.eqb Pos.eqb].
      unfold bind at 1, rd.
      destruct (itype_eqb (i_type (w_ino w ip)) T_FREE); [exact I |].
      destruct (itype_eqb (i_type (w_ino w ip)) T_DIR); [| exact I].
      cbn [negb].
      assert (Hin' : In c cs).
      { destruct Hin as [<- | H]; auto. unfold too_long in Hlong. lia. }
      assert (Hnn : str_null rest = false).
      { destruct rest; auto. rewrite <- Hrest in Hin'. contradiction. }
      rewrite Hnn, andb_false_r. unfold bind.
      destruct (dirlookup ip c0 w) as [[nx |] w' | | |]; try exact I.
      apply IH; [| lia]. exists c. rewrite Hrest. auto.
Qed.

(** C5.  A path with a component of more than [DIRSIZ] characters
    is never resolved to an inode by [namex], and when the long component
    is the first one [namex] returns no inode without looking at any
    directory.  A path without components (the empty path, or slashes
    only) is not an error for [namei]: with [nameiparent] unset the result
    is the inode the walk starts from (the root for a path that begins
    with a slash, [cwd] otherwise), and no inode with [nameiparent] set.
    A first component of exactly [DIRSIZ] characters is taken whole by
    [skipelem]. *)
Theorem namex_component_lengths cwd path nameip name w :
  ((exists c, In c (components path) /\ too_long c) ->
   not_found (namex cwd path nameip name w)) /\
  (forall c cs, components path = c :: cs -> too_long c ->
   namex cwd path nameip name w = Ret (None, name) w) /\
  (components path = [] ->
   namex cwd path nameip name w
   = Ret (if nameip =? 0 then Some (start_inode cwd path) else None, name) w) /\
  (forall c cs, components path = c :: cs ->
   Z.of_nat (String.length c) = DIRSIZ ->
   exists rest, skipelem path name = (1, rest, c) /\ components rest = cs).
Proof.
  split; [| split; [| split]].
  - intros H. unfold namex. apply namex_loop_long; auto.
  - intros c cs Ec Hl. pose proof (skipelem_spec path name) as Hs.
    rewrite Ec in Hs. unfold too_long in Hl.
    destruct (Z.gtb_spec (Z.of_nat (String.length c)) DIRSIZ); [| lia].
    unfold namex. destruct (String.length path); cbn [namex_loop]; rewrite Hs;
      reflexivity.
  - intros Ec. pose proof (skipelem_spec path name) as Hs. rewrite Ec in Hs.
    unfold namex. fold (start_inode cwd path).
    destruct (String.length path); cbn [namex_loop]; rewrite Hs; cbn;
      destruct (nameip =? 0); reflexivity.
  - intros c cs Ec Hl. pose proof (skipelem_spec path name) as Hs.
    rewrite Ec in Hs.
    destruct (Z.gtb_spec (Z.of_nat (String.length c)) DIRSIZ); [lia |].
    destruct Hs as (rest & H1 & H2 & _). exists rest. auto.
Qed.

(** ** The on-disk bitmap *)

Lemma land_bit x k :
  0 <= k -> (Z.land x (Z.shiftl 1 k) =? 0) = negb (Z.testbit x k).
Proof.
  intros Hk. rewrite Z.shiftl_1_l.
  destruct (Z.testbit x k) eqn:E; cbn.
  - apply Z.eqb_neq. intros H.
    assert (H0 : Z.testbit (Z.land x (2 ^ k)) k = true).
    { rewrite Z.land_spec, E, Z.pow2_bits_eqb, Z.eqb_refl by lia. reflexivity. }
    rewrite H, Z.bits_0 in H0. discriminate.
  - apply Z.eqb_eq. apply Z.bits_inj'. intros n Hn.
    rewrite Z.land_spec, Z.bits_0, Z.pow2_bits_eqb by lia.
    destruct (Z.eqb_spec k n); subst; rewrite ?E; auto using andb_false_r.
Qed.

Lemma set_bit_byte x k j :
  0 <= k -> 0 <= j < 8 ->
  Z.testbit ((Z.lor x (Z.shiftl 1 k)) mod 256) j = Z.testbit x j || (k =? j).
Proof.
  intros Hk Hj. change 256 with (2 ^ 8).
  rewrite Z.mod_pow2_bits_low by lia.
  rewrite Z.lor_spec, Z.shiftl_1_l, Z.pow2_bits_eqb by lia. reflexivity.
Qed.

Lemma clear_bit_byte x k j :
  0 <= k -> 0 <= j < 8 ->
  Z.testbit ((Z.land x (Z.lnot (Z.shiftl 1 k))) mod 256) j
  = Z.testbit x j && negb (k =? j).
Proof.
  intros Hk Hj. change 256 with (2 ^ 8).
  rewrite Z.mod_pow2_bits_low by lia.
  rewrite Z.land_spec, Z.lnot_spec, Z.shiftl_1_l, Z.pow2_bits_eqb by lia.
  reflexivity.
Qed.

Lemma byte_bits x j : 0 <= j < 8 -> Z.testbit (x mod 256) j = Z.testbit x j.
Proof. intros H. change 256 with (2 ^ 8). apply Z.mod_pow2_bits_low. lia. Qed.

Lemma lor_ones a k : 0 <= k -> Z.lor a (2 ^ k - 1) = a - a mod 2 ^ k + (2 ^ k - 1).
Proof.
  intros Hk. pose proof (Z.add_lor_land a (2 ^ k - 1)) as H.
  replace (2 ^ k - 1) with (Z.ones k) in * by (rewrite Z.ones_equiv; lia).
  rewrite Z.land_ones in H by lia. lia.
Qed.

Lemma same_bit_index a b : a / 8 = b / 8 -> a mod 8 = b mod 8 -> a = b.
Proof.
  intros H1 H2. rewrite (Z.div_mod a 8), (Z.div_mod b 8) by lia. congruence.
Qed.

Lemma flip_bit_spec alloc data bno :
  let bi0 := bno mod BPB in
  (dbit data bi0 = alloc -> flip_bit alloc data bno = None) /\
  (dbit data bi0 = negb alloc ->
   exists d, flip_bit alloc data bno = Some d /\
             forall bi, dbit d bi = if bi =? bi0 then alloc else dbit data bi).
Proof.
  intros bi0. unfold flip_bit. fold bi0.
  assert (Hk : 0 <= bi0 mod 8 < 8) by (apply Z.mod_pos_bound; lia).
  rewrite land_bit by lia. fold (dbit data bi0).
  assert (Hbits : forall v bi,
             (forall j, 0 <= j < 8 ->
                 Z.testbit (v mod 256) j
                 = if bi0 mod 8 =? j then alloc
                   else Z.testbit ((data (bi0 / 8)) mod 256) j) ->
             dbit (updz data (bi0 / 8) v) bi
             = if bi =? bi0 then alloc else dbit data bi).
  { intros v bi Hv. unfold dbit.
    assert (Hj : 0 <= bi mod 8 < 8) by (apply Z.mod_pos_bound; lia).
    destruct (Z.eq_dec (bi0 / 8) (bi / 8)) as [E | N].
    - rewrite <- E, updz_same, Hv by auto.
      destruct (Z.eqb_spec (bi0 mod 8) (bi mod 8)) as [E8 | N8].
      + rewrite (same_bit_index bi bi0) by auto. rewrite Z.eqb_refl. reflexivity.
      + destruct (Z.eqb_spec bi bi0); [congruence | reflexivity].
    - rewrite updz_other by auto.
      destruct (Z.eqb_spec bi bi0); [congruence | reflexivity]. }
  split.
  - intros E. rewrite E. destruct alloc; reflexivity.
  - intros E. rewrite E. destruct alloc; cbn [negb].
    + eexists. split; [reflexivity |]. intros bi. apply Hbits.
      intros j Hj. rewrite Z.mod_mod by lia. rewrite set_bit_byte by lia.
      destruct (Z.eqb_spec (bi0 mod 8) j) as [<- | N].
      * apply orb_true_r.
      * apply orb_false_r.
    + eexists. split; [reflexivity |]. intros bi. apply Hbits.
      intros j Hj. rewrite Z.mod_mod by lia. rewrite clear_bit_byte by lia.
      destruct (Z.eqb_spec (bi0 mod 8) j) as [<- | N].
      * apply andb_false_r.
      * cbn. apply andb_true_r.
Qed.

Lemma bool_cases (a b : bool) : a = b \/ a = negb b.
Proof. destruct a, b; auto. Qed.

Lemma flip_all_good alloc l : forall data,
  NoDup (map (fun x => x mod BPB) l) ->
  (forall x, In x l -> dbit data (x mod BPB) = negb alloc) ->
  exists d, flip_all alloc data l = Some d /\
            forall bi, dbit d bi
                       = if existsb (fun x => x mod BPB =? bi) l then alloc
                         else dbit data bi.
Proof.
  induction l as [| x l IH]; intros data Hnd Hb.
  - exists data. split; reflexivity.
  - cbn [flip_all map] in *. inversion Hnd as [| ? ? Hnin Hnd']; subst.
    destruct (proj2 (flip_bit_spec alloc data x) (Hb x (or_introl eq_refl)))
      as (d1 & -> & Hd1).
    destruct (IH d1 Hnd') as (d & Hrun & Hd).
    { intros y Hy. rewrite Hd1.
      destruct (Z.eqb_spec (y mod BPB) (x mod BPB)) as [E | N].
      - exfalso. apply Hnin. rewrite <- E. apply in_map_iff. eauto.
      - apply Hb. right; auto. }
    exists d. split; [exact Hrun |]. intros bi. rewrite Hd, Hd1. cbn [existsb].
    rewrite (Z.eqb_sym bi).
    destruct (existsb _ l), (x mod BPB =? bi); reflexivity.
Qed.

Lemma flip_all_some alloc l : forall data d,
  flip_all alloc data l = Some d ->
  NoDup (map (fun x => x mod BPB) l) /\
  (forall x, In x l -> dbit data (x mod BPB) = negb alloc).
Proof.
  induction l as [| x l IH]; intros data d Hrun.
  - split; [constructor | intros x []].
  - cbn [flip_all map] in *.
    destruct (bool_cases (dbit data (x mod BPB)) alloc) as [E | E].
    + rewrite (proj1 (flip_bit_spec alloc data x) E) in Hrun. discriminate.
    + destruct (proj2 (flip_bit_spec alloc data x) E) as (d1 & Hf & Hd1).
      rewrite Hf in Hrun. destruct (IH d1 d Hrun) as [Hnd Hb].
      assert (Hnin : ~ In (x mod BPB) (map (fun x => x mod BPB) l)).
      { intros Hin. apply in_map_iff in Hin. destruct Hin as (y & Ey & Hy).
        specialize (Hb y Hy). rewrite Hd1, Ey, Z.eqb_refl in Hb.
        destruct alloc; discriminate. }
      split; [constructor; auto |].
      intros y [<- | Hy]; auto.
      specialize (Hb y Hy). rewrite Hd1 in Hb.
      destruct (Z.eqb_spec (y mod BPB) (x mod BPB)) as [Ey | N]; auto.
      exfalso. apply Hnin. rewrite <- Ey. apply in_map_iff. eauto.
Qed.

Lemma bitmap_run_spec alloc mx rest : forall data bno,
  bitmap_run alloc mx data bno rest
  = match flip_all alloc data (bno :: take_le mx rest) with
    | None => None
    | Some d => Some (d, drop_le mx rest)
    end.
Proof.
  induction rest as [| next rest IH]; intros data bno; cbn [bitmap_run flip_all].
  - destruct (flip_bit alloc data bno); reflexivity.
  - destruct (flip_bit alloc data bno) as [d |]; [| reflexivity].
    cbn [take_le drop_le]. destruct (next <=? mx); [| reflexivity].
    rewrite IH. reflexivity.
Qed.

Lemma insert_sorted_perm x l : Permutation (x :: l) (insert_sorted x l).
Proof.
  induction l as [| y l IH]; cbn; [reflexivity |].
  destruct (x <=? y); [reflexivity |].
  eapply perm_trans; [apply perm_swap | apply perm_skip, IH].
Qed.

Lemma sort_perm l : Permutation l (sort l).
Proof.
  induction l as [| x l IH]; cbn; [constructor |].
  eapply perm_trans; [apply perm_skip, IH | apply insert_sorted_perm].
Qed.

Lemma insert_sorted_sorted x l :
  StronglySorted Z.le l -> StronglySorted Z.le (insert_sorted x l).
Proof.
  induction 1 as [| y l Hs IH Hall]; cbn.
  - constructor; constructor.
  - destruct (Z.leb_spec x y).
    + constructor; [constructor; auto |].
      constructor; [lia |]. eapply Forall_impl; [| exact Hall].
      intros a Ha. cbv beta in Ha. lia.
    + constructor; auto. apply Forall_forall. intros a Ha.
      apply (Permutation_in _ (Permutation_sym (insert_sorted_perm x l))) in Ha.
      destruct Ha as [<- | Ha]; [lia |].
      rewrite Forall_forall in Hall. auto.
Qed.

Lemma sort_sorted l : StronglySorted Z.le (sort l).
Proof.
  induction l as [| x l IH]; cbn; [constructor |].
  apply insert_sorted_sorted, IH.
Qed.

Lemma take_drop_le mx l : l = take_le mx l ++ drop_le mx l.
Proof.
  induction l as [| x l IH]; cbn; [reflexivity |].
  destruct (x <=? mx); cbn; congruence.
Qed.

Lemma take_le_bound mx l x : In x (take_le mx l) -> x <= mx.
Proof.
  induction l as [| y l IH]; cbn; [intros [] |].
  destruct (Z.leb_spec y mx); [| intros []].
  intros [<- | H1]; auto.
Qed.

Lemma drop_le_bound mx l x :
  StronglySorted Z.le l -> In x (drop_le mx l) -> mx < x.
Proof.
  induction 1 as [| y l Hs IH Hall]; cbn; [intros [] |].
  destruct (Z.leb_spec y mx); auto.
  rewrite Forall_forall in Hall.
  intros [<- | H1]; [lia |]. specialize (Hall x H1). lia.
Qed.

Lemma drop_le_sorted mx l :
  StronglySorted Z.le l -> StronglySorted Z.le (drop_le mx l).
Proof.
  induction 1 as [| y l Hs IH Hall]; cbn; [constructor |].
  destruct (y <=? mx); auto. constructor; auto.
Qed.

Lemma drop_le_length mx l : (List.length (drop_le mx l) <= List.length l)%nat.
Proof.
  induction l as [| y l IH]; cbn; [lia |].
  destruct (y <=? mx); cbn; lia.
Qed.

Lemma drop_le_in mx l x : In x (drop_le mx l) -> In x l.
Proof.
  intros H. rewrite (take_drop_le mx l). apply in_or_app. auto.
Qed.

Lemma BPB_pos w : bitmap_ok w -> 0 < BPB.
Proof.
  intros [(k & Hk & E) _]. unfold BPB. rewrite E.
  assert (0 < 2 ^ k) by (apply Z.pow_pos_nonneg; lia). lia.
Qed.

Lemma max_bno_val w bno :
  bitmap_ok w -> is_u32 bno ->
  u32 (Z.lor bno (BPB - 1)) = BPB * (bno / BPB) + (BPB - 1).
Proof.
  intros Hok Hb. pose proof (BPB_pos w Hok) as Hpos.
  destruct Hok as [(k & Hk & E) _].
  assert (EB : BPB = 2 ^ (k + 3)).
  { unfold BPB. rewrite E, Z.pow_add_r by lia. reflexivity. }
  rewrite EB in *. rewrite lor_ones by lia.
  pose proof (Z.div_mod bno (2 ^ (k + 3))) as Hdm.
  assert (E1 : bno - bno mod 2 ^ (k + 3) = 2 ^ (k + 3) * (bno / 2 ^ (k + 3)))
    by lia.
  rewrite E1. apply u32_small.
  assert (E32 : 2 ^ 32 = 2 ^ (k + 3) * 2 ^ (29 - k)).
  { rewrite <- Z.pow_add_r by lia. f_equal. lia. }
  assert (Hq : bno / 2 ^ (k + 3) < 2 ^ (29 - k)).
  { apply Z.div_lt_upper_bound; [lia |]. rewrite <- E32. apply Hb. }
  assert (0 <= bno / 2 ^ (k + 3)) by (apply Z.div_pos; [apply Hb | lia]).
  rewrite E32. nia.
Qed.

Lemma run_same_block B bno x :
  0 < B -> bno <= x <= B * (bno / B) + (B - 1) -> x / B = bno / B.
Proof.
  intros HB Hx. pose proof (Z.mul_div_le bno B HB).
  symmetry. apply (Z.div_unique x B (bno / B) (x - B * (bno / B))); lia.
Qed.

Lemma next_block B bno x :
  0 < B -> B * (bno / B) + (B - 1) < x -> bno / B < x / B.
Proof.
  intros HB Hx.
  assert (bno / B + 1 <= x / B) by (apply Z.div_le_lower_bound; lia). lia.
Qed.

Lemma same_block_offset x y :
  0 < BPB -> x / BPB = y / BPB -> x mod BPB = y mod BPB -> x = y.
Proof.
  intros HB H1 H2.
  rewrite (Z.div_mod x BPB), (Z.div_mod y BPB) by lia. congruence.
Qed.

(** A sorted vector splits into the run of its first bitmap block and the
    blocks of later bitmap blocks. *)
Lemma group_partition bno rest :
  0 < BPB -> StronglySorted Z.le (bno :: rest) ->
  let mx := BPB * (bno / BPB) + (BPB - 1) in
  (forall x, In x (bno :: take_le mx rest) -> x / BPB = bno / BPB) /\
  (forall x, In x (drop_le mx rest) -> bno / BPB < x / BPB).
Proof.
  intros HB Hs mx. apply StronglySorted_inv in Hs. destruct Hs as [Hs Hall].
  rewrite Forall_forall in Hall. split.
  - intros x [<- | Hx]; [reflexivity |].
    apply run_same_block; [exact HB |]. split.
    + apply Hall. rewrite (take_drop_le mx rest). apply in_or_app; auto.
    + apply (take_le_bound mx rest x Hx).
  - intros x Hx. apply next_block; [exact HB |].
    apply (drop_le_bound mx rest x Hs Hx).
Qed.

Lemma existsb_same {A} (f g : A -> bool) l :
  (forall x, In x l -> f x = g x) -> existsb f l = existsb g l.
Proof.
  induction l as [| a l IH]; intros H; cbn; [reflexivity |].
  rewrite (H a), IH; auto using in_eq, in_cons.
Qed.

Lemma existsb_none {A} (f : A -> bool) l :
  (forall x, In x l -> f x = false) -> existsb f l = false.
Proof.
  induction l as [| a l IH]; intros H; cbn; [reflexivity |].
  rewrite (H a), IH; auto using in_eq, in_cons.
Qed.

Lemma bitmap_bit_in_block w x q :
  x / BPB = q ->
  bitmap_bit w x
  = dbit (w_buf w (1, inode_end (sb_ninodes (w_sb w)) + q)) (x mod BPB).
Proof. intros <-. reflexivity. Qed.

(** The state after the run of one bitmap block. *)
Lemma group_world w bno d :
  let nin := sb_ninodes (w_sb w) in
  let bp := (1, BBLOCK bno nin) in
  let w0 := set_buf w bp d in
  let w1 := set_trans w0 (add_block (w_trans w0)
              (mk_tdb (snd bp) (w_buf w0 bp) (timestamp_ (w_trans w0)))) in
  (forall b, bitmap_bit w1 b
             = if b / BPB =? bno / BPB then dbit d (b mod BPB)
               else bitmap_bit w b) /\
  (forall k, List.length (snapshots_of k (w_trans w1))
             = Nat.add (List.length (snapshots_of k (w_trans w)))
                 (if BBLOCK bno nin =? k then 1%nat else 0%nat)) /\
  (forall k, k <> bp -> w_buf w1 k = w_buf w k).
Proof.
  intros nin bp w0 w1. split; [| split].
  - intros b. unfold bitmap_bit. cbn [w1 w0 set_trans set_buf w_buf w_sb].
    fold nin. unfold bp, BBLOCK.
    destruct (Z.eqb_spec (b / BPB) (bno / BPB)) as [E | N].
    + rewrite E, upd_same. reflexivity.
    + rewrite upd_other; [reflexivity |]. intros H. inversion H. lia.
  - intros k. unfold snapshots_of. cbn [w1 w0 set_trans w_trans add_block blocks].
    rewrite filter_app, length_app. cbn [filter blocknum snd bp].
    destruct (BBLOCK bno nin =? k); reflexivity.
  - intros k Hk. cbn [w1 w0 set_trans set_buf w_buf].
    apply upd_other. auto.
Qed.

Lemma group_fail alloc w g r q :
  0 < BPB ->
  (forall x, In x g -> x / BPB = q) ->
  flip_all alloc (w_buf w (1, inode_end (sb_ninodes (w_sb w)) + q)) g = None ->
  ~ markable alloc w (g ++ r).
Proof.
  intros HB Hg Hrun [Hnd Hbits].
  destruct (flip_all_good alloc g
              (w_buf w (1, inode_end (sb_ninodes (w_sb w)) + q)))
    as (d & E & _); [| | congruence].
  - apply NoDup_map_NoDup_ForallPairs.
    + intros x y Hx Hy E. apply same_block_offset; auto.
      rewrite (Hg x), (Hg y); auto.
    + apply (NoDup_app_remove_r _ _ Hnd).
  - intros x Hx. rewrite <- (bitmap_bit_in_block w x q) by auto.
    apply Hbits, in_or_app. auto.
Qed.

Lemma group_markable alloc w w1 bno t r d :
  let g := bno :: t in
  let q := bno / BPB in
  0 < BPB ->
  (forall x, In x g -> x / BPB = q) ->
  (forall x, In x r -> q < x / BPB) ->
  (forall b, bitmap_bit w1 b
             = if b / BPB =? q then dbit d (b mod BPB) else bitmap_bit w b) ->
  flip_all alloc (w_buf w (1, inode_end (sb_ninodes (w_sb w)) + q)) g = Some d ->
  markable alloc w (g ++ r) <-> markable alloc w1 r.
Proof.
  intros g q HB Hg Hr Hb1 Hrun.
  assert (Hr1 : forall x, In x r -> bitmap_bit w1 x = bitmap_bit w x).
  { intros x Hx. rewrite Hb1. specialize (Hr x Hx).
    destruct (Z.eqb_spec (x / BPB) q); [lia | reflexivity]. }
  split; intros [Hnd Hbits].
  - split; [apply (NoDup_app_remove_l _ _ Hnd) |].
    intros x Hx. rewrite Hr1 by auto. apply Hbits, in_or_app. auto.
  - destruct (flip_all_some alloc g _ d Hrun) as [Hndg Hbg]. split.
    + apply NoDup_app; [apply (NoDup_map_inv _ _ Hndg) | exact Hnd |].
      intros x Hx Hx'. specialize (Hg x Hx). specialize (Hr x Hx'). lia.
    + intros x Hx. apply in_app_or in Hx. destruct Hx as [Hx | Hx].
      * rewrite (bitmap_bit_in_block w x q) by auto. auto.
      * rewrite <- Hr1 by auto. auto.
Qed.

Lemma group_marked alloc w w1 w' bno t r d :
  let g := bno :: t in
  let q := bno / BPB in
  let nin := sb_ninodes (w_sb w) in
  0 < BPB ->
  (forall x, In x g -> x / BPB = q) ->
  (forall x, In x r -> q < x / BPB) ->
  w_sb w1 = w_sb w -> w_ino w1 = w_ino w ->
  (forall b, bitmap_bit w1 b
             = if b / BPB =? q then dbit d (b mod BPB) else bitmap_bit w b) ->
  (forall k, List.length (snapshots_of k (w_trans w1))
             = Nat.add (List.length (snapshots_of k (w_trans w)))
                 (if inode_end nin + q =? k then 1%nat else 0%nat)) ->
  (forall k, k <> (1, inode_end nin + q) -> w_buf w1 k = w_buf w k) ->
  flip_all alloc (w_buf w (1, inode_end nin + q)) g = Some d ->
  marked alloc r w1 w' -> marked alloc (g ++ r) w w'.
Proof.
  intros g q nin HB Hg Hr Hsb1 Hino1 Hb1 Hlog1 Hoth1 Hrun
    [Msb Mino Mbits Mlog Moth].
  split.
  - congruence.
  - congruence.
  - intros b. rewrite Mbits, existsb_app, Hb1.
    destruct (flip_all_some alloc g _ d Hrun) as [Hnd Hbg].
    destruct (flip_all_good alloc g _ Hnd Hbg) as (d' & E & Hd).
    rewrite Hrun in E. injection E as <-.
    destruct (Z.eqb_spec (b / BPB) q) as [Eq | Nq].
    + rewrite (existsb_none (Z.eqb b) r), orb_false_r.
      2:{ intros x Hx. apply Z.eqb_neq. intros ->. specialize (Hr x Hx). lia. }
      rewrite Hd.
      rewrite (existsb_same (fun x => x mod BPB =? b mod BPB) (Z.eqb b) g).
      2:{ intros x Hx. specialize (Hg x Hx).
          destruct (Z.eqb_spec (x mod BPB) (b mod BPB)) as [Em | Nm];
            destruct (Z.eqb_spec b x) as [Ex | Nx]; auto.
          - exfalso. apply Nx. apply same_block_offset; auto. lia.
          - subst x. congruence. }
      rewrite (bitmap_bit_in_block w b q) by auto. reflexivity.
    + rewrite (existsb_none (Z.eqb b) g); [reflexivity |].
      intros x Hx. apply Z.eqb_neq. intros ->. apply Nq. auto.
  - intros k. rewrite Mlog, Hlog1, Hsb1, existsb_app. fold nin. unfold BBLOCK.
    destruct (Z.eqb_spec (inode_end nin + q) k) as [Ek | Nk].
    + rewrite (existsb_none _ r).
      2:{ intros x Hx. apply Z.eqb_neq. specialize (Hr x Hx). lia. }
      cbn [g existsb]. fold q. rewrite (proj2 (Z.eqb_eq _ _) Ek). cbn. lia.
    + rewrite (existsb_none _ g).
      2:{ intros x Hx. apply Z.eqb_neq. rewrite (Hg x Hx). exact Nk. }
      cbn. lia.
  - intros k Hk. rewrite Moth.
    + apply Hoth1. intros ->. apply (Hk bno); [left; reflexivity |].
      reflexivity.
    + intros b Hb. rewrite Hsb1. apply Hk, in_or_app. auto.
Qed.

(** The loop over the sorted vector: it returns exactly when the blocks can
    be marked, and halts the kernel otherwise. *)
Lemma bitmap_groups_spec alloc : forall fuel l w,
  bitmap_ok w -> StronglySorted Z.le l -> Forall is_u32 l ->
  (List.length l <= fuel)%nat ->
  match bitmap_groups fuel l TRANS alloc w with
  | Ret _ w' => markable alloc w l /\ marked alloc l w w'
  | Panic => ~ markable alloc w l
  | _ => False
  end.
Proof.
  assert (Hnil : forall w, markable alloc w [] /\ marked alloc [] w w).
  { intros w. split; [split; [constructor | intros b []] |].
    split; auto. }
  induction fuel as [| f IH]; intros l w Hok Hs Hu Hlen.
  - destruct l; [apply Hnil | cbn in Hlen; lia].
  - destruct l as [| bno rest]; [apply Hnil |].
    pose proof (BPB_pos w Hok) as HB.
    assert (Hbno : is_u32 bno) by (inversion Hu; auto).
    cbn [bitmap_groups]. unfold bind at 1, get at 1. cbv beta iota.
    unfold bind at 1, buf_data at 1. cbv beta iota zeta.
    rewrite bitmap_run_spec, (max_bno_val w bno Hok Hbno).
    rewrite (u32_small (BBLOCK bno _)) by (apply (proj2 Hok bno Hbno)).
    destruct (group_partition bno rest HB Hs) as [Hg Hr].
    set (mx := BPB * (bno / BPB) + (BPB - 1)) in *.
    assert (El : bno :: rest = (bno :: take_le mx rest) ++ drop_le mx rest)
      by (cbn; f_equal; apply take_drop_le).
    rewrite El.
    destruct (flip_all alloc _ (bno :: take_le mx rest)) as [d |] eqn:Hrun.
    + unfold bind at 1, buf_store at 1, modify at 1. cbv beta iota.
      unfold bind at 1, add_to_transaction at 1, modify at 1. cbv beta iota.
      destruct (group_world w bno d) as (Hb1 & Hlog1 & Hoth1).
      cbv zeta in Hb1, Hlog1, Hoth1.
      match goal with
      | |- context [bitmap_groups f ?l TRANS alloc ?w1] =>
          specialize (IH l w1); set (wg := w1) in *
      end.
      assert (Hsb1 : w_sb wg = w_sb w) by reflexivity.
      assert (Hino1 : w_ino wg = w_ino w) by reflexivity.
      apply StronglySorted_inv in Hs. destruct Hs as [Hs _].
      assert (Hu' : Forall is_u32 (drop_le mx rest)).
      { apply Forall_forall. intros x Hx. rewrite Forall_forall in Hu.
        apply Hu. right. apply (drop_le_in mx rest x Hx). }
      pose proof (drop_le_length mx rest) as Hl. cbn in Hlen.
      specialize (IH Hok (drop_le_sorted mx rest Hs) Hu' ltac:(lia)).
      pose proof (group_markable alloc w wg bno (take_le mx rest)
                    (drop_le mx rest) d HB Hg Hr Hb1 Hrun) as Hiff.
      destruct (bitmap_groups f (drop_le mx rest) TRANS alloc wg)
        as [u w' | | |]; auto.
      * destruct IH as [Hm1 Hmk]. split; [apply Hiff, Hm1 |].
        apply (group_marked alloc w wg w' bno (take_le mx rest)
                 (drop_le mx rest) d); auto.
      * intros Hm. apply IH, Hiff, Hm.
    + apply (group_fail alloc w _ _ (bno / BPB) HB Hg Hrun).
Qed.

Lemma existsb_perm {A} (f : A -> bool) l l' :
  Permutation l l' -> existsb f l = existsb f l'.
Proof.
  induction 1; cbn; try congruence.
  destruct (f x), (f y); reflexivity.
Qed.

Lemma markable_perm alloc w l l' :
  Permutation l l' -> markable alloc w l -> markable alloc w l'.
Proof.
  intros Hp [Hnd Hb]. split; [apply (Permutation_NoDup Hp Hnd) |].
  intros b Hin. apply Hb. apply (Permutation_in _ (Permutation_sym Hp) Hin).
Qed.

Lemma marked_perm alloc w w' l l' :
  Permutation l l' -> marked alloc l w w' -> marked alloc l' w w'.
Proof.
  intros Hp [Msb Mino Mbits Mlog Moth]. split; auto.
  - intros b. rewrite <- (existsb_perm _ l l' Hp). apply Mbits.
  - intros k. rewrite <- (existsb_perm _ l l' Hp). apply Mlog.
  - intros k Hk. apply Moth. intros b Hin. apply Hk.
    apply (Permutation_in _ Hp Hin).
Qed.


(** ** Truncation *)









Lemma dense_from_weaken ip w lo lo' :
  lo <= lo' -> dense_from w ip lo -> dense_from w ip lo'.
Proof. intros Hl Hd x x' H1 H2 H3 H4. apply Hd; auto. lia. Qed.









Lemma run_logged {A} bp (K : M A) w :
  (add_to_transaction bp TRANS ;; K) w = K (logged bp w).
Proof. reflexivity. Qed.
























(** Block maps with direct blocks only. *)
Lemma val_direct_only w ip s :
  val w ip SInd = 0 -> val w ip SDbl = 0 ->
  val w ip s = match s with
               | SDirect i => i_addrs (w_ino w ip) i
               | _ => 0
               end.
Proof.
  intros Hi Hd. destruct s; cbn [val] in *; rewrite ?Hi, ?Hd; reflexivity.
Qed.

Lemma wf_direct_only w ip :
  val w ip SInd = 0 -> val w ip SDbl = 0 ->
  (forall i i', i_addrs (w_ino w ip) i <> 0 ->
                i_addrs (w_ino w ip) i = i_addrs (w_ino w ip) i' -> i = i') ->
  (forall i, i_addrs (w_ino w ip) i <> 0 ->
             is_free (w_free w) (i_addrs (w_ino w ip) i) = false) ->
  is_free (w_free w) 0 = false -> sb_size (w_sb w) <= 2 ^ 32 ->
  wf w ip.
Proof.
  intros Hi Hd Hinj Hused Hz Hsb. constructor; auto.
  - intros s1 s2 _ _. rewrite !(val_direct_only w ip _ Hi Hd).
    destruct s1, s2; try congruence. intros Hnz E. f_equal. auto.
  - intros s _. rewrite (val_direct_only w ip _ Hi Hd).
    destruct s; try congruence. auto.
Qed.

(** * Further properties of the allocator and of the block map *)

(** ** bmap on a block that is mapped *)

Lemma addr_or_alloc_set ip k trans z w :
  i_addrs (w_ino w ip) k <> 0 ->
  addr_or_alloc ip k trans z w = Ret (i_addrs (w_ino w ip) k) w.
Proof.
  intros H. unfold addr_or_alloc, bind, rd.
  destruct (Z.eqb_spec (i_addrs (w_ino w ip) k) 0); [contradiction |].
  reflexivity.
Qed.

Lemma entry_or_alloc_set bp k trans z w :
  u32_at (w_buf w bp) k <> 0 ->
  entry_or_alloc bp k trans z w = Ret (u32_at (w_buf w bp) k) w.
Proof.
  intros H. unfold entry_or_alloc, bind, rd_u32.
  destruct (Z.eqb_spec (u32_at (w_buf w bp) k) 0); [contradiction |].
  reflexivity.
Qed.

Lemma rdent_nz_eq w dev blk idx :
  rdent w dev blk idx <> 0 ->
  blk <> 0 /\ rdent w dev blk idx = u32_at (w_buf w (dev, blk)) idx.
Proof.
  unfold rdent. destruct (Z.eqb_spec blk 0); [congruence | auto].
Qed.

(** X1.  [bmap] of a logical block that is mapped is a lookup: it returns
    the block number that the map holds for it and leaves the state as it
    is, whatever the transaction and the zero-on-alloc flag; nothing is
    asked of the rest of the map. *)
Theorem bmap_mapped_is_lookup ip bn trans z w :
  params_ok -> 0 <= bn < MAXFILE -> is_u32 bn ->
  val w ip (leaf bn) <> 0 ->
  bmap ip bn trans z w = Ret (val w ip (leaf bn)) w.
Proof.
  intros (HB & HD & HI & _) Hbn Hu Hv. unfold bmap, MAXFILE in *.
  destruct (Z.ltb_spec bn NDIRECT) as [L | G].
  - rewrite leaf_direct in * by auto. cbn [val] in *.
    apply addr_or_alloc_set; auto.
  - rewrite (u32_small (bn - NDIRECT)) by pow_lia.
    destruct (Z.ltb_spec (bn - NDIRECT) NINDIRECT) as [L1 | G1].
    + rewrite leaf_ind in * by auto. cbn [val] in *.
      destruct (rdent_nz_eq _ _ _ _ Hv) as [Hp He].
      unfold bind. rewrite addr_or_alloc_set by auto.
      rewrite He in *. apply entry_or_alloc_set; auto.
    + rewrite (u32_small (bn - NDIRECT - NINDIRECT)) by pow_lia.
      destruct (Z.geb_spec (bn - NDIRECT - NINDIRECT) (NINDIRECT * NINDIRECT));
        [lia |].
      rewrite leaf_dbl in * by auto. cbn [val] in *.
      destruct (rdent_nz_eq _ _ _ _ Hv) as [Hp1 He1].
      destruct (rdent_nz_eq _ _ _ _ Hp1) as [Hp2 He2].
      unfold bind. rewrite addr_or_alloc_set by auto.
      rewrite He2 in *. rewrite entry_or_alloc_set by auto.
      rewrite He1 in *. apply entry_or_alloc_set; auto.
Qed.

(** X2.  [bmap] of a logical block that is not mapped, on a consistent map:
    when it returns, the block it returns is not 0, was free in the
    in-memory bitmap and no longer is, and is what the map now holds for
    [bn]; the map is consistent, every other logical block is mapped as
    before and the block is all zero when zero-on-alloc is set.  When
    [balloc] throws, no logical block has changed its mapping. *)
Theorem bmap_allocates_fresh_block ip bn trans z w :
  params_ok -> wf w ip -> 0 <= bn < MAXFILE -> is_u32 bn ->
  val w ip (leaf bn) = 0 ->
  match bmap ip bn trans z w with
  | Ret b w' =>
      b <> 0 /\ val w' ip (leaf bn) = b /\
      is_free (w_free w) b = true /\ is_free (w_free w') b = false /\
      wf w' ip /\
      (forall bn', 0 <= bn' < MAXFILE -> bn' <> bn ->
                   val w' ip (leaf bn') = val w ip (leaf bn')) /\
      (z = true -> w_buf w' (fst ip, b) = zero_block)
  | Throw w' =>
      wf w' ip /\
      forall bn', 0 <= bn' < MAXFILE ->
                  val w' ip (leaf bn') = val w ip (leaf bn')
  | Panic => False
  | Timeout => False
  end.
Proof.
  intros Hp Hwf Hbn Hu Hz.
  pose proof (bmap_spec ip bn trans z w Hp Hwf Hbn Hu) as H.
  unfold wp, bmap_post, bmap_exn in H.
  assert (Hl : slot_ok (leaf bn)) by (apply leaf_ok; auto).
  destruct (bmap ip bn trans z w) as [b w' | w' | |]; auto.
  - destruct H as (Hb & Hnz & Hwf' & Hext & _ & Hoth).
    split; [auto |]. split; [auto |]. split; [| split; [| split; [| split]]].
    + rewrite Hb. apply (ext_fresh _ _ _ _ _ Hext); auto. congruence.
    + rewrite Hb. apply (wf_used w' ip Hwf'); auto. congruence.
    + auto.
    + intros bn' Hbn' Hne. apply Hoth.
      * apply leaf_ok; auto.
      * apply leaf_is_leaf.
      * intros E. apply Hne. apply leaf_inj; auto.
    + intros ->. rewrite Hb. apply (ext_zero _ _ _ _ _ Hext); auto.
      * apply leaf_is_leaf.
      * congruence.
  - destruct H as (Hwf' & _ & Hsame & _). split; [auto |].
    intros bn' Hbn'. apply Hsame; [apply leaf_ok; auto | apply leaf_is_leaf].
Qed.

(** X3.  On a consistent map [bmap] halts exactly when the logical block
    number is out of range, that is, not below [MAXFILE]. *)
Theorem bmap_panics_iff_out_of_range ip bn trans z w :
  params_ok -> wf w ip -> is_u32 bn ->
  (bmap ip bn trans z w = Panic <-> MAXFILE <= bn).
Proof.
  intros Hp Hwf Hu. split.
  - intros E. destruct (Z_lt_ge_dec bn MAXFILE) as [L | G]; [| lia].
    exfalso.
    assert (Hbn : 0 <= bn < MAXFILE) by (unfold is_u32 in Hu; lia).
    pose proof (bmap_spec ip bn trans z w Hp Hwf Hbn Hu) as H.
    unfold wp in H. rewrite E in H. exact H.
  - intros G. apply bmap_out_of_range; auto.
Qed.

(** X4.  One call of [bmap] takes at most three blocks from the free list
    (the data block and the blocks of at most two levels of indirection),
    and it throws [out_of_blocks] only when fewer than three blocks are
    free or the inode is not on device 1. *)
Theorem bmap_takes_at_most_three_blocks ip bn trans z w :
  match bmap ip bn trans z w with
  | Ret _ w' => nfree w <= nfree w' + 3 /\ w_sb w' = w_sb w
  | Throw _ => nfree w < 3 \/ fst ip <> 1
  | Panic => True
  | Timeout => True
  end.
Proof.
  pose proof (bmap_count ip bn trans z w) as H. unfold wp, spent in H.
  destruct (bmap ip bn trans z w); auto.
Qed.

(** ** balloc and bfree *)

Lemma first_free_lowest v i j :
  first_free v = Some i -> (j < i)%nat -> nth j v false = false.
Proof.
  revert i j; induction v as [| [|] v IH]; simpl; intros i j H Hj;
    try discriminate.
  - inversion H; subst. lia.
  - destruct (first_free v) as [i' |] eqn:E; simpl in H; inversion H; subst.
    destruct j as [| j]; auto. apply (IH i'); auto. lia.
Qed.

Lemma first_free_none v j : first_free v = None -> nth j v false = false.
Proof.
  revert j; induction v as [| [|] v IH]; simpl; intros j H;
    try discriminate.
  - destruct j; reflexivity.
  - destruct (first_free v) eqn:E; simpl in H; [discriminate |].
    destruct j as [| j]; auto.
Qed.

Lemma set_bit_back v i :
  nth i v false = true -> set_bit (set_bit v i false) i true = v.
Proof.
  revert i; induction v as [| y v IH]; simpl; intros [| i] H; auto.
  - subst; reflexivity.
  - simpl. rewrite IH; auto.
Qed.

(** X5.  [balloc] hands out a block only on device 1: the block is below
    the size of the file system, was free in the in-memory bitmap and is
    the only block whose bit changes; it is zeroed in the buffer cache
    exactly when zero-on-alloc is set, and the transaction, when there is
    one, is told of the allocation.  [balloc] throws [out_of_blocks] for
    another device, leaving the state alone, and otherwise only when no
    block below the size of the file system is free. *)
Theorem balloc_hands_out_a_free_block dev trans z w :
  sb_size (w_sb w) <= 2 ^ 32 ->
  match balloc dev trans z w with
  | Ret b w' =>
      dev = 1 /\ 0 <= b < sb_size (w_sb w) /\
      is_free (w_free w) b = true /\
      (forall x, is_free (w_free w') x
                 = if x =? b then false else is_free (w_free w) x) /\
      w_buf w' = (if z then upd (w_buf w) (dev, b) zero_block else w_buf w) /\
      w_trans w' = (if is_trans trans
                    then add_allocated_block (w_trans w) b else w_trans w) /\
      w_ino w' = w_ino w /\ w_io w' = w_io w
  | Throw w' =>
      (dev <> 1 /\ w' = w) \/
      (dev = 1 /\
       forall x, 0 <= x < sb_size (w_sb w) -> is_free (w_free w) x = false)
  | Panic => False
  | Timeout => False
  end.
Proof.
  intros Hsb. unfold balloc.
  destruct (Z.eqb_spec dev 1) as [-> | Hd]; [| left; auto].
  unfold bind, alloc_block, get.
  destruct (first_free (w_free w)) as [i |] eqn:Ef.
  - cbn [w_sb set_free].
    destruct (Z.ltb_spec (Z.of_nat i) (sb_size (w_sb w))) as [Hlt | Hge].
    + assert (Hi : is_u32 (Z.of_nat i)) by (unfold is_u32; lia).
      assert (Hfr : forall x, is_free (set_bit (w_free w) i false) x
                     = if x =? Z.of_nat i then false else is_free (w_free w) x).
      { intros x. destruct (Z.eqb_spec x (Z.of_nat i)) as [-> | N].
        - apply is_free_clear_same.
        - apply is_free_clear_other; auto. }
      pose proof (first_free_is_free _ _ Ef) as Hfree.
      rewrite (u32_small _ Hi).
      destruct trans, z; cbn; repeat split; auto; lia.
    + right. split; [reflexivity |]. intros x Hx. unfold is_free.
      destruct (Z.leb_spec 0 x); [| lia]. cbn [andb].
      apply (first_free_lowest _ i); auto. lia.
  - destruct (Z.ltb_spec (sb_size (w_sb w)) (sb_size (w_sb w))); [lia |].
    right. split; [reflexivity |]. intros x Hx. unfold is_free.
    rewrite first_free_none by auto. apply andb_false_r.
Qed.

(** X6.  [bfree] without delay undoes [balloc]: freeing the block that
    [balloc] has just returned gives back the in-memory bitmap as it was
    before the allocation. *)
Theorem bfree_undoes_balloc trans z trans' w b w1 :
  sb_size (w_sb w) <= 2 ^ 32 ->
  balloc 1 trans z w = Ret b w1 ->
  exists w2,
    bfree 1 b trans' false w1 = Ret tt w2 /\ w_free w2 = w_free w.
Proof.
  intros Hsb. unfold balloc. cbn [Z.eqb Pos.eqb].
  unfold bind, alloc_block, get.
  destruct (first_free (w_free w)) as [i |] eqn:Ef.
  - cbn [w_sb set_free].
    destruct (Z.ltb_spec (Z.of_nat i) (sb_size (w_sb w))) as [Hlt | Hge];
      [| discriminate].
    assert (Hi : is_u32 (Z.of_nat i)) by (unfold is_u32; lia).
    rewrite (u32_small _ Hi).
    assert (Hback : set_bit (set_bit (w_free w) i false) i true = w_free w).
    { apply set_bit_back. apply first_free_spec; auto. }
    intros E.
    assert (Hb : b = Z.of_nat i /\ w_free w1 = set_bit (w_free w) i false).
    { destruct trans, z; cbn in E; inversion E; subst; auto. }
    destruct Hb as [-> Hf1].
    unfold bfree. rewrite (u32_small _ Hi). cbn [Z.eqb Pos.eqb negb when].
    unfold bind, free_block, modify.
    destruct trans'; cbn; eexists; (split; [reflexivity |]); cbn;
      rewrite Hf1, Nat2Z.id; exact Hback.
  - destruct (Z.ltb_spec (sb_size (w_sb w)) (sb_size (w_sb w))); [lia |].
    discriminate.
Qed.

(** X7.  A delayed [bfree] never makes the block available: it leaves the
    in-memory bitmap alone and only adds the block to the list of blocks
    that the transaction is to free, so a block that is in use cannot be
    returned by the next [balloc].  On a device other than 1 [bfree] does
    nothing at all. *)
Theorem bfree_delayed_keeps_block_in_use dev x trans w :
  exists w',
    bfree dev x trans true w = Ret tt w' /\
    w_free w' = w_free w /\ w_sb w' = w_sb w /\
    free_blocks (w_trans w')
    = (if (dev =? 1) && is_trans trans
       then free_blocks (w_trans w) ++ [u32 x] else free_blocks (w_trans w)) /\
    (dev <> 1 -> w' = w) /\
    (sb_size (w_sb w) <= 2 ^ 32 -> is_free (w_free w) (u32 x) = false ->
     forall trans' z b w'',
       balloc 1 trans' z w' = Ret b w'' -> b <> u32 x).
Proof.
  assert (Hnext : forall w', w_free w' = w_free w -> w_sb w' = w_sb w ->
            sb_size (w_sb w) <= 2 ^ 32 ->
            is_free (w_free w) (u32 x) = false ->
            forall trans' z b w'',
              balloc 1 trans' z w' = Ret b w'' -> b <> u32 x).
  { intros w' Hf Hs Hsb Hused trans' z b w'' E Eb. subst b.
    unfold balloc in E. cbn [Z.eqb Pos.eqb] in E.
    unfold bind, alloc_block, get in E. rewrite Hf in E.
    destruct (first_free (w_free w)) as [i |] eqn:Ef.
    - cbn [w_sb set_free] in E.
      destruct (Z.ltb_spec (Z.of_nat i) (sb_size (w_sb w'))) as [Hlt | Hge];
        [| discriminate].
      pose proof (first_free_is_free _ _ Ef) as Hfree.
      assert (Hu : u32 (Z.of_nat i) = u32 x).
      { destruct trans', z; cbn in E; inversion E; auto. }
      rewrite Hs in Hlt.
      rewrite u32_small in Hu by (unfold is_u32; lia). congruence.
    - rewrite Z.ltb_irrefl in E. discriminate. }
  unfold bfree. cbn [negb when].
  destruct (Z.eqb_spec dev 1) as [-> | Hd].
  - destruct trans; cbn [is_trans when andb Z.eqb Pos.eqb];
      unfold bind, ret, modify; eexists; (split; [reflexivity |]);
      (split; [reflexivity |]); (split; [reflexivity |]);
      (split; [reflexivity |]); (split; [congruence |]);
      apply Hnext; reflexivity.
  - exists w. split; [reflexivity |]. split; [reflexivity |].
    split; [reflexivity |]. split.
    + destruct (Z.eqb_spec dev 1); [contradiction | reflexivity].
    + split; [reflexivity |]. apply Hnext; reflexivity.
Qed.

(** * Further properties of readi and writei *)

(** ** What they never do *)

Lemma always_step {A B} (m : M A) (k : A -> M B) (R : world -> world -> Prop) w :
  (forall w1 w2 w3, R w1 w2 -> R w2 w3 -> R w1 w3) ->
  always m (R w) w ->
  (forall a w1, always (k a) (R w1) w1) ->
  always (bind m k) (R w) w.
Proof.
  intros Ht Hm Hk. unfold always, bind in *.
  destruct (m w) as [a w1 | w1 | |]; auto.
  specialize (Hk a w1). destruct (k a w1) as [b w2 | w2 | |]; eauto.
Qed.

Lemma always_catch {A} (m h : M A) (R : world -> world -> Prop) w :
  (forall w1 w2 w3, R w1 w2 -> R w2 w3 -> R w1 w3) ->
  always m (R w) w ->
  (forall w1, always h (R w1) w1) ->
  always (catch m h) (R w) w.
Proof.
  intros Ht Hm Hh. unfold always, catch in *.
  destruct (m w) as [a w1 | w1 | |]; auto.
  specialize (Hh w1). destruct (h w1) as [b w2 | w2 | |]; eauto.
Qed.

Lemma quiet_refl wb trans w : quiet wb trans w w.
Proof.
  split; [exists []; split; [symmetry; apply app_nil_r | reflexivity] |].
  repeat split; auto.
Qed.

Lemma quiet_trans wb trans w1 w2 w3 :
  quiet wb trans w1 w2 -> quiet wb trans w2 w3 -> quiet wb trans w1 w3.
Proof.
  intros ((l1 & E1 & N1) & T1 & S1 & F1) ((l2 & E2 & N2) & T2 & S2 & F2).
  split; [| split; [| split]].
  - exists (l1 ++ l2). split.
    + rewrite E2, E1, app_assoc. reflexivity.
    + intros H. rewrite N1, N2; auto.
  - intros H. rewrite T2, T1; auto.
  - congruence.
  - auto.
Qed.

(** A step that writes nothing to the disk. *)
Lemma quiet_same wb trans w w' :
  w_io w' = w_io w -> (trans = NULL -> w_trans w' = w_trans w) ->
  w_sb w' = w_sb w -> w_free w' = w_free w -> quiet wb trans w w'.
Proof.
  intros Hio Ht Hs Hf.
  split; [exists []; split; [rewrite app_nil_r; exact Hio | reflexivity] |].
  split; [exact Ht |]. split; [exact Hs |]. intros b. rewrite Hf. auto.
Qed.

Lemma balloc_quiet wb dev trans z w :
  always (balloc dev trans z) (quiet wb trans w) w.
Proof.
  unfold balloc. destruct (dev =? 1); [| apply quiet_refl].
  unfold always, bind, alloc_block, get.
  assert (Hq : forall i w',
             w_io w' = w_io w -> (trans = NULL -> w_trans w' = w_trans w) ->
             w_sb w' = w_sb w -> w_free w' = set_bit (w_free w) i false ->
             quiet wb trans w w').
  { intros i w' Hio Ht Hs Hf.
    split; [exists []; split; [rewrite app_nil_r; exact Hio | reflexivity] |].
    split; [exact Ht |]. split; [exact Hs |].
    intros b. rewrite Hf. apply is_free_clear_mono. }
  destruct (first_free (w_free w)) as [i |]; cbn [w_sb set_free].
  - destruct (_ <? _).
    + destruct trans, z; cbn; apply (Hq i); auto; discriminate.
    + apply (Hq i); auto.
  - destruct (_ <? _); [| apply quiet_refl].
    destruct trans, z; cbn; apply quiet_same; auto; discriminate.
Qed.

Lemma addr_or_alloc_quiet wb ip k trans z w :
  always (addr_or_alloc ip k trans z) (quiet wb trans w) w.
Proof.
  unfold addr_or_alloc.
  apply always_step; [apply quiet_trans | apply quiet_refl |]. intros i w1.
  apply always_step; [apply quiet_trans | | intros; apply quiet_refl].
  destruct (_ =? 0); [| apply quiet_refl].
  apply always_step; [apply quiet_trans | apply balloc_quiet |].
  intros b w2. apply quiet_same; auto.
Qed.

Lemma entry_or_alloc_quiet wb bp k trans z w :
  always (entry_or_alloc bp k trans z) (quiet wb trans w) w.
Proof.
  unfold entry_or_alloc.
  apply always_step; [apply quiet_trans | apply quiet_refl |]. intros e w1.
  apply always_step; [apply quiet_trans | | intros; apply quiet_refl].
  destruct (_ =? 0); [| apply quiet_refl].
  apply always_step; [apply quiet_trans | apply balloc_quiet |].
  intros b w2.
  apply always_step; [apply quiet_trans | apply quiet_same; auto |].
  intros u w3. destruct trans; [apply quiet_refl |].
  apply quiet_same; auto. discriminate.
Qed.

Lemma bmap_quiet wb ip bn trans z w :
  always (bmap ip bn trans z) (quiet wb trans w) w.
Proof.
  unfold bmap. destruct (_ <? _); [apply addr_or_alloc_quiet |].
  destruct (_ <? _).
  - apply always_step; [apply quiet_trans | apply addr_or_alloc_quiet |].
    intros; apply entry_or_alloc_quiet.
  - destruct (_ >=? _); [exact I |].
    apply always_step; [apply quiet_trans | apply addr_or_alloc_quiet |].
    intros.
    apply always_step; [apply quiet_trans | apply entry_or_alloc_quiet |].
    intros; apply entry_or_alloc_quiet.
Qed.

Lemma writei_round_quiet ip src spos tot off n trans wb w :
  always (writei_round ip src spos tot off n trans wb) (quiet wb trans w) w.
Proof.
  unfold writei_round. cbv zeta.
  apply always_step; [apply quiet_trans | |].
  - apply always_catch; [apply quiet_trans | | intros; apply quiet_refl].
    apply always_step; [apply quiet_trans | apply bmap_quiet |].
    intros; apply quiet_refl.
  - intros [blocknum |] w1; [| apply quiet_refl].
    unfold always, bind, buf_data, buf_store, when, add_to_transaction,
      writeback_async, writeback, modify, ret.
    destruct trans, wb; cbn;
      try (apply quiet_same; auto; discriminate);
      (split; [eexists; split; [reflexivity | discriminate] |]);
      repeat split; auto.
Qed.

Lemma writei_loop_quiet ip src trans wb n : forall fuel spos tot off w,
  always (writei_loop fuel ip src spos tot off n trans wb) (quiet wb trans w) w.
Proof.
  induction fuel as [| fuel IH]; intros spos tot off w; cbn [writei_loop];
    (destruct (tot <? n); [| apply quiet_refl]); [exact I |].
  apply always_step; [apply quiet_trans | apply writei_round_quiet |].
  intros [m |] w1; [apply IH | apply quiet_refl].
Qed.

Lemma readi_loop_quiet ip n : forall fuel dst dpos tot off w,
  always (readi_loop fuel ip dst dpos tot off n) (quiet false NULL w) w.
Proof.
  induction fuel as [| fuel IH]; intros dst dpos tot off w; cbn [readi_loop];
    (destruct (tot <? n); [| apply quiet_refl]); [exact I |].
  apply always_step; [apply quiet_trans | |].
  - unfold readi_round.
    apply always_step; [apply quiet_trans | |].
    + apply always_catch; [apply quiet_trans | apply bmap_quiet | intros; exact I].
    + intros b w1. apply quiet_refl.
  - intros [m dst'] w1. apply IH.
Qed.

(** X8.  What [writei] and [readi] never do.  [writei] without write-back
    issues no disk write, and with write-back it only adds writes to those
    issued before; without a transaction it leaves the transaction of the
    state alone.  [readi] issues no disk write and leaves the transaction
    alone, although it may allocate blocks.  Neither changes the
    superblock, and neither makes a block free in the in-memory bitmap. *)
Theorem writei_readi_are_quiet ip buf off n trans wb w :
  match writei ip buf off n trans wb w with
  | Ret _ w' => quiet wb trans w w'
  | Throw w' => quiet wb trans w w'
  | Panic => True
  | Timeout => True
  end /\
  match readi ip buf off n w with
  | Ret _ w' => quiet false NULL w w'
  | Throw w' => quiet false NULL w w'
  | Panic => True
  | Timeout => True
  end.
Proof.
  split.
  - change (always (writei ip buf off n trans wb) (quiet wb trans w) w).
    unfold writei.
    apply always_step; [apply quiet_trans | apply quiet_refl |]. intros i w1.
    destruct (itype_eqb _ _); [apply quiet_refl |].
    destruct (_ <? _); [apply quiet_refl |].
    apply always_step; [apply quiet_trans | apply writei_loop_quiet |].
    intros; apply quiet_refl.
  - change (always (readi ip buf off n) (quiet false NULL w) w).
    unfold readi.
    apply always_step; [apply quiet_trans | apply quiet_refl |]. intros i w1.
    destruct (itype_eqb _ _); [apply quiet_refl |].
    destruct (_ || _); [apply quiet_refl |].
    apply always_step; [apply quiet_trans | apply readi_loop_quiet |].
    intros; apply quiet_refl.
Qed.

(** ** What readi delivers *)

Lemma readi_round_bytes ip dst0 dst off0 n w0 tot w :
  params_ok -> wf w0 ip -> is_u32 n -> 0 <= off0 -> off0 + n < 2 ^ 32 ->
  off0 + n <= MAXFILE * BSIZE -> 0 <= tot < n ->
  rinv ip off0 w0 tot w ->
  (forall k, 0 <= k < tot -> dst k = byte_or_zero w0 ip (off0 + k)) ->
  (forall k, ~ 0 <= k < tot -> dst k = dst0 k) ->
  ((forall k, 0 <= k < tot -> file_byte w0 ip (off0 + k) <> None) -> w = w0) ->
  wp (readi_round ip dst tot tot (off0 + tot) n)
    (fun r w' =>
       fst r = Z.min (n - tot) (BSIZE - (off0 + tot) mod BSIZE) /\
       rinv ip off0 w0 (tot + fst r) w' /\
       (forall k, 0 <= k < tot + fst r ->
                  snd r k = byte_or_zero w0 ip (off0 + k)) /\
       (forall k, ~ 0 <= k < tot + fst r -> snd r k = dst0 k) /\
       ((forall k, 0 <= k < tot + fst r -> file_byte w0 ip (off0 + k) <> None) ->
        w' = w0))
    (fun _ => False)
    (exists k, 0 <= k < n /\ file_byte w0 ip (off0 + k) = None) w.
Proof.
  intros Hp Hwf0 Hn Ho Hsum Hmax Ht (Hwf & Hext & Hmapped) Hd Hout Hsame.
  assert (Hp' := Hp). destruct Hp' as (HB & HD & HI & _).
  assert (HB1 : 0 < BSIZE) by lia.
  assert (Hot : 0 <= off0 + tot) by lia.
  destruct (round_len n tot (off0 + tot) Hp Hn Ht Hot) as [Hm Hmb].
  set (m := Z.min (n - tot) (BSIZE - (off0 + tot) mod BSIZE)) in *.
  set (bn := (off0 + tot) / BSIZE).
  assert (Hrng : forall k, 0 <= k < n ->
            0 <= (off0 + k) / BSIZE < MAXFILE /\ is_u32 ((off0 + k) / BSIZE)).
  { intros k Hk. destruct (block_of_offset (off0 + k) Hp) as [H | H]; auto; lia. }
  destruct (Hrng tot Ht) as [Hbn Hbu]. fold bn in Hbn, Hbu.
  assert (Hl : slot_ok (leaf bn)) by (apply leaf_ok; auto).
  assert (Hblk : forall k, tot <= k < tot + m ->
            (off0 + k) / BSIZE = bn /\
            (off0 + k) mod BSIZE = (off0 + tot) mod BSIZE + (k - tot)).
  { intros k Hk.
    assert (Hkt : 0 <= k - tot < BSIZE - (off0 + tot) mod BSIZE) by lia.
    destruct (same_block (off0 + tot) (k - tot) HB1 Hkt) as [Hq Hr].
    replace (off0 + tot + (k - tot)) with (off0 + k) in Hq, Hr by lia. auto. }
  unfold readi_round. rewrite Hm. fold bn.
  apply wp_bind, wp_catch.
  eapply wp_mono;
    [apply (bmap_spec ip bn NULL true w Hp Hwf Hbn Hbu) | | | intros []];
    cbv beta.
  - intros p w1 (Hp1 & Hpnz & Hwf1 & Hext1 & Hid & _).
    assert (Hext01 : ext ip NULL true w0 w1)
      by (apply (ext_trans_ ip NULL true w0 w w1); auto).
    unfold wp, bind, buf_data, ret. cbn [fst snd].
    split; [reflexivity |]. split; [| split; [| split]].
    + split; [auto |]. split; [auto |].
      intros k Hk. destruct (Z_lt_ge_dec k tot) as [Hlt | Hge].
      * rewrite (ext_val _ _ _ _ _ Hext1); [apply Hmapped; lia | | apply Hmapped; lia].
        apply leaf_ok; auto. apply Hrng; lia.
      * destruct (Hblk k) as [Hq _]; [lia |]. rewrite Hq. congruence.
    + intros k Hk. unfold memmove.
      destruct (Z_lt_ge_dec k tot) as [Hlt | Hge].
      * destruct (Z.leb_spec tot k); [lia |]. cbn. apply Hd; lia.
      * destruct (Z.leb_spec tot k); [| lia].
        destruct (Z.ltb_spec k (tot + m)); [| lia]. cbn.
        destruct (Hblk k) as [Hq Hr]; [lia |].
        unfold byte_or_zero.
        destruct (file_byte w0 ip (off0 + k)) as [v |] eqn:Ef.
        -- assert (Hf1 : file_byte w1 ip (off0 + k) = Some v).
           { apply (ext_file_byte ip NULL true w0 w1); auto. rewrite Hq; auto. }
           unfold file_byte in Hf1. rewrite Hq, Hr, <- Hp1 in Hf1.
           destruct (Z.eqb_spec p 0); [contradiction |].
           inversion Hf1. reflexivity.
        -- unfold file_byte in Ef. rewrite Hq in Ef.
           destruct (Z.eqb_spec (val w0 ip (leaf bn)) 0) as [E0 | N0];
             [| discriminate].
           rewrite Hp1, (ext_zero _ _ _ _ _ Hext01 (leaf bn)); auto.
           ++ apply leaf_is_leaf.
           ++ congruence.
    + intros k Hk. unfold memmove.
      destruct (Z.leb_spec tot k); [| cbn; apply Hout; lia].
      destruct (Z.ltb_spec k (tot + m)); [lia |]. cbn. apply Hout. lia.
    + intros Hall.
      assert (Ew : w = w0) by (apply Hsame; intros k Hk; apply Hall; lia).
      subst w. apply Hid.
      specialize (Hall tot ltac:(lia)). unfold file_byte in Hall. fold bn in Hall.
      destruct (Z.eqb_spec (val w0 ip (leaf bn)) 0); [congruence | auto].
  - intros w1 (_ & _ & _ & H0). unfold wp, panic.
    exists tot. split; [lia |]. unfold file_byte. fold bn.
    destruct (Z.eqb_spec (val w0 ip (leaf bn)) 0) as [E0 | N0]; [reflexivity |].
    exfalso. rewrite <- (ext_val _ _ _ _ _ Hext (leaf bn) Hl N0) in N0.
    contradiction.
Qed.

(** X9.  What [readi] puts into the destination buffer: the count it
    returns is [n] cut at the size of the inode, and byte [k] of the
    buffer below that count is the byte of the file at [off + k], or 0
    where the file has a hole there; the buffer is untouched from the count
    on.  When no byte of the range lies in a hole [readi] leaves the whole
    state as it is.  It halts only when the range has a hole that it
    cannot fill: the inode is not on device 1, or fewer than three blocks
    are free for each block of the range. *)
Theorem readi_delivers_the_file_bytes ip dst off n w :
  params_ok -> wf w ip -> is_u32 off -> is_u32 n -> off + n < 2 ^ 32 ->
  i_type (w_ino w ip) <> T_DEV ->
  off <= i_size (w_ino w ip) <= MAXFILE * BSIZE ->
  let r := Z.min n (i_size (w_ino w ip) - off) in
  match readi ip dst off n w with
  | Ret (r', dst') w' =>
      r' = to_int r /\
      (forall k, 0 <= k < r -> dst' k = byte_or_zero w ip (off + k)) /\
      (forall k, ~ 0 <= k < r -> dst' k = dst k) /\
      ((forall k, 0 <= k < r -> file_byte w ip (off + k) <> None) -> w' = w)
  | Throw _ => False
  | Panic =>
      (exists k, 0 <= k < r /\ file_byte w ip (off + k) = None) /\
      (fst ip <> 1 \/ nfree w < 3 * blocks_in off r)
  | Timeout => False
  end.
Proof.
  intros Hp Hwf Ho Hn Hsum Hty [Hos Hsz] r.
  assert (Hr : is_u32 r /\ off + r < 2 ^ 32 /\ off + r <= MAXFILE * BSIZE /\
               0 <= r) by (unfold r; pow_lia).
  destruct Hr as (Hru & Hrs & Hrm & Hr0).
  assert (H : wp (readi ip dst off n)
                (fun a w' =>
                   fst a = to_int r /\
                   (forall k, 0 <= k < r ->
                              snd a k = byte_or_zero w ip (off + k)) /\
                   (forall k, ~ 0 <= k < r -> snd a k = dst k) /\
                   ((forall k, 0 <= k < r -> file_byte w ip (off + k) <> None) ->
                    w' = w))
                (fun _ => False)
                (exists k, 0 <= k < r /\ file_byte w ip (off + k) = None) w).
  { unfold readi. apply wp_bind, wp_rd. rewrite (itype_eqb_neq _ _ Hty).
    rewrite (u32_small (off + n)) by pow_lia.
    destruct (Z.gtb_spec off (i_size (w_ino w ip))); [lia |].
    destruct (Z.ltb_spec (off + n) off); [pow_lia |]. cbn [orb].
    assert (Hn0 : (if off + n >? i_size (w_ino w ip)
                   then u32 (i_size (w_ino w ip) - off) else n) = r).
    { unfold r. destruct (Z.gtb_spec (off + n) (i_size (w_ino w ip))).
      - rewrite u32_small by pow_lia. lia.
      - lia. }
    rewrite Hn0. apply wp_bind. replace off with (off + 0) at 1 by lia.
    eapply wp_mono;
      [apply (readi_loop_rule ip off r
                (fun tot d w' =>
                   rinv ip off w tot w' /\
                   (forall k, 0 <= k < tot -> d k = byte_or_zero w ip (off + k)) /\
                   (forall k, ~ 0 <= k < tot -> d k = dst k) /\
                   ((forall k, 0 <= k < tot ->
                               file_byte w ip (off + k) <> None) -> w' = w))
                (exists k, 0 <= k < r /\ file_byte w ip (off + k) = None));
       auto; try pow_lia | | auto | auto].
    - intros tot d w1 Ht (HI & H1 & H2 & H3).
      apply (readi_round_bytes ip dst d off r w tot w1); auto; pow_lia.
    - split; [split; [auto | split; [apply ext_refl | intros k Hk; lia]] |].
      split; [intros k Hk; lia |]. split; auto.
    - cbv beta. intros d w1 (_ & H1 & H2 & H3). apply wp_ret.
      cbn [fst snd]. auto. }
  assert (Htot : fst ip = 1 -> 3 * blocks_in off r <= nfree w ->
                 wp (readi ip dst off n) (fun _ _ => True) (fun _ => False)
                   False w).
  { intros Hdev Hfree. apply readi_total; auto. }
  unfold wp in H, Htot.
  destruct (readi ip dst off n w) as [[r' dst'] w' | | |]; auto.
  split; [exact H |].
  destruct (Z.eq_dec (fst ip) 1) as [Hd | Hd]; [| left; exact Hd].
  right. destruct (Z_lt_ge_dec (nfree w) (3 * blocks_in off r)) as [L | G];
    [exact L |].
  exfalso. apply Htot; auto. lia.
Qed.

(** ** What writei leaves of the file *)

Lemma writei_round_kept ip src off0 n trans wb w0 tot w :
  params_ok -> is_u32 n -> 0 <= off0 -> off0 + n < 2 ^ 32 ->
  off0 + n <= MAXFILE * BSIZE -> 0 <= tot < n ->
  winv ip src off0 w0 tot w ->
  (forall x v, 0 <= x < MAXFILE * BSIZE -> ~ off0 <= x < off0 + tot ->
               file_byte w0 ip x = Some v -> file_byte w ip x = Some v) ->
  wp (writei_round ip src tot tot (off0 + tot) n trans wb)
    (fun r w' =>
       forall x v, 0 <= x < MAXFILE * BSIZE ->
         ~ off0 <= x < off0 + tot + match r with Some m => m | None => 0 end ->
         file_byte w0 ip x = Some v -> file_byte w' ip x = Some v)
    (fun _ => False) False w.
Proof.
  intros Hp Hn Ho Hsum Hmax Ht (Hwf & Hfr & Hmap & Hwr) Hkept.
  assert (Hp' := Hp). destruct Hp' as (HB & HD & HI & _).
  assert (HB0 : BSIZE <> 0) by lia.
  assert (Hot : 0 <= off0 + tot) by lia.
  destruct (round_len n tot (off0 + tot) Hp Hn Ht Hot) as [Hm Hmb].
  set (m := Z.min (n - tot) (BSIZE - (off0 + tot) mod BSIZE)) in *.
  assert (Hok : forall x, 0 <= x < MAXFILE * BSIZE -> 0 <= x / BSIZE < MAXFILE).
  { intros x Hx. split; [apply Z.div_pos; lia |].
    apply Z.div_lt_upper_bound; lia. }
  set (bn := (off0 + tot) / BSIZE) in *.
  assert (Hbn : 0 <= bn < MAXFILE) by (apply Hok; lia).
  assert (Hbu : is_u32 bn).
  { destruct (block_of_offset (off0 + tot) Hp) as [H | H]; [lia | apply H | lia]. }
  assert (Hl : slot_ok (leaf bn)) by (apply leaf_ok; auto).
  unfold writei_round. rewrite Hm.
  apply wp_bind, wp_catch, wp_bind.
  eapply wp_mono; [apply (bmap_spec ip bn trans _ w Hp Hwf Hbn Hbu) | | | auto];
    cbv beta.
  - intros p w1 (Hp1 & Hpnz & Hwf1 & Hext & _ & _). apply wp_ret.
    assert (Hfin : forall w3,
               w_ino w3 = w_ino w1 ->
               w_buf w3 = upd (w_buf w1) (fst ip, p)
                            (memmove (w_buf w1 (fst ip, p))
                               ((off0 + tot) mod BSIZE) src tot m) ->
               forall x v, 0 <= x < MAXFILE * BSIZE ->
                 ~ off0 <= x < off0 + tot + m ->
                 file_byte w0 ip x = Some v -> file_byte w3 ip x = Some v).
    { intros w3 Hi3 Hb3 x v Hx Hout H0. rewrite Hp1 in Hb3, Hpnz.
      assert (Hlx : slot_ok (leaf (x / BSIZE))) by (apply leaf_ok; auto).
      assert (H1 : file_byte w1 ip x = Some v).
      { eapply (ext_file_byte ip trans);
          [exact Hwf | exact Hext | exact Hlx | apply Hkept; auto; lia]. }
      rewrite (file_byte_data_write ip w1 w3 (leaf bn) _ x Hwf1 Hl
                 (leaf_is_leaf bn) Hpnz Hi3 Hb3 Hlx).
      destruct (slot_eq_dec _ _) as [E | N]; [| exact H1].
      apply leaf_inj in E; auto.
      unfold file_byte in H1. rewrite E in H1.
      destruct (Z.eqb_spec (val w1 ip (leaf bn)) 0); [discriminate |].
      rewrite <- H1. f_equal. unfold memmove.
      pose proof (Z.div_mod x BSIZE HB0) as Dx.
      pose proof (Z.div_mod (off0 + tot) BSIZE HB0) as Dt.
      fold bn in Dt. rewrite E in Dx.
      destruct (Z.leb_spec ((off0 + tot) mod BSIZE) (x mod BSIZE));
        [| reflexivity].
      destruct (Z.ltb_spec (x mod BSIZE) ((off0 + tot) mod BSIZE + m));
        [lia | reflexivity]. }
    unfold wp, bind, buf_data, buf_store, when, add_to_transaction, writeback_async,
      writeback, modify, ret.
    destruct trans, wb; cbn; apply Hfin; reflexivity.
  - intros w1 (Hwf1 & Hext & _ & H0). apply wp_ret, wp_ret.
    intros x v Hx Hout Hv.
    eapply (ext_file_byte ip trans);
      [exact Hwf | exact Hext | apply leaf_ok; auto | apply Hkept; auto; lia].
Qed.

(** X10.  [writei] changes the file only where it writes: a byte of the
    file outside the range [[off, off + r)], where [r] is the count that
    [writei] returns (no range at all when it returns -1), is after the
    call what it was before.  With a consistent block map, an offset that
    is not beyond [MAXFILE*BSIZE] and a count that fits an [int], [writei]
    always returns. *)
Theorem writei_keeps_the_bytes_outside_the_range ip src off n trans wb w :
  params_ok -> wf w ip -> is_u32 off -> 0 <= n < 2 ^ 31 ->
  off <= MAXFILE * BSIZE -> i_type (w_ino w ip) <> T_DEV ->
  match writei ip src off n trans wb w with
  | Ret r w' =>
      -1 <= r <= n /\
      forall x v, 0 <= x < MAXFILE * BSIZE -> ~ off <= x < off + r ->
                  file_byte w ip x = Some v -> file_byte w' ip x = Some v
  | Throw _ => False
  | Panic => False
  | Timeout => False
  end.
Proof.
  intros Hp Hwf Ho Hn Hmax Hty.
  assert (Hnu : is_u32 n) by pow_lia.
  assert (H : wp (writei ip src off n trans wb)
                (fun r w' =>
                   -1 <= r <= n /\
                   forall x v, 0 <= x < MAXFILE * BSIZE -> ~ off <= x < off + r ->
                     file_byte w ip x = Some v -> file_byte w' ip x = Some v)
                (fun _ => False) False w).
  { unfold writei. apply wp_bind, wp_rd. rewrite (itype_eqb_neq _ _ Hty).
    destruct (Z.ltb_spec (u32 (off + n)) off) as [Hov | Hov];
      [apply wp_ret; split; [lia | auto] |].
    assert (Hsum : off + n < 2 ^ 32) by (apply no_overflow; auto; lia).
    rewrite (u32_small (off + n)) by pow_lia.
    set (n' := Z.min n (MAXFILE * BSIZE - off)).
    assert (Hn' : is_u32 n' /\ off + n' < 2 ^ 32 /\ off + n' <= MAXFILE * BSIZE /\
                  0 <= n' <= n) by (unfold n'; pow_lia).
    destruct Hn' as (Hn'u & Hn's & Hn'm & Hn'r).
    assert (En : (if off + n >? MAXFILE * BSIZE
                  then u32 (MAXFILE * BSIZE - off) else n) = n').
    { unfold n'. destruct (Z.gtb_spec (off + n) (MAXFILE * BSIZE)).
      - rewrite u32_small by pow_lia. lia.
      - lia. }
    rewrite En. apply wp_bind. replace off with (off + 0) at 1 by lia.
    eapply wp_mono;
      [apply (writei_loop_rule ip src off n' trans wb
                (fun tot w' =>
                   winv ip src off w tot w' /\
                   forall x v, 0 <= x < MAXFILE * BSIZE ->
                     ~ off <= x < off + tot ->
                     file_byte w ip x = Some v -> file_byte w' ip x = Some v)
                (fun tot w' =>
                   forall x v, 0 <= x < MAXFILE * BSIZE ->
                     ~ off <= x < off + tot ->
                     file_byte w ip x = Some v -> file_byte w' ip x = Some v)
                False);
       auto; try pow_lia | | auto | auto].
    - intros tot w1 Ht [HI Hk].
      eapply wp_mono;
        [apply wp_conj;
         [apply (writei_round_content ip src off n' trans wb w tot w1);
          auto; pow_lia
         | apply (writei_round_kept ip src off n' trans wb w tot w1);
           auto; pow_lia] | | |]; cbv beta.
      + intros [m |] w2 [H1 H2].
        * destruct H1 as [Hm HI2]. split; [exact Hm |]. split; [exact HI2 |].
          intros x v Hx Hout. apply H2; auto. lia.
        * intros x v Hx Hout. apply H2; auto. lia.
      + intros w2 [F _]. exact F.
      + intros [F _]. exact F.
    - split; [apply winv_start; auto |]. intros x v _ _ Hv. exact Hv.
    - cbv beta. intros r w1 Hr. apply wp_ret.
      destruct Hr as [[-> [_ Hk]] | (t & Ht & -> & Hk)].
      + rewrite to_int_small by pow_lia. split; [lia | exact Hk].
      + destruct (Z.eqb_spec t 0) as [-> | Hnz].
        * rewrite to_int_minus_one. split; [lia |].
          intros x v Hx Hout. apply Hk; auto. lia.
        * rewrite to_int_small by pow_lia. split; [lia | exact Hk]. }
  unfold wp in H. destruct (writei ip src off n trans wb w); auto.
Qed.

(** * The index that dir_init builds *)

Lemma dir_frame_refl dp w : dir_frame dp w w.
Proof.
  split; [reflexivity |]. split; [reflexivity |]. split; [reflexivity |].
  split; [auto |]. split.
  - intros k _. exists (i_addrs (w_ino w k)). symmetry. apply with_addrs_id.
  - exists (i_addrs (w_ino w dp)), (i_dir (w_ino w dp)), (i_dir_offset (w_ino w dp)).
    destruct (w_ino w dp). reflexivity.
Qed.

Lemma dir_frame_trans dp w1 w2 w3 :
  dir_frame dp w1 w2 -> dir_frame dp w2 w3 -> dir_frame dp w1 w3.
Proof.
  intros (I1 & T1 & S1 & F1 & O1 & (a1 & d1 & o1 & D1))
         (I2 & T2 & S2 & F2 & O2 & (a2 & d2 & o2 & D2)).
  split; [congruence |]. split; [congruence |]. split; [congruence |].
  split; [auto |]. split.
  - intros k Hk. destruct (O1 k Hk) as [b1 E1], (O2 k Hk) as [b2 E2].
    exists b2. rewrite E2, E1. apply with_addrs_twice.
  - exists a2, d2, o2. rewrite D2, D1. reflexivity.
Qed.

Lemma dir_scan_offset data : forall n pos d doff,
  snd (dir_scan n data pos d doff)
  = match n with
    | O => doff
    | S _ => u32 (doff + Z.of_nat n * DIRENT_SIZE)
    end.
Proof.
  induction n as [| n IH]; intros pos d doff; [reflexivity |].
  cbn [dir_scan]. rewrite IH. destruct n as [| n'].
  - f_equal. lia.
  - unfold u32. rewrite Z.add_mod_idemp_l by (intros E; discriminate E).
    f_equal. lia.
Qed.

(** A block of the file reads the same after [bmap] has extended the
    block map: a block that was mapped keeps its buffer, and a hole that
    got a block reads as zeros. *)
Lemma ext_dir_block ip trans w w' bn :
  params_ok -> wf w ip -> ext ip trans true w w' -> 0 <= bn < MAXFILE ->
  dir_block w' ip bn = dir_block w ip bn.
Proof.
  intros Hp Hwf He Hbn. unfold dir_block.
  assert (Hl : slot_ok (leaf bn)) by (apply leaf_ok; auto).
  destruct (Z.eqb_spec (val w ip (leaf bn)) 0) as [E | N].
  - destruct (Z.eqb_spec (val w' ip (leaf bn)) 0) as [E' | N']; [reflexivity |].
    apply (ext_zero ip trans true w w' He); auto. apply leaf_is_leaf.
  - rewrite (ext_val ip trans true w w' He) by auto.
    destruct (Z.eqb_spec (val w ip (leaf bn)) 0); [contradiction |].
    apply (ext_data ip trans true w w' He); auto.
    + apply (wf_used w ip Hwf); auto.
    + intros s Hs Hls Heq.
      assert (s = leaf bn) by (apply (wf_inj w ip Hwf); auto; congruence).
      subst s. rewrite leaf_is_leaf in Hls. discriminate.
Qed.

(** [bmap] as the scan calls it. *)
Lemma bmap_null_step ip bn w :
  params_ok -> wf w ip -> 0 <= bn < MAXFILE -> is_u32 bn ->
  wp (bmap ip bn NULL true)
    (fun b w' =>
       bmap_post ip NULL true bn w b w' /\ ino_frame w w' /\
       quiet false NULL w w')
    (fun _ => val w ip (leaf bn) = 0) False w.
Proof.
  intros Hp Hwf Hbn Hu.
  pose proof (bmap_spec ip bn NULL true w Hp Hwf Hbn Hu) as H1.
  pose proof (bmap_frame ip bn NULL true w) as H2.
  pose proof (bmap_quiet false ip bn NULL true w) as H3.
  unfold wp, always in *.
  destruct (bmap ip bn NULL true w) as [b w' | w' | |]; auto.
  apply H1.
Qed.

(** A change of an inode that keeps its block map. *)
Lemma val_set_ino dp i w ip s :
  i_addrs i = i_addrs (w_ino w dp) ->
  val (set_ino w dp i) ip s = val w ip s.
Proof.
  intros Hi. apply val_congr; [| reflexivity].
  cbn [w_ino set_ino]. unfold upd. destruct (key_eqb dp ip) eqn:E; [| reflexivity].
  apply key_eqb_eq in E. subst ip. exact Hi.
Qed.

Lemma dir_block_set_ino dp i w ip bn :
  i_addrs i = i_addrs (w_ino w dp) ->
  dir_block (set_ino w dp i) ip bn = dir_block w ip bn.
Proof. intros Hi. unfold dir_block. rewrite val_set_ino by exact Hi. reflexivity. Qed.

Lemma wf_set_ino dp i w ip :
  i_addrs i = i_addrs (w_ino w dp) -> wf w ip -> wf (set_ino w dp i) ip.
Proof.
  intros Hi Hwf. apply (wf_shrink ip w); auto.
  intros s _. apply val_set_ino. exact Hi.
Qed.

Lemma scan_file_congr dp w w' size : forall count off d doff,
  0 < BSIZE -> 0 <= off -> size <= MAXFILE * BSIZE ->
  (forall bn, 0 <= bn < MAXFILE -> dir_block w' dp bn = dir_block w dp bn) ->
  scan_file count w' dp off size d doff = scan_file count w dp off size d doff.
Proof.
  induction count as [| c IH]; intros off d doff HB Ho Hs Hb; [reflexivity |].
  cbn [scan_file]. destruct (Z.ltb_spec off size) as [L | G]; [| reflexivity].
  rewrite Hb.
  - destruct (dir_scan _ _ 0 d doff) as [d' doff']. apply IH; auto. lia.
  - split; [apply Z.div_pos; lia |]. apply Z.div_lt_upper_bound; lia.
Qed.

Lemma scan_kept_refl dp off w : wf w dp -> scan_kept dp off w w.
Proof.
  intros Hwf. split; [exact Hwf |]. split; [reflexivity |].
  split; [apply dir_frame_refl |]. intros _. repeat split.
Qed.

(** The loop of [dir_init]: the blocks from [off] on are scanned into the
    index. *)
Lemma dir_init_loop_scan dp : forall fuel off doff w d,
  params_ok -> wf w dp -> 0 <= off -> off mod BSIZE = 0 ->
  i_size (w_ino w dp) + BSIZE <= 2 ^ 32 ->
  i_size (w_ino w dp) <= MAXFILE * BSIZE ->
  i_size (w_ino w dp) - off < Z.of_nat fuel * BSIZE ->
  i_dir (w_ino w dp) = Some d ->
  (off < i_size (w_ino w dp) -> doff = off) ->
  (off + BSIZE < i_size (w_ino w dp) ->
   Z.of_nat NDIRENT * DIRENT_SIZE = BSIZE) ->
  wp (dir_init_loop fuel dp off doff)
    (fun o w' =>
       let r := scan_file fuel w dp off (i_size (w_ino w dp)) d doff in
       i_dir (w_ino w' dp) = Some (fst r) /\ o = snd r /\
       i_dir_offset (w_ino w' dp) = i_dir_offset (w_ino w dp) /\
       scan_kept dp off w w')
    (fun _ => False)
    (exists bn, off <= bn * BSIZE < i_size (w_ino w dp) /\
                val w dp (leaf bn) = 0)
    w.
Proof.
  induction fuel as [| fuel IH];
    intros off doff w d Hp Hwf Ho Hmod Hsz Hmax Hf Hd Hdo Htile;
    assert (HB : 0 < BSIZE) by (destruct Hp as ((HB & _) & _); exact HB).
  - unfold dir_init_loop. apply wp_bind, wp_rd.
    destruct (Z.ltb_spec off (i_size (w_ino w dp))); [lia |].
    apply wp_ret. cbn [scan_file fst snd].
    split; [exact Hd |]. split; [reflexivity |]. split; [reflexivity |].
    apply scan_kept_refl; auto.
  - cbn [dir_init_loop]. apply wp_bind, wp_rd.
    destruct (Z.ltb_spec off (i_size (w_ino w dp))) as [L | G].
    2:{ apply wp_ret. cbn [scan_file].
        destruct (Z.ltb_spec off (i_size (w_ino w dp))); [lia |].
        cbn [fst snd].
        split; [exact Hd |]. split; [reflexivity |]. split; [reflexivity |].
        apply scan_kept_refl; auto. }
    rewrite (Hdo L), Z.eqb_refl. cbn [negb].
    set (bn := off / BSIZE).
    assert (Eoff : bn * BSIZE = off).
    { assert (HB0 : BSIZE <> 0) by lia.
      unfold bn. pose proof (Z.div_mod off BSIZE HB0). lia. }
    assert (Hbn : 0 <= bn < MAXFILE).
    { unfold bn. split; [apply Z.div_pos; lia |].
      apply Z.div_lt_upper_bound; lia. }
    assert (Hbu : is_u32 bn) by (unfold is_u32; split; [lia | pow_lia]).
    apply wp_bind, wp_catch.
    eapply wp_mono;
      [apply (bmap_null_step dp bn w Hp Hwf Hbn Hbu) | | | intros []];
      cbv beta.
    2:{ intros w1 H0. unfold wp, panic. exists bn. split; [lia | exact H0]. }
    intros b w1 ((Hb & Hbnz & Hwf1 & Hext & Hsame & Hleaf) & Hfr & Hq).
    apply wp_bind. unfold buf_data at 1. unfold wp at 1.
    apply wp_bind. unfold the_dir. apply wp_bind, wp_rd.
    assert (Hd1 : i_dir (w_ino w1 dp) = Some d).
    { destruct (Hfr dp) as [a Ea]. rewrite Ea. exact Hd. }
    rewrite Hd1. apply wp_ret.
    assert (Hdata : w_buf w1 (fst dp, b) = dir_block w dp bn).
    { rewrite <- (ext_dir_block dp NULL w w1 bn Hp Hwf Hext Hbn).
      unfold dir_block. rewrite <- Hb.
      destruct (Z.eqb_spec b 0); [contradiction | reflexivity]. }
    rewrite Hdata. fold NDIRENT.
    cbn [scan_file]. destruct (Z.ltb_spec off (i_size (w_ino w dp))); [| lia].
    fold bn.
    pose proof (dir_scan_offset (dir_block w dp bn) NDIRENT 0 d off) as Hoff.
    destruct (dir_scan NDIRENT (dir_block w dp bn) 0 d off) as [d' doff'].
    cbn [snd] in Hoff.
    apply wp_bind. unfold set_dir. apply wp_modify.
    set (w2 := set_ino w1 dp (with_dir (w_ino w1 dp) (Some d'))).
    pose proof (ino_frame_size w w1 dp Hfr) as Hs1.
    assert (Hs2 : i_size (w_ino w2 dp) = i_size (w_ino w dp)).
    { unfold w2. cbn [w_ino set_ino]. rewrite upd_same. cbn. exact Hs1. }
    assert (Hblk : forall x, 0 <= x < MAXFILE ->
                             dir_block w2 dp x = dir_block w dp x).
    { intros x Hx. unfold w2. rewrite dir_block_set_ino by reflexivity.
      apply (ext_dir_block dp NULL w w1 x Hp Hwf Hext Hx). }
    rewrite (u32_small (off + BSIZE)) by pow_lia.
    eapply wp_mono;
      [apply (IH (off + BSIZE) doff' w2 d' Hp) | | auto |]; cbv beta.
    + unfold w2. apply wf_set_ino; [reflexivity | exact Hwf1].
    + lia.
    + rewrite <- Zplus_mod_idemp_r, Z_mod_same_full, Z.add_0_r. exact Hmod.
    + lia.
    + lia.
    + rewrite Hs2. lia.
    + unfold w2. cbn [w_ino set_ino]. rewrite upd_same. reflexivity.
    + rewrite Hs2. intros L2. specialize (Htile L2).
      rewrite Hoff. destruct NDIRENT as [| n'] eqn:En; [cbn in Htile; lia |].
      rewrite Htile. apply u32_small. pow_lia.
    + rewrite Hs2. intros L2. apply Htile. lia.
    + intros o w3 (Hi3 & Ho3 & Hdo3 & (Hwf3 & Hb3 & Hf3 & Hn3)).
      rewrite Hs2 in Hi3, Ho3.
      rewrite (scan_file_congr dp w w2 (i_size (w_ino w dp))) in Hi3, Ho3
        by (auto; lia).
      split; [exact Hi3 |]. split; [exact Ho3 |]. split.
      { rewrite Hdo3. unfold w2. cbn [w_ino set_ino]. rewrite upd_same.
        destruct (Hfr dp) as [a Ea]. rewrite Ea. reflexivity. }
      assert (Hf2 : dir_frame dp w w2).
      { destruct Hq as ((l & Hio & Hl) & Ht & Hsb & Hfree).
        unfold dir_frame, w2. cbn [w_io w_trans w_sb w_free w_ino set_ino].
        split; [rewrite Hio, (Hl eq_refl); apply app_nil_r |].
        split; [apply Ht; reflexivity |]. split; [exact Hsb |].
        split; [exact Hfree |]. split.
        - intros k Hk. rewrite upd_other by congruence. apply Hfr.
        - destruct (Hfr dp) as [a Ea].
          exists a, (Some d'), (i_dir_offset (w_ino w dp)).
          rewrite upd_same, Ea. reflexivity. }
      split; [exact Hwf3 |]. split.
      { intros x Hx. rewrite Hb3 by auto. apply Hblk. exact Hx. }
      split; [apply (dir_frame_trans dp w w2 w3 Hf2 Hf3) |].
      intros Hnh.
      assert (E1 : w1 = w) by (apply Hsame; apply Hnh; lia).
      destruct Hn3 as (B3 & D3 & F3 & A3).
      { intros x Hx. unfold w2. rewrite val_set_ino by reflexivity.
        rewrite E1. apply Hnh.
        rewrite Hs2 in Hx. lia. }
      rewrite B3, D3, F3. unfold w2. cbn [w_buf w_dirty w_free set_ino].
      rewrite E1. repeat split.
      intros k. rewrite A3. unfold w2. cbn [w_ino set_ino]. rewrite E1.
      unfold upd. destruct (key_eqb dp k) eqn:Ek; [| reflexivity].
      apply key_eqb_eq in Ek. subst k. reflexivity.
    + intros (x & Hx & H0). exists x. rewrite Hs2 in Hx. split; [lia |].
      unfold w2 in H0. rewrite val_set_ino in H0 by reflexivity.
      assert (Hx' : 0 <= x < MAXFILE) by nia.
      destruct (Z.eq_dec x bn) as [-> | Nx]; [lia |].
      rewrite <- H0. symmetry. apply Hleaf.
      * apply leaf_ok; auto.
      * apply leaf_is_leaf.
      * intros Heq. apply Nx. apply leaf_inj in Heq; auto.
Qed.

(** [dir_init] on a directory that has no index: the index is the scan of
    the directory file. *)
Lemma dir_init_scan dp w :
  params_ok -> wf w dp ->
  i_dir (w_ino w dp) = None -> i_type (w_ino w dp) = T_DIR ->
  i_size (w_ino w dp) + BSIZE <= 2 ^ 32 ->
  i_size (w_ino w dp) <= MAXFILE * BSIZE ->
  (BSIZE < i_size (w_ino w dp) -> Z.of_nat NDIRENT * DIRENT_SIZE = BSIZE) ->
  wp (dir_init dp) (fun _ w' => dir_built dp w w') (fun _ => False)
    (exists bn, 0 <= bn * BSIZE < i_size (w_ino w dp) /\
                val w dp (leaf bn) = 0)
    w.
Proof.
  intros Hp Hwf Hd Hty Hsz Hmax Htile.
  assert (HB : 0 < BSIZE) by (destruct Hp as ((HB & _) & _); exact HB).
  unfold dir_init. apply wp_bind, wp_rd. rewrite Hd, Hty.
  cbn [itype_eqb negb]. apply wp_bind. unfold set_dir. apply wp_modify.
  set (w0 := set_ino w dp (with_dir (w_ino w dp) (Some []))).
  assert (Hs0 : i_size (w_ino w0 dp) = i_size (w_ino w dp)).
  { unfold w0. cbn [w_ino set_ino]. rewrite upd_same. reflexivity. }
  assert (Hv0 : forall s, val w0 dp s = val w dp s)
    by (intros s; unfold w0; apply val_set_ino; reflexivity).
  assert (Hb0 : forall bn, 0 <= bn < MAXFILE ->
                           dir_block w0 dp bn = dir_block w dp bn)
    by (intros bn _; unfold w0; apply dir_block_set_ino; reflexivity).
  apply wp_bind.
  eapply wp_mono;
    [apply (dir_init_loop_scan dp (Z.to_nat (i_size (w_ino w dp) / BSIZE + 1))
              0 0 w0 [] Hp)
    | | auto |]; cbv beta.
  - unfold w0. apply wf_set_ino; [reflexivity | exact Hwf].
  - lia.
  - apply Z.mod_0_l. lia.
  - rewrite Hs0. exact Hsz.
  - rewrite Hs0. exact Hmax.
  - rewrite Hs0.
    assert (0 <= i_size (w_ino w dp) / BSIZE \/ i_size (w_ino w dp) < 0)
      as [Hq | Hq].
    { destruct (Z_lt_ge_dec (i_size (w_ino w dp)) 0); [right; lia |].
      left. apply Z.div_pos; lia. }
    + rewrite Z2Nat.id by lia.
      assert (HB0 : BSIZE <> 0) by lia.
      pose proof (Z.mod_pos_bound (i_size (w_ino w dp)) BSIZE HB).
      pose proof (Z.div_mod (i_size (w_ino w dp)) BSIZE HB0). nia.
    + pose proof (Nat2Z.is_nonneg
                    (Z.to_nat (i_size (w_ino w dp) / BSIZE + 1))). nia.
  - unfold w0. cbn [w_ino set_ino]. rewrite upd_same. reflexivity.
  - reflexivity.
  - rewrite Hs0. intros L. apply Htile. lia.
  - intros o w1 (Hi & Ho & Hdo & (Hwf1 & Hb1 & Hf1 & Hn1)).
    rewrite Hs0 in Hi, Ho.
    rewrite (scan_file_congr dp w w0 (i_size (w_ino w dp))) in Hi, Ho
      by (auto; lia).
    fold (dir_index w dp) in Hi, Ho.
    unfold set_dir_offset. apply wp_modify.
    set (w2 := set_ino w1 dp (with_dir_offset (w_ino w1 dp) o)).
    assert (Hf0 : dir_frame dp w w0).
    { unfold dir_frame, w0. cbn [w_io w_trans w_sb w_free w_ino set_ino].
      split; [reflexivity |]. split; [reflexivity |]. split; [reflexivity |].
      split; [auto |]. split.
      - intros k Hk. rewrite upd_other by congruence.
        exists (i_addrs (w_ino w k)). symmetry. apply with_addrs_id.
      - exists (i_addrs (w_ino w dp)), (Some []), (i_dir_offset (w_ino w dp)).
        rewrite upd_same. destruct (w_ino w dp). reflexivity. }
    assert (Hf2 : dir_frame dp w1 w2).
    { unfold dir_frame, w2. cbn [w_io w_trans w_sb w_free w_ino set_ino].
      split; [reflexivity |]. split; [reflexivity |]. split; [reflexivity |].
      split; [auto |]. split.
      - intros k Hk. rewrite upd_other by congruence.
        exists (i_addrs (w_ino w1 k)). symmetry. apply with_addrs_id.
      - exists (i_addrs (w_ino w1 dp)), (i_dir (w_ino w1 dp)), o.
        rewrite upd_same. destruct (w_ino w1 dp). reflexivity. }
    unfold dir_built. fold w2.
    split; [unfold w2; cbn [w_ino set_ino]; rewrite upd_same; exact Hi |].
    split; [unfold w2; cbn [w_ino set_ino]; rewrite upd_same; cbn; exact Ho |].
    split; [unfold w2; apply wf_set_ino; [reflexivity | exact Hwf1] |].
    split.
    { intros bn Hbn. unfold w2. rewrite dir_block_set_ino by reflexivity.
      rewrite Hb1 by auto. apply Hb0. exact Hbn. }
    split.
    { apply (dir_frame_trans dp w w0 w2 Hf0).
      apply (dir_frame_trans dp w0 w1 w2 Hf1 Hf2). }
    intros Hnh. destruct Hn1 as (B1 & D1 & F1 & A1).
    { intros bn Hbn. rewrite Hv0. apply Hnh. rewrite Hs0 in Hbn. exact Hbn. }
    unfold w2. cbn [w_buf w_dirty w_free set_ino]. rewrite B1, D1, F1.
    unfold w0. cbn [w_buf w_dirty w_free set_ino].
    split; [reflexivity |]. split; [reflexivity |]. split; [reflexivity |].
    intros k. cbn [w_ino set_ino]. unfold upd at 1.
    destruct (key_eqb dp k) eqn:Ek.
    + apply key_eqb_eq in Ek. subst k. cbn [i_addrs with_dir_offset].
      rewrite A1. unfold w0. cbn [w_ino set_ino]. rewrite upd_same. reflexivity.
    + rewrite A1. unfold w0. cbn [w_ino set_ino]. unfold upd. rewrite Ek.
      reflexivity.
  - intros (bn & Hbn & H0). exists bn. rewrite Hs0 in Hbn.
    split; [exact Hbn |]. rewrite <- Hv0. exact H0.
Qed.

(** * Further properties of inodes, directories and paths *)

(** ** The inode cache and the link count *)

Lemma s16_small x : is_s16 x -> s16 x = x.
Proof.
  unfold is_s16, s16. intros H.
  change (2 ^ 15) with 32768 in *. change (2 ^ 16) with 65536.
  destruct (Z_lt_ge_dec x 0) as [L | G].
  - assert (E : x mod 65536 = x + 65536).
    { symmetry. apply (Z.mod_unique _ _ (-1)); lia. }
    rewrite E. destruct (Z.ltb_spec (x + 65536) 32768); lia.
  - rewrite Z.mod_small by lia. destruct (Z.ltb_spec x 32768); lia.
Qed.

(** X11.  [inode::link] followed by [inode::unlink] is a round trip on the
    inode: the link count and the reference count are what they were, and
    so is every other inode, as long as the incremented count fits a
    [short].  Both calls keep the reference count in step with the link
    count: an inode holds one reference more while its link count is
    positive. *)
Theorem inode_link_unlink_round_trip ip w :
  is_s16 (i_nlink (w_ino w ip)) -> is_s16 (i_nlink (w_ino w ip) + 1) ->
  exists w1 w2,
    inode_link ip w = Ret tt w1 /\ inode_unlink ip w1 = Ret tt w2 /\
    i_nlink (w_ino w1 ip) = i_nlink (w_ino w ip) + 1 /\
    (forall k, w_ino w2 k = w_ino w k) /\
    (ref_ok (w_ino w ip) -> ref_ok (w_ino w1 ip)).
Proof.
  intros Hn Hn1. unfold inode_link, inode_unlink, modify.
  eexists. eexists. split; [reflexivity |]. split; [reflexivity |].
  cbn [w_ino set_ino]. rewrite !upd_same. cbn [i_nlink i_ref with_nlink].
  rewrite (s16_small _ Hn1).
  replace (i_nlink (w_ino w ip) + 1 - 1) with (i_nlink (w_ino w ip)) by lia.
  rewrite (s16_small _ Hn).
  split; [reflexivity |]. split.
  - intros k. unfold upd. destruct (key_eqb ip k) eqn:E; [| reflexivity].
    apply key_eqb_eq in E. subst k.
    destruct (w_ino w ip) as [g t ma mi v b rb sz a n r d o].
    unfold with_nlink. cbn. f_equal.
    destruct (Z.eqb_spec (n + 1) 1), (Z.eqb_spec n 0); lia.
  - unfold ref_ok. cbn [i_nlink i_ref with_nlink]. intros ->.
    destruct (Z.eqb_spec (i_nlink (w_ino w ip) + 1) 1),
      (Z.gtb_spec (i_nlink (w_ino w ip) + 1) 0),
      (Z.gtb_spec (i_nlink (w_ino w ip)) 0); lia.
Qed.

(** X12.  [iget] reads an inode from the disk once: for an inode that is
    not in the cache it fills the object with the fields of the on-disk
    inode, unlocked, without a directory index and with a reference count
    in step with the link count; for an inode that is in the cache it
    changes nothing.  It never touches another inode, a buffer, the
    bitmap or the transaction, and a second [iget] of the same inode
    returns the same object and changes nothing. *)
Theorem iget_reads_the_disk_once dev inum w :
  exists w1,
    iget dev inum w = Ret (dev, inum) w1 /\
    i_valid (w_ino w1 (dev, inum)) = true /\
    (i_valid (w_ino w (dev, inum)) = true -> w1 = w) /\
    (i_valid (w_ino w (dev, inum)) = false ->
     let d := dinode_get (w_buf w (dev, IBLOCK inum)) (inum mod IPB) in
     let i := w_ino w1 (dev, inum) in
     i_type i = d_type d /\ i_major i = d_major d /\ i_minor i = d_minor d /\
     i_nlink i = d_nlink d /\ i_size i = d_size d /\ i_gen i = d_gen d /\
     i_addrs i = d_addrs d /\
     i_busy i = false /\ i_readbusy i = 0 /\ i_dir i = None /\ ref_ok i) /\
    (forall k, k <> (dev, inum) -> w_ino w1 k = w_ino w k) /\
    w_buf w1 = w_buf w /\ w_dirty w1 = w_dirty w /\ w_io w1 = w_io w /\
    w_free w1 = w_free w /\ w_trans w1 = w_trans w /\ w_sb w1 = w_sb w /\
    iget dev inum w1 = Ret (dev, inum) w1.
Proof.
  unfold iget, bind, rd.
  destruct (i_valid (w_ino w (dev, inum))) eqn:Ev.
  - exists w. unfold ret. rewrite Ev.
    split; [reflexivity |]. split; [reflexivity |]. split; [reflexivity |].
    split; [discriminate |]. repeat split; reflexivity.
  - unfold buf_data, modify, ret. eexists. split; [reflexivity |].
    cbn [w_ino w_buf w_dirty w_io w_free w_trans w_sb set_ino].
    rewrite upd_same. cbn [i_valid].
    split; [reflexivity |]. split; [discriminate |].
    split; [intros _; cbn; repeat split; reflexivity |].
    split; [| repeat split; reflexivity].
    intros k Hk. apply upd_other. auto.
Qed.

(** ** Directory entries on disk *)

Lemma take_str_idem n s : take_str n (take_str n s) = take_str n s.
Proof.
  revert s; induction n as [| n IH]; intros [| c s]; cbn; auto.
  rewrite IH. reflexivity.
Qed.

Lemma char_at_nz c s : c <> Ascii.zero ->
  let x := char_at (String c s) 0 in
  x mod 256 = x /\ x <> 0 /\ ascii_of_N (Z.to_N x) = c.
Proof.
  intros Hc. cbn [char_at].
  pose proof (N_ascii_bounded c) as Hb.
  assert (H0 : N_of_ascii c <> 0%N).
  { intros E. apply Hc. rewrite <- (ascii_N_embedding c), E. reflexivity. }
  split; [apply Z.mod_small; lia |]. split; [lia |].
  rewrite N2Z.id. apply ascii_N_embedding.
Qed.

(** The name of a C string that a block holds. *)
Lemma cstr_chars b n : forall off s,
  (forall k, (k < n)%nat -> b (off + Z.of_nat k) = char_at s k) ->
  no_nul s -> cstr b off n = take_str n s.
Proof.
  induction n as [| n IH]; intros off s Hb Hs; [reflexivity |].
  cbn [cstr]. pose proof (Hb O ltac:(lia)) as H0.
  rewrite Z.add_0_r in H0. rewrite H0.
  destruct s as [| c s]; [reflexivity |].
  destruct Hs as [Hc Hs].
  destruct (char_at_nz c s Hc) as (E1 & E2 & E3). cbv zeta in E1, E2, E3.
  rewrite E1. destruct (Z.eqb_spec (char_at (String c s) 0) 0); [contradiction |].
  rewrite E3. cbn [take_str]. f_equal. apply IH; auto.
  intros k Hk. replace (off + 1 + Z.of_nat k) with (off + Z.of_nat (S k)) by lia.
  rewrite Hb by lia. reflexivity.
Qed.

(** X13.  The directory entry that [dir_flush_entry] writes is the entry
    that [dir_init] reads: where a block holds the bytes of the [dirent]
    built for [(inum, name)], the scan of that entry finds the inode
    number [inum] (as a [u32]) and the name cut to [DIRSIZ] characters,
    adds them to the index with the offset of the entry, and skips the
    entry when the inode number is 0.  The name is a C string. *)
Theorem dirent_written_is_dirent_read data pos inum name d off :
  0 <= DIRSIZ -> no_nul name ->
  (forall k, 0 <= k < DIRENT_SIZE -> data (pos + k) = dirent_bytes inum name k) ->
  le32 data pos = u32 inum /\
  strbuf (cstr data (pos + 4) (Z.to_nat DIRSIZ)) = strbuf name /\
  dir_scan 1 data pos d off
  = ((if u32 inum =? 0 then d
      else snd (dir_insert d (strbuf name) (mk_de_info (u32 inum) off))),
     u32 (off + DIRENT_SIZE)).
Proof.
  intros HD Hs Hdata. unfold DIRENT_SIZE in *.
  assert (Hi : le32 data pos = u32 inum).
  { unfold le32.
    rewrite <- (Z.add_0_r pos) at 1.
    rewrite !Hdata by lia. unfold dirent_bytes. cbn [Z.ltb Z.compare Pos.compare
      Pos.compare_cont Z.mul Pos.mul].
    change (2 ^ 0) with 1. rewrite Z.div_1_r.
    rewrite !Z.mod_mod by lia.
    apply bytes_of_u32. apply u32_range. }
  assert (Hn : cstr data (pos + 4) (Z.to_nat DIRSIZ) = strbuf name).
  { unfold strbuf. apply cstr_chars; auto.
    intros k Hk. replace (pos + 4 + Z.of_nat k) with (pos + (4 + Z.of_nat k)) by lia.
    rewrite Hdata by lia. unfold dirent_bytes.
    destruct (Z.ltb_spec (4 + Z.of_nat k) 4); [lia |].
    destruct (Z.ltb_spec (4 + Z.of_nat k) (4 + DIRSIZ)); [| lia].
    f_equal. lia. }
  split; [exact Hi |]. split.
  - rewrite Hn. unfold strbuf. apply take_str_idem.
  - cbn [dir_scan]. rewrite Hi, Hn. unfold strbuf.
    rewrite take_str_idem. reflexivity.
Qed.

(** ** The index of a directory *)

Lemma dir_init_ready dp w d :
  i_dir (w_ino w dp) = Some d -> dir_init dp w = Ret tt w.
Proof. intros H. unfold dir_init, bind, rd. rewrite H. reflexivity. Qed.

Lemma the_dir_ready dp w d :
  i_dir (w_ino w dp) = Some d -> the_dir dp w = Ret d w.
Proof. intros H. unfold the_dir, bind, rd. rewrite H. reflexivity. Qed.

Lemma dir_init_loop_keeps_index dp : forall fuel off doff w,
  0 < BSIZE -> 0 <= off -> i_size (w_ino w dp) + BSIZE <= 2 ^ 32 ->
  i_size (w_ino w dp) - off < Z.of_nat fuel * BSIZE ->
  i_dir (w_ino w dp) <> None ->
  wp (dir_init_loop fuel dp off doff)
    (fun _ w' => i_dir (w_ino w' dp) <> None /\
                 forall k, k <> dp -> exists a, w_ino w' k = with_addrs (w_ino w k) a)
    (fun _ => False) True w.
Proof.
  induction fuel as [| fuel IH]; intros off doff w HB Ho Hsz Hf Hd.
  - unfold dir_init_loop. apply wp_bind, wp_rd.
    destruct (Z.ltb_spec off (i_size (w_ino w dp))); [lia |].
    apply wp_ret. split; [auto |]. intros k _. exists (i_addrs (w_ino w k)).
    symmetry. apply with_addrs_id.
  - cbn [dir_init_loop]. apply wp_bind, wp_rd.
    destruct (Z.ltb_spec off (i_size (w_ino w dp))) as [L | G].
    2:{ apply wp_ret. split; [auto |]. intros k _.
        exists (i_addrs (w_ino w k)). symmetry. apply with_addrs_id. }
    destruct (negb (doff =? off)); [exact I |].
    apply wp_bind, wp_catch.
    eapply wp_mono; [apply bmap_frame | | intros w1 _; exact I | auto].
    cbv beta. intros b w1 Hfr.
    apply wp_bind. unfold buf_data at 1. unfold wp at 1.
    apply wp_bind. unfold the_dir. apply wp_bind, wp_rd.
    destruct (i_dir (w_ino w1 dp)) as [d |] eqn:Ed; [| exact I].
    apply wp_ret.
    destruct (dir_scan _ _ 0 d doff) as [d' doff'].
    apply wp_bind. unfold set_dir. apply wp_modify.
    pose proof (ino_frame_size w w1 dp Hfr) as Hs1.
    rewrite (u32_small (off + BSIZE)) by pow_lia.
    eapply wp_mono; [apply IH | | auto | auto].
    + exact HB.
    + lia.
    + cbn [w_ino set_ino]. rewrite upd_same. cbn. lia.
    + cbn [w_ino set_ino]. rewrite upd_same. cbn. lia.
    + cbn [w_ino set_ino]. rewrite upd_same. cbn. discriminate.
    + cbv beta. intros _ w2 [H1 H2]. split; [exact H1 |].
      intros k Hk. destruct (H2 k Hk) as [a Ha]. rewrite Ha.
      cbn [w_ino set_ino]. rewrite upd_other by auto.
      destruct (Hfr k) as [a1 Ha1]. rewrite Ha1.
      exists a. apply with_addrs_twice.
Qed.

(** X14.  [dir_init] builds the index of a directory once.  With an index
    in place it returns at once and changes nothing; without one it
    panics for an inode that is not a directory, and for an empty
    directory it installs the empty index with [dir_offset] 0.  Whenever
    it returns the inode has an index, so that a second [dir_init]
    changes nothing, and of another inode at most the block map has
    changed; it never lets [out_of_blocks] escape, and it panics only
    when the index had to be built.  The index it builds is the scan of
    the directory file: block after block below the size, entry after
    entry, every entry with an inode number is entered under its name
    with its offset (the first entry of a name stays), a hole reading as
    zeros, and [dir_offset] is the offset behind the last entry visited.
    This is for a consistent block map, a size of at most
    [MAXFILE*BSIZE], and entries that fill a block exactly when the
    directory has more than one block (the [assert] on [dir_offset]);
    the file then reads as before, nothing is written to the disk, and
    without a hole no buffer, bitmap bit or block map changes.  It
    panics there only when a block of the file is a hole. *)
Theorem dir_init_builds_the_index_once dp w :
  0 < BSIZE -> i_size (w_ino w dp) + BSIZE <= 2 ^ 32 ->
  (i_dir (w_ino w dp) <> None -> dir_init dp w = Ret tt w) /\
  (i_dir (w_ino w dp) = None -> i_type (w_ino w dp) <> T_DIR ->
   dir_init dp w = Panic) /\
  (i_dir (w_ino w dp) = None -> i_type (w_ino w dp) = T_DIR ->
   i_size (w_ino w dp) <= 0 ->
   exists w', dir_init dp w = Ret tt w' /\
              i_dir (w_ino w' dp) = Some [] /\ i_dir_offset (w_ino w' dp) = 0) /\
  match dir_init dp w with
  | Ret _ w' =>
      i_dir (w_ino w' dp) <> None /\ dir_init dp w' = Ret tt w' /\
      forall k, k <> dp -> exists a, w_ino w' k = with_addrs (w_ino w k) a
  | Throw _ => False
  | Panic => i_dir (w_ino w dp) = None
  | Timeout => False
  end /\
  (params_ok -> wf w dp ->
   i_dir (w_ino w dp) = None -> i_type (w_ino w dp) = T_DIR ->
   i_size (w_ino w dp) <= MAXFILE * BSIZE ->
   (BSIZE < i_size (w_ino w dp) -> Z.of_nat NDIRENT * DIRENT_SIZE = BSIZE) ->
   match dir_init dp w with
   | Ret _ w' =>
       i_dir (w_ino w' dp) = Some (fst (dir_index w dp)) /\
       i_dir_offset (w_ino w' dp) = snd (dir_index w dp) /\
       scan_kept dp 0 w w'
   | Throw _ => False
   | Panic =>
       exists bn, 0 <= bn * BSIZE < i_size (w_ino w dp) /\
                  val w dp (leaf bn) = 0
   | Timeout => False
   end).
Proof.
  intros HB Hsz.
  assert (Hready : forall w0, i_dir (w_ino w0 dp) <> None ->
                              dir_init dp w0 = Ret tt w0).
  { intros w0 H. destruct (i_dir (w_ino w0 dp)) as [d |] eqn:E;
      [apply (dir_init_ready dp w0 d E) | contradiction]. }
  split; [apply Hready |]. split; [| split; [| split]].
  - intros Hd Hty. unfold dir_init, bind, rd. rewrite Hd.
    rewrite (itype_eqb_neq _ _ Hty). reflexivity.
  - intros Hd Hty Hs. unfold dir_init, bind, rd. rewrite Hd, Hty. cbn [itype_eqb negb].
    unfold set_dir at 1, modify at 1.
    assert (Hl : forall fuel w0, i_size (w_ino w0 dp) <= 0 ->
                   dir_init_loop fuel dp 0 0 w0 = Ret 0 w0).
    { intros fuel w0 H0. destruct fuel; cbn [dir_init_loop]; unfold bind, rd;
        (destruct (Z.ltb_spec 0 (i_size (w_ino w0 dp))); [lia | reflexivity]). }
    rewrite Hl by (cbn [w_ino set_ino]; rewrite upd_same; cbn; lia).
    unfold set_dir_offset, modify. eexists. split; [reflexivity |].
    cbn [w_ino set_ino]. rewrite !upd_same. cbn. split; reflexivity.
  - assert (H : wp (dir_init dp)
                  (fun _ w' => i_dir (w_ino w' dp) <> None /\
                     forall k, k <> dp ->
                               exists a, w_ino w' k = with_addrs (w_ino w k) a)
                  (fun _ => False) (i_dir (w_ino w dp) = None) w).
    { unfold dir_init. apply wp_bind, wp_rd.
      destruct (i_dir (w_ino w dp)) as [d |] eqn:Ed.
      - apply wp_ret. split; [rewrite Ed; discriminate |]. intros k _.
        exists (i_addrs (w_ino w k)). symmetry. apply with_addrs_id.
      - destruct (negb (itype_eqb (i_type (w_ino w dp)) T_DIR)); [reflexivity |].
        apply wp_bind. unfold set_dir. apply wp_modify. apply wp_bind.
        eapply wp_mono;
          [apply dir_init_loop_keeps_index | | auto | intros _; reflexivity].
        + exact HB.
        + lia.
        + cbn [w_ino set_ino]. rewrite upd_same. cbn. lia.
        + cbn [w_ino set_ino]. rewrite upd_same. cbn.
          assert (0 <= i_size (w_ino w dp) / BSIZE \/ i_size (w_ino w dp) < 0)
            as [Hq | Hq].
          { destruct (Z_lt_ge_dec (i_size (w_ino w dp)) 0); [right; lia |].
            left. apply Z.div_pos; lia. }
          * rewrite Z2Nat.id by lia.
            assert (HB0 : BSIZE <> 0) by lia.
            pose proof (Z.mod_pos_bound (i_size (w_ino w dp)) BSIZE HB).
            pose proof (Z.div_mod (i_size (w_ino w dp)) BSIZE HB0). nia.
          * pose proof (Nat2Z.is_nonneg
                          (Z.to_nat (i_size (w_ino w dp) / BSIZE + 1))). nia.
        + cbn [w_ino set_ino]. rewrite upd_same. cbn. discriminate.
        + cbv beta. intros doff w1 [H1 H2]. unfold set_dir_offset.
          apply wp_modify. cbn [w_ino set_ino]. rewrite upd_same. cbn.
          split; [exact H1 |]. intros k Hk. rewrite upd_other by auto.
          destruct (H2 k Hk) as [a Ha]. exists a. rewrite Ha.
          cbn [w_ino set_ino]. rewrite upd_other by auto. reflexivity. }
    unfold wp in H. destruct (dir_init dp w) as [u w' | | |]; auto.
    destruct H as [H1 H2]. split; [exact H1 |]. split; [| exact H2].
    apply Hready, H1.
  - intros Hp Hwf Hd Hty Hmax Htile.
    pose proof (dir_init_scan dp w Hp Hwf Hd Hty Hsz Hmax Htile) as H.
    unfold wp, dir_built in H.
    destruct (dir_init dp w) as [u w' | | |]; auto.
Qed.

(** C9.  [dirunlink] begins with [dir_init].  In a directory whose index
    is built and does not hold the name it returns -1 and the state it
    returns is the state it was given: index, [dir_offset], sizes, link
    counts, buffers and transaction.  In a directory without an index it
    builds the index first: it panics for an inode that is not a
    directory, and otherwise, when the directory file holds no entry of
    the name, it returns -1 with the index installed and [dir_offset] set
    to the end of the scan; the size and the link count of every inode,
    the transaction, the superblock and the disk are as before, the file
    reads as before, and without a hole in the file no buffer, bitmap bit
    or block map has changed.  (This is for a consistent block map, a
    size of at most [MAXFILE*BSIZE], and entries that fill a block
    exactly when the directory has more than one block.) *)
Theorem dirunlink_absent_name dp name inum dec_link trans w :
  (forall d, i_dir (w_ino w dp) = Some d ->
             dir_lookup d (strbuf name) = None ->
             dirunlink dp name inum dec_link trans w = Ret (-1) w) /\
  (i_dir (w_ino w dp) = None -> i_type (w_ino w dp) <> T_DIR ->
   dirunlink dp name inum dec_link trans w = Panic) /\
  (params_ok -> wf w dp ->
   i_dir (w_ino w dp) = None -> i_type (w_ino w dp) = T_DIR ->
   i_size (w_ino w dp) + BSIZE <= 2 ^ 32 ->
   i_size (w_ino w dp) <= MAXFILE * BSIZE ->
   (BSIZE < i_size (w_ino w dp) -> Z.of_nat NDIRENT * DIRENT_SIZE = BSIZE) ->
   dir_lookup (fst (dir_index w dp)) (strbuf name) = None ->
   match dirunlink dp name inum dec_link trans w with
   | Ret r w' =>
       r = -1 /\
       i_dir (w_ino w' dp) = Some (fst (dir_index w dp)) /\
       i_dir_offset (w_ino w' dp) = snd (dir_index w dp) /\
       (forall k, i_size (w_ino w' k) = i_size (w_ino w k) /\
                  i_nlink (w_ino w' k) = i_nlink (w_ino w k)) /\
       scan_kept dp 0 w w'
   | Throw _ => False
   | Panic =>
       exists bn, 0 <= bn * BSIZE < i_size (w_ino w dp) /\
                  val w dp (leaf bn) = 0
   | Timeout => False
   end).
Proof.
  split; [| split].
  - intros d Hd Hl. unfold dirunlink, bind, dir_init, the_dir, rd, bind.
    cbv beta. rewrite Hd. cbv beta iota. unfold ret at 1. cbv beta iota.
    rewrite Hd. unfold ret at 1. cbv beta iota.
    unfold dir_remove. rewrite Hl. reflexivity.
  - intros Hd Hty. unfold dirunlink, bind at 1, dir_init, bind at 1, rd.
    rewrite Hd, (itype_eqb_neq _ _ Hty). reflexivity.
  - intros Hp Hwf Hd Hty Hsz Hmax Htile Hl.
    pose proof (dir_init_scan dp w Hp Hwf Hd Hty Hsz Hmax Htile) as H.
    unfold wp in H. unfold dirunlink, bind at 1.
    destruct (dir_init dp w) as [u w1 | | |]; auto.
    destruct H as (Hi & Ho & Hk).
    unfold bind at 1. rewrite (the_dir_ready dp w1 _ Hi). cbv zeta.
    unfold dir_remove. rewrite Hl. cbn [negb]. unfold ret.
    split; [reflexivity |]. split; [exact Hi |]. split; [exact Ho |].
    split; [| exact Hk].
    destruct Hk as (_ & _ & (_ & _ & _ & _ & Hoth & (a & d' & o & Hdp)) & _).
    intros k. destruct (key_eqb k dp) eqn:Ek.
    + apply key_eqb_eq in Ek. subst k. rewrite Hdp. split; reflexivity.
    + assert (Nk : k <> dp)
        by (intros ->; rewrite key_eqb_refl in Ek; discriminate Ek).
      destruct (Hoth k Nk) as [a' Ea]. rewrite Ea. split; reflexivity.
Qed.


(** ** dirlookup and dirlink *)

Lemma iget_returns dev inum w :
  exists w1, iget dev inum w = Ret (dev, inum) w1 /\
             forall k, k <> (dev, inum) -> w_ino w1 k = w_ino w k.
Proof.
  unfold iget, bind, rd. destruct (i_valid (w_ino w (dev, inum))).
  - exists w. split; reflexivity.
  - unfold buf_data, modify, ret. eexists. split; [reflexivity |].
    intros k Hk. cbn [w_ino set_ino]. apply upd_other. auto.
Qed.

Lemma dirlookup_ready dp name w d :
  i_dir (w_ino w dp) = Some d ->
  dirlookup dp name w
  = (if inum_ (lookup_info d (strbuf name)) =? 0 then Ret None w
     else (ip <- iget (fst dp) (inum_ (lookup_info d (strbuf name))) ;;
           ret (Some ip)) w).
Proof.
  intros Hd. unfold dirlookup. unfold bind at 1.
  rewrite (dir_init_ready dp w d Hd). unfold bind at 1.
  rewrite (the_dir_ready dp w d Hd). cbv zeta.
  destruct (_ =? 0); reflexivity.
Qed.

(** X15.  [dirlookup] in a directory whose index is built answers from the
    index alone.  For a name that the index does not hold, or holds with
    the inode number 0 of a removed entry, it returns no inode and leaves
    the state as it is; for any other name it returns the inode [(dp->dev,
    inum)] of the entry, and only that inode can have changed (it is read
    into the cache).  Names are told apart by their first [DIRSIZ]
    characters only. *)
Theorem dirlookup_answers_from_the_index dp name w d :
  i_dir (w_ino w dp) = Some d ->
  (dir_lookup d (strbuf name) = None -> dirlookup dp name w = Ret None w) /\
  (forall e, dir_lookup d (strbuf name) = Some e -> inum_ e = 0 ->
             dirlookup dp name w = Ret None w) /\
  (forall e, dir_lookup d (strbuf name) = Some e -> inum_ e <> 0 ->
             exists w',
               dirlookup dp name w = Ret (Some (fst dp, inum_ e)) w' /\
               forall k, k <> (fst dp, inum_ e) -> w_ino w' k = w_ino w k) /\
  (forall name', strbuf name' = strbuf name ->
                 dirlookup dp name' w = dirlookup dp name w).
Proof.
  intros Hd. split; [| split; [| split]].
  - intros Hl. rewrite (dirlookup_ready dp name w d Hd).
    unfold lookup_info. rewrite Hl. reflexivity.
  - intros e Hl He. rewrite (dirlookup_ready dp name w d Hd).
    unfold lookup_info. rewrite Hl, He. reflexivity.
  - intros e Hl He. rewrite (dirlookup_ready dp name w d Hd).
    unfold lookup_info. rewrite Hl.
    destruct (Z.eqb_spec (inum_ e) 0); [contradiction |].
    destruct (iget_returns (fst dp) (inum_ e) w) as (w' & Hrun & Hoth).
    exists w'. unfold bind. rewrite Hrun. split; [reflexivity | exact Hoth].
  - intros name' E. rewrite !(dirlookup_ready dp _ w d Hd), E. reflexivity.
Qed.

Lemma dir_lookup_app d1 d2 n :
  dir_lookup (d1 ++ d2) n
  = match dir_lookup d1 n with
    | Some e => Some e
    | None => dir_lookup d2 n
    end.
Proof.
  induction d1 as [| [k v] d1 IH]; cbn; [reflexivity |].
  destruct (String.eqb k n); auto.
Qed.

(** X16.  After [dirlink(dp, name, inum)] the index holds an entry for the
    name: the entry it held before, when there was one ([dirlink] never
    replaces an entry, and then it changes nothing at all), and otherwise
    the new entry [(inum, dp->dir_offset)].  No other name of the index
    is affected, and [dirlookup] of the new name finds the inode [inum]
    when [inum] is not 0. *)
Theorem dirlookup_after_dirlink dp name inum inc_link trans w d :
  i_dir (w_ino w dp) = Some d ->
  exists w1 d1,
    dirlink dp name inum inc_link trans w = Ret (-1) w1 /\
    i_dir (w_ino w1 dp) = Some d1 /\
    dir_lookup d1 (strbuf name)
    = Some (match dir_lookup d (strbuf name) with
            | Some e => e
            | None => mk_de_info inum (i_dir_offset (w_ino w dp))
            end) /\
    (forall n, n <> strbuf name -> dir_lookup d1 n = dir_lookup d n) /\
    (dir_lookup d (strbuf name) <> None -> w1 = w) /\
    (dir_lookup d (strbuf name) = None -> inum <> 0 ->
     exists w2, dirlookup dp name w1 = Ret (Some (fst dp, inum)) w2).
Proof.
  intros Hd. unfold dirlink. unfold bind at 1.
  rewrite (dir_init_ready dp w d Hd). unfold bind at 1, rd at 1.
  unfold bind at 1. rewrite (the_dir_ready dp w d Hd). cbv zeta.
  unfold dir_insert.
  destruct (dir_lookup d (strbuf name)) as [e |] eqn:El.
  - exists w, d. cbn [when]. unfold bind, ret.
    split; [reflexivity |]. split; [exact Hd |]. split; [exact El |].
    split; [reflexivity |]. split; [reflexivity |]. discriminate.
  - cbn [when]. unfold bind, set_dir, modify, ret.
    eexists. eexists. split; [reflexivity |].
    cbn [w_ino set_ino]. rewrite upd_same. cbn [i_dir with_dir].
    split; [reflexivity |].
    assert (Hnew : dir_lookup
                     (d ++ [(strbuf name,
                             mk_de_info inum (i_dir_offset (w_ino w dp)))])
                     (strbuf name)
                   = Some (mk_de_info inum (i_dir_offset (w_ino w dp)))).
    { rewrite dir_lookup_app, El. cbn. rewrite String.eqb_refl. reflexivity. }
    split; [exact Hnew |]. split; [| split; [congruence |]].
    + intros n Hn. rewrite dir_lookup_app. cbn.
      destruct (String.eqb_spec (strbuf name) n); [congruence |].
      destruct (dir_lookup d n); reflexivity.
    + intros _ Hi.
      set (w1 := set_ino w dp _).
      assert (Hd1 : i_dir (w_ino w1 dp)
                    = Some (d ++ [(strbuf name,
                                   mk_de_info inum (i_dir_offset (w_ino w dp)))])).
      { unfold w1. cbn [w_ino set_ino]. rewrite upd_same. reflexivity. }
      rewrite (dirlookup_ready dp name w1 _ Hd1). unfold lookup_info.
      rewrite Hnew. cbn [inum_].
      destruct (Z.eqb_spec inum 0); [contradiction |].
      destruct (iget_returns (fst dp) inum w1) as (w2 & Hrun & _).
      exists w2. unfold bind. rewrite Hrun. reflexivity.
Qed.

(** ** Paths *)

Lemma skip_slashes_idem s : skip_slashes (skip_slashes s) = skip_slashes s.
Proof.
  induction s as [| a s IH]; cbn; auto.
  destruct (is_slash a) eqn:Ea; auto. cbn. rewrite Ea. reflexivity.
Qed.

Lemma components_head s c q :
  s = String c q -> is_slash c = false -> components s <> [].
Proof.
  intros -> Hc. unfold components. cbn [components_aux]. rewrite Hc.
  rewrite components_aux_elem. cbn [append str_null]. discriminate.
Qed.

Lemma components_nil s :
  skip_slashes s = s -> (components s = [] <-> s = EmptyString).
Proof.
  intros Hs. split; [| intros ->; reflexivity].
  destruct s as [| c q]; auto. intros Hc. exfalso.
  apply (components_head (String c q) c q eq_refl); auto.
  apply (skip_slashes_head _ _ _ Hs).
Qed.

(** [skipelem] with what it leaves of the path. *)
Lemma skipelem_rest path name c cs :
  components path = c :: cs -> Z.of_nat (String.length c) <= DIRSIZ ->
  exists rest,
    skipelem path name = (1, rest, c) /\ components rest = cs /\
    skip_slashes rest = rest /\
    (String.length rest < String.length path)%nat.
Proof.
  intros Ec Hl. pose proof (skipelem_spec path name) as Hs. rewrite Ec in Hs.
  destruct (Z.gtb_spec (Z.of_nat (String.length c)) DIRSIZ); [lia |].
  destruct Hs as (rest & H1 & H2 & H3). exists rest.
  split; [exact H1 |]. split; [exact H2 |]. split; [| exact H3].
  unfold skipelem in H1. destruct (skip_slashes path) as [| a q]; [discriminate |].
  destruct (_ >? DIRSIZ); [discriminate |].
  inversion H1. apply skip_slashes_idem.
Qed.

(** X17.  [skipelem] splits the first component off a path.  It returns 0
    exactly when the path has no component, and -1 exactly when the first
    component is longer than [DIRSIZ]; in both cases the path and the name
    buffer are left as they are.  Otherwise it returns 1, the name is the
    first component, and what is left of the path has the remaining
    components and no leading slash, so that it is empty exactly when the
    name is the last one. *)
Theorem skipelem_splits_off_first_component path name :
  let '(r, rest, name') := skipelem path name in
  (r = 0 <-> components path = []) /\
  (r = -1 <-> exists c cs, components path = c :: cs /\ too_long c) /\
  (r = 0 \/ r = -1 -> rest = path /\ name' = name) /\
  (r <> 0 -> r <> -1 ->
   r = 1 /\ components path = name' :: components rest /\
   skip_slashes rest = rest /\
   (rest = EmptyString <-> components rest = []) /\
   (String.length rest < String.length path)%nat).
Proof.
  pose proof (skipelem_spec path name) as Hs.
  destruct (components path) as [| c cs] eqn:Ec.
  - rewrite Hs. split; [tauto |]. split.
    + split; [discriminate | intros (c & cs & E & _); discriminate].
    + split; [auto | congruence].
  - destruct (Z.gtb_spec (Z.of_nat (String.length c)) DIRSIZ) as [Hl | Hl].
    + rewrite Hs. split; [split; discriminate |]. split.
      * split; [| reflexivity]. intros _. exists c, cs. split; [reflexivity |].
        unfold too_long. lia.
      * split; [auto | congruence].
    + clear Hs.
      destruct (skipelem_rest path name c cs Ec Hl) as (rest & -> & H2 & H3 & H4).
      split; [split; discriminate |]. split.
      * split; [discriminate |]. intros (c' & cs' & E & Hc').
        inversion E; subst. unfold too_long in Hc'. lia.
      * split; [intros [H | H]; discriminate |]. intros _ _.
        split; [reflexivity |]. split; [congruence |]. split; [exact H3 |].
        split; [| exact H4]. symmetry. apply components_nil. exact H3.
Qed.

Lemma namex_loop_walk : forall fuel ip path name w,
  (String.length path <= fuel)%nat ->
  Forall (fun c => Z.of_nat (String.length c) <= DIRSIZ) (components path) ->
  (r <- namex_loop fuel ip path 0 name ;; ret (fst r)) w
  = walk (components path) ip w.
Proof.
  induction fuel as [| fuel IH]; intros ip path name w Hf Hall.
  - destruct path; [| cbn in Hf; lia]. reflexivity.
  - destruct (components path) as [| c cs] eqn:Ec.
    + pose proof (skipelem_spec path name) as Hs. rewrite Ec in Hs.
      unfold bind. cbn [namex_loop]. rewrite Hs. reflexivity.
    + inversion Hall as [| ? ? Hc Hcs]; subst.
      destruct (skipelem_rest path name c cs Ec Hc) as (rest & Hs & H2 & _ & H4).
      cbn [namex_loop walk]. rewrite Hs.
      cbn [Z.eqb Pos.eqb]. unfold bind, rd.
      destruct (itype_eqb (i_type (w_ino w ip)) T_FREE); [reflexivity |].
      destruct (itype_eqb (i_type (w_ino w ip)) T_DIR); [| reflexivity].
      cbn [negb andb Z.eqb].
      destruct (dirlookup ip c w) as [[nx |] w1 | | |]; try reflexivity.
      specialize (IH nx rest c w1). unfold bind in IH. rewrite IH.
      * rewrite H2. reflexivity.
      * lia.
      * rewrite H2. exact Hcs.
Qed.

(** X18.  [namei] walks the components of the path: from the root for a
    path that begins with a slash and from [cwd] otherwise, it looks every
    component up with [dirlookup] in the inode reached so far, which must
    be a directory (no inode is returned otherwise, and a free inode on
    the way halts the kernel).  The result and the state it leaves depend
    on the path only through its components and its first character:
    repeated and trailing slashes make no difference.  No component is
    longer than [DIRSIZ]. *)
Theorem namei_walks_the_components cwd path w :
  Forall (fun c => Z.of_nat (String.length c) <= DIRSIZ) (components path) ->
  namei cwd path w = walk (components path) (start_inode cwd path) w.
Proof.
  intros Hall. unfold namei, namex. fold (start_inode cwd path).
  apply namex_loop_walk; auto.
Qed.

Lemma namex_loop_parent : forall fuel ip path name w cs c,
  (String.length path <= fuel)%nat ->
  components path = cs ++ [c] ->
  Forall (fun c => Z.of_nat (String.length c) <= DIRSIZ) (components path) ->
  parent_result c (walk cs ip w) (namex_loop fuel ip path 1 name w).
Proof.
  induction fuel as [| fuel IH]; intros ip path name w cs c Hf Ec Hall.
  - destruct path; [| cbn in Hf; lia]. destruct cs; discriminate.
  - rewrite Ec in Hall. destruct cs as [| c0 cs].
    + cbn [app] in Ec. inversion Hall as [| ? ? Hc _]; subst.
      destruct (skipelem_rest path name c [] Ec Hc) as (rest & Hs & H2 & H3 & _).
      apply (components_nil rest H3) in H2. subst rest.
      cbn [namex_loop walk]. rewrite Hs. cbn [Z.eqb Pos.eqb].
      unfold bind, rd, ret, parent_result.
      destruct (itype_eqb (i_type (w_ino w ip)) T_FREE); [reflexivity |].
      destruct (itype_eqb (i_type (w_ino w ip)) T_DIR); reflexivity.
    + cbn [app] in Ec, Hall. inversion Hall as [| ? ? Hc Hcs]; subst.
      destruct (skipelem_rest path name c0 (cs ++ [c]) Ec Hc)
        as (rest & Hs & H2 & H3 & H4).
      assert (Hr : str_null rest = false).
      { destruct rest; [| reflexivity]. destruct cs; discriminate. }
      cbn [namex_loop walk]. rewrite Hs. cbn [Z.eqb Pos.eqb].
      unfold bind, rd.
      destruct (itype_eqb (i_type (w_ino w ip)) T_FREE); [reflexivity |].
      destruct (itype_eqb (i_type (w_ino w ip)) T_DIR);
        [| cbn; exists c0; reflexivity].
      rewrite Hr. cbn [negb andb Z.eqb].
      destruct (dirlookup ip c0 w) as [[nx |] w1 | | |]; try reflexivity.
      * apply IH; [lia | exact H2 | rewrite H2; exact Hcs].
      * cbn. exists c0. reflexivity.
Qed.

(** X19.  [nameiparent] stops one level early: for a path whose last
    component is [c] it walks the components before [c] as [namei] does
    and returns the inode the walk ends in together with the name [c],
    without looking [c] up; it returns no inode when that inode is not a
    directory or the walk finds none, and halts on a free inode.  The
    state is the one the walk leaves.  No component is longer than
    [DIRSIZ]. *)
Theorem nameiparent_stops_one_level_early cwd path name w cs c :
  components path = cs ++ [c] ->
  Forall (fun c => Z.of_nat (String.length c) <= DIRSIZ) (components path) ->
  parent_result c (walk cs (start_inode cwd path) w)
    (nameiparent cwd path name w).
Proof.
  intros Ec Hall. unfold nameiparent, namex. fold (start_inode cwd path).
  apply namex_loop_parent; auto.
Qed.

(** ** dirunlink of a name that is there *)

Lemma dir_lookup_remove_all d n n' :
  dir_lookup (dir_remove_all d n) n'
  = if String.eqb n n' then None else dir_lookup d n'.
Proof.
  induction d as [| [k v] d IH]; cbn.
  - destruct (String.eqb n n'); reflexivity.
  - destruct (String.eqb_spec k n) as [-> | Hk].
    + rewrite IH. destruct (String.eqb n n'); reflexivity.
    + cbn. rewrite IH.
      destruct (String.eqb_spec k n') as [-> | Hk']; [| reflexivity].
      destruct (String.eqb_spec n n'); [congruence | reflexivity].
Qed.

Lemma iupdate_ino ip trans w :
  wp (iupdate ip trans) (fun _ w' => w_ino w' = w_ino w) (fun _ => False)
    False w.
Proof.
  unfold iupdate, wp, bind, rd, buf_data, buf_store, modify, when,
    add_to_transaction.
  destruct trans; reflexivity.
Qed.

(** [dir_flush_entry] changes the size and the block map of inodes only. *)
Lemma dir_flush_entry_frame dp name trans w :
  params_ok -> is_u32 DIRENT_SIZE ->
  (forall d, i_dir (w_ino w dp) = Some d ->
             is_u32 (offset_ (lookup_info d (strbuf name)))) ->
  wp (dir_flush_entry dp name trans)
    (fun _ w' => forall k, i_dir (w_ino w' k) = i_dir (w_ino w k) /\
                           i_nlink (w_ino w' k) = i_nlink (w_ino w k))
    (fun _ => False) True w.
Proof.
  intros Hp Hs Ho. unfold dir_flush_entry. apply wp_bind, wp_rd.
  destruct (i_dir (w_ino w dp)) as [d |] eqn:Ed; [| apply wp_ret; auto].
  cbv zeta. apply wp_bind.
  eapply wp_mono; [apply writei_frame; auto | | auto | auto]. cbv beta.
  intros r w1 Hfr.
  assert (H1 : forall k, i_dir (w_ino w1 k) = i_dir (w_ino w k) /\
                         i_nlink (w_ino w1 k) = i_nlink (w_ino w k)).
  { intros k. destruct (Hfr k) as [a ->]. split; reflexivity. }
  destruct (negb (r =? DIRENT_SIZE)); [exact I |].
  apply wp_bind, wp_rd. apply wp_bind.
  apply wp_when.
  - intros _. unfold set_size. apply wp_modify.
    eapply wp_mono; [apply iupdate_ino | | auto | auto]. cbv beta.
    intros _ w2 ->. intros k. cbn [w_ino set_ino]. unfold upd.
    destruct (key_eqb dp k) eqn:E; [| apply H1].
    apply key_eqb_eq in E. subst k. cbn. apply H1.
  - intros _.
    eapply wp_mono; [apply iupdate_ino | | auto | auto]. cbv beta.
    intros _ w2 ->. exact H1.
Qed.

(** X20.  [dirunlink] of a name that the index of [dp] holds: when it
    returns it has returned 0, the index no longer holds the name and
    holds every other name as before, and the link count of the inode
    [(1, inum)] is one less (unless the name is [..]).  It returns -1 for
    no name that is there, it never lets an exception out and its loops
    stop; it halts when the entry cannot be written.  The inode of [dp] is
    in the cache or is not the inode [(1, inum)]. *)
Theorem dirunlink_removes_the_name dp name inum dec_link trans w d e :
  params_ok -> is_u32 (offset_ e) -> is_u32 DIRENT_SIZE ->
  i_dir (w_ino w dp) = Some d ->
  dir_lookup d (strbuf name) = Some e ->
  i_valid (w_ino w dp) = true \/ (1, inum) <> dp ->
  match dirunlink dp name inum dec_link trans w with
  | Ret r w' =>
      r = 0 /\
      (exists d', i_dir (w_ino w' dp) = Some d' /\
         forall n, dir_lookup d' n
                   = if String.eqb (strbuf name) n then None else dir_lookup d n) /\
      (strbuf name <> strbuf ".." -> (1, inum) <> dp ->
       i_valid (w_ino w (1, inum)) = true ->
       i_nlink (w_ino w' (1, inum)) = s16 (i_nlink (w_ino w (1, inum)) - 1))
  | Throw _ => False
  | Panic => True
  | Timeout => False
  end.
Proof.
  intros Hp Ho Hs Hd Hl Hv.
  set (tomb := mk_de_info 0 (offset_ e)).
  set (d2 := dir_remove_all d (strbuf name) ++ [(strbuf name, tomb)]).
  assert (Hl2 : dir_lookup d2 (strbuf name) = Some tomb).
  { unfold d2. rewrite dir_lookup_app, dir_lookup_remove_all, String.eqb_refl.
    cbn. rewrite String.eqb_refl. reflexivity. }
  assert (Hfinal : forall n,
             dir_lookup (dir_remove_all d2 (strbuf name)) n
             = if String.eqb (strbuf name) n then None else dir_lookup d n).
  { intros n. rewrite dir_lookup_remove_all.
    destruct (String.eqb_spec (strbuf name) n) as [E | N]; [reflexivity |].
    unfold d2. rewrite dir_lookup_app, dir_lookup_remove_all.
    destruct (String.eqb_spec (strbuf name) n); [contradiction |].
    cbn. destruct (String.eqb_spec (strbuf name) n); [contradiction |].
    destruct (dir_lookup d n); reflexivity. }
  set (Q := fun (r : Z) (w' : world) =>
       r = 0 /\
       (exists d', i_dir (w_ino w' dp) = Some d' /\
          forall n, dir_lookup d' n
                    = if String.eqb (strbuf name) n then None else dir_lookup d n) /\
       (strbuf name <> strbuf ".." -> (1, inum) <> dp ->
        i_valid (w_ino w (1, inum)) = true ->
        i_nlink (w_ino w' (1, inum)) = s16 (i_nlink (w_ino w (1, inum)) - 1))).
  assert (H : wp (dirunlink dp name inum dec_link trans) Q (fun _ => False)
                True w).
  { unfold dirunlink. apply wp_bind. unfold wp at 1.
    rewrite (dir_init_ready dp w d Hd). apply wp_bind. unfold wp at 1.
    rewrite (the_dir_ready dp w d Hd). cbv zeta.
    unfold dir_remove. rewrite Hl. cbn [negb].
    apply wp_bind. unfold set_dir at 1. apply wp_modify.
    unfold dir_insert. rewrite dir_lookup_remove_all, String.eqb_refl.
    cbn [negb]. unfold lookup_info. rewrite Hl. fold tomb. fold d2.
    apply wp_bind. unfold set_dir at 1. apply wp_modify.
    set (w2 := set_ino (set_ino w dp _) dp _).
    assert (Hd2 : i_dir (w_ino w2 dp) = Some d2).
    { unfold w2. cbn [w_ino set_ino]. rewrite upd_same. reflexivity. }
    assert (Hv2 : i_valid (w_ino w2 dp) = true \/ (1, inum) <> dp).
    { destruct Hv as [Hv | Hv]; [left | right; exact Hv].
      unfold w2. cbn [w_ino set_ino]. rewrite upd_same. cbn. rewrite upd_same.
      exact Hv. }
    assert (Hoth : forall k, k <> dp -> w_ino w2 k = w_ino w k).
    { intros k Hk. unfold w2. cbn [w_ino set_ino]. rewrite !upd_other; auto. }
    clearbody w2.
    (* the link counts *)
    apply wp_bind.
    apply (wp_mono _
             (fun _ w3 =>
                i_dir (w_ino w3 dp) = Some d2 /\
                (strbuf name <> strbuf ".." -> (1, inum) <> dp ->
                 i_valid (w_ino w (1, inum)) = true ->
                 i_nlink (w_ino w3 (1, inum))
                 = s16 (i_nlink (w_ino w (1, inum)) - 1)))
             _ (fun _ => False) _ True True).
    - destruct (String.eqb_spec (strbuf name) (strbuf "..")) as [E | N];
        cbn [negb].
      + apply wp_ret. split; [exact Hd2 | contradiction].
      + apply wp_bind. unfold wp at 1.
        destruct (iget_returns 1 inum w2) as (w3 & Hrun & Hoth3).
        assert (Hw3 : w_ino w3 dp = w_ino w2 dp /\
                      (i_valid (w_ino w2 (1, inum)) = true -> w3 = w2)).
        { unfold iget, bind, rd in Hrun.
          destruct (i_valid (w_ino w2 (1, inum))) eqn:Ev.
          - inversion Hrun. auto.
          - split; [| discriminate]. apply Hoth3. intros E.
            destruct Hv2 as [Hv2 | Hv2]; [| congruence].
            rewrite E, Ev in Hv2. discriminate. }
        rewrite Hrun. destruct Hw3 as [Hdp3 Hsame3].
        assert (Hdir : forall a b,
                  i_dir (upd (w_ino w3) (1, inum)
                           (with_nlink (w_ino w3 (1, inum)) a b) dp) = Some d2).
        { intros a b. unfold upd. destruct (key_eqb (1, inum) dp) eqn:E.
          - apply key_eqb_eq in E. rewrite E. cbn. rewrite Hdp3. exact Hd2.
          - rewrite Hdp3. exact Hd2. }
        apply wp_bind. unfold inode_unlink at 1. apply wp_modify.
        apply wp_when; intros _.
        * unfold inode_unlink. apply wp_modify. split.
          -- cbn [w_ino set_ino]. rewrite upd_same. cbn [i_dir with_nlink].
             apply Hdir.
          -- intros _ Hne Hval. cbn [w_ino set_ino].
             rewrite upd_other by (intros E; apply Hne; auto).
             rewrite upd_same. cbn [i_nlink with_nlink].
             rewrite Hsame3 by (rewrite Hoth; auto).
             rewrite Hoth by auto. reflexivity.
        * split.
          -- cbn [w_ino set_ino]. apply Hdir.
          -- intros _ Hne Hval. cbn [w_ino set_ino]. rewrite upd_same.
             cbn [i_nlink with_nlink].
             rewrite Hsame3 by (rewrite Hoth; auto).
             rewrite Hoth by auto. reflexivity.
    - cbv beta. intros _ w3 [Hd3 Hn3].
      apply wp_bind.
      eapply wp_mono; [apply dir_flush_entry_frame; auto | | auto | auto].
      + intros d0 Hd0. rewrite Hd3 in Hd0. inversion Hd0; subst d0.
        unfold lookup_info. rewrite Hl2. exact Ho.
      + cbv beta. intros _ w4 Hfr.
        apply wp_bind. unfold the_dir. apply wp_bind, wp_rd.
        rewrite (proj1 (Hfr dp)), Hd3. apply wp_ret.
        unfold dir_remove. rewrite Hl2. cbn [snd].
        apply wp_bind. unfold set_dir. apply wp_modify. apply wp_ret.
        unfold Q. split; [reflexivity |]. split.
        * exists (dir_remove_all d2 (strbuf name)). split; [| exact Hfinal].
          cbn [w_ino set_ino]. rewrite upd_same. reflexivity.
        * intros H1 H2 H3. cbn [w_ino set_ino].
          rewrite upd_other by (intros E; apply H2; auto).
          rewrite (proj2 (Hfr (1, inum))). apply Hn3; auto.
    - auto.
    - auto. }
  unfold wp, Q in H. destruct (dirunlink dp name inum dec_link trans w); auto.
Qed.

(** * Further properties of the journal and of the on-disk bitmap *)

(** ** The journal *)

Lemma commit_loop_app bs1 bs2 w :
  commit_loop (bs1 ++ bs2) w = (commit_loop bs1 ;; commit_loop bs2) w.
Proof.
  revert w; induction bs1 as [| b bs1 IH]; intros w; [reflexivity |].
  cbn [app commit_loop]. unfold bind, buf_dirty in *.
  destruct (w_dirty w (1, blocknum b)); cbn [when];
    unfold writeback, modify, ret; rewrite IH; reflexivity.
Qed.

Lemma flush_loop_app j1 j2 w :
  flush_loop (j1 ++ j2) w = (flush_loop j1 ;; flush_loop j2) w.
Proof.
  revert w; induction j1 as [| t j1 IH]; intros w; [reflexivity |].
  cbn [app flush_loop]. unfold bind in *.
  destruct (commit_transaction t w) as [u w1 | | |]; auto.
Qed.

Lemma flush_loop_flat j w :
  flush_loop j w = commit_loop (flat_map blocks j) w.
Proof.
  revert w; induction j as [| t j IH]; intros w; [reflexivity |].
  cbn [flush_loop flat_map]. rewrite commit_loop_app.
  unfold bind, commit_transaction.
  destruct (commit_loop (blocks t) w) as [u w1 | | |]; auto.
Qed.

Lemma commit_loop_clean bs w :
  (forall b, In b bs -> w_dirty w (1, blocknum b) = false) ->
  commit_loop bs w = Ret tt w.
Proof.
  induction bs as [| b bs IH]; intros H; [reflexivity |].
  cbn [commit_loop]. unfold bind at 1, buf_dirty.
  rewrite (H b (in_eq _ _)). cbn [when]. unfold bind, ret.
  apply IH. intros b' Hb'. apply H. apply in_cons; auto.
Qed.

Lemma existsb_flat_map {A B} (f : B -> bool) (g : A -> list B) l :
  existsb f (flat_map g l) = existsb (fun a => existsb f (g a)) l.
Proof.
  induction l as [| a l IH]; cbn; [reflexivity |].
  rewrite existsb_app, IH. reflexivity.
Qed.

(** X21.  [journal::flush_to_disk] commits the transactions of the log in
    the order in which [add_transaction] has appended them and leaves the
    log empty.  A block of device 1 is written to the disk once when its
    buffer is dirty and some transaction of the log names it (however
    many of them do), and not at all otherwise; the buffers that the log
    names are clean afterwards, and no buffer or inode changes. *)
Theorem flush_to_disk_writes_each_dirty_block_once (j : journal) w :
  let named k := existsb (fun t => existsb (fun b => blocknum b =? k) (blocks t)) j in
  (forall tr,
      flush_to_disk (add_transaction j tr) w
      = (flush_loop j ;; commit_transaction tr ;; ret []) w) /\
  exists w',
    flush_to_disk j w = Ret [] w' /\
    w_buf w' = w_buf w /\ w_ino w' = w_ino w /\
    (forall k,
        count_writes (1, k) (w_io w')
        = Nat.add (count_writes (1, k) (w_io w))
            (if w_dirty w (1, k) && named k then 1%nat else 0%nat)) /\
    (forall k, w_dirty w' (1, k) = w_dirty w (1, k) && negb (named k)).
Proof.
  intros named. split.
  - intros tr. unfold flush_to_disk, add_transaction, bind.
    rewrite flush_loop_app. unfold bind. cbn [flush_loop].
    destruct (flush_loop j w) as [u w1 | | |]; auto.
    unfold bind. destruct (commit_transaction tr w1); auto.
  - destruct (commit_loop_spec (flat_map blocks j) w)
      as (w' & Hrun & Hb & Hi & _ & Hc & Hd).
    exists w'. unfold flush_to_disk, bind. rewrite flush_loop_flat, Hrun.
    split; [reflexivity |]. split; [auto |]. split; [auto |].
    unfold named. split.
    + intros k. rewrite Hc, existsb_flat_map. reflexivity.
    + intros k. rewrite Hd, existsb_flat_map. reflexivity.
Qed.

(** X22.  [commit_transaction] is idempotent: after a commit every buffer
    that the transaction names is clean, so a second commit of the same
    transaction returns without a disk write and without any other
    change of the state. *)
Theorem commit_transaction_twice t w :
  exists w1,
    commit_transaction t w = Ret tt w1 /\
    commit_transaction t w1 = Ret tt w1.
Proof.
  destruct (commit_loop_spec (blocks t) w) as (w1 & Hrun & _ & _ & _ & _ & Hd).
  exists w1. split; [exact Hrun |].
  apply commit_loop_clean. intros b Hb. rewrite Hd.
  assert (E : existsb (fun b0 => blocknum b0 =? blocknum b) (blocks t) = true).
  { apply existsb_exists. exists b. split; [auto | apply Z.eqb_refl]. }
  rewrite E. apply andb_false_r.
Qed.

(** ** Marking and unmarking on disk *)

Lemma balloc_free_on_disk_run blocks alloc w :
  bitmap_ok w -> Forall is_u32 blocks -> markable alloc w blocks ->
  exists w', balloc_free_on_disk blocks TRANS alloc w = Ret (sort blocks) w' /\
             marked alloc blocks w w'.
Proof.
  intros Hok Hu Hm.
  pose proof (sort_perm blocks) as Hp.
  assert (Hu' : Forall is_u32 (sort blocks)).
  { apply Forall_forall. intros x Hx. rewrite Forall_forall in Hu.
    apply Hu. apply (Permutation_in _ (Permutation_sym Hp) Hx). }
  pose proof (bitmap_groups_spec alloc (List.length (sort blocks))
                (sort blocks) w Hok (sort_sorted blocks) Hu' (le_n _)) as H.
  unfold balloc_free_on_disk, bind.
  destruct (bitmap_groups _ (sort blocks) TRANS alloc w) as [u w' | | |];
    try contradiction.
  - destruct H as [_ Hmk]. exists w'. split; [reflexivity |].
    apply (marked_perm alloc w w' _ _ (Permutation_sym Hp) Hmk).
  - exfalso. apply H. apply (markable_perm alloc w _ _ Hp Hm).
Qed.

Lemma sort_sorted_id l : StronglySorted Z.le l -> sort l = l.
Proof.
  induction 1 as [| x l Hs IH Hx]; [reflexivity |].
  change (sort (x :: l)) with (insert_sorted x (sort l)).
  rewrite IH. destruct l as [| y l']; [reflexivity |].
  cbn. inversion Hx; subst. destruct (Z.leb_spec x y); [reflexivity | lia].
Qed.

(** X23.  Marking a list of blocks allocated in the on-disk bitmap and then
    marking the same list free is a round trip: both calls return, the
    second finds the vector as the first has sorted it and leaves it so,
    and every bit of the bitmap is what it was; the inodes and the buffers
    that are not bitmap blocks of a listed block are untouched.  The list
    holds [u32] numbers of blocks whose bits are clear, none twice. *)
Theorem balloc_free_on_disk_round_trip blocks w :
  bitmap_ok w -> Forall is_u32 blocks -> markable true w blocks ->
  exists w1 w2,
    balloc_free_on_disk blocks TRANS true w = Ret (sort blocks) w1 /\
    balloc_free_on_disk (sort blocks) TRANS false w1 = Ret (sort blocks) w2 /\
    (forall b, In b blocks -> bitmap_bit w1 b = true) /\
    (forall b, bitmap_bit w2 b = bitmap_bit w b) /\
    w_ino w2 = w_ino w /\ w_sb w2 = w_sb w /\
    (forall k, (forall b, In b blocks ->
                          k <> (1, BBLOCK b (sb_ninodes (w_sb w)))) ->
               w_buf w2 k = w_buf w k).
Proof.
  intros Hok Hu Hm.
  pose proof (sort_perm blocks) as Hp.
  destruct (balloc_free_on_disk_run blocks true w Hok Hu Hm)
    as (w1 & Hrun1 & M1).
  assert (Hok1 : bitmap_ok w1).
  { unfold bitmap_ok in *. rewrite (mk_sb_same _ _ _ _ M1). exact Hok. }
  assert (Hu' : Forall is_u32 (sort blocks)).
  { apply Forall_forall. intros x Hx. rewrite Forall_forall in Hu.
    apply Hu. apply (Permutation_in _ (Permutation_sym Hp) Hx). }
  assert (Hin : forall b, In b blocks -> existsb (Z.eqb b) blocks = true).
  { intros b Hb. apply existsb_exists. exists b. split; [auto | apply Z.eqb_refl]. }
  assert (Hm1 : markable false w1 (sort blocks)).
  { apply (markable_perm false w1 _ _ Hp). split; [apply Hm |].
    intros b Hb. rewrite (mk_bits _ _ _ _ M1), (Hin b Hb). reflexivity. }
  destruct (balloc_free_on_disk_run (sort blocks) false w1 Hok1 Hu' Hm1)
    as (w2 & Hrun2 & M2).
  rewrite (sort_sorted_id (sort blocks)) in Hrun2 by apply sort_sorted.
  apply (marked_perm false w1 w2 _ _ (Permutation_sym Hp)) in M2.
  exists w1, w2. split; [exact Hrun1 |]. split; [exact Hrun2 |].
  split; [| split; [| split; [| split]]].
  - intros b Hb. rewrite (mk_bits _ _ _ _ M1), (Hin b Hb). reflexivity.
  - intros b. rewrite (mk_bits _ _ _ _ M2), (mk_bits _ _ _ _ M1).
    destruct (existsb (Z.eqb b) blocks) eqn:E; [| reflexivity].
    apply existsb_exists in E. destruct E as (x & Hx & Ex).
    apply Z.eqb_eq in Ex. subst x. symmetry. apply (proj2 Hm b Hx).
  - rewrite (mk_ino _ _ _ _ M2). apply (mk_ino _ _ _ _ M1).
  - rewrite (mk_sb_same _ _ _ _ M2). apply (mk_sb_same _ _ _ _ M1).
  - intros k Hk. rewrite (mk_other _ _ _ _ M2), (mk_other _ _ _ _ M1); auto.
    rewrite (mk_sb_same _ _ _ _ M1). exact Hk.
Qed.

(** * Inode locks and inode allocation *)

(** ** ilock and iunlock *)

Lemma int_small x : - 2 ^ 31 <= x < 2 ^ 31 -> to_int (u32 x) = x.
Proof.
  intros H. unfold to_int, u32.
  change (2 ^ 31) with 2147483648 in *. change (2 ^ 32) with 4294967296.
  destruct (Z_lt_ge_dec x 0) as [L | G].
  - assert (E : x mod 4294967296 = x + 4294967296).
    { symmetry. apply (Z.mod_unique _ _ (-1)); lia. }
    rewrite E. destruct (Z.ltb_spec (x + 4294967296) 2147483648); lia.
  - rewrite Z.mod_small by lia. destruct (Z.ltb_spec x 2147483648); lia.
Qed.

Lemma ilock_returns ip lt w :
  i_valid (w_ino w ip) = true -> i_busy (w_ino w ip) = false ->
  (lt = WRITELOCK -> i_readbusy (w_ino w ip) = 0) ->
  exists w1,
    ilock ip lt w = Ret tt w1 /\
    w_ino w1 ip
    = with_lock (w_ino w ip)
        match lt with WRITELOCK => true | READLOCK => false end
        (to_int (u32 (i_readbusy (w_ino w ip) + 1))) /\
    (forall k, k <> ip -> w_ino w1 k = w_ino w k) /\
    w_buf w1 = w_buf w /\ w_dirty w1 = w_dirty w /\ w_io w1 = w_io w /\
    w_free w1 = w_free w /\ w_trans w1 = w_trans w /\ w_sb w1 = w_sb w.
Proof.
  intros Hv Hb Hw.
  destruct (ilock ip lt w) as [u w1 | w1 | |] eqn:E;
    unfold ilock, bind, rd in E; rewrite Hb in E; destruct lt;
    try rewrite (Hw eq_refl) in E; cbn [orb negb Z.eqb] in E;
    unfold ret, modify in E; cbn [w_ino set_ino] in E;
    rewrite ?upd_same in E; cbn [i_valid with_lock] in E;
    rewrite Hv in E; cbn [negb] in E; try discriminate E;
    inversion E; subst w1; destruct u;
    (eexists; split; [reflexivity |]); cbn [w_ino set_ino]; rewrite ?upd_same;
    (split; [rewrite ?Hb; reflexivity |]);
    (split; [intros k Hk; rewrite ?upd_other by auto; reflexivity
            | repeat split; reflexivity]).
Qed.

Lemma iunlock_returns ip w :
  i_busy (w_ino w ip) = true \/ i_readbusy (w_ino w ip) <> 0 ->
  iunlock ip w
  = Ret tt (set_ino w ip
              (with_lock (w_ino w ip) false
                 (to_int (u32 (i_readbusy (w_ino w ip) - 1))))).
Proof.
  intros H. unfold iunlock, bind, rd.
  destruct (Z.eqb_spec (i_readbusy (w_ino w ip)) 0) as [E | N];
    destruct (i_busy (w_ino w ip)); cbn [andb negb]; try reflexivity.
  destruct H; [discriminate | contradiction].
Qed.


(** X24.  [ilock] followed by [iunlock] is a round trip.  On an inode of
    the cache that no writer holds, and for a write lock that no reader
    holds either, [ilock] returns with one more holder counted in
    [readbusy] and with [busy] set exactly for a write lock; [iunlock]
    then returns and every inode is as it was before the lock.  The count
    of holders fits an [int]. *)
Theorem ilock_iunlock_round_trip ip lt w :
  i_valid (w_ino w ip) = true -> i_busy (w_ino w ip) = false ->
  0 <= i_readbusy (w_ino w ip) < 2 ^ 31 - 1 ->
  (lt = WRITELOCK -> i_readbusy (w_ino w ip) = 0) ->
  exists w1 w2,
    ilock ip lt w = Ret tt w1 /\
    i_busy (w_ino w1 ip)
    = match lt with WRITELOCK => true | READLOCK => false end /\
    i_readbusy (w_ino w1 ip) = i_readbusy (w_ino w ip) + 1 /\
    iunlock ip w1 = Ret tt w2 /\
    (forall k, w_ino w2 k = w_ino w k) /\
    w_buf w2 = w_buf w /\ w_dirty w2 = w_dirty w /\ w_io w2 = w_io w /\
    w_free w2 = w_free w /\ w_trans w2 = w_trans w /\ w_sb w2 = w_sb w.
Proof.
  intros Hv Hb Hr Hw.
  assert (E1 : to_int (u32 (i_readbusy (w_ino w ip) + 1))
               = i_readbusy (w_ino w ip) + 1) by (apply int_small; lia).
  assert (E2 : to_int (u32 (i_readbusy (w_ino w ip) + 1 - 1))
               = i_readbusy (w_ino w ip)).
  { replace (i_readbusy (w_ino w ip) + 1 - 1) with (i_readbusy (w_ino w ip))
      by lia. apply int_small; lia. }
  destruct (ilock_returns ip lt w Hv Hb Hw)
    as (w1 & Hrun & Hip & Hoth & Hbuf & Hdirty & Hio & Hfree & Htr & Hsb).
  rewrite E1 in Hip.
  exists w1. eexists. split; [exact Hrun |].
  split; [rewrite Hip; reflexivity |]. split; [rewrite Hip; reflexivity |].
  split.
  - apply iunlock_returns. right. rewrite Hip. cbn. lia.
  - cbn [w_ino set_ino w_buf w_dirty w_io w_free w_trans w_sb].
    split; [| repeat split; assumption].
    intros k. unfold upd. destruct (key_eqb ip k) eqn:E; [| apply Hoth].
    + apply key_eqb_eq in E. subst k. rewrite Hip.
      cbn [i_readbusy with_lock]. rewrite E2.
      destruct (w_ino w ip); cbn in *. subst. reflexivity.
    + intros Ek. subst k. rewrite key_eqb_refl in E. discriminate.
Qed.

Lemma ilock_inv ip lt w w1 :
  ilock ip lt w = Ret tt w1 ->
  i_valid (w_ino w ip) = true /\ i_busy (w_ino w ip) = false /\
  (lt = WRITELOCK -> i_readbusy (w_ino w ip) = 0).
Proof.
  unfold ilock, bind, rd. intros E.
  destruct (i_busy (w_ino w ip)) eqn:Hb; [destruct lt; discriminate E |].
  destruct lt; cbn [orb] in E.
  - unfold ret, modify in E. cbn [w_ino set_ino] in E. rewrite upd_same in E.
    cbn [i_valid with_lock] in E.
    destruct (i_valid (w_ino w ip)); [| discriminate E].
    repeat split; auto. discriminate.
  - destruct (Z.eqb_spec (i_readbusy (w_ino w ip)) 0) as [E0 | N0];
      cbn [negb] in E; [| discriminate E].
    unfold ret, modify in E. cbn [w_ino set_ino] in E. rewrite !upd_same in E.
    cbn [i_valid with_lock] in E.
    destruct (i_valid (w_ino w ip)); [| discriminate E].
    repeat split; auto.
Qed.

Lemma ilock_blocks ip lt w :
  i_busy (w_ino w ip) = true \/
  (lt = WRITELOCK /\ i_readbusy (w_ino w ip) <> 0) ->
  ilock ip lt w = Timeout.
Proof.
  intros H. unfold ilock, bind, rd.
  destruct H as [Hb | [-> Hr]].
  - rewrite Hb. destruct lt; reflexivity.
  - destruct (Z.eqb_spec (i_readbusy (w_ino w ip)) 0); [contradiction |].
    rewrite orb_true_r. reflexivity.
Qed.

(** X25.  The lock of an inode excludes.  Once [ilock] has returned with
    the write lock, no further [ilock] of the inode returns, for read or
    for write, and once it has returned with a read lock, an [ilock] for
    write does not return while an [ilock] for read does.  [iunlock] of an
    inode that nobody holds halts the kernel, and so does an [ilock] that
    gets hold of an inode that is not in the cache. *)
Theorem ilock_excludes ip w :
  (forall lt w1, ilock ip WRITELOCK w = Ret tt w1 -> ilock ip lt w1 = Timeout) /\
  (forall w1, 0 <= i_readbusy (w_ino w ip) < 2 ^ 31 - 1 ->
              ilock ip READLOCK w = Ret tt w1 ->
              ilock ip WRITELOCK w1 = Timeout /\
              exists w2, ilock ip READLOCK w1 = Ret tt w2) /\
  (i_busy (w_ino w ip) = false -> i_readbusy (w_ino w ip) = 0 ->
   iunlock ip w = Panic) /\
  (i_valid (w_ino w ip) = false ->
   forall lt, ilock ip lt w = Panic \/ ilock ip lt w = Timeout).
Proof.
  split; [| split; [| split]].
  - intros lt w1 Hrun.
    destruct (ilock_inv ip WRITELOCK w w1 Hrun) as (Hv & Hb & Hr).
    destruct (ilock_returns ip WRITELOCK w Hv Hb Hr) as (w1' & Hrun' & Hip & _).
    rewrite Hrun in Hrun'. inversion Hrun'; subst w1'.
    apply ilock_blocks. left. rewrite Hip. reflexivity.
  - intros w1 Hrb Hrun.
    destruct (ilock_inv ip READLOCK w w1 Hrun) as (Hv & Hb & Hr).
    destruct (ilock_returns ip READLOCK w Hv Hb Hr) as (w1' & Hrun' & Hip & _).
    rewrite Hrun in Hrun'. inversion Hrun'; subst w1'.
    rewrite int_small in Hip by lia. split.
    + apply ilock_blocks. right. split; [reflexivity |]. rewrite Hip. cbn. lia.
    + destruct (ilock_returns ip READLOCK w1) as (w2 & Hrun2 & _).
      * rewrite Hip. exact Hv.
      * rewrite Hip. reflexivity.
      * discriminate.
      * exists w2. exact Hrun2.
  - intros Hb Hr. unfold iunlock, bind, rd. rewrite Hb, Hr. reflexivity.
  - intros Hv lt. unfold ilock, bind, rd.
    destruct (i_busy (w_ino w ip)) eqn:Hb; [right; destruct lt; reflexivity |].
    destruct lt; cbn [orb].
    + left. unfold ret, modify. cbn [w_ino set_ino]. rewrite upd_same.
      cbn [i_valid with_lock]. rewrite Hv. reflexivity.
    + destruct (Z.eqb_spec (i_readbusy (w_ino w ip)) 0); cbn [negb];
        [left | right; reflexivity].
      unfold ret, modify. cbn [w_ino set_ino]. rewrite !upd_same.
      cbn [i_valid with_lock]. rewrite Hv. reflexivity.
Qed.

(** ** try_ialloc and ialloc *)









(** * What itrunc leaves alone *)

Lemma wp_chain {A B} (m : M A) (k : A -> M B) (R : world -> world -> Prop) w :
  (forall w1 w2 w3, R w1 w2 -> R w2 w3 -> R w1 w3) ->
  wp m (fun _ w' => R w w') (fun _ => False) True w ->
  (forall a w1, wp (k a) (fun _ w' => R w1 w') (fun _ => False) True w1) ->
  wp (bind m k) (fun _ w' => R w w') (fun _ => False) True w.
Proof.
  intros Ht Hm Hk. apply wp_bind.
  eapply wp_mono; [exact Hm | | auto | auto].
  intros a w1 H1. cbv beta.
  eapply wp_mono; [apply Hk | | auto | auto]; cbv beta.
  intros _ w2 H2. exact (Ht w w1 w2 H1 H2).
Qed.

Lemma trunc_frame_refl ip w : trunc_frame ip w w.
Proof.
  repeat split; auto.
  - exists (i_addrs (w_ino w ip)), (i_size (w_ino w ip)).
    destruct (w_ino w ip); reflexivity.
  - exists []. symmetry. apply app_nil_r.
Qed.

Lemma trunc_frame_trans ip w1 w2 w3 :
  trunc_frame ip w1 w2 -> trunc_frame ip w2 w3 -> trunc_frame ip w1 w3.
Proof.
  intros (F1 & I1 & S1 & O1 & (a1 & s1 & E1) & A1 & (l1 & L1))
         (F2 & I2 & S2 & O2 & (a2 & s2 & E2) & A2 & (l2 & L2)).
  split; [congruence |]. split; [congruence |]. split; [congruence |].
  split; [intros k Hk; rewrite O2, O1; auto |].
  split; [| split; [congruence |]].
  - exists a2, s2. rewrite E2, E1. reflexivity.
  - exists (l1 ++ l2). rewrite L2, L1, app_assoc. reflexivity.
Qed.

(** The steps of [itrunc]. *)
Lemma bfree_delayed_frame ip dev x trans w :
  wp (bfree dev x trans true) (fun _ w' => trunc_frame ip w w')
    (fun _ => False) True w.
Proof.
  unfold bfree. cbn [negb when]. destruct (dev =? 1);
    [| apply wp_ret, trunc_frame_refl].
  apply wp_bind, wp_ret. destruct trans; cbn [is_trans when];
    [apply wp_ret, trunc_frame_refl |].
  apply wp_modify. pose proof (trunc_frame_refl ip w) as (F & I & S & O & E & A & _).
  repeat split; auto. cbn. eexists. reflexivity.
Qed.

Lemma set_addr_frame ip k v w :
  wp (set_addr ip k v) (fun _ w' => trunc_frame ip w w') (fun _ => False) True w.
Proof.
  unfold set_addr. apply wp_modify.
  repeat split; auto.
  - intros k' Hk. cbn. apply upd_other. auto.
  - cbn. rewrite upd_same.
    exists (updz (i_addrs (w_ino w ip)) k v), (i_size (w_ino w ip)).
    destruct (w_ino w ip); reflexivity.
  - exists []. symmetry. apply app_nil_r.
Qed.

Lemma wr_u32_frame ip bp k v w :
  wp (wr_u32 bp k v) (fun _ w' => trunc_frame ip w w') (fun _ => False) True w.
Proof.
  unfold wr_u32, wp. pose proof (trunc_frame_refl ip w) as (F & I & S & O & E & A & L).
  repeat split; auto.
Qed.

Lemma add_to_transaction_frame ip bp trans w :
  wp (add_to_transaction bp trans) (fun _ w' => trunc_frame ip w w')
    (fun _ => False) True w.
Proof.
  destruct trans; [exact I |]. unfold add_to_transaction. apply wp_modify.
  pose proof (trunc_frame_refl ip w) as (F & I & S & O & E & A & L).
  repeat split; auto.
Qed.

Lemma trunc_direct_frame ip trans : forall count i w,
  wp (trunc_direct count ip i trans) (fun _ w' => trunc_frame ip w w')
    (fun _ => False) True w.
Proof.
  induction count as [| count IH]; intros i w; cbn [trunc_direct];
    [apply wp_ret, trunc_frame_refl |].
  apply wp_bind, wp_rd.
  destruct (_ =? 0); [apply wp_ret, trunc_frame_refl |].
  apply wp_chain; [apply trunc_frame_trans | apply bfree_delayed_frame |].
  intros _ w1.
  apply wp_chain; [apply trunc_frame_trans | apply set_addr_frame |].
  intros _ w2. apply IH.
Qed.

Lemma trunc_entries_frame ip bp trans : forall count i w,
  wp (trunc_entries count bp i trans) (fun _ w' => trunc_frame ip w w')
    (fun _ => False) True w.
Proof.
  induction count as [| count IH]; intros i w; cbn [trunc_entries];
    [apply wp_ret, trunc_frame_refl |].
  apply wp_bind. unfold rd_u32 at 1, wp at 1.
  destruct (_ =? 0); [apply wp_ret, trunc_frame_refl |].
  apply wp_chain; [apply trunc_frame_trans | apply bfree_delayed_frame |].
  intros _ w1.
  apply wp_chain; [apply trunc_frame_trans | apply wr_u32_frame |].
  intros _ w2. apply IH.
Qed.

Lemma free_and_clear_frame ip k trans w :
  wp (ino <- rd ip ;;
      bfree (fst ip) (i_addrs ino k) trans true ;;
      set_addr ip k 0)
    (fun _ w' => trunc_frame ip w w') (fun _ => False) True w.
Proof.
  apply wp_bind, wp_rd.
  apply wp_chain; [apply trunc_frame_trans | apply bfree_delayed_frame |].
  intros _ w1. apply set_addr_frame.
Qed.

Lemma when_frame ip c (m : M unit) w :
  (forall w1, wp m (fun _ w' => trunc_frame ip w1 w') (fun _ => False) True w1) ->
  wp (when c m) (fun _ w' => trunc_frame ip w w') (fun _ => False) True w.
Proof.
  intros H. destruct c; [apply H | apply wp_ret, trunc_frame_refl].
Qed.

Lemma trunc_indirect_frame ip start trans w :
  wp (trunc_indirect ip start trans) (fun _ w' => trunc_frame ip w w')
    (fun _ => False) True w.
Proof.
  unfold trunc_indirect. apply wp_bind, wp_rd.
  destruct (_ =? 0); [apply wp_ret, trunc_frame_refl |]. cbv zeta.
  apply wp_chain; [apply trunc_frame_trans | apply trunc_entries_frame |].
  intros _ w1.
  apply wp_chain; [apply trunc_frame_trans | |].
  { apply when_frame. intros; apply add_to_transaction_frame. }
  intros _ w2.
  apply wp_chain; [apply trunc_frame_trans | |].
  { apply when_frame. intros; apply free_and_clear_frame. }
  intros _ w3. apply wp_ret, trunc_frame_refl.
Qed.

Lemma trunc_dbl_loop_frame ip bp1 trans : forall count i begin w,
  wp (trunc_dbl_loop count ip bp1 i begin trans)
    (fun _ w' => trunc_frame ip w w') (fun _ => False) True w.
Proof.
  induction count as [| count IH]; intros i begin w; cbn [trunc_dbl_loop];
    [apply wp_ret, trunc_frame_refl |].
  apply wp_bind. unfold rd_u32 at 1, wp at 1.
  destruct (_ =? 0); [apply wp_ret, trunc_frame_refl |]. cbv zeta.
  apply wp_chain; [apply trunc_frame_trans | apply trunc_entries_frame |].
  intros _ w1. apply wp_bind. unfold rd_u32 at 1, wp at 1.
  apply wp_chain; [apply trunc_frame_trans | |].
  { apply when_frame. intros; apply add_to_transaction_frame. }
  intros _ w2.
  apply wp_chain; [apply trunc_frame_trans | |].
  { apply when_frame. intros w3. apply wp_bind. unfold rd_u32 at 1, wp at 1.
    apply wp_chain; [apply trunc_frame_trans | apply bfree_delayed_frame |].
    intros _ w4. apply wr_u32_frame. }
  intros _ w3. apply IH.
Qed.

Lemma trunc_dbl_frame ip start trans w :
  wp (trunc_dbl ip start trans) (fun _ w' => trunc_frame ip w w')
    (fun _ => False) True w.
Proof.
  unfold trunc_dbl. apply wp_bind, wp_rd.
  destruct (_ =? 0); [apply wp_ret, trunc_frame_refl |]. cbv zeta.
  apply wp_chain; [apply trunc_frame_trans | apply trunc_dbl_loop_frame |].
  intros _ w1.
  apply wp_chain; [apply trunc_frame_trans | |].
  { apply when_frame. intros; apply add_to_transaction_frame. }
  intros _ w2. apply when_frame. intros; apply free_and_clear_frame.
Qed.

(** X27.  [itrunc] frees nothing at once.  It always comes to an end, by a
    return or by a halt of the kernel, and when it returns the in-memory
    bitmap is what it was: every block that it drops is only added to the
    transaction's list of blocks to free, to the end of what the list
    held.  It issues no disk write, leaves the superblock and the list of
    allocated blocks alone, and changes no inode but [ip], of which it
    changes the block map and the size only. *)
Theorem itrunc_frees_nothing_at_once ip offset trans w :
  match itrunc ip offset trans w with
  | Ret _ w' =>
      w_free w' = w_free w /\ w_io w' = w_io w /\ w_sb w' = w_sb w /\
      (forall k, k <> ip -> w_ino w' k = w_ino w k) /\
      (exists a s, w_ino w' ip = with_size (with_addrs (w_ino w ip) a) s) /\
      allocated_blocks (w_trans w') = allocated_blocks (w_trans w) /\
      (exists l, free_blocks (w_trans w') = free_blocks (w_trans w) ++ l)
  | Throw _ => False
  | Panic => True
  | Timeout => False
  end.
Proof.
  assert (H : wp (itrunc ip offset trans) (fun _ w' => trunc_frame ip w w')
                (fun _ => False) True w).
  { unfold itrunc. apply wp_bind, wp_rd.
    destruct (_ || _); [apply wp_ret, trunc_frame_refl |]. cbv zeta.
    destruct (if BLOCKROUNDUP offset <? NDIRECT then _ else _)
      as [start_stage start_index].
    apply wp_chain; [apply trunc_frame_trans | |].
    - unfold itrunc_switch. destruct start_stage.
      + apply wp_chain; [apply trunc_frame_trans | apply trunc_direct_frame |].
        intros _ w1.
        apply wp_chain; [apply trunc_frame_trans | apply trunc_indirect_frame |].
        intros [|] w2; [apply trunc_dbl_frame | apply wp_ret, trunc_frame_refl].
      + apply wp_chain; [apply trunc_frame_trans | apply trunc_indirect_frame |].
        intros [|] w2; [apply trunc_dbl_frame | apply wp_ret, trunc_frame_refl].
      + apply trunc_dbl_frame.
    - intros _ w1. apply wp_bind, wp_rd.
      destruct (_ && _); [exact I |].
      unfold set_size. apply wp_modify.
      repeat split; auto.
      + intros k Hk. cbn. apply upd_other. auto.
      + cbn. rewrite upd_same. exists (i_addrs (w_ino w1 ip)), offset.
        destruct (w_ino w1 ip); reflexivity.
      + exists []. symmetry. apply app_nil_r. }
  unfold wp, trunc_frame in H. destruct (itrunc ip offset trans w); auto.
Qed.

(** * What dir_flush_entry leaves in the directory file *)

Lemma fresh_map_refl ip w : fresh_map ip w w.
Proof. split; auto. Qed.

Lemma ext_fresh_map ip trans z w0 w w1 :
  fresh_map ip w0 w -> ext ip trans z w w1 -> fresh_map ip w0 w1.
Proof.
  intros [Hf Hv] He. split.
  - intros b Hb. apply Hf. apply (ext_free ip trans z w w1 He). exact Hb.
  - intros s Hs Hnz. destruct (Z.eq_dec (val w ip s) 0) as [E | N].
    + right. apply Hf. apply (ext_fresh ip trans z w w1 He); auto.
    + rewrite (ext_val ip trans z w w1 He) in Hnz |- * by auto.
      apply Hv; auto.
Qed.

Lemma writei_round_fresh ip src off0 n trans wb w0 tot w :
  params_ok -> is_u32 n -> 0 <= off0 -> off0 + n < 2 ^ 32 ->
  off0 + n <= MAXFILE * BSIZE -> 0 <= tot < n ->
  wf w ip -> fresh_map ip w0 w ->
  wp (writei_round ip src tot tot (off0 + tot) n trans wb)
    (fun _ w' => fresh_map ip w0 w') (fun _ => False) False w.
Proof.
  intros Hp Hn Ho Hsum Hmax Ht Hwf Hfm.
  assert (Hp' := Hp). destruct Hp' as (HB & HD & HI & _).
  assert (Hot : 0 <= off0 + tot) by lia.
  destruct (round_len n tot (off0 + tot) Hp Hn Ht Hot) as [Hm Hmb].
  set (m := Z.min (n - tot) (BSIZE - (off0 + tot) mod BSIZE)) in *.
  set (bn := (off0 + tot) / BSIZE) in *.
  assert (Hbr : 0 <= bn < MAXFILE /\ is_u32 bn).
  { destruct (block_of_offset (off0 + tot) Hp) as [H | H]; auto; lia. }
  destruct Hbr as [Hbn Hbu].
  assert (Hl : slot_ok (leaf bn)) by (apply leaf_ok; auto).
  unfold writei_round. rewrite Hm.
  apply wp_bind, wp_catch, wp_bind.
  eapply wp_mono; [apply (bmap_spec ip bn trans _ w Hp Hwf Hbn Hbu) | | | auto];
    cbv beta.
  - intros p w1 (Hp1 & Hpnz & Hwf1 & Hext & _ & _). apply wp_ret.
    destruct (ext_fresh_map ip trans _ w0 w w1 Hfm Hext) as [Hf1 Hv1].
    assert (Hfin : forall w3,
               w_ino w3 = w_ino w1 -> w_free w3 = w_free w1 ->
               w_buf w3 = upd (w_buf w1) (fst ip, p)
                            (memmove (w_buf w1 (fst ip, p))
                               ((off0 + tot) mod BSIZE) src tot m) ->
               fresh_map ip w0 w3).
    { intros w3 Hi3 Hf3 Hb3. rewrite Hp1 in Hb3, Hpnz.
      pose proof (val_data_write ip w1 w3 (leaf bn) _ Hwf1 Hl (leaf_is_leaf bn)
                    Hpnz Hi3 Hb3) as Hv3.
      split.
      - intros b. rewrite Hf3. apply Hf1.
      - intros s Hs. rewrite Hv3 by auto. apply Hv1; auto. }
    unfold wp, bind, buf_data, buf_store, when, add_to_transaction, writeback_async,
      writeback, modify, ret.
    destruct trans, wb; cbn; apply Hfin; reflexivity.
  - intros w1 (Hwf1 & Hext & _ & H0). apply wp_ret, wp_ret.
    apply (ext_fresh_map ip trans _ w0 w w1 Hfm Hext).
Qed.

(** A [writei] that stays below [MAXFILE*BSIZE] either writes all of its
    [n] bytes, into the blocks the file had and into blocks that were
    free, or it returns another count, having found a block of the range
    unmapped. *)
Lemma writei_whole ip src off n trans wb w :
  params_ok -> wf w ip -> is_u32 off -> 0 <= n < 2 ^ 31 ->
  off + n < 2 ^ 32 -> off + n <= MAXFILE * BSIZE ->
  i_type (w_ino w ip) <> T_DEV ->
  wp (writei ip src off n trans wb)
    (fun r w' =>
       (r = n /\ winv ip src off w n w' /\ fresh_map ip w w') \/
       (r <> n /\
        exists t, 0 <= t < n /\ val w ip (leaf ((off + t) / BSIZE)) = 0))
    (fun _ => False) False w.
Proof.
  intros Hp Hwf Ho Hn Hsum Hmax Hty.
  assert (Hnu : is_u32 n) by pow_lia.
  unfold writei. apply wp_bind, wp_rd. rewrite (itype_eqb_neq _ _ Hty).
  rewrite (u32_small (off + n)) by pow_lia.
  destruct (Z.ltb_spec (off + n) off); [lia |].
  destruct (Z.gtb_spec (off + n) (MAXFILE * BSIZE)); [lia |].
  apply wp_bind. replace off with (off + 0) at 1 by lia.
  eapply wp_mono;
    [apply (writei_loop_rule ip src off n trans wb
              (fun tot w' => winv ip src off w tot w' /\ fresh_map ip w w')
              (fun tot w' => val w ip (leaf ((off + tot) / BSIZE)) = 0)
              False);
     auto; try pow_lia | | auto | auto].
  - intros tot w1 Ht [HI Hfm].
    eapply wp_mono;
      [apply wp_conj;
       [apply (writei_round_content ip src off n trans wb w tot w1);
        auto; pow_lia
       | apply (writei_round_fresh ip src off n trans wb w tot w1);
         auto; try pow_lia; apply HI] | | |]; cbv beta.
    + intros [m |] w2 [H1 H2].
      * destruct H1 as [Hm HI2]. split; [exact Hm |]. split; assumption.
      * apply H1.
    + intros w2 [F _]. exact F.
    + intros [F _]. exact F.
  - split; [apply winv_start; auto | apply fresh_map_refl].
  - cbv beta. intros r w1 Hr. apply wp_ret.
    destruct Hr as [[-> [HI Hfm]] | (t & Ht & -> & Hz)].
    + left. rewrite to_int_small by lia. auto.
    + right. split; [| exists t; auto].
      destruct (Z.eqb_spec t 0);
        [rewrite to_int_minus_one; lia | rewrite to_int_small by lia; lia].
Qed.

(** A store into a buffer that holds no block of the map of [ip] leaves
    the map and the bytes of the file as they are. *)
Lemma val_buf_other ip w w' kb d :
  i_addrs (w_ino w' ip) = i_addrs (w_ino w ip) ->
  w_buf w' = upd (w_buf w) kb d ->
  (forall s, slot_ok s -> val w ip s <> 0 -> (fst ip, val w ip s) <> kb) ->
  forall s, slot_ok s -> val w' ip s = val w ip s.
Proof.
  intros Hino Hbuf Hkb.
  assert (Hmeta : forall sm idx, slot_ok sm ->
            rdent w' (fst ip) (val w ip sm) idx = rdent w (fst ip) (val w ip sm) idx).
  { intros sm idx Hsm. apply rdent_same. intros Hm.
    rewrite Hbuf. apply upd_other. intros Heq. apply (Hkb sm); auto. }
  assert (H1 : forall i, 0 <= i < NINDIRECT -> val w' ip (SL1 i) = val w ip (SL1 i)).
  { intros i Hi. change (rdent w' (fst ip) (val w' ip SDbl) i
                        = rdent w (fst ip) (val w ip SDbl) i).
    replace (val w' ip SDbl) with (val w ip SDbl) by (simpl; rewrite Hino; auto).
    apply (Hmeta SDbl); simpl; auto. }
  intros s Hs. destruct s as [i | | j | | i | i j].
  - simpl; rewrite Hino; auto.
  - simpl; rewrite Hino; auto.
  - simpl; rewrite Hino. apply (Hmeta SInd); simpl; auto.
  - simpl; rewrite Hino; auto.
  - apply H1. exact Hs.
  - change (rdent w' (fst ip) (val w' ip (SL1 i)) j
            = rdent w (fst ip) (val w ip (SL1 i)) j).
    rewrite H1 by apply Hs. apply (Hmeta (SL1 i)). apply Hs.
Qed.

Lemma file_byte_buf_other ip w w' kb d x :
  i_addrs (w_ino w' ip) = i_addrs (w_ino w ip) ->
  w_buf w' = upd (w_buf w) kb d ->
  (forall s, slot_ok s -> val w ip s <> 0 -> (fst ip, val w ip s) <> kb) ->
  slot_ok (leaf (x / BSIZE)) ->
  file_byte w' ip x = file_byte w ip x.
Proof.
  intros Hino Hbuf Hkb Hx. unfold file_byte.
  rewrite (val_buf_other ip w w' kb d Hino Hbuf Hkb) by auto.
  destruct (Z.eqb_spec (val w ip (leaf (x / BSIZE))) 0) as [E | N]; auto.
  rewrite Hbuf, upd_other; auto.
  intros Heq. apply (Hkb _ Hx N). symmetry. exact Heq.
Qed.

Lemma iupdate_spec ip trans w :
  wp (iupdate ip trans) (fun _ w' => iupdate_post ip w w') (fun _ => False)
    False w.
Proof.
  unfold iupdate, wp, bind, rd, buf_data, buf_store, when, add_to_transaction,
    modify, ret, iupdate_post.
  destruct trans; cbn [is_trans]; repeat split.
Qed.

(** X28.  [dir_flush_entry] writes the entry of the index into the
    directory file: when it returns, the [sizeof(struct dirent)] bytes of
    the file at the entry's offset are the inode number and the name of
    the entry, the size of the directory covers them (and is otherwise
    what it was), the index is untouched, the block map is still
    consistent, and the inode-table block holds the record that [iupdate]
    has made of the inode as it is now.  It never throws; it panics only
    when a block of the entry's range was unmapped (and could then not be
    allocated).  The inode-table block of [dp] is in use and is no block
    of the directory file. *)
Theorem dir_flush_entry_writes_the_entry dp name trans w d e :
  params_ok -> wf w dp -> i_type (w_ino w dp) <> T_DEV ->
  i_dir (w_ino w dp) = Some d -> dir_lookup d (strbuf name) = Some e ->
  0 <= DIRSIZ < 2 ^ 31 - 4 ->
  is_u32 (offset_ e) -> offset_ e + DIRENT_SIZE < 2 ^ 32 ->
  offset_ e + DIRENT_SIZE <= MAXFILE * BSIZE ->
  is_free (w_free w) (IBLOCK (snd dp)) = false ->
  (forall s, slot_ok s -> val w dp s <> IBLOCK (snd dp)) ->
  match dir_flush_entry dp name trans w with
  | Ret _ w' =>
      (forall k, 0 <= k < DIRENT_SIZE ->
         file_byte w' dp (offset_ e + k) = Some (dirent_bytes (inum_ e) name k)) /\
      i_size (w_ino w' dp)
      = Z.max (i_size (w_ino w dp)) (offset_ e + DIRENT_SIZE) /\
      i_dir (w_ino w' dp) = Some d /\
      wf w' dp /\
      exists b,
        w_buf w' (fst dp, IBLOCK (snd dp))
        = dinode_put b (snd dp mod IPB)
            (let i := w_ino w' dp in
             mk_dinode (i_type i) (i_major i) (i_minor i) (i_nlink i)
               (i_size i) (i_gen i) (i_addrs i))
  | Throw _ => False
  | Panic =>
      exists k, 0 <= k < DIRENT_SIZE /\ file_byte w dp (offset_ e + k) = None
  | Timeout => False
  end.
Proof.
  intros Hp Hwf Hty Hd Hl HD Ho Hsum Hmax Hib Hnb.
  assert (Hn : 0 <= DIRENT_SIZE < 2 ^ 31) by (unfold DIRENT_SIZE; pow_lia).
  set (src := dirent_bytes (inum_ e) name).
  set (off := offset_ e) in *.
  set (bp := (fst dp, IBLOCK (snd dp))).
  assert (H : wp (dir_flush_entry dp name trans)
                (fun _ w' =>
                   (forall k, 0 <= k < DIRENT_SIZE ->
                      file_byte w' dp (off + k) = Some (src k)) /\
                   i_size (w_ino w' dp)
                   = Z.max (i_size (w_ino w dp)) (off + DIRENT_SIZE) /\
                   i_dir (w_ino w' dp) = Some d /\
                   wf w' dp /\
                   exists b,
                     w_buf w' bp
                     = dinode_put b (snd dp mod IPB)
                         (let i := w_ino w' dp in
                          mk_dinode (i_type i) (i_major i) (i_minor i) (i_nlink i)
                            (i_size i) (i_gen i) (i_addrs i)))
                (fun _ => False)
                (exists k, 0 <= k < DIRENT_SIZE /\ file_byte w dp (off + k) = None)
                w).
  { unfold dir_flush_entry. apply wp_bind, wp_rd. rewrite Hd. cbv zeta.
    unfold lookup_info. rewrite Hl. fold src off.
    apply wp_bind.
    eapply wp_mono;
      [apply (writei_whole dp src off DIRENT_SIZE trans false w); auto
      | | auto | intros []].
    cbv beta.
    intros r w1 [(-> & HI & Hfm) | (Hr & t & Ht & H0)].
    - rewrite Z.eqb_refl. cbn [negb].
      destruct HI as (Hwf1 & Hfr & Hmap & Hwr).
      assert (Hkb : forall s, slot_ok s -> val w1 dp s <> 0 ->
                              (fst dp, val w1 dp s) <> bp).
      { intros s Hs Hnz Heq. inversion Heq as [Hv].
        destruct (proj2 Hfm s Hs Hnz) as [E | E].
        - apply (Hnb s Hs). congruence.
        - rewrite Hv in E. congruence. }
      assert (Hfin : forall w2 w3,
                 i_addrs (w_ino w2 dp) = i_addrs (w_ino w1 dp) ->
                 i_dir (w_ino w2 dp) = i_dir (w_ino w1 dp) ->
                 i_size (w_ino w2 dp)
                 = Z.max (i_size (w_ino w1 dp)) (off + DIRENT_SIZE) ->
                 w_buf w2 = w_buf w1 -> w_free w2 = w_free w1 ->
                 w_sb w2 = w_sb w1 ->
                 iupdate_post dp w2 w3 ->
                 (forall k, 0 <= k < DIRENT_SIZE ->
                    file_byte w3 dp (off + k) = Some (src k)) /\
                 i_size (w_ino w3 dp)
                 = Z.max (i_size (w_ino w dp)) (off + DIRENT_SIZE) /\
                 i_dir (w_ino w3 dp) = Some d /\
                 wf w3 dp /\
                 exists b',
                   w_buf w3 bp
                   = dinode_put b' (snd dp mod IPB)
                       (let i := w_ino w3 dp in
                        mk_dinode (i_type i) (i_major i) (i_minor i) (i_nlink i)
                          (i_size i) (i_gen i) (i_addrs i))).
      { intros w2 w3 Ha2 Hd2 Hz2 Hb2 Hf2 Hs2 (Hi3 & Hf3 & Hs3 & Hb3).
        fold bp in Hb3. rewrite Hb2 in Hb3.
        assert (Ha3 : i_addrs (w_ino w3 dp) = i_addrs (w_ino w1 dp))
          by (rewrite Hi3; exact Ha2).
        assert (Hv3 : forall s, slot_ok s -> val w3 dp s = val w1 dp s)
          by (apply (val_buf_other dp w1 w3 bp _ Ha3 Hb3 Hkb)).
        split; [| split; [| split; [| split]]].
        - intros k Hk.
          rewrite (file_byte_buf_other dp w1 w3 bp _ (off + k) Ha3 Hb3 Hkb).
          + apply Hwr. exact Hk.
          + apply leaf_ok; auto.
            destruct (block_of_offset (off + k) Hp) as [Hq | Hq];
              [pow_lia | apply Hq | pow_lia].
        - rewrite Hi3, Hz2, (ino_frame_size w w1 dp Hfr). reflexivity.
        - rewrite Hi3, Hd2. destruct (Hfr dp) as [a Ea]. rewrite Ea. exact Hd.
        - apply (wf_shrink dp w1 w3); auto.
          + intros y. rewrite Hf3, Hf2. auto.
          + rewrite Hs3. exact Hs2.
        - exists (w_buf w1 bp). rewrite Hb3, upd_same, Hi3. reflexivity. }
      apply wp_bind, wp_rd. apply wp_bind, wp_when.
      + intros Hc. apply Z.ltb_lt in Hc. unfold set_size. apply wp_modify.
        eapply wp_mono; [apply iupdate_spec | | auto | intros []]. cbv beta.
        intros _ w3.
        apply Hfin; cbn [w_ino w_buf w_free w_sb set_ino]; rewrite ?upd_same;
          cbn [i_addrs i_dir i_size with_size]; auto.
        rewrite u32_small by pow_lia. lia.
      + intros Hc. apply Z.ltb_ge in Hc.
        eapply wp_mono; [apply iupdate_spec | | auto | intros []]. cbv beta.
        intros _ w3. apply Hfin; auto. lia.
    - destruct (Z.eqb_spec r DIRENT_SIZE); [contradiction |]. cbn [negb].
      exists t. split; [exact Ht |]. unfold file_byte. rewrite H0. reflexivity. }
  unfold wp in H. destruct (dir_flush_entry dp name trans w); auto.
Qed.

End Proofs.

(** * The theorems at the concrete file system *)

Section Concrete.
#[local] Existing Instance sv6.

Lemma sv6_params_ok : params_ok.
Proof. unfold params_ok. cbn. lia. Qed.

Lemma small_is_u32 x : (0 <=? x) && (x <? 2 ^ 32) = true -> is_u32 x.
Proof.
  intros H. apply andb_true_iff in H. destruct H as [H1 H2].
  apply Z.leb_le in H1. apply Z.ltb_lt in H2. split; assumption.
Qed.

Lemma blank_wf t size dir free :
  is_free free 0 = false -> wf (disk (blank_inode t size dir) free) ino5.
Proof.
  intros H. apply wf_empty; [reflexivity | exact H |].
  apply Z.leb_le. reflexivity.
Qed.



(** A transaction keeps both snapshots it is given of block 7, the first
    payload included, and its commit does not write block 7 when the
    buffer is clean. *)
Lemma add_block_keeps_both_snapshots :
  let t := fold_left add_block two_snapshots (mk_trans 0 [] [] [] []) in
  snapshots_of 7 t = two_snapshots /\
  exists w', commit_transaction t w_new = Ret tt w' /\
             count_writes (1, 7) (w_io w') = 0%nat.
Proof.
  split; [reflexivity |].
  eexists. split; [vm_compute; reflexivity | reflexivity].
Qed.

(** [namex] of the empty path, [nameiparent] unset, returns the inode it
    starts from. *)
Lemma namex_empty_path_returns_cwd :
  namex ino5 EmptyString 0 EmptyString w_dir
  = Ret (Some ino5, EmptyString) w_dir.
Proof. vm_compute. reflexivity. Qed.



(** [writei] into the new file leaves its size at 0; [update_size] sets
    it and appends a snapshot of the inode block, block 2, to the
    transaction. *)
Lemma writei_new_file_size :
  (forall k, i_size (w_ino w_new_written k) = i_size (w_ino w_new k)) /\
  exists w', update_size ino5 5 TRANS w_new_written = Ret tt w' /\
             i_size (w_ino w' ino5) = 5 /\
             map blocknum (blocks (w_trans w'))
             = map blocknum (blocks (w_trans w_new_written)) ++ [2].
Proof.
  assert (H0 : is_u32 0) by (apply small_is_u32; reflexivity).
  assert (H5 : is_u32 5) by (apply small_is_u32; reflexivity).
  split.
  - exact (proj1 (writei_leaves_size_update_size_sets_it ino5 hello 0 5
                    TRANS false 5 w_new sv6_params_ok H0 H5)).
  - destruct (proj2 (writei_leaves_size_update_size_sets_it ino5 hello 0 5
                       TRANS false 5 w_new_written sv6_params_ok H0 H5))
      as (w' & Hu & Hs & _ & Ht & _).
    exists w'. split; [exact Hu |]. split; [exact Hs |].
    rewrite Ht. unfold add_block. cbn [blocks]. rewrite map_app. reflexivity.
Defined.

Lemma w_dir_disk_wf : wf w_dir_disk (1, 1).
Proof.
  apply wf_direct_only; try reflexivity.
  - intros i i'. cbn. unfold one_block.
    destruct (Z.eqb_spec i 0), (Z.eqb_spec i' 0); lia.
  - intros i. cbn. unfold one_block.
    destruct (Z.eqb_spec i 0); [reflexivity | congruence].
  - apply Z.leb_le. reflexivity.
Qed.

(** The name [b] is not in the index of the directory, and it is not in
    the file of the directory whose index is not built: there the index
    is built from the block of the file, and nothing else changes. *)
Lemma dirunlink_absent_b :
  dirunlink (1, 1) "b" 7 false TRANS w_dir = Ret (-1) w_dir /\
  exists w',
    dirunlink (1, 1) "b" 7 false TRANS w_dir_disk = Ret (-1) w' /\
    i_dir (w_ino w' (1, 1)) = Some [("a"%string, mk_de_info 7 0)] /\
    i_size (w_ino w' (1, 1)) = 4096 /\
    w_buf w' = w_buf w_dir_disk /\ w_free w' = w_free w_dir_disk.
Proof.
  split.
  - apply (proj1 (dirunlink_absent_name (1, 1) "b" 7 false TRANS w_dir)
             [("a"%string, mk_de_info 7 0)]); reflexivity.
  - pose proof (proj2 (proj2 (dirunlink_absent_name (1, 1) "b" 7 false TRANS
                                w_dir_disk)) sv6_params_ok w_dir_disk_wf
                  eq_refl eq_refl) as H.
    destruct (dirunlink (1, 1) "b" 7 false TRANS w_dir_disk)
      as [r w' | | |] eqn:E; try (vm_compute in E; discriminate E).
    destruct H as (-> & Hi & _ & Hs & (_ & _ & _ & Hn)).
    + apply Z.leb_le. reflexivity.
    + apply Z.leb_le. reflexivity.
    + intros L. apply Z.ltb_lt in L. discriminate L.
    + vm_compute. reflexivity.
    + exists w'. split; [reflexivity |].
      split; [rewrite Hi; vm_compute; reflexivity |].
      split; [apply (proj1 (Hs (1, 1))) |].
      destruct Hn as (B & _ & F & _).
      * intros bn Hbn.
        assert (bn = 0) by (change BSIZE with 4096 in Hbn;
                            change (i_size (w_ino w_dir_disk (1, 1)))
                              with 4096 in Hbn; lia).
        subst bn. vm_compute. discriminate.
      * split; [exact B | exact F].
Defined.

(** In a directory whose index is not built yet [dirunlink] of a name that
    the directory does not hold returns -1, and the state has changed:
    the index is there and [dir_offset] is set; where the file has a
    hole, a block has been taken from the bitmap as well. *)
Lemma dirunlink_first_access_builds_the_index :
  i_dir (w_ino w_dir_disk (1, 1)) = None /\
  i_dir_offset (w_ino w_dir_disk (1, 1)) = 0 /\
  (exists w',
     dirunlink (1, 1) "b" 7 false TRANS w_dir_disk = Ret (-1) w' /\
     i_dir (w_ino w' (1, 1)) = Some [("a"%string, mk_de_info 7 0)] /\
     i_dir_offset (w_ino w' (1, 1)) = 4104) /\
  is_free (w_free (disk (blank_inode T_DIR 4096 None) some_free)) 20 = true /\
  (exists w',
     dirunlink (1, 1) "b" 7 false TRANS
       (disk (blank_inode T_DIR 4096 None) some_free) = Ret (-1) w' /\
     i_dir (w_ino w' (1, 1)) = Some [] /\
     i_addrs (w_ino w' (1, 1)) 0 = 20 /\
     is_free (w_free w') 20 = false).
Proof.
  split; [reflexivity |]. split; [reflexivity |]. split; [| split].
  - eexists. split; [vm_compute; reflexivity |]. split; reflexivity.
  - reflexivity.
  - eexists. split; [vm_compute; reflexivity |].
    split; [reflexivity |]. split; reflexivity.
Qed.

(** [dirlink] of the new name [b] returns -1; what it leaves is the index
    with the entry added. *)
Lemma dirlink_new_name_b :
  dirlink (1, 1) "b" 9 true TRANS w_dir
  = Ret (-1)
      (set_ino w_dir (1, 1)
         (with_dir (w_ino w_dir (1, 1))
            (Some ([("a"%string, mk_de_info 7 0)]
                   ++ [(strbuf "b", mk_de_info 9 (i_dir_offset (w_ino w_dir (1, 1))))])))).
Proof.
  apply (dirlink_returns_minus_one (1, 1) "b" 9 true TRANS w_dir
           [("a"%string, mk_de_info 7 0)]); reflexivity.
Defined.

(** [readi] of the first bytes of the file of holes returns and maps the
    first block of the file. *)
Lemma readi_fills_first_hole :
  exists r w',
    readi ino5 zero_block 0 5 w_holes = Ret r w' /\
    let b := val w' ino5 (leaf (0 / BSIZE)) in
    b <> 0 /\ is_free (w_free w_holes) b = true /\
    is_free (w_free w') b = false /\
    w_buf w' (fst ino5, b) = zero_block /\ w_trans w' = w_trans w_holes.
Proof.
  assert (H : match readi ino5 zero_block 0 5 w_holes with
              | Ret _ w' =>
                  let b := val w' ino5 (leaf (0 / BSIZE)) in
                  b <> 0 /\ is_free (w_free w_holes) b = true /\
                  is_free (w_free w') b = false /\
                  w_buf w' (fst ino5, b) = zero_block /\
                  w_trans w' = w_trans w_holes
              | Throw _ => False
              | Panic =>
                  fst ino5 <> 1 \/
                  nfree w_holes
                  < 3 * blocks_in 0 (Z.min 5 (i_size (w_ino w_holes ino5) - 0))
              | Timeout => False
              end).
  { apply (readi_fills_holes ino5 zero_block 0 5 w_holes 0).
    - exact sv6_params_ok.
    - apply blank_wf. reflexivity.
    - apply small_is_u32. reflexivity.
    - apply small_is_u32. reflexivity.
    - reflexivity.
    - discriminate.
    - apply Z.leb_le. reflexivity.
    - split; [apply Z.leb_le | apply Z.ltb_lt]; reflexivity.
    - reflexivity.
    - reflexivity. }
  destruct (readi ino5 zero_block 0 5 w_holes) as [r w' | w' | |] eqn:E.
  - exists r, w'. split; [reflexivity | exact H].
  - contradiction.
  - vm_compute in E. discriminate E.
  - contradiction.
Defined.

Lemma sv6_bitmap_ok w : sb_ninodes (w_sb w) = 16 -> bitmap_ok w.
Proof.
  intros Hn. split.
  - exists 12. split; [lia | reflexivity].
  - intros b [H0 H1]. unfold BBLOCK. rewrite Hn.
    change (inode_end 16) with 3. change BPB with 32768.
    assert (0 <= b / 32768) by (apply Z.div_pos; lia).
    assert (b / 32768 < 2 ^ 32 - 3).
    { apply Z.div_lt_upper_bound; [lia |].
      change (2 ^ 32) with 4294967296 in *. lia. }
    split; lia.
Qed.


Lemma w_two_blocks_wf : wf w_two_blocks ino5.
Proof.
  apply wf_direct_only; try reflexivity.
  - intros i i'. cbn. unfold two_blocks.
    destruct (Z.eqb_spec i 0), (Z.eqb_spec i 1),
      (Z.eqb_spec i' 0), (Z.eqb_spec i' 1); lia.
  - intros i. cbn. unfold two_blocks.
    destruct (Z.eqb_spec i 0); [reflexivity |].
    destruct (Z.eqb_spec i 1); [reflexivity | congruence].
  - apply Z.leb_le. reflexivity.
Qed.

Lemma w_two_blocks_leaf b :
  val w_two_blocks ino5 (leaf b) = if b <? 10 then two_blocks b else 0.
Proof.
  rewrite (val_direct_only w_two_blocks ino5) by reflexivity.
  unfold leaf. change NDIRECT with 10.
  destruct (b <? 10); [reflexivity |].
  destruct (b - 10 <? NINDIRECT); reflexivity.
Qed.



End Concrete.

(** * Further theorems at the concrete file system *)

Section MoreConcrete.
#[local] Existing Instance sv6.

(** The first block of the file of two blocks is block 20. *)
Lemma bmap_finds_block_20 :
  bmap ino5 0 TRANS true w_two_blocks = Ret 20 w_two_blocks.
Proof.
  apply (bmap_mapped_is_lookup ino5 0 TRANS true w_two_blocks sv6_params_ok).
  - split; [lia | apply Z.ltb_lt; reflexivity].
  - apply small_is_u32. reflexivity.
  - discriminate.
Defined.

(** The first hole of the file of holes is filled with block 20, the
    lowest free block. *)
Lemma bmap_fills_hole_with_block_20 :
  exists w',
    bmap ino5 0 NULL true w_holes = Ret 20 w' /\
    is_free (w_free w_holes) 20 = true /\ is_free (w_free w') 20 = false /\
    w_buf w' (1, 20) = zero_block.
Proof.
  assert (Hwf : wf w_holes ino5) by (apply blank_wf; reflexivity).
  assert (Hbn : 0 <= 0 < MAXFILE) by (split; [lia | apply Z.ltb_lt; reflexivity]).
  assert (Hu : is_u32 0) by (apply small_is_u32; reflexivity).
  pose proof (bmap_allocates_fresh_block ino5 0 NULL true w_holes
                sv6_params_ok Hwf Hbn Hu eq_refl) as H.
  destruct (bmap ino5 0 NULL true w_holes) as [b w' | | |] eqn:E;
    try (vm_compute in E; discriminate E).
  assert (Eb : b = 20) by (vm_compute in E; inversion E; reflexivity).
  subst b. destruct H as (_ & _ & H1 & H2 & _ & _ & H3).
  exists w'. split; [reflexivity |]. split; [exact H1 |].
  split; [exact H2 | apply H3; reflexivity].
Defined.

(** Block 1049610 is the first that a file cannot have. *)
Lemma bmap_panics_at_maxfile :
  bmap ino5 1049610 NULL true w_holes = Panic
  /\ bmap ino5 1049609 NULL true w_holes <> Panic.
Proof.
  assert (Hwf : wf w_holes ino5) by (apply blank_wf; reflexivity).
  split.
  - apply (proj2 (bmap_panics_iff_out_of_range ino5 1049610 NULL true w_holes
                    sv6_params_ok Hwf (small_is_u32 1049610 eq_refl))).
    apply Z.leb_le. reflexivity.
  - intros E.
    apply (proj1 (bmap_panics_iff_out_of_range ino5 1049609 NULL true w_holes
                    sv6_params_ok Hwf (small_is_u32 1049609 eq_refl))) in E.
    apply Z.leb_le in E. discriminate E.
Defined.

(** On the disk whose blocks 20 to 59 are free [balloc] returns block 20,
    and on the full disk it throws. *)
Lemma balloc_returns_block_20 :
  exists w',
    balloc 1 TRANS true w_new = Ret 20 w' /\
    is_free (w_free w_new) 20 = true /\ is_free (w_free w') 20 = false /\
    allocated_blocks (w_trans w') = [20].
Proof.
  assert (Hsb : sb_size (w_sb w_new) <= 2 ^ 32) by (apply Z.leb_le; reflexivity).
  pose proof (balloc_hands_out_a_free_block 1 TRANS true w_new Hsb) as H.
  destruct (balloc 1 TRANS true w_new) as [b w' | | |] eqn:E;
    try (vm_compute in E; discriminate E).
  assert (Eb : b = 20) by (vm_compute in E; inversion E; reflexivity).
  subst b. destruct H as (_ & _ & H1 & H2 & _ & H3 & _).
  exists w'. split; [reflexivity |]. split; [exact H1 |].
  split; [rewrite H2; reflexivity |]. rewrite H3. reflexivity.
Defined.

(** Block 20 is free again after [balloc] and [bfree]. *)
Lemma bfree_gives_block_20_back :
  exists w2,
    bfree 1 20 NULL false (after (balloc 1 NULL true w_new) w_new) = Ret tt w2 /\
    w_free w2 = some_free.
Proof.
  apply (bfree_undoes_balloc NULL true NULL w_new 20
           (after (balloc 1 NULL true w_new) w_new)).
  - apply Z.leb_le. reflexivity.
  - vm_compute. reflexivity.
Defined.

(** Three blocks of two bitmap blocks are marked and unmarked. *)
Lemma balloc_free_on_disk_three_and_back :
  exists w1 w2,
    balloc_free_on_disk [40; 33; 40000] TRANS true w_new = Ret [33; 40; 40000] w1 /\
    balloc_free_on_disk [33; 40; 40000] TRANS false w1 = Ret [33; 40; 40000] w2 /\
    forall b, bitmap_bit w2 b = bitmap_bit w_new b.
Proof.
  assert (Hu : Forall is_u32 [40; 33; 40000])
    by (repeat constructor; apply small_is_u32; reflexivity).
  assert (Hm : markable true w_new [40; 33; 40000]).
  { split.
    - repeat constructor; cbn; intuition discriminate.
    - intros b [<- | [<- | [<- | []]]]; reflexivity. }
  destruct (balloc_free_on_disk_round_trip [40; 33; 40000] w_new
              (sv6_bitmap_ok w_new eq_refl) Hu Hm)
    as (w1 & w2 & H1 & H2 & _ & H3 & _).
  exists w1, w2. split; [exact H1 |]. split; [exact H2 | exact H3].
Defined.

(** One link more and one link less. *)
Lemma inode_link_unlink_on_new_file :
  exists w1 w2,
    inode_link ino5 w_new = Ret tt w1 /\ inode_unlink ino5 w1 = Ret tt w2 /\
    i_nlink (w_ino w1 ino5) = 2 /\ forall k, w_ino w2 k = w_ino w_new k.
Proof.
  destruct (inode_link_unlink_round_trip ino5 w_new)
    as (w1 & w2 & H1 & H2 & H3 & H4 & _).
  - split; [apply Z.leb_le | apply Z.ltb_lt]; reflexivity.
  - split; [apply Z.leb_le | apply Z.ltb_lt]; reflexivity.
  - exists w1, w2. split; [exact H1 |]. split; [exact H2 |].
    split; [exact H3 | exact H4].
Defined.

(** The entry of inode 7 under the name [a] is read as it is written. *)
Lemma dirent_of_a_is_read_back :
  le32 (dirent_bytes 7 "a") 0 = 7 /\
  dir_scan 1 (dirent_bytes 7 "a") 0 [] 0 = ([("a"%string, mk_de_info 7 0)], 18).
Proof.
  destruct (dirent_written_is_dirent_read (dirent_bytes 7 "a") 0 7 "a" [] 0)
    as (H1 & _ & H3).
  - apply Z.leb_le. reflexivity.
  - split; [discriminate | exact I].
  - intros k _. reflexivity.
  - split; [exact H1 | exact H3].
Defined.

(** The index of the new directory is built empty, once; the index of the
    directory of one block is built from the entry in the block. *)
Lemma dir_init_of_new_directory :
  (exists w',
     dir_init ino5 w_dir_new = Ret tt w' /\
     i_dir (w_ino w' ino5) = Some [] /\ i_dir_offset (w_ino w' ino5) = 0 /\
     dir_init ino5 w_dir = Ret tt w_dir) /\
  exists w',
    dir_init (1, 1) w_dir_disk = Ret tt w' /\
    i_dir (w_ino w' (1, 1)) = Some [("a"%string, mk_de_info 7 0)] /\
    i_dir_offset (w_ino w' (1, 1)) = 4104 /\
    dir_init (1, 1) w' = Ret tt w'.
Proof.
  assert (HB : 0 < BSIZE) by (apply Z.ltb_lt; reflexivity).
  split.
  - destruct (dir_init_builds_the_index_once ino5 w_dir_new HB)
      as (_ & _ & H3 & _); [apply Z.leb_le; reflexivity |].
    destruct (dir_init_builds_the_index_once ino5 w_dir HB)
      as (H1 & _); [apply Z.leb_le; reflexivity |].
    destruct H3 as (w' & Hrun & Hd & Ho);
      [reflexivity | reflexivity | apply Z.leb_le; reflexivity |].
    exists w'. split; [exact Hrun |]. split; [exact Hd |]. split; [exact Ho |].
    apply H1. discriminate.
  - destruct (dir_init_builds_the_index_once (1, 1) w_dir_disk HB)
      as (_ & _ & _ & H4 & H5); [apply Z.leb_le; reflexivity |].
    specialize (H5 sv6_params_ok w_dir_disk_wf eq_refl eq_refl).
    destruct (dir_init (1, 1) w_dir_disk) as [[] w' | | |] eqn:E;
      try (vm_compute in E; discriminate E).
    destruct H5 as (Hi & Ho & _).
    + apply Z.leb_le. reflexivity.
    + intros L. apply Z.ltb_lt in L. discriminate L.
    + exists w'. split; [reflexivity |].
      split; [rewrite Hi; vm_compute; reflexivity |].
      split; [rewrite Ho; vm_compute; reflexivity |].
      apply H4.
Defined.

(** The name [a] is found and the name [b] is not. *)
Lemma dirlookup_of_a_and_b :
  (exists w', dirlookup (1, 1) "a" w_dir = Ret (Some (1, 7)) w') /\
  dirlookup (1, 1) "b" w_dir = Ret None w_dir.
Proof.
  destruct (dirlookup_answers_from_the_index (1, 1) "a" w_dir
              [("a"%string, mk_de_info 7 0)] eq_refl) as (_ & _ & H3 & _).
  destruct (dirlookup_answers_from_the_index (1, 1) "b" w_dir
              [("a"%string, mk_de_info 7 0)] eq_refl) as (H1 & _).
  destruct (H3 (mk_de_info 7 0) eq_refl) as (w' & Hrun & _); [discriminate |].
  split; [exists w'; exact Hrun | apply H1; reflexivity].
Defined.

(** After [dirlink] of [b] to inode 9 the name is found. *)
Lemma dirlookup_finds_b_after_dirlink :
  exists w1 w2,
    dirlink (1, 1) "b" 9 true TRANS w_dir = Ret (-1) w1 /\
    dirlookup (1, 1) "b" w1 = Ret (Some (1, 9)) w2.
Proof.
  destruct (dirlookup_after_dirlink (1, 1) "b" 9 true TRANS w_dir
              [("a"%string, mk_de_info 7 0)] eq_refl)
    as (w1 & d1 & Hrun & _ & _ & _ & _ & Hfind).
  destruct Hfind as (w2 & H2); [reflexivity | discriminate |].
  exists w1, w2. split; [exact Hrun | exact H2].
Defined.

(** Slashes that are repeated or trail make no difference. *)
Lemma namei_ignores_extra_slashes :
  namei (1, 1) "//a/" w_dir = walk ["a"%string] (1, 1) w_dir /\
  namei (1, 1) "/a" w_dir = walk ["a"%string] (1, 1) w_dir.
Proof.
  split.
  - change (namei (1, 1) "//a/" w_dir
            = walk (components "//a/") (start_inode (1, 1) "//a/") w_dir).
    apply (namei_walks_the_components (1, 1) "//a/" w_dir).
    repeat constructor. apply Z.leb_le. reflexivity.
  - change (namei (1, 1) "/a" w_dir
            = walk (components "/a") (start_inode (1, 1) "/a") w_dir).
    apply (namei_walks_the_components (1, 1) "/a" w_dir).
    repeat constructor. apply Z.leb_le. reflexivity.
Defined.

(** The parent of [/a/b] is what the walk over [a] finds, with the name
    [b]. *)
Lemma nameiparent_of_a_b :
  parent_result "b" (walk ["a"%string] (1, 1) w_dir)
    (nameiparent (1, 1) "/a/b" "" w_dir).
Proof.
  assert (Hall : Forall (fun c => Z.of_nat (String.length c) <= DIRSIZ)
                   (components "/a/b"))
    by (repeat constructor; apply Z.leb_le; reflexivity).
  exact (nameiparent_stops_one_level_early (1, 1) "/a/b" "" w_dir
           ["a"%string] "b" eq_refl Hall).
Defined.

(** Ten bytes across the two blocks of the file. *)
Lemma readi_across_two_blocks :
  exists dst',
    readi ino5 hello 4090 10 w_two_blocks = Ret (10, dst') w_two_blocks /\
    (forall k, 0 <= k < 10 -> dst' k = 0) /\
    (forall k, ~ 0 <= k < 10 -> dst' k = hello k).
Proof.
  pose proof (readi_delivers_the_file_bytes ino5 hello 4090 10 w_two_blocks
                sv6_params_ok w_two_blocks_wf (small_is_u32 4090 eq_refl)
                (small_is_u32 10 eq_refl)) as H.
  destruct (readi ino5 hello 4090 10 w_two_blocks) as [[r dst'] w' | | |] eqn:E;
    try (vm_compute in E; discriminate E).
  destruct H as (Hr & Hb & Hout & Hsame).
  - apply Z.ltb_lt. reflexivity.
  - discriminate.
  - split; apply Z.leb_le; reflexivity.
  - assert (Hmapped : forall k, 0 <= k < 10 ->
              file_byte w_two_blocks ino5 (4090 + k) = Some 0).
    { intros k Hk. unfold file_byte. rewrite w_two_blocks_leaf.
      change BSIZE with 4096.
      assert (Hq : (4090 + k) / 4096 = 0 \/ (4090 + k) / 4096 = 1).
      { destruct (Z_lt_ge_dec (4090 + k) 4096).
        - left. apply Z.div_small. lia.
        - right. symmetry. apply (Z.div_unique _ _ _ (4090 + k - 4096)); lia. }
      destruct Hq as [-> | ->]; reflexivity. }
    exists dst'. rewrite Hsame, Hr.
    + split; [reflexivity |]. split; [| exact Hout].
      intros k Hk. rewrite Hb by exact Hk. unfold byte_or_zero.
      rewrite Hmapped by exact Hk. reflexivity.
    + intros k Hk. rewrite Hmapped by exact Hk. discriminate.
Defined.

(** Five bytes written at offset 4100 leave byte 4099 as it is. *)
Lemma writei_keeps_byte_4099 :
  exists w',
    writei ino5 hello 4100 5 TRANS false w_two_blocks = Ret 5 w' /\
    file_byte w' ino5 4099 = Some 0.
Proof.
  pose proof (writei_keeps_the_bytes_outside_the_range ino5 hello 4100 5 TRANS
                false w_two_blocks sv6_params_ok w_two_blocks_wf
                (small_is_u32 4100 eq_refl)) as H.
  destruct (writei ino5 hello 4100 5 TRANS false w_two_blocks)
    as [r w' | | |] eqn:E; try (vm_compute in E; discriminate E).
  assert (Er : r = 5) by (vm_compute in E; inversion E; reflexivity).
  subst r. destruct H as [_ H].
  - split; [lia | apply Z.ltb_lt; reflexivity].
  - apply Z.leb_le. reflexivity.
  - discriminate.
  - exists w'. split; [reflexivity |]. apply H.
    + split; [lia | apply Z.ltb_lt; reflexivity].
    + lia.
    + reflexivity.
Defined.

(** The name [a] is removed from the directory. *)
Lemma dirunlink_of_a :
  exists w' d',
    dirunlink (1, 1) "a" 7 false TRANS w_dir = Ret 0 w' /\
    i_dir (w_ino w' (1, 1)) = Some d' /\ dir_lookup d' "a" = None.
Proof.
  pose proof (dirunlink_removes_the_name (1, 1) "a" 7 false TRANS w_dir
                [("a"%string, mk_de_info 7 0)] (mk_de_info 7 0) sv6_params_ok
                (small_is_u32 0 eq_refl) (small_is_u32 18 eq_refl) eq_refl
                eq_refl (or_introl eq_refl)) as H.
  destruct (dirunlink (1, 1) "a" 7 false TRANS w_dir) as [r w' | | |] eqn:E;
    try (vm_compute in E; discriminate E).
  destruct H as (-> & (d' & Hd & Hl) & _).
  exists w', d'. split; [reflexivity |]. split; [exact Hd |].
  rewrite Hl. reflexivity.
Defined.

(** A write lock on the new file, and its release. *)
Lemma ilock_iunlock_on_new_file :
  exists w1 w2,
    ilock ino5 WRITELOCK w_new = Ret tt w1 /\
    i_busy (w_ino w1 ino5) = true /\ i_readbusy (w_ino w1 ino5) = 1 /\
    iunlock ino5 w1 = Ret tt w2 /\ forall k, w_ino w2 k = w_ino w_new k.
Proof.
  destruct (ilock_iunlock_round_trip ino5 WRITELOCK w_new)
    as (w1 & w2 & H1 & H2 & H3 & H4 & H5 & _).
  - reflexivity.
  - reflexivity.
  - split; [apply Z.leb_le | apply Z.ltb_lt]; reflexivity.
  - reflexivity.
  - exists w1, w2. repeat split; auto.
Defined.


(** The entry of the name [a] is written at the start of the directory
    file, into a block that is allocated for it. *)
Lemma dir_flush_entry_of_a :
  exists w',
    dir_flush_entry (1, 1) "a" TRANS w_dir = Ret tt w' /\
    file_byte w' (1, 1) 0 = Some 7 /\ file_byte w' (1, 1) 4 = Some 97 /\
    i_size (w_ino w' (1, 1)) = 18.
Proof.
  assert (Hwf : wf w_dir (1, 1)).
  { apply wf_empty; [reflexivity | reflexivity | apply Z.leb_le; reflexivity]. }
  assert (Hnb : forall s, slot_ok s -> val w_dir (1, 1) s <> IBLOCK (snd (1, 1))).
  { intros s _. destruct s; vm_compute; discriminate. }
  pose proof (dir_flush_entry_writes_the_entry (1, 1) "a" TRANS w_dir
                [("a"%string, mk_de_info 7 0)] (mk_de_info 7 0) sv6_params_ok
                Hwf) as H.
  destruct (dir_flush_entry (1, 1) "a" TRANS w_dir) as [[] w' | | |] eqn:E;
    try (vm_compute in E; discriminate E).
  destruct H as (Hb & Hs & _).
  - discriminate.
  - reflexivity.
  - reflexivity.
  - split; [apply Z.leb_le | apply Z.ltb_lt]; reflexivity.
  - apply small_is_u32. reflexivity.
  - apply Z.ltb_lt. reflexivity.
  - apply Z.leb_le. reflexivity.
  - reflexivity.
  - exact Hnb.
  - exists w'. split; [reflexivity |].
    split; [apply (Hb 0); split; [apply Z.leb_le | apply Z.ltb_lt]; reflexivity |].
    split; [apply (Hb 4); split; [apply Z.leb_le | apply Z.ltb_lt]; reflexivity |].
    exact Hs.
Defined.

End MoreConcrete.
